(** * HeartOfMagic / SpellTreeBuilder: a shallow embedding of the tree-synthesis core

    The development follows the Python sources under
    [SKSE/Plugins/SpellLearning/SpellTreeBuilder]:

    - [growth/branching_energy.py]  -> [Module BranchingEnergy]
    - [core/registry.py]            -> [Module Registry]
    - [core/math_utils.py]          -> [Module MathUtils]
    - [core/spacing.py]             -> [Module Spacing]
    - [growth/themed_groups.py]     -> [Module ThemedGroups]
    - [tree_builder.py]             -> [Module TreeBuilder]
    - [shapes/shape_cascade.py]     -> [Module TreeBuilder] ([cascade_select_parent])
    - [shapes/shape_radial.py], [shapes/shape_grid.py] and the other shape
      classes, as far as their constructors go -> [Module Registry]

    [core/node.py] is not among the sources; [Module Node] holds the node
    record and the link methods that [tree_builder.py] calls.

    Python [float] is IEEE-754 binary64 and is modelled by Rocq's primitive
    floats; Python [int] is [Z]; [str] is [string]; a [dict] whose iteration
    order is observable is an insertion-ordered association list, a [dict]
    used only through lookups is a [gmap]; a [set] is a [gset].  Functions
    that can raise return [result]. *)

From Stdlib Require Import ZArith Floats Ascii.
From stdpp Require Import base option list gmap strings sorting.

Set Warnings "-inexact-float".
Set Default Proof Using "Type".

Open Scope Z_scope.

(** ** Python values and exceptions *)

Inductive py_exception : Type :=
| ZeroDivisionError
| OverflowError
| ValueError
| IndexError
| AttributeError
| KeyError (msg : string).

Inductive result (A : Type) : Type :=
| Ok (a : A)
| Raise (e : py_exception).

Arguments Ok {A} a.
Arguments Raise {A} e.

Definition result_bind {A B : Type} (f : A → result B) (m : result A) : result B :=
  match m with
  | Ok a => f a
  | Raise e => Raise e
  end.

#[global] Instance result_ret : MRet result := λ A a, Ok a.
#[global] Instance result_mbind : MBind result := λ A B f m, result_bind f m.

Definition is_ok {A : Type} (m : result A) : Prop := ∃ a, m = Ok a.

(** A [for] loop whose body may raise. *)
Fixpoint foldM {A B : Type} (f : B → A → result B) (l : list A) (b : B) : result B :=
  match l with
  | [] => Ok b
  | a :: l' => b' ← f b a; foldM f l' b'
  end.

Lemma foldM_preserves {A B : Type} (f : B → A → result B) (P : B → Prop) l b b' :
  P b →
  (∀ b0 a b1, a ∈ l → P b0 → f b0 a = Ok b1 → P b1) →
  foldM f l b = Ok b' → P b'.
Proof.
  revert b. induction l as [| a l IH]; intros b Hb Hstep; simpl.
  - by intros [= <-].
  - destruct (f b a) as [b1 |] eqn:Hf; simpl; [| done].
    apply IH.
    + eapply Hstep; [left | done | done].
    + intros b0 a0 b2 Ha0. apply Hstep. by right.
Qed.

Lemma foldM_invariant {A B : Type} (f : B → A → result B) (P : B → Prop) l b :
  P b →
  (∀ b0 a, a ∈ l → P b0 → ∃ b1, f b0 a = Ok b1 ∧ P b1) →
  ∃ b', foldM f l b = Ok b' ∧ P b'.
Proof.
  revert b. induction l as [| a l IH]; intros b Hb Hstep; simpl.
  - by exists b.
  - destruct (Hstep b a) as (b1 & -> & Hb1); [left | done |]. simpl.
    apply IH; [done |]. intros b0 a0 Ha0. apply Hstep. by right.
Qed.

(** ** Iterating a [set]

    The order in which CPython walks a [set] of strings depends on the
    string hashes of the running process.  It is a parameter of the model:
    any enumeration of the members without repetition. *)
Class SetOrder : Type := {
  set_iter : gset string → list string;
  set_iter_elem_of : ∀ s x, x ∈ set_iter s ↔ x ∈ s;
  set_iter_NoDup : ∀ s, NoDup (set_iter s)
}.

#[global] Instance elements_order : SetOrder := {
  set_iter := elements;
  set_iter_elem_of := λ s x, elem_of_elements s x;
  set_iter_NoDup := λ s, NoDup_elements s
}.

(** ** Floats as Python uses them *)

Module PyFloat.

(** [min(a, b)] of Python: the first argument unless the second is strictly
    smaller (so a NaN second argument is never chosen). *)
Definition py_min (a b : float) : float := if (b <? a)%float then b else a.

(** [max(a, b)] of Python: the first argument unless the second is strictly
    larger.  With the literal [0] as first argument Python returns the int
    [0] when the float is not positive; every use below feeds the result to
    float arithmetic, where the int [0] and [0.0] behave alike. *)
Definition py_max (a b : float) : float := if (a <? b)%float then b else a.

(** [x / y] on floats: division by a zero of either sign raises. *)
Definition py_truediv (x y : float) : result float :=
  if is_zero y then Raise ZeroDivisionError else Ok (x / y)%float.

(** [int(x)] on a float: truncation toward zero; NaN and the infinities
    raise. *)
Definition py_int (x : float) : result Z :=
  match Prim2SF x with
  | S754_zero _ => Ok 0
  | S754_finite s m e =>
      let v := if (0 <=? e)%Z then Z.pos m * 2 ^ e else Z.pos m / 2 ^ (- e) in
      Ok (if s then - v else v)
  | S754_infinity _ => Raise OverflowError
  | S754_nan => Raise ValueError
  end.

(** [float(n)] on an int, as in the mixed product [n * x]: rounding to
    nearest even, and [OverflowError] from [2^1024 - 2^970] on (the first
    magnitude that rounds past the largest double). *)
Definition py_float_of_int (n : Z) : result float :=
  if (Z.abs n <? 2 ^ 1024 - 2 ^ 970)%Z
  then Ok (SF2Prim (binary_normalize 53 1024 n 0 false))
  else Raise OverflowError.

(** [a / b] on two ints.  CPython rounds the exact quotient once and raises
    [OverflowError] only for a quotient too large for a float; the model
    divides the two converted operands, which is the same value whenever
    both are below [2^53] in magnitude (always the case for the path
    counters that reach it).  Outside that range the two differ (the
    conversion of an operand can overflow where the quotient does not), so
    facts about callers are stated for operands below [2^53]. *)
Definition py_int_truediv (a b : Z) : result float :=
  if (b =? 0)%Z then Raise ZeroDivisionError
  else
    fa ← py_float_of_int a;
    fb ← py_float_of_int b;
    Ok (fa / fb)%float.

(** [int(a // b)] on floats: the floor of the quotient.  The model takes
    the floor of the exact quotient, which is what CPython's [float_divmod]
    yields while the quotient stays below [2^53] in magnitude. *)
Definition py_floordiv_int (a b : float) : result Z :=
  match Prim2SF a, Prim2SF b with
  | _, S754_zero _ => Raise ZeroDivisionError
  | S754_nan, _ | _, S754_nan | S754_infinity _, _ => Raise ValueError
  | S754_zero _, _ => Ok 0
  | S754_finite sa _ _, S754_infinity sb => Ok (if Bool.eqb sa sb then 0 else -1)
  | S754_finite sa ma ea, S754_finite sb mb eb =>
      let e := Z.min ea eb in
      let na := cond_Zopp sa (Z.pos ma) * 2 ^ (ea - e) in
      let nb := cond_Zopp sb (Z.pos mb) * 2 ^ (eb - e) in
      Ok (na `div` nb)
  end.

(** [x - x] is [0.0] for a finite [x] and NaN otherwise. *)
Lemma SF64sub_diag (a : spec_float) :
  SF64sub a a = S754_zero false ∨ SF64sub a a = S754_nan.
Proof.
  destruct a as [s | s | | s m e]; simpl.
  - left. by destruct s.
  - right. by destruct s.
  - by right.
  - left. unfold SF64sub, SFsub. rewrite Z.sub_diag. reflexivity.
Qed.

(** The distance of a point to itself is never positive. *)
Lemma self_distance_not_positive (x y : float) :
  (0 <? sqrt ((x - x) * (x - x) + (y - y) * (y - y)))%float = false.
Proof.
  rewrite ltb_spec, sqrt_spec, add_spec, !mul_spec, !sub_spec.
  destruct (SF64sub_diag (Prim2SF x)) as [-> | ->];
    destruct (SF64sub_diag (Prim2SF y)) as [-> | ->]; reflexivity.
Qed.

End PyFloat.

(** ** The [random] module

    Every probabilistic decision of the sources calls the module-level
    generator.  Its state is threaded explicitly.  [randbelow] is CPython's
    [_randbelow]; [randint] and [choice] are defined from it as in
    [Lib/random.py]. *)

Class PyRandom (G : Type) : Type := {
  random : G → float * G;
  randbelow : Z → G → Z * G;
  randbelow_range : ∀ n g, 0 < n → 0 ≤ (randbelow n g).1 < n
}.

Section random_derived.
Context {G : Type} `{PyRandom G}.

Definition randint (a b : Z) (g : G) : result (Z * G) :=
  if (b <? a)%Z then Raise ValueError
  else let '(r, g') := randbelow (b - a + 1) g in Ok (a + r, g').

Definition choice {A : Type} (seq : list A) (g : G) : result (A * G) :=
  match seq with
  | [] => Raise IndexError
  | x :: _ =>
      let '(r, g') := randbelow (Z.of_nat (length seq)) g in
      Ok (nth (Z.to_nat r) seq x, g')
  end.

Lemma randint_range a b g :
  a ≤ b → ∃ n g', randint a b g = Ok (n, g') ∧ a ≤ n ≤ b.
Proof.
  intros Hab. unfold randint.
  destruct (Z.ltb_spec b a) as [Hlt | _]; [lia |].
  pose proof (randbelow_range (b - a + 1) g ltac:(lia)) as Hr.
  destruct (randbelow (b - a + 1) g) as [r g'] eqn:E. simpl in Hr.
  exists (a + r), g'. split; [done | lia].
Qed.

Lemma choice_elem {A : Type} (seq : list A) g :
  seq ≠ [] → ∃ x g', choice seq g = Ok (x, g') ∧ x ∈ seq.
Proof.
  intros Hne. destruct seq as [| x0 seq']; [done |].
  unfold choice.
  pose proof (randbelow_range (Z.of_nat (length (x0 :: seq'))) g) as Hr.
  destruct (randbelow (Z.of_nat (length (x0 :: seq'))) g) as [r g'] eqn:E.
  simpl fst in Hr.
  exists (nth (Z.to_nat r) (x0 :: seq') x0), g'. split; [done |].
  apply list_elem_of_In, nth_In.
  assert (0 < Z.of_nat (length (x0 :: seq'))) by (simpl length; lia).
  lia.
Qed.

End random_derived.

(** A replay generator: the draws are read from two tapes.  It stands for
    one possible run of the platform generator. *)
Record TapeRandom : Type := {
  tape_floats : list float;
  tape_ints : list Z
}.

Definition tape_random (g : TapeRandom) : float * TapeRandom :=
  match tape_floats g with
  | [] => (0%float, g)
  | x :: xs => (x, {| tape_floats := xs; tape_ints := tape_ints g |})
  end.

Definition tape_randbelow (n : Z) (g : TapeRandom) : Z * TapeRandom :=
  match tape_ints g with
  | [] => (0, g)
  | z :: zs => (z `mod` n, {| tape_floats := tape_floats g; tape_ints := zs |})
  end.

Lemma tape_randbelow_range n g : 0 < n → 0 ≤ (tape_randbelow n g).1 < n.
Proof.
  intros Hn. unfold tape_randbelow. destruct (tape_ints g) as [| z zs]; simpl.
  - lia.
  - apply Z.mod_pos_bound. lia.
Qed.

#[global] Instance tape_py_random : PyRandom TapeRandom := {
  random := tape_random;
  randbelow := tape_randbelow;
  randbelow_range := tape_randbelow_range
}.

(** ** Insertion-ordered dictionaries

    A Python [dict] iterates in insertion order; assigning to an existing
    key keeps its position.  [d[k]] on a missing key raises [KeyError], which
    the callers below model through [get]. *)

Module PyDict.
Section dict.
Context {K V : Type} `{EqDecision K}.

Fixpoint get (d : list (K * V)) (k : K) : option V :=
  match d with
  | [] => None
  | (k', v) :: d' => if decide (k = k') then Some v else get d' k
  end.

(** [d[k] = v] *)
Fixpoint set (d : list (K * V)) (k : K) (v : V) : list (K * V) :=
  match d with
  | [] => [(k, v)]
  | (k', v') :: d' =>
      if decide (k = k') then (k, v) :: d' else (k', v') :: set d' k v
  end.

Definition keys (d : list (K * V)) : list K := d.*1.

(** [k in d] *)
Definition has (d : list (K * V)) (k : K) : bool := bool_decide (is_Some (get d k)).

(** In-place mutation of the object stored under [k] (a missing key leaves
    the dictionary as it is). *)
Definition update (d : list (K * V)) (k : K) (f : V → V) : list (K * V) :=
  match get d k with
  | Some v => set d k (f v)
  | None => d
  end.

Lemma get_set_eq d k v : get (set d k v) k = Some v.
Proof.
  induction d as [| [k' v'] d IH]; simpl.
  - by rewrite decide_True.
  - destruct (decide (k = k')) as [-> | Hne]; simpl.
    + by rewrite decide_True.
    + by rewrite decide_False.
Qed.

Lemma get_set_ne d k k' v : k ≠ k' → get (set d k v) k' = get d k'.
Proof.
  intros Hne. induction d as [| [k0 v0] d IH]; simpl.
  - by rewrite decide_False.
  - destruct (decide (k = k0)) as [-> | Hne0]; simpl.
    + by rewrite !decide_False.
    + destruct (decide (k' = k0)); [done | apply IH].
Qed.

Lemma get_set d k k' v :
  get (set d k v) k' = if decide (k = k') then Some v else get d k'.
Proof.
  destruct (decide (k = k')) as [-> | Hne].
  - apply get_set_eq.
  - by apply get_set_ne.
Qed.

Lemma get_Some_elem_of d k v : get d k = Some v → (k, v) ∈ d.
Proof.
  induction d as [| [k' v'] d IH]; simpl; [done |].
  destruct (decide (k = k')) as [-> | Hne].
  - intros [= ->]. left.
  - intros Hg. right. by apply IH.
Qed.

Lemma elem_of_keys_get d k : k ∈ keys d ↔ is_Some (get d k).
Proof.
  unfold keys. induction d as [| [k' v'] d IH]; simpl.
  - split; [by intros ?%elem_of_nil | by intros [? ?]].
  - rewrite elem_of_cons, IH. destruct (decide (k = k')) as [-> | Hne].
    + split; [by eexists | by left].
    + split; [by intros [? | ?] | by right].
Qed.

Lemma get_None_not_elem_of_keys d k : get d k = None ↔ k ∉ keys d.
Proof.
  rewrite elem_of_keys_get, eq_None_not_Some. done.
Qed.

Lemma elem_of_get_NoDup d k v : NoDup (keys d) → (k, v) ∈ d → get d k = Some v.
Proof.
  unfold keys. induction d as [| [k' v'] d IH]; simpl.
  - by intros _ ?%elem_of_nil.
  - intros [Hnotin Hnd]%NoDup_cons [Heq | Hin]%elem_of_cons.
    + injection Heq as -> ->. by rewrite decide_True.
    + destruct (decide (k = k')) as [-> | Hne]; [| by apply IH].
      exfalso. apply Hnotin. apply list_elem_of_fmap. by exists (k', v).
Qed.

Lemma keys_set_in d k v : k ∈ keys d → keys (set d k v) = keys d.
Proof.
  unfold keys. induction d as [| [k' v'] d IH]; simpl.
  - by intros ?%elem_of_nil.
  - intros Hin. destruct (decide (k = k')) as [-> | Hne]; simpl; [done |].
    f_equal. apply IH. apply elem_of_cons in Hin as [? | ?]; done.
Qed.

Lemma keys_set_notin d k v : k ∉ keys d → keys (set d k v) = keys d ++ [k].
Proof.
  unfold keys. induction d as [| [k' v'] d IH]; simpl; [done |].
  intros Hnotin. apply not_elem_of_cons in Hnotin as [Hne Hnotin].
  rewrite decide_False by done. simpl. f_equal. by apply IH.
Qed.

Lemma keys_update d k f : keys (update d k f) = keys d.
Proof.
  unfold update. destruct (get d k) as [v |] eqn:Hg; [| done].
  apply keys_set_in, elem_of_keys_get. by eexists.
Qed.

Lemma get_update d k k' f :
  get (update d k f) k' = if decide (k = k') then f <$> get d k' else get d k'.
Proof.
  unfold update. destruct (decide (k = k')) as [<- | Hne].
  - destruct (get d k) as [v |] eqn:Hg; simpl.
    + by rewrite get_set_eq.
    + by rewrite Hg.
  - destruct (get d k) as [v |] eqn:Hg; [| done]. by apply get_set_ne.
Qed.

Lemma NoDup_keys_set d k v : NoDup (keys d) → NoDup (keys (set d k v)).
Proof.
  intros Hnd. destruct (decide (k ∈ keys d)) as [Hin | Hnotin].
  - by rewrite keys_set_in.
  - rewrite keys_set_notin by done. apply NoDup_app. split; [done |].
    split; [| apply NoDup_singleton].
    intros x Hx ->%list_elem_of_singleton. done.
Qed.

End dict.
End PyDict.

(** * growth/branching_energy.py *)

Module BranchingEnergy.
Import PyFloat.

(** [BranchingEnergyConfig] (the dataclass, with its annotated field types). *)
Record BranchingEnergyConfig : Type := {
  enabled : bool;
  min_straight : Z;
  max_straight : Z;
  energy_per_node : float;
  energy_to_branch : float;
  randomness : float
}.

(** The defaults of the dataclass. *)
Definition default_config : BranchingEnergyConfig :=
  {| enabled := true; min_straight := 2; max_straight := 5;
     energy_per_node := 0.3; energy_to_branch := 1.0; randomness := 0.3 |}.

(** The controller: its configuration and the two per-path dictionaries.
    Both are used through [get] and item assignment only. *)
Record BranchingEnergy : Type := {
  config : BranchingEnergyConfig;
  _straight_counts : gmap string Z;
  _energy : gmap string float
}.

(** [BranchingEnergy.__init__] *)
Definition init (cfg : BranchingEnergyConfig) : BranchingEnergy :=
  {| config := cfg; _straight_counts := ∅; _energy := ∅ |}.

Definition reset (self : BranchingEnergy) : BranchingEnergy :=
  {| config := config self; _straight_counts := ∅; _energy := ∅ |}.

Definition start_path (self : BranchingEnergy) (root_id : string) : BranchingEnergy :=
  {| config := config self;
     _straight_counts := <[root_id := 0]> (_straight_counts self);
     _energy := <[root_id := 0%float]> (_energy self) |}.

Definition get_straight_count (self : BranchingEnergy) (node_id : string) : Z :=
  default 0 (_straight_counts self !! node_id).

Definition get_energy (self : BranchingEnergy) (node_id : string) : float :=
  default 0%float (_energy self !! node_id).

Definition record_connection (self : BranchingEnergy)
    (parent_id child_id : string) (is_branch : bool) : BranchingEnergy :=
  if negb (enabled (config self)) then self
  else
    let parent_straight := default 0 (_straight_counts self !! parent_id) in
    let parent_energy := default 0%float (_energy self !! parent_id) in
    if is_branch then
      let remaining_energy :=
        py_max 0 (parent_energy - energy_to_branch (config self)) in
      {| config := config self;
         _straight_counts := <[child_id := 0]> (_straight_counts self);
         _energy := <[child_id := (remaining_energy * 0.5)%float]> (_energy self) |}
    else
      {| config := config self;
         _straight_counts := <[child_id := parent_straight + 1]> (_straight_counts self);
         _energy :=
           <[child_id := (parent_energy + energy_per_node (config self))%float]>
             (_energy self) |}.

Definition can_branch (self : BranchingEnergy) (node_id : string) : bool :=
  if negb (enabled (config self)) then true
  else
    let straight_count := get_straight_count self node_id in
    if (straight_count <? min_straight (config self))%Z then false
    else if (max_straight (config self) <=? straight_count)%Z then true
    else (energy_to_branch (config self) <=? get_energy self node_id)%float.

Definition must_branch (self : BranchingEnergy) (node_id : string) : bool :=
  if negb (enabled (config self)) then false
  else (max_straight (config self) <=? get_straight_count self node_id)%Z.

Section with_random.
Context {G : Type} `{PyRandom G}.

Definition should_branch (self : BranchingEnergy) (node_id : string)
    (base_probability : float) (g : G) : result (bool * G) :=
  let cfg := config self in
  if negb (enabled cfg) then
    let '(r, g1) := random g in Ok ((r <? base_probability)%float, g1)
  else if negb (can_branch self node_id) then Ok (false, g)
  else if must_branch self node_id then Ok (true, g)
  else
    let straight_count := get_straight_count self node_id in
    let energy := get_energy self node_id in
    q ← py_truediv energy (energy_to_branch cfg);
    let energy_factor := py_min 1.0 q in
    progress ← py_int_truediv (straight_count - min_straight cfg)
                 (Z.max 1 (max_straight cfg - min_straight cfg));
    let straight_factor := progress in
    let deterministic_prob :=
      ((energy_factor * 0.6 + straight_factor * 0.4) * base_probability)%float in
    if (0 <? randomness cfg)%float then
      let '(r1, g1) := random g in
      let random_offset := ((r1 - 0.5) * 2 * randomness cfg)%float in
      let final_prob := (deterministic_prob + random_offset * 0.5)%float in
      let final_prob := py_max 0.0 (py_min 1.0 final_prob) in
      let '(r2, g2) := random g1 in Ok ((r2 <? final_prob)%float, g2)
    else
      let final_prob := deterministic_prob in
      let '(r2, g2) := random g in Ok ((r2 <? final_prob)%float, g2).

(** Lines 265-271 of [calculate_children_count]: the whole children the
    energy above the branching threshold pays for. *)
Definition energy_bonus (self : BranchingEnergy) (node_id : string) : result Z :=
  let energy := get_energy self node_id in
  let energy_excess := py_max 0 (energy - energy_to_branch (config self)) in
  q ← py_truediv energy_excess (energy_per_node (config self));
  py_int q.

(** [int(random_bonus * self.config.randomness)] *)
Definition scaled_bonus (self : BranchingEnergy) (random_bonus : Z) : result Z :=
  scaled ← py_float_of_int random_bonus;
  py_int (scaled * randomness (config self))%float.

Definition calculate_children_count (self : BranchingEnergy) (node_id : string)
    (max_children : Z) (base_probability : float) (g : G) : result (Z * G) :=
  if (max_children <=? 1)%Z then Ok (max_children, g)
  else
    '(branch, g1) ← should_branch self node_id base_probability g;
    if negb branch then Ok (1, g1)
    else if negb (enabled (config self)) || (0.8 <=? randomness (config self))%float
    then randint 2 max_children g1
    else
      let base_count := 2 in
      energy_bonus ← energy_bonus self node_id;
      if (0 <? randomness (config self))%float then
        '(random_bonus, g2) ←
          randint 0 (Z.max 0 (max_children - base_count - energy_bonus)) g1;
        extra ← scaled_bonus self random_bonus;
        let final_count := base_count + energy_bonus + extra in
        Ok (Z.min max_children (Z.max 2 final_count), g2)
      else
        let final_count := base_count + energy_bonus in
        Ok (Z.min max_children (Z.max 2 final_count), g1).

End with_random.

(** Concrete controllers used by the examples below. *)
Definition disabled_config : BranchingEnergyConfig :=
  {| enabled := false; min_straight := 2; max_straight := 5;
     energy_per_node := 0.3; energy_to_branch := 1.0; randomness := 0.3 |}.

Definition sample_state : BranchingEnergy :=
  {| config := default_config;
     _straight_counts := {[ "root" := 3 ]};
     _energy := {[ "root" := 1.5%float ]} |}.

Definition disabled_state : BranchingEnergy :=
  {| config := disabled_config;
     _straight_counts := {[ "root" := 7 ]};
     _energy := {[ "root" := 2.5%float ]} |}.

Definition empty_tape : TapeRandom := {| tape_floats := []; tape_ints := [] |}.

(** *** Bookkeeping of [record_connection] *)

(** C6 as stated fails when the controller is disabled: the guard at the
    top of [record_connection] returns before anything is written, so a
    straight link from an untracked parent leaves the child's count at 0
    where the claim wants [0 + 1]. *)
Lemma record_connection_disabled_counterexample :
  get_straight_count (record_connection (init disabled_config) "p" "c" false) "c"
    ≠ get_straight_count (init disabled_config) "p" + 1.
Proof. vm_compute. discriminate. Qed.

(** C6 (amended): with [config.enabled] set, [record_connection] writes the
    child's two entries (straight count 0 and energy
    [max(0, parent_energy - energy_to_branch) * 0.5] on a branch, straight
    count [parent_straight + 1] and energy [parent_energy + energy_per_node]
    otherwise, an untracked parent counting as 0 and 0.0) and leaves every
    other key and the configuration as they were. *)
Theorem record_connection_enabled (self : BranchingEnergy)
    (parent_id child_id : string) (is_branch : bool) :
  enabled (config self) = true →
  let self' := record_connection self parent_id child_id is_branch in
  let parent_straight := get_straight_count self parent_id in
  let parent_energy := get_energy self parent_id in
  _straight_counts self' !! child_id
    = Some (if is_branch then 0 else parent_straight + 1)
  ∧ _energy self' !! child_id
    = Some (if is_branch
            then (py_max 0 (parent_energy - energy_to_branch (config self)) * 0.5)%float
            else (parent_energy + energy_per_node (config self))%float)
  ∧ (∀ k, k ≠ child_id →
       _straight_counts self' !! k = _straight_counts self !! k
       ∧ _energy self' !! k = _energy self !! k)
  ∧ config self' = config self.
Proof.
  intros Hen. unfold record_connection, get_straight_count, get_energy.
  rewrite Hen. simpl negb. cbv iota.
  destruct is_branch; simpl.
  - rewrite !lookup_insert_eq. repeat split; try done;
      by rewrite lookup_insert_ne.
  - rewrite !lookup_insert_eq. repeat split; try done;
      by rewrite lookup_insert_ne.
Qed.

Lemma record_connection_enabled_witness :
  _straight_counts (record_connection sample_state "root" "child" false) !! "child"
    = Some 4
  ∧ _energy (record_connection sample_state "root" "child" true) !! "child"
    = Some 0.25%float.
Proof.
  split.
  - exact (proj1 (record_connection_enabled sample_state "root" "child" false eq_refl)).
  - exact (proj1 (proj2 (record_connection_enabled sample_state "root" "child" true eq_refl))).
Defined.

(** C10: a disabled controller is inert.  [record_connection] returns the
    controller it was given (both dictionaries untouched), [can_branch] is
    true and [must_branch] is false for every node id, whatever was
    recorded. *)
Theorem disabled_controller_inert (self : BranchingEnergy) :
  enabled (config self) = false →
  (∀ parent_id child_id is_branch,
     record_connection self parent_id child_id is_branch = self)
  ∧ (∀ node_id, can_branch self node_id = true)
  ∧ (∀ node_id, must_branch self node_id = false).
Proof.
  intros Hdis. unfold record_connection, can_branch, must_branch.
  rewrite Hdis. by repeat split.
Qed.

Lemma disabled_controller_inert_witness :
  record_connection disabled_state "root" "child" true = disabled_state
  ∧ can_branch disabled_state "root" = true
  ∧ must_branch disabled_state "root" = false.
Proof.
  destruct (disabled_controller_inert disabled_state eq_refl) as (Hrec & Hcan & Hmust).
  exact (conj (Hrec "root" "child" true) (conj (Hcan "root") (Hmust "root"))).
Defined.

(** *** The child count *)

Definition short_path_state : BranchingEnergy := init default_config.

(** C7 as stated fails for [max_children = 0]: [should_branch] is false (the
    path is shorter than [min_straight]) and the function returns 0, which
    is neither 1 nor within [2, 0]. *)
Lemma calculate_children_count_small_max_counterexample :
  should_branch short_path_state "tip" 0.5 empty_tape = Ok (false, empty_tape)
  ∧ calculate_children_count short_path_state "tip" 0 0.5 empty_tape
    = Ok (0, empty_tape).
Proof. split; reflexivity. Qed.

Definition zero_gain_state : BranchingEnergy :=
  {| config := {| enabled := true; min_straight := 2; max_straight := 5;
                  energy_per_node := 0; energy_to_branch := 1.0;
                  randomness := 0.3 |};
     _straight_counts := {[ "tip" := 5 ]};
     _energy := {[ "tip" := 0%float ]} |}.

(** With [energy_per_node = 0] a forced branch divides by zero. *)
Lemma calculate_children_count_zero_gain_raises :
  should_branch zero_gain_state "tip" 0.5 empty_tape = Ok (true, empty_tape)
  ∧ calculate_children_count zero_gain_state "tip" 3 0.5 empty_tape
    = Raise ZeroDivisionError.
Proof. split; reflexivity. Qed.

Section children_count.
Context {G : Type} `{PyRandom G}.

Lemma clamp_children_range max_children final_count :
  2 ≤ max_children → 2 ≤ Z.min max_children (Z.max 2 final_count) ≤ max_children.
Proof. lia. Qed.

(** The two conversions of the energy path go through: the energy bonus
    [int(excess / energy_per_node)] is defined and, when [randomness > 0],
    so is [int(random_bonus * randomness)] for every bonus [randint] may
    draw. *)
Definition bonus_defined (self : BranchingEnergy) (node_id : string)
    (max_children : Z) : Prop :=
  ∃ eb, energy_bonus self node_id = Ok eb
        ∧ ((0 <? randomness (config self))%float = true →
           ∀ rb, 0 ≤ rb ≤ Z.max 0 (max_children - 2 - eb) →
                 is_ok (scaled_bonus self rb)).

(** C7 (amended): for [max_children <= 1] the function returns
    [max_children] without consulting [should_branch].  For
    [max_children >= 2]: it returns 1 when [should_branch] decides false;
    when it decides true every returned count lies in [2, max_children],
    and a count is returned whenever the controller is disabled, or
    [randomness >= 0.8], or the conversions of the energy path are defined
    (in particular [energy_per_node] is not zero). *)
Theorem calculate_children_count_spec (self : BranchingEnergy) (node_id : string)
    (max_children : Z) (base_probability : float) (g : G) :
  (max_children ≤ 1 →
     calculate_children_count self node_id max_children base_probability g
       = Ok (max_children, g))
  ∧ (2 ≤ max_children →
     ∀ branch g1,
       should_branch self node_id base_probability g = Ok (branch, g1) →
       (branch = false →
          calculate_children_count self node_id max_children base_probability g
            = Ok (1, g1))
       ∧ (branch = true →
          ∀ n g2,
            calculate_children_count self node_id max_children base_probability g
              = Ok (n, g2) →
            2 ≤ n ≤ max_children)
       ∧ (branch = true →
          enabled (config self) = false
          ∨ (0.8 <=? randomness (config self))%float = true
          ∨ bonus_defined self node_id max_children →
          ∃ n g2,
            calculate_children_count self node_id max_children base_probability g
              = Ok (n, g2)
            ∧ 2 ≤ n ≤ max_children)).
Proof.
  split.
  - intros Hle. unfold calculate_children_count.
    by destruct (Z.leb_spec max_children 1); [| lia].
  - intros Hge branch g1 Hsb. unfold calculate_children_count.
    destruct (Z.leb_spec max_children 1) as [? | _]; [lia |].
    rewrite Hsb. simpl.
    split; [by intros -> |].
    split.
    + intros -> n g2. simpl.
      destruct (negb (enabled (config self)) || (0.8 <=? randomness (config self))%float).
      * destruct (randint_range 2 max_children g1 Hge) as (n' & g' & -> & Hn).
        by intros [= <- <-].
      * destruct (energy_bonus self node_id) as [eb | e]; simpl; [| done].
        destruct (0 <? randomness (config self))%float.
        -- destruct (randint 0 (Z.max 0 (max_children - 2 - eb)) g1)
             as [[rb g'] | e]; simpl; [| done].
           destruct (scaled_bonus self rb) as [ex | e]; simpl; [| done].
           intros [= <- <-]. by apply clamp_children_range.
        -- intros [= <- <-]. by apply clamp_children_range.
    + intros -> Hcond. simpl.
      destruct (negb (enabled (config self)) || (0.8 <=? randomness (config self))%float)
        eqn:Hrand.
      * destruct (randint_range 2 max_children g1 Hge) as (n' & g' & -> & Hn).
        by exists n', g'.
      * apply orb_false_elim in Hrand as [Hen Hr].
        destruct Hcond as [Hdis | [Hhigh | (eb & Heb & Hscaled)]].
        { by rewrite Hdis in Hen. }
        { by rewrite Hhigh in Hr. }
        rewrite Heb. simpl.
        destruct (0 <? randomness (config self))%float eqn:Hpos.
        -- destruct (randint_range 0 (Z.max 0 (max_children - 2 - eb)) g1
                       ltac:(lia)) as (rb & g' & -> & Hrb).
           simpl. destruct (Hscaled eq_refl rb Hrb) as [ex ->]. simpl.
           eexists _, _. split; [done |]. by apply clamp_children_range.
        -- eexists _, _. split; [done |]. by apply clamp_children_range.
Qed.

End children_count.

Lemma calculate_children_count_spec_witness :
  2 ≤ 3
  ∧ should_branch sample_state "root" 0.5
      {| tape_floats := [0.5; 0.1]%float; tape_ints := [1] |}
    = Ok (true, {| tape_floats := []; tape_ints := [1] |})
  ∧ ∃ n g2,
      calculate_children_count sample_state "root" 3 0.5
        {| tape_floats := [0.5; 0.1]%float; tape_ints := [1] |} = Ok (n, g2)
      ∧ 2 ≤ n ≤ 3.
Proof.
  split; [lia |]. split; [reflexivity |].
  refine (proj2 (proj2 (proj2
    (calculate_children_count_spec (G := TapeRandom) sample_state "root" 3 0.5
       {| tape_floats := [0.5; 0.1]%float; tape_ints := [1] |})
    ltac:(lia) true {| tape_floats := []; tape_ints := [1] |} eq_refl)) eq_refl _).
  right. right. exists 1. split; [reflexivity |].
  intros _ rb Hrb. change (Z.max 0 (3 - 2 - 1)) with 0 in Hrb.
  assert (rb = 0) as -> by lia.
  by eexists.
Defined.

(** *** Configuration dictionaries *)

(** The dictionary that [BranchingEnergyConfig.from_dict] reads and
    [to_dict] writes: the six keys, each present or not. *)
Record ConfigDict : Type := {
  d_enabled : option bool;
  d_min_straight : option Z;
  d_max_straight : option Z;
  d_energy_per_node : option float;
  d_energy_to_branch : option float;
  d_randomness : option float
}.

Definition from_dict (d : ConfigDict) : BranchingEnergyConfig :=
  {| enabled := default true (d_enabled d);
     min_straight := default 2 (d_min_straight d);
     max_straight := default 5 (d_max_straight d);
     energy_per_node := default 0.3%float (d_energy_per_node d);
     energy_to_branch := default 1.0%float (d_energy_to_branch d);
     randomness := default 0.3%float (d_randomness d) |}.

Definition to_dict (c : BranchingEnergyConfig) : ConfigDict :=
  {| d_enabled := Some (enabled c);
     d_min_straight := Some (min_straight c);
     d_max_straight := Some (max_straight c);
     d_energy_per_node := Some (energy_per_node c);
     d_energy_to_branch := Some (energy_to_branch c);
     d_randomness := Some (randomness c) |}.

(** [base.update(other)] on two such dictionaries. *)
Definition dict_update (base other : ConfigDict) : ConfigDict :=
  {| d_enabled := from_option Some (d_enabled base) (d_enabled other);
     d_min_straight := from_option Some (d_min_straight base) (d_min_straight other);
     d_max_straight := from_option Some (d_max_straight base) (d_max_straight other);
     d_energy_per_node :=
       from_option Some (d_energy_per_node base) (d_energy_per_node other);
     d_energy_to_branch :=
       from_option Some (d_energy_to_branch base) (d_energy_to_branch other);
     d_randomness := from_option Some (d_randomness base) (d_randomness other) |}.

(** Truth value of the dictionary: empty is false. *)
Definition dict_nonempty (d : ConfigDict) : bool :=
  bool_decide (is_Some (d_enabled d)) || bool_decide (is_Some (d_min_straight d))
  || bool_decide (is_Some (d_max_straight d))
  || bool_decide (is_Some (d_energy_per_node d))
  || bool_decide (is_Some (d_energy_to_branch d))
  || bool_decide (is_Some (d_randomness d)).

(** *** When [should_branch] raises, and when it draws *)

Section should_branch_facts.
Context {G : Type} `{PyRandom G}.

(** The largest magnitude that [float(n)] converts. *)
Definition float_int_bound : Z := 2 ^ 1024 - 2 ^ 970.

Lemma py_float_of_int_Ok n :
  Z.abs n < float_int_bound → ∃ f, py_float_of_int n = Ok f.
Proof.
  intros Hn. unfold py_float_of_int. fold float_int_bound.
  rewrite (proj2 (Z.ltb_lt _ _) Hn). by eexists.
Qed.

Lemma py_float_of_int_Raise n e :
  py_float_of_int n = Raise e → e = OverflowError ∧ float_int_bound ≤ Z.abs n.
Proof.
  unfold py_float_of_int. fold float_int_bound.
  destruct (Z.ltb_spec (Z.abs n) float_int_bound); [done |]. by intros [= <-].
Qed.

(** The window in which the decision is probabilistic. *)
Definition undecided (self : BranchingEnergy) (node_id : string) : bool :=
  enabled (config self) && can_branch self node_id && negb (must_branch self node_id).

Lemma undecided_window self node_id :
  undecided self node_id = true →
  min_straight (config self) ≤ get_straight_count self node_id
  < max_straight (config self).
Proof.
  unfold undecided, can_branch, must_branch.
  destruct (enabled (config self)); [simpl | done].
  destruct (Z.ltb_spec (get_straight_count self node_id) (min_straight (config self)));
    [done |].
  destruct (Z.leb_spec (max_straight (config self)) (get_straight_count self node_id));
    [done |]. lia.
Qed.

(** The counters for which [a / b] on ints is the division of the two
    converted operands: both convert exactly, so the quotient is rounded
    once, as CPython does, and no conversion overflows. *)
Definition exact_int_bound : Z := 2 ^ 53.

(** While [max_straight - min_straight] is below [2^53], [should_branch]
    raises nothing but [ZeroDivisionError], and raises it exactly when the
    decision is probabilistic and [energy_to_branch] is a zero; with a
    threshold that is not a zero the probabilistic decision returns.  When
    branching is not allowed, or is forced, it answers without a draw. *)
Theorem should_branch_errors (self : BranchingEnergy) (node_id : string)
    (base_probability : float) (g : G) :
  max_straight (config self) - min_straight (config self) < exact_int_bound →
  (should_branch self node_id base_probability g = Raise ZeroDivisionError
   ↔ undecided self node_id = true ∧ is_zero (energy_to_branch (config self)) = true)
  ∧ (∀ e, should_branch self node_id base_probability g = Raise e →
          e = ZeroDivisionError)
  ∧ (undecided self node_id = true →
     is_zero (energy_to_branch (config self)) = false →
     ∃ r, should_branch self node_id base_probability g = Ok r)
  ∧ (enabled (config self) = true → undecided self node_id = false →
     should_branch self node_id base_probability g
     = Ok (can_branch self node_id, g)).
Proof.
  intros Hsmall.
  assert (exact_int_bound < float_int_bound) as Hbounds by (by vm_compute).
  assert (undecided self node_id = true →
          is_zero (energy_to_branch (config self)) = false →
          ∃ r, should_branch self node_id base_probability g = Ok r) as Hreturns.
  { intros Hund Hnz. pose proof (undecided_window _ _ Hund) as Hwin.
    unfold undecided in Hund. apply andb_prop in Hund as [Hund Hmust].
    apply andb_prop in Hund as [Hen Hcan]. apply negb_true_iff in Hmust.
    unfold should_branch. rewrite Hen, Hcan, Hmust. simpl negb. cbv iota.
    unfold py_truediv. rewrite Hnz. cbn [result_bind].
    unfold py_int_truediv.
    destruct (Z.eqb_spec (Z.max 1 (max_straight (config self) - min_straight (config self))) 0)
      as [Hz | _]; [lia |].
    destruct (py_float_of_int_Ok
                (get_straight_count self node_id - min_straight (config self)))
      as [fa ->]; [lia |].
    destruct (py_float_of_int_Ok
                (Z.max 1 (max_straight (config self) - min_straight (config self))))
      as [fb ->]; [lia |].
    cbn [result_bind].
    destruct (0 <? randomness (config self))%float.
    - destruct (random g) as [r1 g1]. destruct (random g1). by eexists.
    - destruct (random g). by eexists. }
  assert (undecided self node_id = false →
          ∃ r, should_branch self node_id base_probability g = Ok r
               ∧ (enabled (config self) = true → r = (can_branch self node_id, g)))
    as Hdecided.
  { intros Hund. unfold undecided in Hund. unfold should_branch.
    destruct (enabled (config self)) eqn:Hen; simpl negb; cbv iota.
    - destruct (can_branch self node_id) eqn:Hcan; simpl negb; cbv iota;
        [| by eexists].
      destruct (must_branch self node_id) eqn:Hmust; [by eexists | done].
    - destruct (random g) as [r g1]. by eexists. }
  assert (undecided self node_id = true →
          is_zero (energy_to_branch (config self)) = true →
          should_branch self node_id base_probability g = Raise ZeroDivisionError)
    as Hzero.
  { intros Hund Hz.
    unfold undecided in Hund. apply andb_prop in Hund as [Hund Hmust].
    apply andb_prop in Hund as [Hen Hcan]. apply negb_true_iff in Hmust.
    unfold should_branch. rewrite Hen, Hcan, Hmust. simpl negb. cbv iota.
    unfold py_truediv. by rewrite Hz. }
  split_and!.
  - split.
    + intros Hraise. destruct (undecided self node_id) eqn:Hund.
      * split; [done |].
        destruct (is_zero (energy_to_branch (config self))) eqn:Hz; [done |].
        destruct (Hreturns eq_refl eq_refl) as [r Hr]. congruence.
      * destruct (Hdecided eq_refl) as (r & Hr & _). congruence.
    + intros [Hund Hz]. by apply Hzero.
  - intros e Hraise. destruct (undecided self node_id) eqn:Hund.
    + destruct (is_zero (energy_to_branch (config self))) eqn:Hz.
      * rewrite Hzero in Hraise by done. by injection Hraise as <-.
      * destruct (Hreturns eq_refl eq_refl) as [r Hr]. congruence.
    + destruct (Hdecided eq_refl) as (r & Hr & _). congruence.
  - done.
  - intros Hen Hund. destruct (Hdecided Hund) as (r & Hr & Heq).
    by rewrite Hr, (Heq Hen).
Qed.

End should_branch_facts.

Definition zero_threshold_state : BranchingEnergy :=
  {| config := {| enabled := true; min_straight := 2; max_straight := 5;
                  energy_per_node := 0.3; energy_to_branch := 0;
                  randomness := 0.3 |};
     _straight_counts := {[ "tip" := 3 ]};
     _energy := {[ "tip" := 0.9%float ]} |}.

Lemma should_branch_zero_threshold_raises :
  should_branch zero_threshold_state "tip" 0.5 empty_tape = Raise ZeroDivisionError.
Proof. reflexivity. Qed.

Lemma should_branch_errors_witness :
  (should_branch zero_threshold_state "tip" 0.5 empty_tape = Raise ZeroDivisionError
   ↔ undecided zero_threshold_state "tip" = true
     ∧ is_zero (energy_to_branch (config zero_threshold_state)) = true)
  ∧ (∀ e, should_branch zero_threshold_state "tip" 0.5 empty_tape = Raise e →
          e = ZeroDivisionError)
  ∧ (undecided zero_threshold_state "tip" = true →
     is_zero (energy_to_branch (config zero_threshold_state)) = false →
     ∃ r, should_branch zero_threshold_state "tip" 0.5 empty_tape = Ok r)
  ∧ (enabled (config zero_threshold_state) = true →
     undecided zero_threshold_state "tip" = false →
     should_branch zero_threshold_state "tip" 0.5 empty_tape
     = Ok (can_branch zero_threshold_state "tip", empty_tape)).
Proof.
  apply (should_branch_errors zero_threshold_state "tip" 0.5 empty_tape).
  by vm_compute.
Defined.

(** *** Straight chains *)

(** [record_connection] along a chain of straight links
    [start -> c1 -> c2 -> ...]. *)
Fixpoint record_chain (self : BranchingEnergy) (start : string) (chain : list string)
    : BranchingEnergy :=
  match chain with
  | [] => self
  | c :: chain' => record_chain (record_connection self start c false) c chain'
  end.

Lemma config_record_connection self p c b :
  config (record_connection self p c b) = config self.
Proof.
  unfold record_connection. destruct (enabled (config self)); [| done].
  by destruct b.
Qed.

Lemma config_record_chain self start chain :
  config (record_chain self start chain) = config self.
Proof.
  revert self start. induction chain as [| c chain IH]; intros self start; [done |].
  simpl. by rewrite IH, config_record_connection.
Qed.

(** With the controller enabled, the tip of a chain of straight links
    counts the links since the start of the chain; once the count is at
    [max_straight] a branch is forced there, and allowed when
    [min_straight] is not above [max_straight]; the child of a branch
    starts again at 0. *)
Theorem straight_chain_count (self : BranchingEnergy) (start : string)
    (chain : list string) :
  enabled (config self) = true →
  let self' := record_chain self start chain in
  let tip := List.last chain start in
  get_straight_count self' tip
  = get_straight_count self start + Z.of_nat (length chain)
  ∧ (must_branch self' tip = true
     ↔ max_straight (config self)
       ≤ get_straight_count self start + Z.of_nat (length chain))
  ∧ (min_straight (config self) ≤ max_straight (config self) →
     must_branch self' tip = true → can_branch self' tip = true)
  ∧ (∀ child, get_straight_count (record_connection self' tip child true) child = 0).
Proof.
  intros Hen self' tip.
  assert (get_straight_count self' tip
          = get_straight_count self start + Z.of_nat (length chain)) as Hcount.
  { subst self' tip. revert self start Hen.
    induction chain as [| c chain IH]; intros self start Hen.
    - simpl. lia.
    - cbn [record_chain]. 
      replace (List.last (c :: chain) start) with (List.last chain c)
        by (clear; revert c; induction chain as [| d chain IH]; intros c;
            [done | simpl in *; by destruct chain]).
      rewrite IH by by rewrite config_record_connection.
      assert (get_straight_count (record_connection self start c false) c
              = get_straight_count self start + 1) as ->.
      { unfold record_connection, get_straight_count. rewrite Hen. simpl.
        by rewrite lookup_insert_eq. }
      cbn [length]. lia. }
  assert (config self' = config self) as Hcfg by apply config_record_chain.
  split_and!.
  - done.
  - unfold must_branch. rewrite Hcfg, Hen, Hcount. simpl. apply Z.leb_le.
  - intros Hmin. unfold must_branch, can_branch. rewrite Hcfg, Hen. simpl.
    intros Hmust%Z.leb_le.
    destruct (Z.ltb_spec (get_straight_count self' tip) (min_straight (config self)));
      [lia |].
    by rewrite (proj2 (Z.leb_le _ _) Hmust).
  - intros child. unfold record_connection, get_straight_count.
    rewrite Hcfg, Hen. simpl. by rewrite lookup_insert_eq.
Qed.

Lemma straight_chain_count_witness :
  get_straight_count (record_chain (start_path (init default_config) "root") "root"
                        ["a"; "b"; "c"; "d"; "e"]) "e"
  = get_straight_count (start_path (init default_config) "root") "root" + 5.
Proof.
  exact (proj1 (straight_chain_count (start_path (init default_config) "root") "root"
                  ["a"; "b"; "c"; "d"; "e"] eq_refl)).
Defined.

End BranchingEnergy.

(** * core/registry.py *)

Module Registry.

(** ** Plugin names

    A Python [str] is represented by its UTF-8 encoding, so the ASCII
    characters are the bytes below 128.  [name.lower()] is a built-in of the
    platform and not code of the repository: it is a parameter of the
    registry below ([str_lower]), known through what it does on ASCII
    strings, where it is the function [lower]: the letters [A]-[Z] go to
    [a]-[z] and every other character stays. *)
Definition lower_ascii (c : ascii) : ascii :=
  let n := nat_of_ascii c in
  if ((65 <=? n)%nat && (n <=? 90)%nat)%bool then ascii_of_nat (n + 32) else c.

Fixpoint lower (s : string) : string :=
  match s with
  | EmptyString => EmptyString
  | String c s' => String (lower_ascii c) (lower s')
  end.

Fixpoint ascii_only (s : string) : bool :=
  match s with
  | EmptyString => true
  | String c s' => (nat_of_ascii c <? 128)%nat && ascii_only s'
  end.

(** Two names that differ in the case of their ASCII letters only, said
    without [lower]: character by character they are equal, or one is a
    capital letter and the other the same letter in small. *)
Definition is_upper (c : ascii) : bool :=
  ((65 <=? nat_of_ascii c)%nat && (nat_of_ascii c <=? 90)%nat)%bool.

Definition same_letter (c c' : ascii) : bool :=
  bool_decide (c = c')
  || (is_upper c && bool_decide (nat_of_ascii c' = (nat_of_ascii c + 32)%nat))
  || (is_upper c' && bool_decide (nat_of_ascii c = (nat_of_ascii c' + 32)%nat)).

Fixpoint same_up_to_case (s t : string) : bool :=
  match s, t with
  | EmptyString, EmptyString => true
  | String c s', String c' t' => same_letter c c' && same_up_to_case s' t'
  | _, _ => false
  end.

(** ** Constructor arguments

    The values a caller passes as [config]: [None], a dictionary, or
    something that is neither (an int, a bool); and what the shape classes
    do with them. *)
Inductive PyArg : Type :=
| PyNone
| PyInt (n : Z)
| PyBool (b : bool)
| PyDictArg (d : list (string * PyArg)).

(** [if config] *)
Definition arg_truthy (config : PyArg) : bool :=
  match config with
  | PyNone => false
  | PyInt n => negb (n =? 0)%Z
  | PyBool b => b
  | PyDictArg d => match d with [] => false | _ => true end
  end.

(** [config.get(key, default)]: only a dictionary has the method. *)
Definition arg_get (config : PyArg) (key : string) (default : PyArg) : result PyArg :=
  match config with
  | PyDictArg d => Ok (from_option id default (PyDict.get d key))
  | _ => Raise AttributeError
  end.

(** [config.get(key, default) if config else default] *)
Definition arg_get_or (config : PyArg) (key : string) (default : PyArg)
    : result PyArg :=
  if arg_truthy config then arg_get config key default else Ok default.

Section registry.
(** A registered plugin class is what [create] does with it: it is called on
    the constructor arguments, and yields an instance or raises. *)
Variables (Args Instance : Type).
Variable str_lower : string → string.

Record PluginRegistry : Type := {
  _plugins : list (string * (Args → result Instance));
  _plugin_type : string
}.

(** A registry class with nothing registered, e.g. [ShapeRegistry] with
    [_plugin_type = "shape"]. *)
Definition empty_registry (plugin_type : string) : PluginRegistry :=
  {| _plugins := []; _plugin_type := plugin_type |}.

(** [register(name)(plugin_class)] *)
Definition register (cls : PluginRegistry) (name : string)
    (plugin_class : Args → result Instance) : PluginRegistry :=
  {| _plugins := PyDict.set (_plugins cls) (str_lower name) plugin_class;
     _plugin_type := _plugin_type cls |}.

Definition get (cls : PluginRegistry) (name : string)
    : option (Args → result Instance) :=
  PyDict.get (_plugins cls) (str_lower name).

Definition list_names (cls : PluginRegistry) : list string :=
  PyDict.keys (_plugins cls).

Definition has (cls : PluginRegistry) (name : string) : bool :=
  PyDict.has (_plugins cls) (str_lower name).

Definition unknown_message (cls : PluginRegistry) (name : string) : string :=
  let available := String.concat ", " (list_names cls) in
  "Unknown " +:+ _plugin_type cls +:+ " '" +:+ name +:+ "'. "
    +:+ "Available: " +:+ available.

(** [create(name, *args, **kwargs)]: what the constructor raises goes to
    the caller. *)
Definition create (cls : PluginRegistry) (name : string) (args : Args)
    : result Instance :=
  match get cls name with
  | None => Raise (KeyError (unknown_message cls name))
  | Some plugin_class => plugin_class args
  end.

(** The registry after the decorators of a list of declarations have run,
    in order. *)
Definition registered (plugin_type : string)
    (decls : list (string * (Args → result Instance))) : PluginRegistry :=
  fold_left (λ cls d, register cls d.1 d.2) decls (empty_registry plugin_type).

End registry.

Arguments _plugins {Args Instance} _.
Arguments _plugin_type {Args Instance} _.
Arguments empty_registry {Args Instance} plugin_type.
Arguments register {Args Instance} str_lower cls name plugin_class.
Arguments get {Args Instance} str_lower cls name.
Arguments list_names {Args Instance} cls.
Arguments has {Args Instance} str_lower cls name.
Arguments unknown_message {Args Instance} cls name.
Arguments create {Args Instance} str_lower cls name args.
Arguments registered {Args Instance} str_lower plugin_type decls.

(** ** The shape classes

    Every shape class starts with [super().__init__(config)], the
    constructor of [ShapeProfile] in [shapes/base.py], which is not among
    the sources: [super_init] stands for it, with [Base] for what it leaves
    in the instance.  The classes that define [__init__] then read their own
    options from [config]. *)
Record ShapeInstance (Base : Type) : Type := {
  shape_class : string;
  shape_base : Base;
  shape_options : list (string * PyArg)
}.

Arguments shape_class {Base} _.
Arguments shape_base {Base} _.
Arguments shape_options {Base} _.

Section shapes.
Context {Base : Type}.
Variable super_init : PyArg → result Base.

(** A class without options of its own (cascade, linear, mountain and
    organic inherit [__init__]; cloud and spiky only create empty
    containers after the call of the base constructor). *)
Definition PlainShape (class_name : string) (config : PyArg)
    : result (ShapeInstance Base) :=
  base ← super_init config;
  Ok {| shape_class := class_name; shape_base := base; shape_options := [] |}.

(** [RadialShape.__init__] *)
Definition RadialShape (config : PyArg) : result (ShapeInstance Base) :=
  base ← super_init config;
  spoke_count ← arg_get_or config "spoke_count" (PyInt 5);
  Ok {| shape_class := "radial"; shape_base := base;
        shape_options := [("spoke_count", spoke_count)] |}.

(** [GridShape.__init__] *)
Definition GridShape (config : PyArg) : result (ShapeInstance Base) :=
  base ← super_init config;
  grid_columns ← arg_get_or config "grid_columns" (PyInt 5);
  prefer_horizontal ← arg_get_or config "prefer_horizontal" (PyBool true);
  Ok {| shape_class := "grid"; shape_base := base;
        shape_options := [("grid_columns", grid_columns);
                          ("prefer_horizontal", prefer_horizontal)] |}.

(** The [@register_shape] declarations, in the order in which
    [shapes/__init__.py] imports the modules. *)
Definition shape_decls : list (string * (PyArg → result (ShapeInstance Base))) :=
  [("cascade", PlainShape "cascade"); ("cloud", PlainShape "cloud");
   ("grid", GridShape); ("linear", PlainShape "linear");
   ("mountain", PlainShape "mountain"); ("organic", PlainShape "organic");
   ("radial", RadialShape); ("spiky", PlainShape "spiky")].

End shapes.

(** The shape registry with a base constructor that keeps the
    configuration, and ASCII names. *)
Definition ShapeRegistry : PluginRegistry PyArg (ShapeInstance PyArg) :=
  registered lower "shape" (shape_decls Ok).

Example create_known_shape :
  create lower ShapeRegistry "Radial" (PyDictArg [])
  = Ok {| shape_class := "radial"; shape_base := PyDictArg [];
          shape_options := [("spoke_count", PyInt 5)] |}.
Proof. reflexivity. Qed.

Example create_unknown_shape :
  create lower ShapeRegistry "explosion" (PyDictArg [])
  = Raise (KeyError
      "Unknown shape 'explosion'. Available: cascade, cloud, grid, linear, mountain, organic, radial, spiky").
Proof. reflexivity. Qed.

(** ** Facts about names *)

Lemma same_letter_spec c c' :
  bool_decide (lower_ascii c = lower_ascii c') = same_letter c c'.
Proof.
  assert (forallb
            (λ n, forallb
               (λ n', Bool.eqb
                  (bool_decide (lower_ascii (ascii_of_nat n)
                                = lower_ascii (ascii_of_nat n')))
                  (same_letter (ascii_of_nat n) (ascii_of_nat n')))
               (seq 0 256))
            (seq 0 256) = true) as Hall by (vm_compute; reflexivity).
  assert (∀ a : ascii, In (nat_of_ascii a) (seq 0 256)) as Hin
    by (intros a; apply in_seq; pose proof (nat_ascii_bounded a); lia).
  pose proof (proj1 (forallb_forall _ _) Hall _ (Hin c)) as Hc. cbv beta in Hc.
  pose proof (proj1 (forallb_forall _ _) Hc _ (Hin c')) as Hcc. cbv beta in Hcc.
  rewrite !ascii_nat_embedding in Hcc. by apply Bool.eqb_prop.
Qed.

Lemma same_up_to_case_spec s t : lower s = lower t ↔ same_up_to_case s t = true.
Proof.
  revert t. induction s as [| c s IH]; intros [| c' t]; simpl; [done.. |].
  rewrite andb_true_iff, <- IH, <- same_letter_spec, bool_decide_eq_true.
  split; [by intros [= -> ->] | by intros [-> ->]].
Qed.

Lemma lower_ascii_idemp c : lower_ascii (lower_ascii c) = lower_ascii c.
Proof. by destruct c as [[|] [|] [|] [|] [|] [|] [|] [|]]. Qed.

Lemma lower_idemp s : lower (lower s) = lower s.
Proof.
  induction s as [| c s IH]; [done |]. simpl. by rewrite lower_ascii_idemp, IH.
Qed.

Lemma lower_no_upper s : same_up_to_case (lower s) s = true.
Proof. apply same_up_to_case_spec, lower_idemp. Qed.

(** ** Facts about the registry *)

Section registry_facts.
Context {Args Instance : Type}.
Variable str_lower : string → string.

Notation decl := (string * (Args → result Instance))%type.

Lemma registered_snoc plugin_type (decls : list decl) n c :
  registered str_lower plugin_type (decls ++ [(n, c)])
  = register str_lower (registered str_lower plugin_type decls) n c.
Proof. unfold registered. by rewrite fold_left_app. Qed.

Lemma get_register (cls : PluginRegistry Args Instance) n c name :
  get str_lower (register str_lower cls n c) name
  = if decide (str_lower n = str_lower name) then Some c else get str_lower cls name.
Proof. unfold get, register. simpl. apply PyDict.get_set. Qed.

Lemma plugin_type_registered plugin_type (decls : list decl) :
  _plugin_type (registered str_lower plugin_type decls) = plugin_type.
Proof.
  induction decls as [| [n c] decls IH] using rev_ind; [done |].
  by rewrite registered_snoc.
Qed.

(** What a lookup finds: the class of the latest declaration whose name has
    the same lowering, and nothing when there is none. *)
Lemma get_registered plugin_type (decls : list decl) name :
  match get str_lower (registered str_lower plugin_type decls) name with
  | Some c =>
      ∃ pre post n, decls = pre ++ (n, c) :: post ∧ str_lower n = str_lower name
                    ∧ ∀ d, d ∈ post → str_lower d.1 ≠ str_lower name
  | None => ∀ d, d ∈ decls → str_lower d.1 ≠ str_lower name
  end.
Proof.
  induction decls as [| [n c] decls IH] using rev_ind.
  - simpl. by intros d ?%elem_of_nil.
  - rewrite registered_snoc, get_register.
    destruct (decide (str_lower n = str_lower name)) as [Heq | Hne].
    + exists decls, [], n. split; [done |]. split; [done |].
      by intros d ?%elem_of_nil.
    + destruct (get str_lower (registered str_lower plugin_type decls) name) as [c' |].
      * destruct IH as (pre & post & n' & -> & Hn' & Hpost).
        exists pre, (post ++ [(n, c)]), n'. split; [by rewrite <- app_assoc |].
        split; [done |].
        intros d [Hd | ->%list_elem_of_singleton]%elem_of_app; [by apply Hpost | done].
      * intros d [Hd | ->%list_elem_of_singleton]%elem_of_app; [by apply IH | done].
Qed.

Lemma list_names_registered plugin_type (decls : list decl) x :
  x ∈ list_names (registered str_lower plugin_type decls)
  ↔ ∃ d, d ∈ decls ∧ x = str_lower d.1.
Proof.
  induction decls as [| [n c] decls IH] using rev_ind.
  - simpl. split; [by intros ?%elem_of_nil | by intros (d & ?%elem_of_nil & _)].
  - rewrite registered_snoc. unfold list_names, register. simpl.
    fold (list_names (registered str_lower plugin_type decls)) in IH.
    destruct (decide (str_lower n
                      ∈ PyDict.keys (_plugins (registered str_lower plugin_type decls))))
      as [Hin | Hnotin].
    + rewrite PyDict.keys_set_in by done.
      unfold list_names in IH. rewrite IH. split.
      * intros (d & Hd & ->). exists d. split; [| done]. apply elem_of_app. by left.
      * intros (d & [Hd | ->%list_elem_of_singleton]%elem_of_app & ->).
        -- by exists d.
        -- by apply IH.
    + rewrite PyDict.keys_set_notin by done. rewrite elem_of_app.
      unfold list_names in IH. rewrite IH. split.
      * intros [(d & Hd & ->) | ->%list_elem_of_singleton].
        -- exists d. split; [| done]. apply elem_of_app. by left.
        -- exists (n, c). split; [| done]. apply elem_of_app. right. left.
      * intros (d & [Hd | ->%list_elem_of_singleton]%elem_of_app & ->).
        -- left. by exists d.
        -- right. left.
Qed.

Lemma list_names_NoDup plugin_type (decls : list decl) :
  NoDup (list_names (registered str_lower plugin_type decls)).
Proof.
  induction decls as [| [n c] decls IH] using rev_ind; [constructor |].
  rewrite registered_snoc. unfold list_names, register. simpl.
  by apply PyDict.NoDup_keys_set.
Qed.

Lemma has_get (cls : PluginRegistry Args Instance) name :
  has str_lower cls name = true ↔ is_Some (get str_lower cls name).
Proof. unfold has, get, PyDict.has. apply bool_decide_eq_true. Qed.

(** What [str.lower] does on ASCII strings. *)
Hypothesis str_lower_ascii : ∀ s, ascii_only s = true → str_lower s = lower s.

Lemma same_lowering_ascii s t :
  ascii_only s = true → ascii_only t = true →
  str_lower s = str_lower t ↔ same_up_to_case s t = true.
Proof using str_lower_ascii.
  intros Hs Ht. rewrite !str_lower_ascii by done. apply same_up_to_case_spec.
Qed.

(** C9 (amended): on the registry built by any sequence of [register]
    calls, every registered name is listed, and [create(name, args)] does
    one of two things.  When no registered name has the lowering of [name],
    it raises the [KeyError] whose message names the plugin type and the
    requested name and lists [list_names()].  Otherwise it calls the class
    registered last under that lowering, never another one, and returns
    what the constructor returns or raises what the constructor raises.  So
    it raises exactly when the name is not registered or the constructor
    raises.  For ASCII names, having the same lowering is being equal up to
    the case of the letters. *)
Theorem create_spec (plugin_type : string) (decls : list decl) (name : string)
    (args : Args) :
  let cls := registered str_lower plugin_type decls in
  (∀ d, d ∈ decls → str_lower d.1 ∈ list_names cls)
  ∧ match get str_lower cls name with
    | None =>
        (∀ d, d ∈ decls → str_lower d.1 ≠ str_lower name)
        ∧ create str_lower cls name args
          = Raise (KeyError ("Unknown " +:+ plugin_type +:+ " '" +:+ name +:+ "'. "
                             +:+ "Available: " +:+ String.concat ", " (list_names cls)))
    | Some c =>
        (∃ pre post n,
           decls = pre ++ (n, c) :: post ∧ str_lower n = str_lower name
           ∧ ∀ d, d ∈ post → str_lower d.1 ≠ str_lower name)
        ∧ create str_lower cls name args = c args
    end
  ∧ ((∃ e, create str_lower cls name args = Raise e)
     ↔ (∀ d, d ∈ decls → str_lower d.1 ≠ str_lower name)
       ∨ (∃ c e, get str_lower cls name = Some c ∧ c args = Raise e))
  ∧ (ascii_only name = true → (∀ d, d ∈ decls → ascii_only d.1 = true) →
     (get str_lower cls name = None
      ↔ ∀ d, d ∈ decls → same_up_to_case d.1 name = false)).
Proof using str_lower_ascii.
  intros cls.
  pose proof (get_registered plugin_type decls name) as Hget. fold cls in Hget.
  assert (get str_lower cls name = None
          ↔ ∀ d, d ∈ decls → str_lower d.1 ≠ str_lower name) as Hnone.
  { destruct (get str_lower cls name) as [c |]; [| done].
    destruct Hget as (pre & post & n & -> & Hn & _). split; [done |].
    intros Hno. exfalso. eapply (Hno (n, c)); [| done].
    apply elem_of_app. right. left. }
  split_and!.
  - intros d Hd. apply list_names_registered. by exists d.
  - unfold create. destruct (get str_lower cls name) as [c |]; [done |].
    split; [done |]. unfold unknown_message. subst cls.
    by rewrite plugin_type_registered.
  - rewrite <- Hnone. unfold create.
    destruct (get str_lower cls name) as [c |].
    + split.
      * intros [e He]. right. by exists c, e.
      * intros [? | (c' & e & [= <-] & He)]; [done | by exists e].
    + split; [by left | by eexists].
  - intros Hname Hdecls. rewrite Hnone. split.
    + intros Hno d Hd. apply not_true_is_false.
      rewrite <- same_lowering_ascii by auto. by apply Hno.
    + intros Hno d Hd. rewrite same_lowering_ascii by auto.
      by rewrite (Hno d Hd).
Qed.

(** On the registry built by any sequence of [register] calls: the listed
    names are the lowerings of the registered names, without repetition,
    and in small letters where the registered name is ASCII; [has], [get]
    and [list_names] agree on which names are registered, and [create]
    calls the registered class exactly for those; registering a name whose
    lowering is already there replaces the class and leaves the list of
    names as it is, while a new name goes to the end. *)
Theorem registry_names (plugin_type : string) (decls : list decl) :
  let cls := registered str_lower plugin_type decls in
  NoDup (list_names cls)
  ∧ (∀ x, x ∈ list_names cls ↔ ∃ d, d ∈ decls ∧ x = str_lower d.1)
  ∧ (∀ d, d ∈ decls → ascii_only d.1 = true →
          lower d.1 ∈ list_names cls ∧ lower (lower d.1) = lower d.1
          ∧ same_up_to_case (lower d.1) d.1 = true)
  ∧ (∀ name, has str_lower cls name = true ↔ str_lower name ∈ list_names cls)
  ∧ (∀ name, has str_lower cls name = true ↔ is_Some (get str_lower cls name))
  ∧ (∀ name args,
       if has str_lower cls name
       then ∃ c, get str_lower cls name = Some c
                 ∧ create str_lower cls name args = c args
       else create str_lower cls name args
            = Raise (KeyError (unknown_message cls name)))
  ∧ (∀ name plugin_class,
       get str_lower (register str_lower cls name plugin_class) name
       = Some plugin_class
       ∧ list_names (register str_lower cls name plugin_class)
         = if has str_lower cls name then list_names cls
           else list_names cls ++ [str_lower name]).
Proof using str_lower_ascii.
  intros cls. split_and!.
  - apply list_names_NoDup.
  - intros x. apply list_names_registered.
  - intros d Hd Hascii. split_and!.
    + rewrite <- str_lower_ascii by done. apply list_names_registered. by exists d.
    + apply lower_idemp.
    + apply lower_no_upper.
  - intros name. rewrite has_get. unfold get, list_names.
    by rewrite PyDict.elem_of_keys_get.
  - apply has_get.
  - intros name args. destruct (has str_lower cls name) eqn:Hh.
    + apply has_get in Hh as [c Hc]. exists c. split; [done |].
      unfold create. by rewrite Hc.
    + unfold create. destruct (get str_lower cls name) as [c |] eqn:Hc; [| done].
      assert (has str_lower cls name = true) by (apply has_get; by eexists).
      congruence.
  - intros name plugin_class. split.
    + rewrite get_register. by rewrite decide_True.
    + unfold list_names, register. cbn [_plugins].
      destruct (has str_lower cls name) eqn:Hh.
      * apply PyDict.keys_set_in, PyDict.elem_of_keys_get. by apply has_get.
      * apply PyDict.keys_set_notin. intros Hin%PyDict.elem_of_keys_get.
        apply has_get in Hin. congruence.
Qed.

End registry_facts.

(** C9 as stated fails: [create] also raises for a registered name, when
    the constructor of the registered class raises.  [RadialShape] is
    registered as ["radial"]; called on the int 5 it evaluates
    [config.get('spoke_count', 5)] on an int, which has no such method,
    and the [AttributeError] leaves [create].  The same holds whatever the
    base constructor does with the argument. *)
Lemma create_registered_raises_counterexample :
  has lower ShapeRegistry "radial" = true
  ∧ "radial" ∈ list_names ShapeRegistry
  ∧ create lower ShapeRegistry "radial" (PyInt 5) = Raise AttributeError
  ∧ (∀ (Base : Type) (super_init : PyArg → result Base),
       ∃ e, create lower (registered lower "shape" (shape_decls super_init))
              "radial" (PyInt 5) = Raise e).
Proof.
  split; [reflexivity |]. split; [compute_done |]. split; [reflexivity |].
  intros Base super_init.
  change (∃ e, RadialShape super_init (PyInt 5) = Raise e).
  unfold RadialShape. destruct (super_init (PyInt 5)) as [base | e]; by eexists.
Qed.

Lemma create_spec_witness :
  let cls := ShapeRegistry in
  (∀ d, d ∈ shape_decls Ok → lower d.1 ∈ list_names cls)
  ∧ match get lower cls "Radial" with
    | None =>
        (∀ d, d ∈ shape_decls Ok → lower d.1 ≠ lower "Radial")
        ∧ create lower cls "Radial" (PyDictArg [])
          = Raise (KeyError ("Unknown " +:+ "shape" +:+ " '" +:+ "Radial" +:+ "'. "
                             +:+ "Available: " +:+ String.concat ", " (list_names cls)))
    | Some c =>
        (∃ pre post n,
           shape_decls Ok = pre ++ (n, c) :: post ∧ lower n = lower "Radial"
           ∧ ∀ d, d ∈ post → lower d.1 ≠ lower "Radial")
        ∧ create lower cls "Radial" (PyDictArg []) = c (PyDictArg [])
    end
  ∧ ((∃ e, create lower cls "Radial" (PyDictArg []) = Raise e)
     ↔ (∀ d, d ∈ shape_decls Ok → lower d.1 ≠ lower "Radial")
       ∨ (∃ c e, get lower cls "Radial" = Some c ∧ c (PyDictArg []) = Raise e))
  ∧ (ascii_only "Radial" = true → (∀ d, d ∈ shape_decls Ok → ascii_only d.1 = true) →
     (get lower cls "Radial" = None
      ↔ ∀ d, d ∈ shape_decls Ok → same_up_to_case d.1 "Radial" = false)).
Proof.
  apply (create_spec lower (λ s _, eq_refl) "shape" (shape_decls Ok) "Radial"
           (PyDictArg [])).
Defined.

Lemma registry_names_witness :
  NoDup (list_names ShapeRegistry)
  ∧ (∀ x, x ∈ list_names ShapeRegistry ↔ ∃ d, d ∈ shape_decls Ok ∧ x = lower d.1)
  ∧ (∀ d, d ∈ shape_decls Ok → ascii_only d.1 = true →
          lower d.1 ∈ list_names ShapeRegistry ∧ lower (lower d.1) = lower d.1
          ∧ same_up_to_case (lower d.1) d.1 = true)
  ∧ (∀ name, has lower ShapeRegistry name = true ↔ lower name ∈ list_names ShapeRegistry)
  ∧ (∀ name, has lower ShapeRegistry name = true ↔ is_Some (get lower ShapeRegistry name))
  ∧ (∀ name args,
       if has lower ShapeRegistry name
       then ∃ c, get lower ShapeRegistry name = Some c
                 ∧ create lower ShapeRegistry name args = c args
       else create lower ShapeRegistry name args
            = Raise (KeyError (unknown_message ShapeRegistry name)))
  ∧ (∀ name plugin_class,
       get lower (register lower ShapeRegistry name plugin_class) name
       = Some plugin_class
       ∧ list_names (register lower ShapeRegistry name plugin_class)
         = if has lower ShapeRegistry name then list_names ShapeRegistry
           else list_names ShapeRegistry ++ [lower name]).
Proof.
  apply (registry_names lower (λ s _, eq_refl) "shape" (shape_decls Ok)).
Defined.

End Registry.

(** * core/node.py *)

Module Node.

(** Modelled from the spec: [core/node.py] is not among the sources.  The
    node model of the specification (section 3): identity, tier, theme,
    depth, root flag, 2D position, and the two link collections, which
    [tree_builder.py] handles as lists of ids ([append], [remove]). *)
Record TreeNode : Type := {
  form_id : string;
  name : string;
  tier : string;
  theme : string;
  depth : Z;
  is_root : bool;
  position : float * float;
  children : list string;
  prerequisites : list string
}.

Definition set_children (l : list string) (n : TreeNode) : TreeNode :=
  {| form_id := form_id n; name := name n; tier := tier n; theme := theme n;
     depth := depth n; is_root := is_root n; position := position n;
     children := l; prerequisites := prerequisites n |}.

Definition set_prerequisites (l : list string) (n : TreeNode) : TreeNode :=
  {| form_id := form_id n; name := name n; tier := tier n; theme := theme n;
     depth := depth n; is_root := is_root n; position := position n;
     children := children n; prerequisites := l |}.

Definition set_depth (d : Z) (n : TreeNode) : TreeNode :=
  {| form_id := form_id n; name := name n; tier := tier n; theme := theme n;
     depth := d; is_root := is_root n; position := position n;
     children := children n; prerequisites := prerequisites n |}.

Definition set_position (p : float * float) (n : TreeNode) : TreeNode :=
  {| form_id := form_id n; name := name n; tier := tier n; theme := theme n;
     depth := depth n; is_root := is_root n; position := p;
     children := children n; prerequisites := prerequisites n |}.

(** Modelled from the spec: [TreeNode.add_child] and
    [TreeNode.add_prerequisite].  The specification describes both
    collections as sets of ids, so adding an id already present changes
    nothing. *)
Definition add_child (child_id : string) (n : TreeNode) : TreeNode :=
  if decide (child_id ∈ children n) then n
  else set_children (children n ++ [child_id]) n.

Definition add_prerequisite (prereq_id : string) (n : TreeNode) : TreeNode :=
  if decide (prereq_id ∈ prerequisites n) then n
  else set_prerequisites (prerequisites n ++ [prereq_id]) n.

(** Modelled from the spec: a node as [TreeNode.from_spell] creates it,
    before any link exists. *)
Definition fresh_node (id tier_name theme_name : string) : TreeNode :=
  {| form_id := id; name := id; tier := tier_name; theme := theme_name;
     depth := 0; is_root := false; position := (0%float, 0%float);
     children := []; prerequisites := [] |}.

End Node.

(** * core/math_utils.py *)

Module MathUtils.

Record Vector2D : Type := { x : float; y : float }.

(** [Vector2D()] and [Vector2D(0, 0)] *)
Definition zero : Vector2D := {| x := 0; y := 0 |}.

Definition add (a b : Vector2D) : Vector2D :=
  {| x := x a + x b; y := y a + y b |}%float.

Definition sub (a b : Vector2D) : Vector2D :=
  {| x := x a - x b; y := y a - y b |}%float.

Definition mul (a : Vector2D) (scalar : float) : Vector2D :=
  {| x := x a * scalar; y := y a * scalar |}%float.

Definition truediv (a : Vector2D) (scalar : float) : Vector2D :=
  if (scalar =? 0)%float then zero
  else {| x := x a / scalar; y := y a / scalar |}%float.

Definition magnitude (a : Vector2D) : float :=
  sqrt (x a * x a + y a * y a)%float.

Definition normalized (a : Vector2D) : Vector2D :=
  let mag := magnitude a in
  if (mag =? 0)%float then zero else truediv a mag.

Definition distance_to (a b : Vector2D) : float := magnitude (sub a b).

Definition to_tuple (a : Vector2D) : float * float := (x a, y a).

Lemma magnitude_sub_diag (p : Vector2D) :
  (0 <? magnitude (sub p p))%float = false.
Proof. apply PyFloat.self_distance_not_positive. Qed.

End MathUtils.

(** * core/spacing.py *)

Module Spacing.
Import PyFloat MathUtils.

Record SpacingConfig : Type := {
  cfg_min_spacing : float;
  grid_cell_size : float;
  repulsion_strength : float;
  repulsion_iterations : Z
}.

(** The defaults of the dataclass. *)
Definition default_config : SpacingConfig :=
  {| cfg_min_spacing := 1.0; grid_cell_size := 2.0;
     repulsion_strength := 0.5; repulsion_iterations := 3 |}.

(** The engine.  The grid index is only read through lookups (a [gmap]); its
    cells are sets; [positions] is iterated, so it keeps insertion order. *)
Record SpacingEngine : Type := {
  config : SpacingConfig;
  min_spacing : float;
  cell_size : float;
  spatial_index : gmap (Z * Z) (gset string);
  positions : list (string * Vector2D)
}.

Definition init (cfg : SpacingConfig) : SpacingEngine :=
  {| config := cfg; min_spacing := cfg_min_spacing cfg;
     cell_size := grid_cell_size cfg; spatial_index := ∅; positions := [] |}.

Definition with_state (self : SpacingEngine) (index : gmap (Z * Z) (gset string))
    (pos : list (string * Vector2D)) : SpacingEngine :=
  {| config := config self; min_spacing := min_spacing self;
     cell_size := cell_size self; spatial_index := index; positions := pos |}.

Definition _get_cell (self : SpacingEngine) (pos : Vector2D) : result (Z * Z) :=
  cx ← py_floordiv_int (x pos) (cell_size self);
  cy ← py_floordiv_int (y pos) (cell_size self);
  Ok (cx, cy).

(** [range(a, b)] *)
Definition range (a b : Z) : list Z := seqZ a (b - a).

(** [int(radius / self.cell_size) + 1] *)
Definition cells_radius_of (self : SpacingEngine) (radius : float) : result Z :=
  q ← py_truediv radius (cell_size self);
  k ← py_int q;
  Ok (k + 1).

Definition _get_nearby_cells (self : SpacingEngine) (pos : Vector2D)
    (radius : float) : result (list (Z * Z)) :=
  center_cell ← _get_cell self pos;
  cells_radius ← cells_radius_of self radius;
  Ok (dx ← range (- cells_radius) (cells_radius + 1);
      dy ← range (- cells_radius) (cells_radius + 1);
      [(center_cell.1 + dx, center_cell.2 + dy)]).

Definition register_node (self : SpacingEngine) (node_id : string)
    (position : Vector2D) : result SpacingEngine :=
  index1 ←
    match PyDict.get (positions self) node_id with
    | Some old_pos =>
        old_cell ← _get_cell self old_pos;
        Ok (alter (λ s, s ∖ {[node_id]}) old_cell (spatial_index self))
    | None => Ok (spatial_index self)
    end;
  let positions' := PyDict.set (positions self) node_id position in
  cell ← _get_cell self position;
  let members := default ∅ (index1 !! cell) in
  Ok (with_state self (<[cell := members ∪ {[node_id]}]> index1) positions').

Section with_set_order.
Context `{SetOrder}.

(** [radius or self.min_spacing * 2]: an absent or zero radius takes the
    default. *)
Definition effective_radius (self : SpacingEngine) (radius : option float) : float :=
  match radius with
  | Some r => if (r =? 0)%float then (min_spacing self * 2)%float else r
  | None => (min_spacing self * 2)%float
  end.

Definition get_nearby_nodes (self : SpacingEngine) (position : Vector2D)
    (radius : option float) : result (list string) :=
  let radius := effective_radius self radius in
  cells ← _get_nearby_cells self position radius;
  foldM (λ nearby cell,
           match spatial_index self !! cell with
           | Some members =>
               foldM (λ nearby node_id,
                        match PyDict.get (positions self) node_id with
                        | Some node_pos =>
                            if (distance_to node_pos position <=? radius)%float
                            then Ok (nearby ++ [node_id]) else Ok nearby
                        | None => Raise (KeyError node_id)
                        end)
                     (set_iter members) nearby
           | None => Ok nearby
           end)
        cells [].

(** The force on one node from one neighbour (the body of the inner loop of
    [repel_nearby_nodes]). *)
Definition add_repulsion (self : SpacingEngine) (strength : float)
    (node_id : string) (pos : Vector2D)
    (forces : list (string * Vector2D)) (other_id : string)
    : result (list (string * Vector2D)) :=
  if decide (other_id = node_id) then Ok forces
  else
    match PyDict.get (positions self) other_id with
    | None => Raise (KeyError other_id)
    | Some other_pos =>
        let diff := sub pos other_pos in
        let dist := magnitude diff in
        if ((dist <? min_spacing self) && (0 <? dist))%float then
          let force_mag := ((min_spacing self - dist) * strength)%float in
          let force := mul (normalized diff) force_mag in
          match PyDict.get forces node_id with
          | Some old => Ok (PyDict.set forces node_id (add old force))
          | None => Raise (KeyError node_id)
          end
        else Ok forces
    end.

(** Applying one accumulated force (the body of the second loop). *)
Definition apply_force (state : SpacingEngine * list (string * Node.TreeNode))
    (entry : string * Vector2D)
    : result (SpacingEngine * list (string * Node.TreeNode)) :=
  let '(self, nodes) := state in
  let '(node_id, force) := entry in
  if (0 <? magnitude force)%float then
    match PyDict.get (positions self) node_id with
    | None => Raise (KeyError node_id)
    | Some old_pos =>
        let new_pos := add old_pos force in
        self' ← register_node self node_id new_pos;
        Ok (self', PyDict.update nodes node_id (Node.set_position (to_tuple new_pos)))
    end
  else Ok state.

Definition repel_iteration (state : SpacingEngine * list (string * Node.TreeNode))
    : result (SpacingEngine * list (string * Node.TreeNode)) :=
  let '(self, nodes) := state in
  let strength := repulsion_strength (config self) in
  let forces0 := (λ e : string * Vector2D, (e.1, zero)) <$> positions self in
  forces ←
    foldM (λ forces (e : string * Vector2D),
             nearby ← get_nearby_nodes self e.2 None;
             foldM (add_repulsion self strength e.1 e.2) nearby forces)
          (positions self) forces0;
  foldM apply_force forces (self, nodes).

Fixpoint repeat_iterations (n : nat)
    (state : SpacingEngine * list (string * Node.TreeNode))
    : result (SpacingEngine * list (string * Node.TreeNode)) :=
  match n with
  | O => Ok state
  | S n' => state' ← repel_iteration state; repeat_iterations n' state'
  end.

(** [iterations or self.config.repulsion_iterations] *)
Definition effective_iterations (self : SpacingEngine) (iterations : option Z) : Z :=
  match iterations with
  | Some n => if (n =? 0)%Z then repulsion_iterations (config self) else n
  | None => repulsion_iterations (config self)
  end.

Definition repel_nearby_nodes (self : SpacingEngine)
    (nodes : list (string * Node.TreeNode)) (iterations : option Z)
    : result (SpacingEngine * list (string * Node.TreeNode)) :=
  repeat_iterations (Z.to_nat (effective_iterations self iterations)) (self, nodes).

End with_set_order.

(** The number of node pairs closer than [min_spacing] (the measure of the
    specification's spacing scenario). *)
Fixpoint close_pairs_of (limit : float) (ps : list Vector2D) : nat :=
  match ps with
  | [] => O
  | p :: rest =>
      (length (List.filter (λ q, (distance_to p q <? limit)%float) rest)
       + close_pairs_of limit rest)%nat
  end.

Definition close_pairs (self : SpacingEngine) : nat :=
  close_pairs_of (min_spacing self) (positions self).*2.

(** Registering every id of a list at one position, on a fresh engine. *)
Definition register_all (cfg : SpacingConfig) (ids : list string) (p : Vector2D)
    : result SpacingEngine :=
  foldM (λ self node_id, register_node self node_id p) ids (init cfg).

(** Forty distinct ids. *)
Definition forty_ids : list string :=
  (λ i : nat, String (ascii_of_nat (48 + i / 10)) (String (ascii_of_nat (48 + i mod 10)) ""))
    <$> seq 0 40.

(** The cluster of the scenario: forty nodes registered at the origin of a
    default engine ([min_spacing = 1.0]). *)
Definition cluster40 : SpacingEngine :=
  match register_all default_config forty_ids zero with
  | Ok e => e
  | Raise _ => init default_config
  end.

(** *** Coincident nodes do not repel *)

(** C8 as stated fails: after one iteration, and after the configured three,
    the forty coincident nodes are where they were, so the count of close
    pairs is still 780: it has not decreased and is not zero. *)
Lemma repel_coincident_counterexample :
  register_all default_config forty_ids zero = Ok cluster40
  ∧ close_pairs cluster40 = 780%nat
  ∧ repel_nearby_nodes cluster40 [] (Some 1) = Ok (cluster40, [])
  ∧ repel_nearby_nodes cluster40 [] None = Ok (cluster40, []).
Proof.
  split; [vm_compute; reflexivity |].
  split; [vm_compute; reflexivity |].
  split; vm_compute; reflexivity.
Qed.

(** What holds of an engine all of whose nodes sit at [p]. *)
Record coincident (p : Vector2D) (self : SpacingEngine) : Prop := {
  coincident_positions : ∀ k v, (k, v) ∈ positions self → v = p;
  coincident_index : ∀ cell members id,
    spatial_index self !! cell = Some members → id ∈ members →
    is_Some (PyDict.get (positions self) id);
  coincident_cell : positions self ≠ [] → is_ok (_get_cell self p)
}.

Lemma coincident_init cfg p : coincident p (init cfg).
Proof.
  split; simpl.
  - by intros k v ?%elem_of_nil.
  - intros cell members id Hc. by rewrite lookup_empty in Hc.
  - done.
Qed.

Lemma set_values_eq {V : Type} (d : list (string * V)) k v k' v' :
  (k', v') ∈ PyDict.set d k v → (k', v') ∈ d ∨ v' = v.
Proof.
  induction d as [| [k0 v0] d IH]; simpl.
  - intros [= -> ->]%list_elem_of_singleton. by right.
  - destruct (decide (k = k0)) as [-> | Hne].
    + intros [[= -> ->] | Hin]%elem_of_cons; [by right | left; by right].
    + intros [[= -> ->] | Hin]%elem_of_cons; [left; by left |].
      destruct (IH Hin) as [? | ?]; [left; by right | by right].
Qed.

Lemma register_node_fields self id p self' :
  register_node self id p = Ok self' →
  config self' = config self ∧ min_spacing self' = min_spacing self
  ∧ cell_size self' = cell_size self.
Proof.
  unfold register_node. intros Hreg.
  destruct (match PyDict.get (positions self) id with
            | Some old_pos => _ | None => _ end) as [index1 |]; simpl in Hreg; [| done].
  destruct (_get_cell self p) as [cell |]; simpl in Hreg; [| done].
  by injection Hreg as <-.
Qed.

Lemma register_node_coincident self id p self' :
  coincident p self → register_node self id p = Ok self' → coincident p self'.
Proof.
  intros [Hpos Hidx Hcell] Hreg. unfold register_node in Hreg.
  destruct (match PyDict.get (positions self) id with
            | Some old_pos => _ | None => _ end) as [index1 |] eqn:Hindex1;
    simpl in Hreg; [| done].
  destruct (_get_cell self p) as [cell |] eqn:Hc; simpl in Hreg; [| done].
  injection Hreg as <-.
  assert (∀ c members i, index1 !! c = Some members → i ∈ members →
            is_Some (PyDict.get (positions self) i)) as Hidx1.
  { destruct (PyDict.get (positions self) id) as [old_pos |].
    - destruct (_get_cell self old_pos) as [old_cell |]; simpl in Hindex1; [| done].
      injection Hindex1 as <-. intros c members i Hlk Hi.
      rewrite lookup_alter in Hlk. case_decide as Hcase.
      + subst c.
        destruct (spatial_index self !! old_cell) as [m0 |] eqn:Hm0; simpl in Hlk; [| done].
        injection Hlk as <-. apply (Hidx old_cell m0 i Hm0).
        by apply elem_of_difference in Hi as [Hi _].
      + by apply (Hidx c members i).
    - injection Hindex1 as <-. exact Hidx. }
  split; simpl.
  - intros k v Hin. apply set_values_eq in Hin as [Hin | ->]; [by eapply Hpos | done].
  - intros c members i Hlk Hi. rewrite PyDict.get_set.
    case_decide; [by eexists |].
    rewrite lookup_insert in Hlk. case_decide as Hcase.
    + injection Hlk as <-. apply elem_of_union in Hi as [Hi | Hi].
      * destruct (index1 !! cell) as [m0 |] eqn:Hm0; simpl in Hi.
        -- by apply (Hidx1 cell m0 i).
        -- by apply not_elem_of_empty in Hi.
      * apply elem_of_singleton in Hi. congruence.
    + by apply (Hidx1 c members i).
  - intros _. exists cell. exact Hc.
Qed.

Lemma register_all_coincident cfg ids p engine :
  register_all cfg ids p = Ok engine → coincident p engine.
Proof.
  unfold register_all.
  apply (foldM_preserves _ (coincident p)); [apply coincident_init |].
  intros self id self' _. apply register_node_coincident.
Qed.

Section with_set_order_facts.
Context `{SetOrder}.

Lemma get_nearby_nodes_coincident self p :
  coincident p self → positions self ≠ [] →
  is_ok (cells_radius_of self (min_spacing self * 2)) →
  ∃ nearby, get_nearby_nodes self p None = Ok nearby
            ∧ ∀ o, o ∈ nearby → PyDict.get (positions self) o = Some p.
Proof.
  intros [Hpos Hidx Hcell] Hne [cr Hcr]. unfold get_nearby_nodes, _get_nearby_cells.
  simpl effective_radius.
  destruct (Hcell Hne) as [cell ->]. simpl. rewrite Hcr. simpl.
  apply foldM_invariant; [by intros o ?%elem_of_nil |].
  intros nearby c _ Hnearby.
  destruct (spatial_index self !! c) as [members |] eqn:Hm; [| by exists nearby].
  apply foldM_invariant; [done |].
  intros nearby' id Hid Hnearby'. apply set_iter_elem_of in Hid.
  destruct (Hidx c members id Hm Hid) as [v Hv]. rewrite Hv.
  assert (v = p) as -> by (eapply Hpos, PyDict.get_Some_elem_of, Hv).
  destruct (distance_to p p <=? min_spacing self * 2)%float.
  - eexists. split; [done |].
    intros o [Ho | ->%list_elem_of_singleton]%elem_of_app; [by apply Hnearby' | done].
  - by exists nearby'.
Qed.

Lemma add_repulsion_coincident self strength node_id p forces other_id :
  PyDict.get (positions self) other_id = Some p →
  add_repulsion self strength node_id p forces other_id = Ok forces.
Proof.
  intros Hother. unfold add_repulsion. case_decide; [done |].
  rewrite Hother. simpl.
  by rewrite magnitude_sub_diag, andb_false_r.
Qed.

Lemma apply_force_zero state node_id :
  apply_force state (node_id, zero) = Ok state.
Proof. by destruct state. Qed.

Lemma repel_iteration_coincident self nodes p :
  coincident p self →
  is_ok (cells_radius_of self (min_spacing self * 2)) →
  repel_iteration (self, nodes) = Ok (self, nodes).
Proof.
  intros Hco Hcr. unfold repel_iteration.
  set (forces0 := (λ e : string * Vector2D, (e.1, zero)) <$> positions self).
  destruct (foldM_invariant
              (λ forces (e : string * Vector2D),
                 nearby ← get_nearby_nodes self e.2 None;
                 foldM (add_repulsion self (repulsion_strength (config self)) e.1 e.2)
                   nearby forces)
              (λ forces, forces = forces0) (positions self) forces0)
    as (forces & -> & ->); [done | |].
  - intros ? [k v] Hin ->. simpl.
    assert (v = p) as -> by (eapply coincident_positions; eauto).
    destruct (get_nearby_nodes_coincident self p Hco) as (nearby & -> & Hnearby);
      [by intros Hnil; rewrite Hnil in Hin; apply elem_of_nil in Hin | done |].
    simpl. apply foldM_invariant; [done |].
    intros ? o Ho ->. exists forces0. split; [| done].
    apply add_repulsion_coincident. by apply Hnearby.
  - simpl.
    destruct (foldM_invariant apply_force (λ st, st = (self, nodes)) forces0 (self, nodes))
      as (st & -> & ->); [done | | done].
    intros ? [k f] Hin ->. exists (self, nodes). split; [| done].
    unfold forces0 in Hin. apply list_elem_of_fmap in Hin as ([k' v'] & [= -> ->] & _).
    apply apply_force_zero.
Qed.

Lemma repeat_iterations_coincident n self nodes p :
  coincident p self →
  is_ok (cells_radius_of self (min_spacing self * 2)) →
  repeat_iterations n (self, nodes) = Ok (self, nodes).
Proof.
  intros Hco Hcr. induction n as [| n IH]; [done |].
  change (repeat_iterations (S n) (self, nodes))
    with (state' ← repel_iteration (self, nodes); repeat_iterations n state').
  by rewrite (repel_iteration_coincident self nodes p).
Qed.

(** C8 (amended): on an engine whose nodes were all registered at one
    position (forty of them or any other number, [min_spacing = 1.0] or any
    other value for which the neighbourhood radius is defined),
    [repel_nearby_nodes] changes nothing, whatever the iteration count: two
    coincident nodes are at distance 0 and the force is only applied when
    [dist > 0].  Every position, and with it the count of pairs closer than
    [min_spacing], stays as it was. *)
Theorem repel_coincident_cluster (cfg : SpacingConfig) (ids : list string)
    (p : Vector2D) (engine : SpacingEngine)
    (nodes : list (string * Node.TreeNode)) (iterations : option Z) :
  register_all cfg ids p = Ok engine →
  is_ok (cells_radius_of engine (min_spacing engine * 2)) →
  ∃ engine' nodes',
    repel_nearby_nodes engine nodes iterations = Ok (engine', nodes')
    ∧ positions engine' = positions engine
    ∧ nodes' = nodes
    ∧ close_pairs engine' = close_pairs engine.
Proof.
  intros Hreg Hcr. exists engine, nodes. split; [| done].
  unfold repel_nearby_nodes.
  apply (repeat_iterations_coincident _ _ _ p); [| done].
  by eapply register_all_coincident.
Qed.

End with_set_order_facts.

Lemma repel_coincident_cluster_witness :
  ∃ engine' nodes',
    repel_nearby_nodes cluster40 [] (Some 3) = Ok (engine', nodes')
    ∧ positions engine' = positions cluster40
    ∧ nodes' = []
    ∧ close_pairs engine' = close_pairs cluster40.
Proof.
  apply (repel_coincident_cluster default_config forty_ids zero cluster40 [] (Some 3)).
  - vm_compute. reflexivity.
  - exists 2. vm_compute. reflexivity.
Defined.

(** *** [unregister_node], [check_overlap], [clear] *)

(** [del d[k]] *)
Definition dict_del {V : Type} (d : list (string * V)) (k : string)
    : list (string * V) :=
  List.filter (λ e, negb (bool_decide (e.1 = k))) d.

Definition unregister_node (self : SpacingEngine) (node_id : string)
    : result SpacingEngine :=
  match PyDict.get (positions self) node_id with
  | Some pos =>
      cell ← _get_cell self pos;
      Ok (with_state self
            (alter (λ s, s ∖ {[node_id]}) cell (spatial_index self))
            (dict_del (positions self) node_id))
  | None => Ok self
  end.

Definition clear (self : SpacingEngine) : SpacingEngine := with_state self ∅ [].

Section overlap.
Context `{SetOrder}.

(** [check_overlap(position, exclude_id)]; the loop returns at the first
    node that is too close. *)
Definition check_overlap (self : SpacingEngine) (position : Vector2D)
    (exclude_id : option string) : result bool :=
  nearby ← get_nearby_nodes self position (Some (min_spacing self));
  foldM (λ (found : bool) node_id,
           if found then Ok true
           else if bool_decide (exclude_id = Some node_id) then Ok false
           else
             match PyDict.get (positions self) node_id with
             | None => Raise (KeyError node_id)
             | Some node_pos =>
                 Ok (distance_to node_pos position <? min_spacing self)%float
             end)
        nearby false.

End overlap.

(** *** The index and the positions agree *)

(** Every id of a cell has a position, and that position lies in the cell;
    every positioned id is in the cell of its position. *)
Record indexed (self : SpacingEngine) : Prop := {
  indexed_sound : ∀ cell members id,
    spatial_index self !! cell = Some members → id ∈ members →
    ∃ p, PyDict.get (positions self) id = Some p ∧ _get_cell self p = Ok cell;
  indexed_complete : ∀ id p,
    PyDict.get (positions self) id = Some p →
    ∃ cell members, _get_cell self p = Ok cell
                    ∧ spatial_index self !! cell = Some members ∧ id ∈ members
}.

(** The engines that the methods build. *)
Inductive built : SpacingEngine → Prop :=
| built_init cfg : built (init cfg)
| built_register self node_id position self' :
    built self → register_node self node_id position = Ok self' → built self'
| built_unregister self node_id self' :
    built self → unregister_node self node_id = Ok self' → built self'
| built_clear self : built self → built (clear self).

Lemma get_cell_with_state self index pos p :
  _get_cell (with_state self index pos) p = _get_cell self p.
Proof. done. Qed.

Lemma get_dict_del {V : Type} (d : list (string * V)) k k' :
  PyDict.get (dict_del d k) k' = if decide (k' = k) then None else PyDict.get d k'.
Proof.
  unfold dict_del. induction d as [| [k0 v0] d IH]; cbn [List.filter PyDict.get fst].
  - by case_decide.
  - destruct (decide (k0 = k)) as [-> | Hne].
    + rewrite bool_decide_eq_true_2 by done. cbn [negb]. rewrite IH.
      by destruct (decide (k' = k)).
    + rewrite bool_decide_eq_false_2 by done. cbn [negb PyDict.get]. rewrite IH.
      destruct (decide (k' = k0)) as [-> | Hk0]; [by rewrite decide_False |].
      done.
Qed.

(** Taking [node_id] out of the cell of its old position leaves it in no
    cell. *)
Lemma discard_indexed self node_id old_cell :
  indexed self →
  (∀ p, PyDict.get (positions self) node_id = Some p → _get_cell self p = Ok old_cell) →
  let index1 := alter (λ s, s ∖ {[node_id]}) old_cell (spatial_index self) in
  (∀ cell members id, index1 !! cell = Some members → id ∈ members →
     id ≠ node_id
     ∧ ∃ p, PyDict.get (positions self) id = Some p ∧ _get_cell self p = Ok cell)
  ∧ (∀ id p, id ≠ node_id → PyDict.get (positions self) id = Some p →
       ∃ cell members, _get_cell self p = Ok cell
                       ∧ index1 !! cell = Some members ∧ id ∈ members).
Proof.
  intros [Hsound Hcomplete] Hold index1. split.
  - intros cell members id Hlk Hid. subst index1.
    rewrite lookup_alter in Hlk. case_decide as Hcase.
    + subst cell.
      destruct (spatial_index self !! old_cell) as [m0 |] eqn:Hm0; simpl in Hlk; [| done].
      injection Hlk as <-. apply elem_of_difference in Hid as [Hid Hne].
      split; [by intros ->; apply Hne, elem_of_singleton |]. by eapply Hsound.
    + destruct (Hsound _ _ _ Hlk Hid) as (p & Hp & Hc). split; [| by exists p].
      intros ->. apply Hold in Hp. congruence.
  - intros id p Hne Hp. destruct (Hcomplete _ _ Hp) as (cell & members & Hc & Hlk & Hid).
    subst index1. destruct (decide (old_cell = cell)) as [-> | Hcase].
    + exists cell, (members ∖ {[node_id]}). split_and!; [done | |].
      * by rewrite lookup_alter, decide_True, Hlk.
      * apply elem_of_difference. split; [done |]. by intros ?%elem_of_singleton.
    + exists cell, members. split_and!; [done | | done].
      by rewrite lookup_alter, decide_False.
Qed.

Lemma register_node_indexed self node_id position self' :
  indexed self → register_node self node_id position = Ok self' → indexed self'.
Proof.
  intros Hind Hreg. unfold register_node in Hreg.
  assert (∃ index1,
    (match PyDict.get (positions self) node_id with
     | Some old_pos =>
         old_cell ← _get_cell self old_pos;
         Ok (alter (λ s, s ∖ {[node_id]}) old_cell (spatial_index self))
     | None => Ok (spatial_index self)
     end = Ok index1 ∨ self' = self')
    ∧ (∀ cell members id, index1 !! cell = Some members → id ∈ members →
         id ≠ node_id
         ∧ ∃ p, PyDict.get (positions self) id = Some p ∧ _get_cell self p = Ok cell)
    ∧ (∀ id p, id ≠ node_id → PyDict.get (positions self) id = Some p →
         ∃ cell members, _get_cell self p = Ok cell
                         ∧ index1 !! cell = Some members ∧ id ∈ members)
    ∧ (cell ← _get_cell self position;
       Ok (with_state self
             (<[cell := default ∅ (index1 !! cell) ∪ {[node_id]}]> index1)
             (PyDict.set (positions self) node_id position))) = Ok self')
    as (index1 & _ & Hsound1 & Hcomplete1 & Hrest).
  { destruct (PyDict.get (positions self) node_id) as [old_pos |] eqn:Hold.
    - destruct (_get_cell self old_pos) as [old_cell |] eqn:Hoc; simpl in Hreg; [| done].
      exists (alter (λ s, s ∖ {[node_id]}) old_cell (spatial_index self)).
      destruct (discard_indexed self node_id old_cell Hind) as [Hs Hc].
      { intros p Hp. congruence. }
      split_and!; [by right | done | done | done].
    - simpl in Hreg. exists (spatial_index self). destruct Hind as [Hsound Hcomplete].
      split_and!; [by right | | | done].
      + intros cell members id Hlk Hid.
        destruct (Hsound _ _ _ Hlk Hid) as (p & Hp & Hc). split; [| by exists p].
        intros ->. congruence.
      + intros id p _ Hp. by apply Hcomplete. }
  destruct (_get_cell self position) as [cell |] eqn:Hcell; simpl in Hrest; [| done].
  injection Hrest as <-. split; cbn [spatial_index positions with_state].
  - intros c members id Hlk Hid.
    rewrite lookup_insert in Hlk. case_decide as Hcase.
    + subst c. injection Hlk as <-. apply elem_of_union in Hid as [Hid | Hid].
      * destruct (index1 !! cell) as [m0 |] eqn:Hm0; simpl in Hid;
          [| by apply not_elem_of_empty in Hid].
        destruct (Hsound1 _ _ _ Hm0 Hid) as (Hne & p & Hp & Hc).
        exists p. by rewrite PyDict.get_set_ne.
      * apply elem_of_singleton in Hid as ->. exists position.
        by rewrite PyDict.get_set_eq.
    + destruct (Hsound1 _ _ _ Hlk Hid) as (Hne & p & Hp & Hc).
      exists p. by rewrite PyDict.get_set_ne.
  - intros id p. rewrite PyDict.get_set. case_decide as Hid.
    + subst id. intros [= <-].
      exists cell, (default ∅ (index1 !! cell) ∪ {[node_id]}).
      split_and!; [done | by rewrite lookup_insert_eq | set_solver].
    + intros Hp.
      destruct (Hcomplete1 _ _ (not_eq_sym Hid) Hp) as (c & members & Hc & Hlk & Hin).
      destruct (decide (cell = c)) as [-> | Hcase].
      * exists c, (default ∅ (index1 !! c) ∪ {[node_id]}).
        split_and!; [done | by rewrite lookup_insert_eq |].
        rewrite Hlk. simpl. set_solver.
      * exists c, members. split_and!; [done | by rewrite lookup_insert_ne | done].
Qed.

Lemma unregister_node_indexed self node_id self' :
  indexed self → unregister_node self node_id = Ok self' →
  indexed self'
  ∧ PyDict.get (positions self') node_id = None
  ∧ (∀ cell members, spatial_index self' !! cell = Some members → node_id ∉ members)
  ∧ (∀ id, id ≠ node_id →
       PyDict.get (positions self') id = PyDict.get (positions self) id).
Proof.
  intros Hind Hun. unfold unregister_node in Hun.
  destruct (PyDict.get (positions self) node_id) as [pos |] eqn:Hold.
  - destruct (_get_cell self pos) as [cell |] eqn:Hcell; simpl in Hun; [| done].
    injection Hun as <-.
    destruct (discard_indexed self node_id cell Hind) as [Hs Hc].
    { intros p Hp. congruence. }
    split_and!; cbn [spatial_index positions with_state].
    + split; cbn [spatial_index positions with_state].
      * intros c members id Hlk Hid.
        destruct (Hs _ _ _ Hlk Hid) as (Hne & p & Hp & Hcp).
        exists p. rewrite get_dict_del, decide_False by done. done.
      * intros id p. rewrite get_dict_del. case_decide as Hid; [done |].
        intros Hp. by apply Hc.
    + by rewrite get_dict_del, decide_True.
    + intros c members Hlk Hid. by destruct (Hs _ _ _ Hlk Hid) as [Hne _].
    + intros id Hne. by rewrite get_dict_del, decide_False.
  - injection Hun as <-. split_and!; [done | done | | done].
    intros c members Hlk Hid.
    destruct (indexed_sound _ Hind _ _ _ Hlk Hid) as (p & Hp & _). congruence.
Qed.

Lemma built_indexed self : built self → indexed self.
Proof.
  induction 1 as [cfg | self node_id position self' _ IH Hreg
                  | self node_id self' _ IH Hun | self _ IH].
  - split; cbn.
    + intros cell members id Hlk. by rewrite lookup_empty in Hlk.
    + done.
  - by eapply register_node_indexed.
  - by eapply unregister_node_indexed.
  - split; cbn.
    + intros cell members id Hlk. by rewrite lookup_empty in Hlk.
    + done.
Qed.

Lemma register_all_built cfg ids p engine :
  register_all cfg ids p = Ok engine → built engine.
Proof.
  unfold register_all. apply (foldM_preserves _ built); [constructor |].
  intros self id self' _ Hself Hreg. by eapply built_register.
Qed.

Lemma cluster40_built : built cluster40.
Proof.
  apply (register_all_built default_config forty_ids zero).
  vm_compute. reflexivity.
Qed.

(** On an engine that the methods built, the grid index and the positions
    agree: an id is in a cell exactly when it has a position and the cell is
    the one of that position.  After [register_node] the node has the new
    position; after [unregister_node] it has no position and is in no cell,
    and the other nodes are where they were. *)
Theorem engine_index_agrees (self : SpacingEngine) :
  built self →
  (∀ cell id,
     id ∈ default ∅ (spatial_index self !! cell)
     ↔ ∃ p, PyDict.get (positions self) id = Some p ∧ _get_cell self p = Ok cell)
  ∧ (∀ node_id position self',
       register_node self node_id position = Ok self' →
       PyDict.get (positions self') node_id = Some position
       ∧ ∀ id, id ≠ node_id →
               PyDict.get (positions self') id = PyDict.get (positions self) id)
  ∧ (∀ node_id self',
       unregister_node self node_id = Ok self' →
       PyDict.get (positions self') node_id = None
       ∧ (∀ cell, node_id ∉ default ∅ (spatial_index self' !! cell))
       ∧ ∀ id, id ≠ node_id →
               PyDict.get (positions self') id = PyDict.get (positions self) id).
Proof.
  intros Hbuilt. pose proof (built_indexed _ Hbuilt) as Hind. split_and!.
  - intros cell id. split.
    + destruct (spatial_index self !! cell) as [members |] eqn:Hlk; simpl;
        [| by intros ?%not_elem_of_empty].
      by apply (indexed_sound _ Hind).
    + intros (p & Hp & Hc).
      destruct (indexed_complete _ Hind _ _ Hp) as (c & members & Hc' & Hlk & Hin).
      assert (c = cell) as -> by congruence. by rewrite Hlk.
  - intros node_id position self' Hreg. unfold register_node in Hreg.
    destruct (match PyDict.get (positions self) node_id with
              | Some old_pos => _ | None => _ end) as [index1 |];
      simpl in Hreg; [| done].
    destruct (_get_cell self position) as [cell |]; simpl in Hreg; [| done].
    injection Hreg as <-. cbn [positions with_state]. split.
    + apply PyDict.get_set_eq.
    + intros id Hne. by apply PyDict.get_set_ne.
  - intros node_id self' Hun.
    destruct (unregister_node_indexed _ _ _ Hind Hun) as (_ & Hnone & Hcells & Hframe).
    split_and!; [done | | done].
    intros cell. destruct (spatial_index self' !! cell) as [members |] eqn:Hlk; simpl.
    + by apply (Hcells cell).
    + apply not_elem_of_empty.
Qed.

Lemma engine_index_agrees_witness :
  "00" ∈ default ∅ (spatial_index cluster40 !! (0, 0))
  ↔ ∃ p, PyDict.get (positions cluster40) "00" = Some p
         ∧ _get_cell cluster40 p = Ok (0, 0).
Proof. exact (proj1 (engine_index_agrees cluster40 cluster40_built) (0, 0) "00"). Defined.

(** *** Lookups on an engine whose index agrees with its positions *)

Section nearby_facts.
Context `{SetOrder}.

(** The test of the inner loop of [get_nearby_nodes]. *)
Definition within (self : SpacingEngine) (position : Vector2D) (radius : float)
    (node_id : string) : bool :=
  match PyDict.get (positions self) node_id with
  | Some node_pos => (distance_to node_pos position <=? radius)%float
  | None => false
  end.

Definition members_within (self : SpacingEngine) (position : Vector2D)
    (radius : float) (cell : Z * Z) : list string :=
  match spatial_index self !! cell with
  | Some members => List.filter (within self position radius) (set_iter members)
  | None => []
  end.

Lemma nearby_cell_loop self position radius ids nearby :
  (∀ id, id ∈ ids → is_Some (PyDict.get (positions self) id)) →
  foldM (λ nearby node_id,
           match PyDict.get (positions self) node_id with
           | Some node_pos =>
               if (distance_to node_pos position <=? radius)%float
               then Ok (nearby ++ [node_id]) else Ok nearby
           | None => Raise (KeyError node_id)
           end) ids nearby
  = Ok (nearby ++ List.filter (within self position radius) ids).
Proof.
  revert nearby. induction ids as [| id ids IH]; intros nearby Hids; cbn [foldM List.filter].
  - by rewrite app_nil_r.
  - destruct (Hids id ltac:(left)) as [p Hp]. unfold within at 1. rewrite Hp.
    destruct (_ <=? _)%float; cbn [mbind result_mbind result_bind].
    + rewrite IH by (intros ? ?; apply Hids; by right). by rewrite <- app_assoc.
    + apply IH. intros ? ?. apply Hids. by right.
Qed.

Lemma nearby_loop self position radius cells nearby :
  indexed self →
  foldM (λ nearby cell,
           match spatial_index self !! cell with
           | Some members =>
               foldM (λ nearby node_id,
                        match PyDict.get (positions self) node_id with
                        | Some node_pos =>
                            if (distance_to node_pos position <=? radius)%float
                            then Ok (nearby ++ [node_id]) else Ok nearby
                        | None => Raise (KeyError node_id)
                        end)
                     (set_iter members) nearby
           | None => Ok nearby
           end) cells nearby
  = Ok (nearby ++ (cells ≫= members_within self position radius)).
Proof.
  intros Hind. revert nearby.
  induction cells as [| cell cells IH]; intros nearby; cbn [foldM].
  - by rewrite app_nil_r.
  - change ((cell :: cells) ≫= members_within self position radius)
      with (members_within self position radius cell
            ++ (cells ≫= members_within self position radius)).
    unfold members_within at 1.
    destruct (spatial_index self !! cell) as [members |] eqn:Hlk.
    + rewrite nearby_cell_loop.
      * cbn [mbind result_mbind result_bind]. rewrite IH. by rewrite <- app_assoc.
      * intros id Hid%set_iter_elem_of.
        destruct (indexed_sound _ Hind _ _ _ Hlk Hid) as (p & Hp & _). by eexists.
    + cbn [mbind result_mbind result_bind]. apply IH.
Qed.

Lemma get_cell_errors self p e :
  _get_cell self p = Raise e → e = ZeroDivisionError ∨ e = ValueError.
Proof.
  assert (∀ a b e, py_floordiv_int a b = Raise e →
                   e = ZeroDivisionError ∨ e = ValueError) as Hdiv.
  { intros a b e0. unfold py_floordiv_int.
    destruct (Prim2SF a) as [| [] | | ? ? ?], (Prim2SF b) as [| [] | | ? ? ?];
      intros [= <-]; auto. }
  unfold _get_cell.
  destruct (py_floordiv_int (x p) (cell_size self)) as [cx |] eqn:Hx;
    cbn [mbind result_mbind result_bind]; [| intros [= <-]; by eapply Hdiv].
  destruct (py_floordiv_int (y p) (cell_size self)) as [cy |] eqn:Hy;
    cbn [mbind result_mbind result_bind]; [done | intros [= <-]; by eapply Hdiv].
Qed.

Lemma get_nearby_cells_errors self p radius e :
  _get_nearby_cells self p radius = Raise e → ∀ k, e ≠ KeyError k.
Proof.
  unfold _get_nearby_cells.
  destruct (_get_cell self p) as [center |] eqn:Hc;
    cbn [mbind result_mbind result_bind].
  - unfold cells_radius_of, py_truediv.
    destruct (is_zero (cell_size self)); cbn [mbind result_mbind result_bind];
      [by intros [= <-] |].
    unfold py_int. destruct (Prim2SF _) as [| [] | | ? ? ?];
      cbn [mbind result_mbind result_bind]; by intros [= <-].
  - intros [= <-] k. by destruct (get_cell_errors _ _ _ Hc) as [-> | ->].
Qed.

Lemma get_nearby_cells_NoDup self p radius cells :
  _get_nearby_cells self p radius = Ok cells → NoDup cells.
Proof.
  unfold _get_nearby_cells.
  destruct (_get_cell self p) as [[cx cy] |]; cbn [mbind result_mbind result_bind];
    [| done].
  destruct (cells_radius_of self radius) as [r |];
    cbn [mbind result_mbind result_bind]; [| done].
  intros [= <-]. cbn [fst snd]. apply NoDup_bind.
  - intros dx1 dx2 c _ _ (dy1 & ->%list_elem_of_singleton & _)%list_elem_of_bind
      (dy2 & [= ? ?]%list_elem_of_singleton & _)%list_elem_of_bind. lia.
  - intros dx _. apply NoDup_bind.
    + intros dy1 dy2 c _ _ ->%list_elem_of_singleton [= ?]%list_elem_of_singleton. lia.
    + intros dy _. apply NoDup_singleton.
    + apply NoDup_seqZ.
  - apply NoDup_seqZ.
Qed.

Lemma NoDup_bool_filter {A : Type} (f : A → bool) l :
  NoDup l → NoDup (List.filter f l).
Proof.
  induction 1 as [| a l Ha Hl IH]; simpl; [constructor |].
  destruct (f a); [| done]. constructor; [| done].
  intros Hin. apply Ha. apply list_elem_of_In, filter_In in Hin as [Hin _].
  by apply list_elem_of_In.
Qed.

Lemma elem_of_members_within self position radius cell id :
  id ∈ members_within self position radius cell →
  id ∈ default ∅ (spatial_index self !! cell)
  ∧ within self position radius id = true.
Proof.
  unfold members_within.
  destruct (spatial_index self !! cell) as [members |]; [| by intros ?%elem_of_nil].
  intros Hin. apply list_elem_of_In, filter_In in Hin as [Hin Hw].
  split; [| done]. by apply set_iter_elem_of, list_elem_of_In.
Qed.

Lemma get_nearby_nodes_indexed (self : SpacingEngine) (position : Vector2D)
    (radius : option float) :
  indexed self →
  match get_nearby_nodes self position radius with
  | Ok nearby =>
      NoDup nearby
      ∧ ∀ id, id ∈ nearby →
              ∃ p, PyDict.get (positions self) id = Some p
                   ∧ (distance_to p position <=? effective_radius self radius)%float
                     = true
  | Raise e => ∀ k, e ≠ KeyError k
  end.
Proof.
  intros Hind. unfold get_nearby_nodes.
  destruct (_get_nearby_cells self position (effective_radius self radius))
    as [cells | e] eqn:Hcells; cbn [mbind result_mbind result_bind];
    [| by eapply get_nearby_cells_errors].
  rewrite nearby_loop by done. cbn [app]. split.
  - apply NoDup_bind.
    + intros c1 c2 id _ _ [Hid1 _]%elem_of_members_within
        [Hid2 _]%elem_of_members_within.
      destruct (spatial_index self !! c1) as [m1 |] eqn:Hm1;
        [| by apply not_elem_of_empty in Hid1].
      destruct (spatial_index self !! c2) as [m2 |] eqn:Hm2;
        [| by apply not_elem_of_empty in Hid2].
      destruct (indexed_sound _ Hind _ _ _ Hm1 Hid1) as (p1 & Hp1 & Hc1).
      destruct (indexed_sound _ Hind _ _ _ Hm2 Hid2) as (p2 & Hp2 & Hc2).
      congruence.
    + intros cell _. unfold members_within.
      destruct (spatial_index self !! cell) as [members |]; [| constructor].
      apply NoDup_bool_filter, set_iter_NoDup.
    + by eapply get_nearby_cells_NoDup.
  - intros id (cell & [_ Hw]%elem_of_members_within & _)%list_elem_of_bind.
    unfold within in Hw.
    destruct (PyDict.get (positions self) id) as [p |]; [| done]. by exists p.
Qed.

(** On an engine that the methods built, [get_nearby_nodes] never fails
    with [KeyError] (what it raises comes from the cell arithmetic on
    floats); the ids it returns are registered, lie within the radius of the
    position, and none is returned twice. *)
Theorem get_nearby_nodes_registered (self : SpacingEngine) (position : Vector2D)
    (radius : option float) :
  built self →
  match get_nearby_nodes self position radius with
  | Ok nearby =>
      NoDup nearby
      ∧ ∀ id, id ∈ nearby →
              ∃ p, PyDict.get (positions self) id = Some p
                   ∧ (distance_to p position <=? effective_radius self radius)%float
                     = true
  | Raise e => ∀ k, e ≠ KeyError k
  end.
Proof. intros Hbuilt. by apply get_nearby_nodes_indexed, built_indexed. Qed.

(** The loop of [check_overlap] over ids that all have a position. *)
Lemma overlap_loop self position exclude_id nearby found :
  (∀ id, id ∈ nearby → is_Some (PyDict.get (positions self) id)) →
  ∃ b,
    foldM (λ (found : bool) node_id,
             if found then Ok true
             else if bool_decide (exclude_id = Some node_id) then Ok false
             else
               match PyDict.get (positions self) node_id with
               | None => Raise (KeyError node_id)
               | Some node_pos =>
                   Ok (distance_to node_pos position <? min_spacing self)%float
               end) nearby found = Ok b
    ∧ (b = true ↔
       found = true
       ∨ ∃ id p, id ∈ nearby ∧ exclude_id ≠ Some id
                 ∧ PyDict.get (positions self) id = Some p
                 ∧ (distance_to p position <? min_spacing self)%float = true).
Proof.
  revert found. induction nearby as [| id nearby IH]; intros found Hall; cbn [foldM].
  - exists found. split; [done |]. split; [by left |].
    intros [? | (? & ? & ?%elem_of_nil & _)]; done.
  - assert (∀ id', id' ∈ nearby → is_Some (PyDict.get (positions self) id')) as Hrest
      by (intros ? ?; apply Hall; by right).
    destruct found.
    + cbn [mbind result_mbind result_bind].
      destruct (IH true Hrest) as (b & -> & Hb). exists b. split; [done |].
      split; [by left |]. intros _. apply Hb. by left.
    + destruct (decide (exclude_id = Some id)) as [Hex | Hex].
      * rewrite bool_decide_eq_true_2 by done. cbn [mbind result_mbind result_bind].
        destruct (IH false Hrest) as (b & -> & Hb). exists b. split; [done |].
        rewrite Hb. split.
        -- intros [? | (id' & p & Hin & ?)]; [done |]. right. exists id', p.
           split; [by right | done].
        -- intros [? | (id' & p & [-> | Hin]%elem_of_cons & Hne & ?)]; [done | done |].
           right. by exists id', p.
      * rewrite bool_decide_eq_false_2 by done.
        destruct (Hall id ltac:(left)) as [p Hp]. rewrite Hp.
        cbn [mbind result_mbind result_bind].
        destruct (IH (distance_to p position <? min_spacing self)%float Hrest)
          as (b & -> & Hb).
        exists b. split; [done |]. rewrite Hb. split.
        -- intros [Hclose | (id' & p' & Hin & ?)].
           ++ right. exists id, p. split_and!; [left | done | done | done].
           ++ right. exists id', p'. split; [by right | done].
        -- intros [? | (id' & p' & [-> | Hin]%elem_of_cons & Hne & Hp' & Hclose)];
             [done | |].
           ++ left. congruence.
           ++ right. by exists id', p'.
Qed.

(** On an engine that the methods built, [check_overlap] never fails with
    [KeyError]; it answers [True] exactly when one of the nodes that
    [get_nearby_nodes] finds within [min_spacing], other than the excluded
    one, is closer than [min_spacing]. *)
Theorem check_overlap_spec (self : SpacingEngine) (position : Vector2D)
    (exclude_id : option string) :
  built self →
  match check_overlap self position exclude_id with
  | Ok b =>
      ∃ nearby,
        get_nearby_nodes self position (Some (min_spacing self)) = Ok nearby
        ∧ (b = true ↔
           ∃ id p, id ∈ nearby ∧ exclude_id ≠ Some id
                   ∧ PyDict.get (positions self) id = Some p
                   ∧ (distance_to p position <? min_spacing self)%float = true)
  | Raise e => ∀ k, e ≠ KeyError k
  end.
Proof.
  intros Hbuilt. pose proof (built_indexed _ Hbuilt) as Hind.
  pose proof (get_nearby_nodes_indexed self position (Some (min_spacing self)) Hind)
    as Hnear.
  unfold check_overlap.
  destruct (get_nearby_nodes self position (Some (min_spacing self)))
    as [nearby | e]; cbn [mbind result_mbind result_bind]; [| done].
  destruct Hnear as [_ Hreg].
  destruct (overlap_loop self position exclude_id nearby false) as (b & -> & Hb).
  { intros id Hid. destruct (Hreg id Hid) as (p & Hp & _). by eexists. }
  exists nearby. split; [done |]. rewrite Hb. split.
  - by intros [? | ?].
  - by right.
Qed.

End nearby_facts.

Lemma get_nearby_nodes_registered_witness :
  match get_nearby_nodes cluster40 zero None with
  | Ok nearby =>
      NoDup nearby
      ∧ ∀ id, id ∈ nearby →
              ∃ p, PyDict.get (positions cluster40) id = Some p
                   ∧ (distance_to p zero <=? effective_radius cluster40 None)%float
                     = true
  | Raise e => ∀ k, e ≠ KeyError k
  end.
Proof.
  apply (@get_nearby_nodes_registered elements_order). exact cluster40_built.
Defined.

Lemma check_overlap_spec_witness :
  match check_overlap cluster40 zero (Some "00") with
  | Ok b =>
      ∃ nearby,
        get_nearby_nodes cluster40 zero (Some (min_spacing cluster40)) = Ok nearby
        ∧ (b = true ↔
           ∃ id p, id ∈ nearby ∧ Some "00" ≠ Some id
                   ∧ PyDict.get (positions cluster40) id = Some p
                   ∧ (distance_to p zero <? min_spacing cluster40)%float = true)
  | Raise e => ∀ k, e ≠ KeyError k
  end.
Proof.
  apply (@check_overlap_spec elements_order). exact cluster40_built.
Defined.

End Spacing.


(** * growth/themed_groups.py *)

Module ThemedGroups.

(** [ThemedGroup] (the dataclass). *)
Record ThemedGroup : Type := {
  id : string;
  name : string;
  keywords : list string;
  color : string;
  growth_style : string;
  branching_energy : BranchingEnergy.ConfigDict;
  special_rule : option string;
  member_form_ids : list string
}.

(** [get_branching_config]: the defaults, updated with the group's own
    settings. *)
Definition get_branching_config (self : ThemedGroup) : BranchingEnergy.ConfigDict :=
  let base :=
    {| BranchingEnergy.d_enabled := Some true;
       BranchingEnergy.d_min_straight := Some 2;
       BranchingEnergy.d_max_straight := Some 5;
       BranchingEnergy.d_energy_per_node := Some 0.3%float;
       BranchingEnergy.d_energy_to_branch := Some 1.0%float;
       BranchingEnergy.d_randomness := Some 0.3%float |} in
  BranchingEnergy.dict_update base (branching_energy self).

(** [ThemedGroupManager]: [groups] by id, in insertion order, and the index
    [spell_to_group] from a spell's form id to a group id. *)
Record ThemedGroupManager : Type := {
  groups : list (string * ThemedGroup);
  spell_to_group : gmap string string
}.

Definition add_group (self : ThemedGroupManager) (group : ThemedGroup)
    : ThemedGroupManager :=
  {| groups := PyDict.set (groups self) (id group) group;
     spell_to_group :=
       foldl (λ index form_id, <[form_id := id group]> index)
         (spell_to_group self) (member_form_ids group) |}.

(** [__init__]: no list and the empty list add nothing. *)
Definition init (initial : option (list ThemedGroup)) : ThemedGroupManager :=
  foldl add_group {| groups := []; spell_to_group := ∅ |} (default [] initial).

Definition get_group (self : ThemedGroupManager) (group_id : string)
    : option ThemedGroup :=
  PyDict.get (groups self) group_id.

(** [get_group_for_spell]; the test [if group_id:] fails for the empty
    string as it does for a missing entry. *)
Definition get_group_for_spell (self : ThemedGroupManager) (form_id : string)
    : option ThemedGroup :=
  match spell_to_group self !! form_id with
  | Some group_id =>
      if bool_decide (group_id ≠ "") then PyDict.get (groups self) group_id else None
  | None => None
  end.

Definition get_growth_style_for_spell (self : ThemedGroupManager) (form_id : string)
    : option string :=
  growth_style <$> get_group_for_spell self form_id.

Definition get_branching_config_for_spell (self : ThemedGroupManager)
    (form_id : string) : option BranchingEnergy.ConfigDict :=
  get_branching_config <$> get_group_for_spell self form_id.

Definition get_color_for_spell (self : ThemedGroupManager) (form_id : string)
    : option string :=
  color <$> get_group_for_spell self form_id.

Definition list_groups (self : ThemedGroupManager) : list ThemedGroup :=
  (groups self).*2.

Lemma index_members (index : gmap string string) group_id members form_id :
  foldl (λ index form_id, <[form_id := group_id]> index) index members !! form_id
  = if decide (form_id ∈ members) then Some group_id else index !! form_id.
Proof.
  revert index. induction members as [| m members IH]; intros index; cbn [foldl].
  - case_decide as Hin; [by apply elem_of_nil in Hin | done].
  - rewrite IH. destruct (decide (form_id ∈ members)) as [Hin | Hnot].
    + case_decide as Hin'; [done |]. destruct Hin'. by right.
    + destruct (decide (form_id = m)) as [-> | Hne].
      * rewrite lookup_insert_eq. case_decide as Hin'; [done |]. destruct Hin'. left.
      * rewrite lookup_insert_ne by done.
        case_decide as Hin'; [| done]. by apply elem_of_cons in Hin' as [? | ?].
Qed.

(** What a lookup finds after [add_group]: the members of the new group get
    that group, unless its id is the empty string, in which case they get
    nothing; a spell that is no member keeps its group, but when its index
    entry names the id of the new group it now gets the new group, of which
    it is no member. *)
Theorem add_group_lookup (self : ThemedGroupManager) (group : ThemedGroup)
    (form_id : string) :
  get_group_for_spell (add_group self group) form_id
  = if decide (form_id ∈ member_form_ids group
               ∨ spell_to_group self !! form_id = Some (id group))
    then (if decide (id group = "") then None else Some group)
    else get_group_for_spell self form_id.
Proof.
  unfold get_group_for_spell, add_group. cbn [spell_to_group groups].
  rewrite index_members.
  destruct (decide (form_id ∈ member_form_ids group)) as [Hin | Hnot].
  - rewrite decide_True by by left.
    destruct (decide (id group = "")) as [Hid | Hid].
    + by rewrite bool_decide_eq_false_2 by by intros ?.
    + rewrite bool_decide_eq_true_2 by done. apply PyDict.get_set_eq.
  - destruct (spell_to_group self !! form_id) as [group_id |] eqn:Hidx.
    + destruct (decide (group_id = id group)) as [-> | Hne].
      * rewrite decide_True by by right.
        destruct (decide (id group = "")) as [Hid | Hid].
        -- by rewrite bool_decide_eq_false_2 by by intros ?.
        -- rewrite bool_decide_eq_true_2 by done. apply PyDict.get_set_eq.
      * rewrite decide_False by (intros [? | [= ?]]; done).
        destruct (bool_decide (group_id ≠ "")); [| done].
        by apply PyDict.get_set_ne.
    + by rewrite decide_False by (intros [? | ?]; done).
Qed.

(** The dictionary that a group hands to the builder is never empty, and
    [BranchingEnergyConfig.from_dict] reads from it what it reads from the
    group's own settings: the defaults of [get_branching_config] are those
    of [from_dict]. *)
Theorem get_branching_config_from_dict (self : ThemedGroup) :
  BranchingEnergy.dict_nonempty (get_branching_config self) = true
  ∧ BranchingEnergy.from_dict (get_branching_config self)
    = BranchingEnergy.from_dict (branching_energy self).
Proof.
  unfold get_branching_config. destruct (branching_energy self) as [e a b p t r].
  split.
  - by destruct e.
  - by destruct e, a, b, p, t, r.
Qed.

End ThemedGroups.

(** * tree_builder.py *)

Module TreeBuilder.
Import PyFloat Node.

Definition TIER_ORDER : list string :=
  ["Novice"; "Apprentice"; "Adept"; "Expert"; "Master"].

(** [list.index], absent when the value is not in the list. *)
Fixpoint index_of (v : string) (l : list string) : option nat :=
  match l with
  | [] => None
  | w :: l' => if decide (v = w) then Some O else S <$> index_of v l'
  end.

Definition _tier_to_depth (tier : string) : Z :=
  match index_of tier TIER_ORDER with
  | Some i => Z.of_nat i
  | None => 0
  end.

(** Modelled from the spec: [config.py] is not among the sources.  The two
    options of [TreeBuilderConfig] that the functions below read. *)
Record TreeBuilderConfig : Type := {
  max_children_per_node : Z;
  convergence_chance : float
}.

(** The node table [nodes: Dict[str, TreeNode]].  A [TreeNode] object is
    stored under its [form_id]; wherever the Python code holds a node object
    the model holds that key, and a mutation of the object is an
    [update] of the table entry. *)
Abbreviation NodeTable := (list (string * TreeNode)).

(** [list.remove(v)] on a list that holds [v]: the first occurrence goes. *)
Fixpoint remove_first (v : string) (l : list string) : list string :=
  match l with
  | [] => []
  | w :: l' => if decide (v = w) then l' else w :: remove_first v l'
  end.

(** [if fid in node.children: node.children.remove(fid)] *)
Definition remove_child (fid : string) (n : TreeNode) : TreeNode :=
  if decide (fid ∈ children n)
  then set_children (remove_first fid (children n)) n
  else n.

(** [if fid not in node.children: node.children.append(fid)] *)
Definition append_child (fid : string) (n : TreeNode) : TreeNode :=
  if decide (fid ∈ children n) then n
  else set_children (children n ++ [fid]) n.

(** ** [_simulate_unlocks] *)

(** One sweep of the [for] loop over [nodes.items()]. *)
Definition unlock_step (state : gset string * bool) (entry : string * TreeNode)
    : gset string * bool :=
  let '(unlocked, changed) := state in
  let '(fid, node) := entry in
  if decide (fid ∈ unlocked) then state
  else
    match prerequisites node with
    | [] => state
    | prereqs =>
        if forallb (λ p, bool_decide (p ∈ unlocked)) prereqs
        then ({[fid]} ∪ unlocked, true)
        else state
    end.

Definition unlock_sweep (nodes : NodeTable) (unlocked : gset string)
    : gset string * bool :=
  fold_left unlock_step nodes (unlocked, false).

(** The [while changed and iterations < max_iterations] loop; [fuel] is
    [max_iterations - iterations]. *)
Fixpoint unlock_loop (fuel : nat) (nodes : NodeTable) (unlocked : gset string)
    : gset string :=
  match fuel with
  | O => unlocked
  | S fuel' =>
      let '(unlocked', changed) := unlock_sweep nodes unlocked in
      if changed then unlock_loop fuel' nodes unlocked' else unlocked'
  end.

Definition _simulate_unlocks (nodes : NodeTable) (root_id : string) : gset string :=
  unlock_loop (length nodes + 10) nodes {[root_id]}.

(** ** [_get_reachable_from_root] and [_is_descendant]

    Both are breadth-first walks over [children].  The [while queue] loop is
    run on a fuel that the walk never uses up ([bfs_fuel], see
    [bfs_reach_fuel] and [bfs_descendant_fuel]). *)

Definition children_of (nodes : NodeTable) (fid : string) : list string :=
  match PyDict.get nodes fid with
  | Some n => children n
  | None => []
  end.

(** What is left to walk: one unit per table entry not yet visited, plus its
    children, which may still be queued. *)
Fixpoint bfs_weight (nodes : NodeTable) (visited : gset string) : nat :=
  match nodes with
  | [] => O
  | (k, n) :: nodes' =>
      ((if decide (k ∈ visited) then O else S (length (children n)))
       + bfs_weight nodes' visited)%nat
  end.

(** Enough for every entry to be visited once and every child to be
    dequeued once. *)
Definition bfs_fuel (nodes : NodeTable) : nat := S (S (bfs_weight nodes ∅)).

Fixpoint bfs_reach (fuel : nat) (nodes : NodeTable) (reachable : gset string)
    (queue : list string) : option (gset string) :=
  match fuel with
  | O => None
  | S fuel' =>
      match queue with
      | [] => Some reachable
      | fid :: queue' =>
          if decide (fid ∈ reachable) then bfs_reach fuel' nodes reachable queue'
          else bfs_reach fuel' nodes ({[fid]} ∪ reachable)
                 (queue' ++ children_of nodes fid)
      end
  end.

Definition _get_reachable_from_root (nodes : NodeTable) (root_id : string)
    : gset string :=
  default ∅ (bfs_reach (bfs_fuel nodes) nodes ∅ [root_id]).

Fixpoint bfs_descendant (fuel : nat) (nodes : NodeTable) (potential_ancestor : string)
    (visited : gset string) (queue : list string) : option bool :=
  match fuel with
  | O => None
  | S fuel' =>
      match queue with
      | [] => Some false
      | fid :: queue' =>
          if decide (fid ∈ visited)
          then bfs_descendant fuel' nodes potential_ancestor visited queue'
          else if decide (fid = potential_ancestor) then Some true
          else bfs_descendant fuel' nodes potential_ancestor ({[fid]} ∪ visited)
                 (queue' ++ children_of nodes fid)
      end
  end.

Definition _is_descendant (potential_ancestor node_id : string) (nodes : NodeTable)
    : bool :=
  default false
    (bfs_descendant (bfs_fuel nodes) nodes potential_ancestor ∅ [node_id]).

(** ** Links *)

(** Modelled from the spec: [link_nodes(parent, child)] of [core/node.py],
    which is not among the sources: both directions of the link are
    recorded and the child sits one level below its parent. *)
Definition link_nodes (parent_id child_id : string) (nodes : NodeTable) : NodeTable :=
  match PyDict.get nodes parent_id with
  | None => nodes
  | Some parent =>
      let nodes := PyDict.update nodes parent_id (add_child child_id) in
      let nodes := PyDict.update nodes child_id (add_prerequisite parent_id) in
      PyDict.update nodes child_id (set_depth (depth parent + 1))
  end.

(** [node.add_prerequisite(extra.form_id); extra.add_child(node.form_id)] *)
Definition add_convergence_edge (extra_id node_id : string) (nodes : NodeTable)
    : NodeTable :=
  let nodes := PyDict.update nodes node_id (add_prerequisite extra_id) in
  PyDict.update nodes extra_id (add_child node_id).

(** ** [_maybe_add_convergence] *)

Definition tier_multiplier (tier_depth : Z) : float :=
  match tier_depth with
  | 0 => 0.5 | 1 => 1.0 | 2 => 1.5 | 3 => 2.0 | 4 => 10.0 | _ => 1.0
  end.

Definition tier_max_prereqs (tier_depth : Z) : Z :=
  match tier_depth with
  | 0 => 1 | 1 => 2 | 2 => 2 | 3 => 3 | 4 => 4 | _ => 2
  end.

Definition len {A : Type} (l : list A) : Z := Z.of_nat (length l).

(** The list comprehension [different]: candidates of another theme that
    are not yet a prerequisite, are reachable from the root and are no
    descendant of the node. *)
Definition different_candidates (nodes : NodeTable) (node_id : string)
    (reachable : gset string) (candidates : list string) : list string :=
  match PyDict.get nodes node_id with
  | None => []
  | Some node =>
      List.filter
        (λ p_id,
           match PyDict.get nodes p_id with
           | None => false
           | Some p =>
               negb (bool_decide (theme p = theme node))
               && negb (bool_decide (p_id ∈ prerequisites node))
               && bool_decide (p_id ∈ reachable)
               && negb (_is_descendant p_id node_id nodes)
           end)
        candidates
  end.

(** The first depth, from [node.depth - 1] down to 0, that offers a
    candidate. *)
Fixpoint first_offer (nodes : NodeTable) (node_id : string) (reachable : gset string)
    (available : gmap Z (list string)) (depths : list Z) : list string :=
  match depths with
  | [] => []
  | d :: depths' =>
      match different_candidates nodes node_id reachable (default [] (available !! d)) with
      | [] => first_offer nodes node_id reachable available depths'
      | different => different
      end
  end.

Section with_random.
Context {G : Type} `{PyRandom G}.

(** The body of [for _ in range(prereqs_to_add)]; [rounds] counts the
    iterations left. *)
Fixpoint convergence_rounds (rounds : nat) (node_id : string) (max_prereqs : Z)
    (reachable : gset string) (available : gmap Z (list string))
    (nodes : NodeTable) (g : G) : NodeTable * G :=
  match rounds with
  | O => (nodes, g)
  | S rounds' =>
      match PyDict.get nodes node_id with
      | None => (nodes, g)
      | Some node =>
          if (max_prereqs <=? len (prerequisites node))%Z then (nodes, g)
          else
            let depths := reverse (seqZ 0 (depth node)) in
            match choice (first_offer nodes node_id reachable available depths) g with
            | Ok (extra, g') =>
                convergence_rounds rounds' node_id max_prereqs reachable available
                  (add_convergence_edge extra node_id nodes) g'
            | Raise _ =>
                convergence_rounds rounds' node_id max_prereqs reachable available
                  nodes g
            end
      end
  end.

Definition _maybe_add_convergence (cfg : TreeBuilderConfig) (node_id : string)
    (available : gmap Z (list string)) (nodes : NodeTable) (root_id : string)
    (g : G) : NodeTable * G :=
  match PyDict.get nodes node_id with
  | None => (nodes, g)
  | Some node =>
      let tier_depth := _tier_to_depth (tier node) in
      let multiplier := tier_multiplier tier_depth in
      let max_prereqs := tier_max_prereqs tier_depth in
      let effective_chance := py_min 1.0 (convergence_chance cfg * multiplier) in
      let n := len (prerequisites node) in
      let force_convergence :=
        ((3 <=? tier_depth)%Z && (n <? 2)%Z) || ((4 <=? tier_depth)%Z && (n <? 3)%Z) in
      let '(stop_here, g1) :=
        if force_convergence then (false, g)
        else let '(r, g') := random g in ((effective_chance <? r)%float, g') in
      if stop_here then (nodes, g1)
      else if (max_prereqs <=? n)%Z then (nodes, g1)
      else
        let reachable := _get_reachable_from_root nodes root_id in
        let prereqs_to_add :=
          if (4 <=? tier_depth)%Z then Z.max 1 (3 - n)
          else if (3 <=? tier_depth)%Z then Z.max 1 (2 - n)
          else 1 in
        convergence_rounds (Z.to_nat prereqs_to_add) node_id max_prereqs reachable
          available nodes g1
  end.

End with_random.

(** ** [_enforce_high_tier_convergence] *)

(** The sort key [(-x[1], -x[0].depth)] of a candidate [(cand, differs)]. *)
Definition candidate_key (nodes : NodeTable) (node : TreeNode) (cand_id : string)
    : Z * Z :=
  match PyDict.get nodes cand_id with
  | None => (0, 0)
  | Some cand =>
      ((if bool_decide (theme cand = theme node) then 0 else -1), - depth cand)
  end.

Definition key_le (a b : Z * Z) : bool :=
  (a.1 <? b.1)%Z || ((a.1 =? b.1)%Z && (a.2 <=? b.2)%Z).

(** [list.sort(key=...)]: a stable sort. *)
Fixpoint insert_sorted (key : string → Z * Z) (c : string) (l : list string)
    : list string :=
  match l with
  | [] => [c]
  | c' :: l' =>
      if key_le (key c) (key c') then c :: c' :: l'
      else c' :: insert_sorted key c l'
  end.

Definition sort_by_key (key : string → Z * Z) (l : list string) : list string :=
  foldr (insert_sorted key) [] l.

Definition enforce_candidates (nodes : NodeTable) (reachable : gset string)
    (fid : string) (node : TreeNode) : list string :=
  List.filter
    (λ cand_id,
       match PyDict.get nodes cand_id with
       | None => false
       | Some cand =>
           negb (bool_decide (cand_id = fid))
           && negb (bool_decide (cand_id ∈ prerequisites node))
           && bool_decide (cand_id ∈ reachable)
           && negb (depth node <=? depth cand)%Z
           && negb (_is_descendant cand_id fid nodes)
       end)
    (PyDict.keys nodes).

(** The body of [for fid, node in nodes.items()]. *)
Definition enforce_node (root_id : string) (reachable : gset string)
    (nodes : NodeTable) (fid : string) : NodeTable :=
  if decide (fid = root_id) then nodes
  else
    match PyDict.get nodes fid with
    | None => nodes
    | Some node =>
        let tier_depth := _tier_to_depth (tier node) in
        let current_prereqs := len (prerequisites node) in
        if (tier_depth <? 3)%Z then nodes
        else
          let min_prereqs := if (4 <=? tier_depth)%Z then 3 else 2 in
          if (min_prereqs <=? current_prereqs)%Z then nodes
          else
            let prereqs_needed := min_prereqs - current_prereqs in
            let candidates :=
              sort_by_key (candidate_key nodes node)
                (enforce_candidates nodes reachable fid node) in
            fold_left (λ nodes cand_id, add_convergence_edge cand_id fid nodes)
              (take (Z.to_nat prereqs_needed) candidates) nodes
    end.

Definition _enforce_high_tier_convergence (nodes : NodeTable) (root_id : string)
    : NodeTable :=
  let reachable := _get_reachable_from_root nodes root_id in
  fold_left (enforce_node root_id reachable) (PyDict.keys nodes) nodes.

(** ** [_ensure_all_reachable] *)

Section with_set_order.
Context `{SetOrder}.

(** The search for [best_parent] among the unlockable nodes.  [nodes[k]]
    is only evaluated for members of [unlockable], which are the root and
    keys of the table; the root is a key whenever the function is called
    ([_build_school_tree] checks it), so the [KeyError] branches are dead
    ([simulate_unlocks_keys]).  On a table that does not hold the root the
    source raises [KeyError] at [nodes[unlockable_id]]; the function below
    is the source on tables that hold the root, and every fact about the
    repair is stated for those. *)
Definition best_parent_step (cfg : TreeBuilderConfig) (nodes : NodeTable)
    (fid : string) (best_parent : option string) (unlockable_id : string)
    : option string :=
  if decide (unlockable_id = fid) then best_parent
  else
    match PyDict.get nodes unlockable_id with
    | None => best_parent
    | Some candidate =>
        if (len (children candidate) <? max_children_per_node cfg)%Z then
          match best_parent with
          | None => Some unlockable_id
          | Some b =>
              match PyDict.get nodes b with
              | Some best =>
                  if (depth candidate <? depth best)%Z then Some unlockable_id
                  else best_parent
              | None => best_parent
              end
          end
        else best_parent
    end.

Definition find_best_parent (cfg : TreeBuilderConfig) (nodes : NodeTable)
    (unlockable : gset string) (fid : string) : option string :=
  fold_left (best_parent_step cfg nodes fid) (set_iter unlockable) None.

(** [if best_parent:] is false for [None] and for the empty string. *)
Definition truthy (s : option string) : option string :=
  match s with
  | Some EmptyString => None
  | _ => s
  end.

(** The replacement of the blocking prerequisites of [fid] by
    [best_parent] (lines 841-860). *)
Definition replace_blocking (nodes : NodeTable) (fid : string)
    (prereqs blocking : list string) (best_parent : string) : NodeTable :=
  let nodes :=
    fold_left (λ nodes blocking_id, PyDict.update nodes blocking_id (remove_child fid))
      blocking nodes in
  let kept := List.filter (λ p, negb (bool_decide (p ∈ blocking))) prereqs in
  let new_prereqs :=
    if decide (best_parent ∈ kept) then kept else kept ++ [best_parent] in
  let nodes := PyDict.update nodes fid (set_prerequisites new_prereqs) in
  let nodes := PyDict.update nodes best_parent (append_child fid) in
  match PyDict.get nodes best_parent with
  | Some parent_node => PyDict.update nodes fid (set_depth (depth parent_node + 1))
  | None => nodes
  end.

(** The body of [for fid in unreachable] in a repair pass. *)
Definition rewire (cfg : TreeBuilderConfig) (unlockable : gset string)
    (state : NodeTable * bool) (fid : string) : NodeTable * bool :=
  let '(nodes, fixed_any) := state in
  match PyDict.get nodes fid with
  | None => state
  | Some node =>
      let prereqs := prerequisites node in
      let blocking := List.filter (λ p, negb (bool_decide (p ∈ unlockable))) prereqs in
      match blocking with
      | [] => state
      | _ =>
          match truthy (find_best_parent cfg nodes unlockable fid) with
          | Some best_parent =>
              (replace_blocking nodes fid prereqs blocking best_parent, true)
          | None => state
          end
      end
  end.

(** The aggressive fix: every node still unreachable goes under the root.
    [root_node = nodes[root_id]] raises [KeyError] on a table that does not
    hold the root; as for [best_parent_step], the function below is the
    source on tables that hold the root. *)
Definition attach_to_root (root_id : string) (nodes : NodeTable) (fid : string)
    : NodeTable :=
  if decide (fid = root_id) then nodes
  else
    match PyDict.get nodes fid with
    | None => nodes
    | Some node =>
        let nodes :=
          fold_left (λ nodes old_prereq, PyDict.update nodes old_prereq (remove_child fid))
            (prerequisites node) nodes in
        let nodes := PyDict.update nodes fid (set_prerequisites [root_id]) in
        let nodes := PyDict.update nodes root_id (append_child fid) in
        PyDict.update nodes fid (set_depth 1)
    end.

(** How the pass loop was left: by the [return] of a pass that found no
    unreachable node, by the [break] after the aggressive fix, or by running
    out of passes. *)
Inductive repair_exit : Type :=
| AllReachable
| AggressiveFix
| PassesExhausted.

Definition unreachable_nodes (nodes : NodeTable) (unlockable : gset string)
    : list string :=
  List.filter (λ fid, negb (bool_decide (fid ∈ unlockable))) (PyDict.keys nodes).

Fixpoint repair_passes (cfg : TreeBuilderConfig) (passes : nat) (nodes : NodeTable)
    (root_id : string) : NodeTable * repair_exit :=
  match passes with
  | O => (nodes, PassesExhausted)
  | S passes' =>
      let unlockable := _simulate_unlocks nodes root_id in
      let unreachable := unreachable_nodes nodes unlockable in
      match unreachable with
      | [] => (nodes, AllReachable)
      | _ =>
          let '(nodes', fixed_any) :=
            fold_left (rewire cfg unlockable) unreachable (nodes, false) in
          if fixed_any then repair_passes cfg passes' nodes' root_id
          else (fold_left (attach_to_root root_id) unreachable nodes', AggressiveFix)
      end
  end.

Definition max_passes : nat := 10.

Definition _ensure_all_reachable (cfg : TreeBuilderConfig) (nodes : NodeTable)
    (root_id : string) : NodeTable * repair_exit :=
  repair_passes cfg max_passes nodes root_id.

End with_set_order.

(** ** Facts about the list helpers *)

Lemma elem_of_remove_first_ne v w l : w ≠ v → w ∈ remove_first v l ↔ w ∈ l.
Proof.
  intros Hne. induction l as [| u l IH]; simpl; [done |].
  destruct (decide (v = u)) as [<- | Hvu].
  - rewrite elem_of_cons. naive_solver.
  - rewrite !elem_of_cons, IH. done.
Qed.

Lemma elem_of_remove_first v w l : w ∈ remove_first v l → w ∈ l.
Proof.
  induction l as [| u l IH]; simpl; [done |].
  destruct (decide (v = u)) as [<- | Hvu]; rewrite ?elem_of_cons; naive_solver.
Qed.

Lemma NoDup_remove_first v l : NoDup l → NoDup (remove_first v l).
Proof.
  induction 1 as [| u l Hu Hnd IH]; simpl; [constructor |].
  destruct (decide (v = u)); [done |].
  constructor; [| done]. intros Hin. by apply Hu, (elem_of_remove_first v).
Qed.

Lemma not_elem_of_remove_first v l : NoDup l → v ∉ remove_first v l.
Proof.
  induction 1 as [| u l Hu Hnd IH]; simpl; [by intros ?%elem_of_nil |].
  destruct (decide (v = u)) as [<- | Hvu]; [done |].
  rewrite not_elem_of_cons. done.
Qed.

Lemma length_remove_first v l : (length (remove_first v l) ≤ length l)%nat.
Proof.
  induction l as [| u l IH]; simpl; [done |].
  destruct (decide (v = u)); simpl; lia.
Qed.

(** Membership after Python's [in] tests, in the shape the models use. *)
Lemma filter_nil_not {A : Type} (f : A → bool) l x :
  List.filter f l = [] → x ∈ l → f x = false.
Proof.
  intros Hnil Hx. destruct (f x) eqn:Hfx; [| done].
  assert (x ∈ List.filter f l) as Hin
    by (apply list_elem_of_In, filter_In; split; [by apply list_elem_of_In | done]).
  rewrite Hnil in Hin. by apply elem_of_nil in Hin.
Qed.

Lemma elem_of_list_filter {A : Type} (f : A → bool) l x :
  x ∈ List.filter f l ↔ x ∈ l ∧ f x = true.
Proof. rewrite !list_elem_of_In. apply filter_In. Qed.

(** ** The unlock fixed point *)

(** A node unlocks when it is the root, or when it has prerequisites and
    all of them unlock. *)
Inductive unlockable (nodes : NodeTable) (root_id : string) : string → Prop :=
| unlockable_root : unlockable nodes root_id root_id
| unlockable_node fid node :
    PyDict.get nodes fid = Some node →
    prerequisites node ≠ [] →
    (∀ p, p ∈ prerequisites node → unlockable nodes root_id p) →
    unlockable nodes root_id fid.

(** A set is closed when no sweep can add to it. *)
Definition unlock_closed (nodes : NodeTable) (unlocked : gset string) : Prop :=
  ∀ fid node, (fid, node) ∈ nodes → prerequisites node ≠ [] →
              (∀ p, p ∈ prerequisites node → p ∈ unlocked) → fid ∈ unlocked.

(** The nodes a sweep can still add. *)
Definition locked_count (nodes : NodeTable) (unlocked : gset string) : nat :=
  length (List.filter (λ fid, negb (bool_decide (fid ∈ unlocked))) (PyDict.keys nodes)).

Lemma forallb_unlocked (unlocked : gset string) prereqs :
  forallb (λ p, bool_decide (p ∈ unlocked)) prereqs = true
  ↔ ∀ p, p ∈ prereqs → p ∈ unlocked.
Proof.
  rewrite forallb_forall. split.
  - intros Hall p Hp. apply list_elem_of_In, Hall in Hp. by apply bool_decide_eq_true in Hp.
  - intros Hall p Hp. apply bool_decide_eq_true, Hall. by apply list_elem_of_In.
Qed.

Lemma unlock_step_cases unlocked changed fid node :
  unlock_step (unlocked, changed) (fid, node) = (unlocked, changed)
  ∧ (fid ∈ unlocked ∨ prerequisites node = []
     ∨ ¬ (∀ p, p ∈ prerequisites node → p ∈ unlocked))
  ∨ unlock_step (unlocked, changed) (fid, node) = ({[fid]} ∪ unlocked, true)
    ∧ (fid ∉ unlocked) ∧ prerequisites node ≠ []
    ∧ (∀ p, p ∈ prerequisites node → p ∈ unlocked).
Proof.
  unfold unlock_step. destruct (decide (fid ∈ unlocked)) as [Hin | Hnotin].
  { left. split; [done | by left]. }
  destruct (prerequisites node) as [| p0 prereqs] eqn:Hpr.
  { left. split; [done | right; by left]. }
  destruct (forallb _ (p0 :: prereqs)) eqn:Hall.
  - right. split; [done |]. split; [done |]. split; [done |].
    by apply forallb_unlocked.
  - left. split; [done |]. right. right. intros Hall'.
    apply forallb_unlocked in Hall'. congruence.
Qed.

Lemma locked_count_insert_le nodes (unlocked : gset string) fid :
  (locked_count nodes ({[fid]} ∪ unlocked) ≤ locked_count nodes unlocked)%nat.
Proof.
  unfold locked_count. induction (PyDict.keys nodes) as [| k ks IH]; simpl; [done |].
  destruct (decide (k ∈ unlocked)) as [Hk | Hk].
  - rewrite !bool_decide_eq_true_2 by set_solver. done.
  - rewrite (bool_decide_eq_false_2 (k ∈ unlocked)) by done. simpl.
    destruct (bool_decide (k ∈ {[fid]} ∪ unlocked)); simpl; lia.
Qed.

Lemma locked_count_insert_lt nodes (unlocked : gset string) fid :
  fid ∈ PyDict.keys nodes → fid ∉ unlocked →
  (locked_count nodes ({[fid]} ∪ unlocked) < locked_count nodes unlocked)%nat.
Proof.
  unfold locked_count. induction (PyDict.keys nodes) as [| k ks IH]; simpl.
  { by intros ?%elem_of_nil. }
  intros [-> | Hin]%elem_of_cons Hnotin.
  - rewrite (bool_decide_eq_false_2 (k ∈ unlocked)) by done.
    rewrite (bool_decide_eq_true_2 (k ∈ {[k]} ∪ unlocked)) by set_solver. simpl.
    pose proof (locked_count_insert_le ((λ k, (k, fresh_node k "" "")) <$> ks) unlocked k) as Hle.
    unfold locked_count, PyDict.keys in Hle.
    rewrite <- list_fmap_compose in Hle. simpl in Hle.
    change (fst ∘ (λ k0 : string, (k0, fresh_node k0 "" ""))) with (@id string) in Hle.
    rewrite list_fmap_id in Hle. lia.
  - specialize (IH Hin Hnotin).
    destruct (decide (k ∈ unlocked)) as [Hk | Hk].
    + rewrite !bool_decide_eq_true_2 by set_solver. done.
    + rewrite (bool_decide_eq_false_2 (k ∈ unlocked)) by done. simpl.
      destruct (bool_decide (k ∈ {[fid]} ∪ unlocked)); simpl; lia.
Qed.

(** What one sweep over a part [entries] of the table does. *)
Lemma unlock_fold_spec nodes root_id entries unlocked changed :
  NoDup (PyDict.keys nodes) →
  (∀ e, e ∈ entries → e ∈ nodes) →
  (∀ x, x ∈ unlocked → unlockable nodes root_id x) →
  ∃ unlocked' changed',
    fold_left unlock_step entries (unlocked, changed) = (unlocked', changed')
    ∧ unlocked ⊆ unlocked'
    ∧ (∀ x, x ∈ unlocked' → unlockable nodes root_id x)
    ∧ (locked_count nodes unlocked' ≤ locked_count nodes unlocked)%nat
    ∧ (changed' = true →
       changed = true ∨ (locked_count nodes unlocked' < locked_count nodes unlocked)%nat)
    ∧ (changed' = false →
       changed = false ∧ unlocked' = unlocked
       ∧ ∀ fid node, (fid, node) ∈ entries → prerequisites node ≠ [] →
                     (∀ p, p ∈ prerequisites node → p ∈ unlocked) → fid ∈ unlocked).
Proof.
  intros Hnd. revert unlocked changed.
  induction entries as [| [fid node] entries IH]; intros unlocked changed Hsub Hsound.
  { exists unlocked, changed. simpl. split_and!; try done.
    - intros ->. by left.
    - intros Hc. split_and!; try done. by intros ? ? ?%elem_of_nil. }
  assert ((fid, node) ∈ nodes) as Hentry by (apply Hsub; left).
  assert (∀ e, e ∈ entries → e ∈ nodes) as Hsub' by (intros e He; apply Hsub; by right).
  change (fold_left unlock_step ((fid, node) :: entries) (unlocked, changed))
    with (fold_left unlock_step entries (unlock_step (unlocked, changed) (fid, node))).
  destruct (unlock_step_cases unlocked changed fid node)
    as [[-> Hskip] | (-> & Hnotin & Hpr & Hall)].
  - destruct (IH unlocked changed Hsub' Hsound)
      as (unlocked' & changed' & -> & H1 & H2 & H3 & H4 & H5).
    exists unlocked', changed'. split_and!; try done.
    intros Hfalse. destruct (H5 Hfalse) as (Hc & Hu & H5'). split_and!; try done.
    intros f n [[= -> ->] | Hin]%elem_of_cons Hprn Halln.
    + destruct Hskip as [? | [? | Hno]]; [done | done | by destruct Hno].
    + by eapply H5'.
  - assert (∀ x, x ∈ {[fid]} ∪ unlocked → unlockable nodes root_id x) as Hsound'.
    { intros x [->%elem_of_singleton | Hx]%elem_of_union; [| by apply Hsound].
      eapply unlockable_node; [by apply PyDict.elem_of_get_NoDup | done |].
      intros p Hp. by apply Hsound, Hall. }
    destruct (IH ({[fid]} ∪ unlocked) true Hsub' Hsound')
      as (unlocked' & changed' & -> & H1 & H2 & H3 & H4 & H5).
    assert (fid ∈ PyDict.keys nodes) as Hkey.
    { apply PyDict.elem_of_keys_get. exists node. by apply PyDict.elem_of_get_NoDup. }
    pose proof (locked_count_insert_lt nodes unlocked fid Hkey Hnotin) as Hlt.
    exists unlocked', changed'. split_and!.
    + done.
    + set_solver.
    + done.
    + lia.
    + intros _. right. lia.
    + intros Hfalse. by destruct (H5 Hfalse) as [? _].
Qed.

Lemma unlock_loop_spec nodes root_id fuel unlocked :
  NoDup (PyDict.keys nodes) →
  (∀ x, x ∈ unlocked → unlockable nodes root_id x) →
  (locked_count nodes unlocked < fuel)%nat →
  let r := unlock_loop fuel nodes unlocked in
  unlocked ⊆ r ∧ (∀ x, x ∈ r → unlockable nodes root_id x) ∧ unlock_closed nodes r.
Proof.
  intros Hnd. revert unlocked.
  induction fuel as [| fuel IH]; intros unlocked Hsound Hfuel; [lia |].
  intros r. subst r. simpl. unfold unlock_sweep.
  destruct (unlock_fold_spec nodes root_id nodes unlocked false Hnd ltac:(done) Hsound)
    as (unlocked' & changed & -> & H1 & H2 & H3 & H4 & H5).
  destruct changed.
  - destruct (H4 eq_refl) as [? | Hlt]; [done |].
    destruct (IH unlocked' H2 ltac:(lia)) as (I1 & I2 & I3).
    split; [set_solver | done].
  - destruct (H5 eq_refl) as (_ & -> & Hclosed).
    split_and!; [done | done |]. exact Hclosed.
Qed.

Lemma locked_count_le_length nodes unlocked :
  (locked_count nodes unlocked ≤ length nodes)%nat.
Proof.
  unfold locked_count, PyDict.keys.
  etransitivity; [apply filter_length_le |]. by rewrite length_fmap.
Qed.

Lemma unlockable_closed nodes root_id (S : gset string) x :
  root_id ∈ S → unlock_closed nodes S → unlockable nodes root_id x → x ∈ S.
Proof.
  intros Hroot Hclosed. induction 1 as [| fid node Hget Hpr Hall IH]; [done |].
  eapply Hclosed; [by apply PyDict.get_Some_elem_of | done | done].
Qed.

(** [_simulate_unlocks] computes the unlock fixed point: the loop never
    runs out of its [len(nodes) + 10] iterations before a sweep changes
    nothing. *)
Lemma simulate_unlocks_spec nodes root_id x :
  NoDup (PyDict.keys nodes) →
  x ∈ _simulate_unlocks nodes root_id ↔ unlockable nodes root_id x.
Proof.
  intros Hnd. unfold _simulate_unlocks.
  destruct (unlock_loop_spec nodes root_id (length nodes + 10) {[root_id]} Hnd)
    as (Hsub & Hsound & Hclosed).
  - intros y ->%elem_of_singleton. constructor.
  - pose proof (locked_count_le_length nodes {[root_id]}). lia.
  - split; [apply Hsound |].
    apply unlockable_closed; [set_solver | done].
Qed.

(** ** The link view of a table

    [prs] and [chs] read the two link lists of a key (empty for a key that
    is not in the table); [has] is [k in nodes]. *)

Definition prs (nodes : NodeTable) (k : string) : list string :=
  from_option prerequisites [] (PyDict.get nodes k).

Definition chs (nodes : NodeTable) (k : string) : list string :=
  from_option children [] (PyDict.get nodes k).

Definition has (nodes : NodeTable) (k : string) : Prop :=
  is_Some (PyDict.get nodes k).

#[global] Instance has_dec nodes k : Decision (has nodes k).
Proof. unfold has. apply _. Defined.

Lemma chs_children_of nodes k : chs nodes k = children_of nodes k.
Proof. unfold chs, children_of. by destruct (PyDict.get nodes k). Qed.

Lemma has_keys nodes k : has nodes k ↔ k ∈ PyDict.keys nodes.
Proof. symmetry. apply PyDict.elem_of_keys_get. Qed.

Lemma has_update nodes k f k' : has (PyDict.update nodes k f) k' ↔ has nodes k'.
Proof. rewrite !has_keys. by rewrite PyDict.keys_update. Qed.

Lemma prs_update nodes k f k' :
  prs (PyDict.update nodes k f) k'
  = if decide (k = k') then from_option (prerequisites ∘ f) [] (PyDict.get nodes k')
    else prs nodes k'.
Proof.
  unfold prs. rewrite PyDict.get_update. case_decide; [| done].
  by destruct (PyDict.get nodes k').
Qed.

Lemma chs_update nodes k f k' :
  chs (PyDict.update nodes k f) k'
  = if decide (k = k') then from_option (children ∘ f) [] (PyDict.get nodes k')
    else chs nodes k'.
Proof.
  unfold chs. rewrite PyDict.get_update. case_decide; [| done].
  by destruct (PyDict.get nodes k').
Qed.

(** Updates that leave one of the two lists alone. *)
Lemma prs_update_same nodes k f k' :
  (∀ n, prerequisites (f n) = prerequisites n) →
  prs (PyDict.update nodes k f) k' = prs nodes k'.
Proof.
  intros Hf. rewrite prs_update. case_decide; [| done].
  unfold prs. destruct (PyDict.get nodes k'); simpl; [apply Hf | done].
Qed.

Lemma chs_update_same nodes k f k' :
  (∀ n, children (f n) = children n) →
  chs (PyDict.update nodes k f) k' = chs nodes k'.
Proof.
  intros Hf. rewrite chs_update. case_decide; [| done].
  unfold chs. destruct (PyDict.get nodes k'); simpl; [apply Hf | done].
Qed.

Lemma prerequisites_remove_child fid n :
  prerequisites (remove_child fid n) = prerequisites n.
Proof. unfold remove_child. by case_decide. Qed.

Lemma prerequisites_append_child fid n :
  prerequisites (append_child fid n) = prerequisites n.
Proof. unfold append_child. by case_decide. Qed.

Lemma prerequisites_add_child c n : prerequisites (add_child c n) = prerequisites n.
Proof. unfold add_child. by case_decide. Qed.

Lemma children_add_prerequisite p n : children (add_prerequisite p n) = children n.
Proof. unfold add_prerequisite. by case_decide. Qed.

Lemma remove_first_absent v l : v ∉ l → remove_first v l = l.
Proof.
  induction l as [| w l IH]; simpl; [done |].
  intros [Hne Hnotin]%not_elem_of_cons. rewrite decide_False by done.
  f_equal. by apply IH.
Qed.

Lemma children_remove_child fid n :
  children (remove_child fid n) = remove_first fid (children n).
Proof.
  unfold remove_child. case_decide; [done |]. by rewrite remove_first_absent.
Qed.

Lemma chs_update_remove_child nodes k fid k' :
  chs (PyDict.update nodes k (remove_child fid)) k'
  = if decide (k = k') then remove_first fid (chs nodes k') else chs nodes k'.
Proof.
  rewrite chs_update. case_decide; [| done]. unfold chs.
  destruct (PyDict.get nodes k'); simpl; [apply children_remove_child | done].
Qed.

Lemma chs_update_append_child nodes k fid k' :
  chs (PyDict.update nodes k (append_child fid)) k'
  = if decide (k = k' ∧ has nodes k' ∧ fid ∉ chs nodes k')
    then chs nodes k' ++ [fid] else chs nodes k'.
Proof.
  rewrite chs_update. destruct (decide (k = k')) as [<- | Hne].
  - case_decide as Hc.
    + destruct Hc as (_ & [n Hn] & Hnotin). unfold chs in *. rewrite Hn in *.
      simpl in *. unfold append_child. by rewrite decide_False.
    + unfold chs. destruct (PyDict.get nodes k) as [n |] eqn:Hn; simpl; [| done].
      unfold append_child. destruct (decide (fid ∈ children n)) as [| Hnotin]; [done |].
      exfalso. apply Hc. split_and!; [done | by exists n |].
      unfold chs. by rewrite Hn.
  - rewrite decide_False; [done | naive_solver].
Qed.

Lemma append_child_add_child fid n : append_child fid n = add_child fid n.
Proof. done. Qed.

Lemma prs_update_set_prerequisites nodes k l k' :
  prs (PyDict.update nodes k (set_prerequisites l)) k'
  = if decide (k = k' ∧ has nodes k') then l else prs nodes k'.
Proof.
  rewrite prs_update. destruct (decide (k = k')) as [<- | Hne].
  - case_decide as Hc.
    + destruct Hc as (_ & [n Hn]). by rewrite Hn.
    + unfold prs. destruct (PyDict.get nodes k) as [n |] eqn:Hn; simpl; [| done].
      exfalso. apply Hc. split; [done | by exists n].
  - rewrite decide_False; [done | naive_solver].
Qed.

Lemma prs_update_add_prerequisite nodes k p k' x :
  x ∈ prs (PyDict.update nodes k (add_prerequisite p)) k'
  ↔ x ∈ prs nodes k' ∨ (k = k' ∧ has nodes k' ∧ x = p).
Proof.
  rewrite prs_update. unfold prs, has, add_prerequisite.
  destruct (decide (k = k')) as [<- | Hne]; [| naive_solver].
  destruct (PyDict.get nodes k) as [n |]; simpl.
  - destruct (decide (p ∈ prerequisites n)).
    + split; [by left |]. intros [? | (_ & _ & ->)]; done.
    + simpl. rewrite elem_of_app, list_elem_of_singleton. split.
      * intros [? | ->]; [by left | right; eauto].
      * intros [? | (_ & _ & ->)]; [by left | by right].
  - split; [by left |]. intros [? | (_ & [? ?] & _)]; done.
Qed.

Lemma chs_update_add_child nodes k c k' x :
  x ∈ chs (PyDict.update nodes k (add_child c)) k'
  ↔ x ∈ chs nodes k' ∨ (k = k' ∧ has nodes k' ∧ x = c).
Proof.
  rewrite chs_update. unfold chs, has, add_child.
  destruct (decide (k = k')) as [<- | Hne]; [| naive_solver].
  destruct (PyDict.get nodes k) as [n |]; simpl.
  - destruct (decide (c ∈ children n)).
    + split; [by left |]. intros [? | (_ & _ & ->)]; done.
    + simpl. rewrite elem_of_app, list_elem_of_singleton. split.
      * intros [? | ->]; [by left | right; eauto].
      * intros [? | (_ & _ & ->)]; [by left | by right].
  - split; [by left |]. intros [? | (_ & [? ?] & _)]; done.
Qed.

(** The loop that takes [fid] out of the children of a list of nodes. *)
Definition drop_child_from (fid : string) (targets : list string) (nodes : NodeTable)
    : NodeTable :=
  fold_left (λ nodes target, PyDict.update nodes target (remove_child fid))
    targets nodes.

Lemma keys_drop_child_from fid targets nodes :
  PyDict.keys (drop_child_from fid targets nodes) = PyDict.keys nodes.
Proof.
  revert nodes. induction targets as [| t targets IH]; intros nodes; simpl; [done |].
  unfold drop_child_from in *. simpl. by rewrite IH, PyDict.keys_update.
Qed.

Lemma has_drop_child_from fid targets nodes k :
  has (drop_child_from fid targets nodes) k ↔ has nodes k.
Proof. by rewrite !has_keys, keys_drop_child_from. Qed.

Lemma prs_drop_child_from fid targets nodes k :
  prs (drop_child_from fid targets nodes) k = prs nodes k.
Proof.
  revert nodes. induction targets as [| t targets IH]; intros nodes; [done |].
  unfold drop_child_from in *. simpl. rewrite IH.
  apply prs_update_same, prerequisites_remove_child.
Qed.

Lemma chs_drop_child_from fid targets nodes k :
  let l := chs nodes k in
  let l' := chs (drop_child_from fid targets nodes) k in
  (∀ y, y ≠ fid → y ∈ l' ↔ y ∈ l)
  ∧ (∀ y, y ∈ l' → y ∈ l)
  ∧ (k ∉ targets → l' = l)
  ∧ (NoDup l → NoDup l')
  ∧ (k ∈ targets → NoDup l → fid ∉ l')
  ∧ (length l' ≤ length l)%nat.
Proof.
  revert nodes. induction targets as [| t targets IH]; intros nodes.
  { simpl. split_and!; try done. by intros ?%elem_of_nil. }
  unfold drop_child_from in *. simpl fold_left.
  specialize (IH (PyDict.update nodes t (remove_child fid))).
  rewrite chs_update_remove_child in IH. simpl in IH.
  destruct IH as (I1 & I2 & I3 & I4 & I5 & I6).
  destruct (decide (t = k)) as [-> | Hne].
  - split_and!.
    + intros y Hy. rewrite I1 by done. by apply elem_of_remove_first_ne.
    + intros y Hy. by eapply elem_of_remove_first, I2.
    + intros Hnotin. exfalso. apply Hnotin. left.
    + intros Hnd. by apply I4, NoDup_remove_first.
    + intros _ Hnd Hin. apply I2 in Hin. by eapply not_elem_of_remove_first.
    + etransitivity; [apply I6 | apply length_remove_first].
  - split_and!; try done.
    + intros [_ Hnotin]%not_elem_of_cons. by apply I3.
    + intros [? | Hin]%elem_of_cons Hnd; [done | by apply I5].
Qed.

(** ** What the repair does to the links *)

Lemma prerequisites_set_depth d n : prerequisites (set_depth d n) = prerequisites n.
Proof. done. Qed.

Lemma children_set_depth d n : children (set_depth d n) = children n.
Proof. done. Qed.

Lemma children_set_prerequisites l n : children (set_prerequisites l n) = children n.
Proof. done. Qed.

(** The prerequisites that replace the blocking ones. *)
Definition new_prerequisites (prereqs blocking : list string) (best_parent : string)
    : list string :=
  let kept := List.filter (λ p, negb (bool_decide (p ∈ blocking))) prereqs in
  if decide (best_parent ∈ kept) then kept else kept ++ [best_parent].

Lemma elem_of_new_prerequisites prereqs blocking best_parent x :
  x ∈ new_prerequisites prereqs blocking best_parent
  ↔ (x ∈ prereqs ∧ x ∉ blocking) ∨ x = best_parent.
Proof.
  unfold new_prerequisites.
  assert (∀ y, y ∈ List.filter (λ p, negb (bool_decide (p ∈ blocking))) prereqs
               ↔ y ∈ prereqs ∧ y ∉ blocking) as Hkept.
  { intros y. rewrite elem_of_list_filter, negb_true_iff, bool_decide_eq_false. done. }
  case_decide as Hin.
  - rewrite Hkept. split; [by left |]. intros [? | ->]; [done | by apply Hkept].
  - rewrite elem_of_app, list_elem_of_singleton, Hkept. done.
Qed.

Section repair_facts.
Context `{SetOrder}.

#[local] Arguments rewire : simpl never.
#[local] Arguments attach_to_root : simpl never.

Lemma update_id (nodes : NodeTable) k : PyDict.update nodes k id = nodes.
Proof.
  unfold PyDict.update. destruct (PyDict.get nodes k) as [v |] eqn:Hg; [| done].
  simpl. induction nodes as [| [k0 v0] nodes IH]; simpl in *; [done |].
  destruct (decide (k = k0)) as [-> | Hne].
  - by injection Hg as ->.
  - f_equal. by apply IH.
Qed.

Lemma replace_blocking_unfold nodes fid prereqs blocking best_parent :
  ∃ d,
    replace_blocking nodes fid prereqs blocking best_parent
    = PyDict.update
        (PyDict.update
           (PyDict.update (drop_child_from fid blocking nodes) fid
              (set_prerequisites (new_prerequisites prereqs blocking best_parent)))
           best_parent (append_child fid))
        fid d
    ∧ (∀ n, prerequisites (d n) = prerequisites n)
    ∧ (∀ n, children (d n) = children n).
Proof.
  unfold replace_blocking. fold (drop_child_from fid blocking nodes).
  fold (new_prerequisites prereqs blocking best_parent).
  set (nodes3 := PyDict.update (PyDict.update _ fid _) best_parent _).
  destruct (PyDict.get nodes3 best_parent) as [parent_node |].
  - by exists (set_depth (depth parent_node + 1)).
  - exists id. by rewrite update_id.
Qed.

Lemma keys_replace_blocking nodes fid prereqs blocking best_parent :
  PyDict.keys (replace_blocking nodes fid prereqs blocking best_parent)
  = PyDict.keys nodes.
Proof.
  destruct (replace_blocking_unfold nodes fid prereqs blocking best_parent)
    as (d & -> & _).
  by rewrite !PyDict.keys_update, keys_drop_child_from.
Qed.

Lemma prs_replace_blocking nodes fid prereqs blocking best_parent k :
  prs (replace_blocking nodes fid prereqs blocking best_parent) k
  = if decide (k = fid ∧ has nodes k)
    then new_prerequisites prereqs blocking best_parent else prs nodes k.
Proof.
  destruct (replace_blocking_unfold nodes fid prereqs blocking best_parent)
    as (d & -> & Hd & _).
  rewrite prs_update_same by done.
  rewrite prs_update_same by apply prerequisites_append_child.
  rewrite prs_update_set_prerequisites, prs_drop_child_from.
  destruct (decide (fid = k ∧ has (drop_child_from fid blocking nodes) k))
    as [[-> Hh] | Hno].
  - rewrite decide_True; [done |]. split; [done |]. by apply has_drop_child_from in Hh.
  - rewrite decide_False; [done |]. intros [-> Hh]. apply Hno. split; [done |].
    by apply has_drop_child_from.
Qed.

Lemma chs_replace_blocking nodes fid prereqs blocking best_parent k :
  chs (replace_blocking nodes fid prereqs blocking best_parent) k
  = let l := chs (drop_child_from fid blocking nodes) k in
    if decide (best_parent = k ∧ has nodes k ∧ fid ∉ l) then l ++ [fid] else l.
Proof.
  destruct (replace_blocking_unfold nodes fid prereqs blocking best_parent)
    as (d & -> & _ & Hd).
  rewrite chs_update_same by done.
  rewrite chs_update_append_child.
  rewrite (chs_update_same _ fid) by apply children_set_prerequisites.
  simpl.
  destruct (decide (best_parent = k ∧ has nodes k
                    ∧ fid ∉ chs (drop_child_from fid blocking nodes) k))
    as [(-> & Hh & Hnotin) | Hno].
  - rewrite decide_True; [done |]. split_and!; [done | | done].
    by apply has_update, has_drop_child_from.
  - rewrite decide_False; [done |]. intros (-> & Hh & Hnotin). apply Hno.
    split_and!; [done | | done].
    by apply has_update, has_drop_child_from in Hh.
Qed.

(** A [rewire] either leaves the state alone or replaces the blocking
    prerequisites of the node and raises the flag. *)
Lemma rewire_cases cfg unlockable nodes fixed_any fid :
  rewire cfg unlockable (nodes, fixed_any) fid = (nodes, fixed_any)
  ∨ ∃ node best_parent,
      PyDict.get nodes fid = Some node
      ∧ List.filter (λ p, negb (bool_decide (p ∈ unlockable))) (prerequisites node) ≠ []
      ∧ truthy (find_best_parent cfg nodes unlockable fid) = Some best_parent
      ∧ rewire cfg unlockable (nodes, fixed_any) fid
        = (replace_blocking nodes fid (prerequisites node)
             (List.filter (λ p, negb (bool_decide (p ∈ unlockable))) (prerequisites node))
             best_parent, true).
Proof.
  unfold rewire. destruct (PyDict.get nodes fid) as [node |] eqn:Hg; [| by left].
  destruct (List.filter _ (prerequisites node)) as [| b0 blocking] eqn:Hb; [by left |].
  destruct (truthy (find_best_parent cfg nodes unlockable fid)) as [best |] eqn:Hbest;
    [| by left].
  right. exists node, best. by rewrite Hb.
Qed.

Lemma keys_rewire cfg unlockable state fid :
  PyDict.keys (rewire cfg unlockable state fid).1 = PyDict.keys state.1.
Proof.
  destruct state as [nodes fixed_any].
  destruct (rewire_cases cfg unlockable nodes fixed_any fid)
    as [Heq | (node & best & _ & _ & _ & Heq)]; rewrite Heq; [done |].
  apply keys_replace_blocking.
Qed.

Lemma keys_rewire_fold cfg unlockable l state :
  PyDict.keys (fold_left (rewire cfg unlockable) l state).1 = PyDict.keys state.1.
Proof.
  revert state. induction l as [| fid l IH]; intros state; simpl; [done |].
  by rewrite IH, keys_rewire.
Qed.

Lemma rewire_fold_unfixed cfg unlockable l nodes fixed_any nodes' :
  fold_left (rewire cfg unlockable) l (nodes, fixed_any) = (nodes', false) →
  nodes' = nodes ∧ fixed_any = false.
Proof.
  revert nodes fixed_any. induction l as [| fid l IH]; intros nodes fixed_any; simpl.
  { by intros [= -> ->]. }
  destruct (rewire_cases cfg unlockable nodes fixed_any fid)
    as [Heq | (node & best & _ & _ & _ & Heq)]; rewrite Heq; [apply IH |].
  intros Hfold. by apply IH in Hfold as [_ ?].
Qed.

(** The aggressive fix. *)
Lemma attach_to_root_unfold root_id nodes fid :
  attach_to_root root_id nodes fid = nodes
  ∧ (fid = root_id ∨ ¬ has nodes fid)
  ∨ fid ≠ root_id ∧ has nodes fid
    ∧ attach_to_root root_id nodes fid
      = PyDict.update
          (PyDict.update
             (PyDict.update (drop_child_from fid (prs nodes fid) nodes) fid
                (set_prerequisites [root_id]))
             root_id (append_child fid))
          fid (set_depth 1).
Proof.
  unfold attach_to_root, prs, has. destruct (decide (fid = root_id)) as [-> | Hne].
  { left. split; [done | by left]. }
  destruct (PyDict.get nodes fid) as [node |] eqn:Hg.
  - right. split_and!; [done | by eexists | done].
  - left. split; [done |]. right. by intros [? ?].
Qed.

Lemma keys_attach_to_root root_id nodes fid :
  PyDict.keys (attach_to_root root_id nodes fid) = PyDict.keys nodes.
Proof.
  destruct (attach_to_root_unfold root_id nodes fid) as [[-> _] | (_ & _ & ->)]; [done |].
  by rewrite !PyDict.keys_update, keys_drop_child_from.
Qed.

Lemma keys_attach_fold root_id l nodes :
  PyDict.keys (fold_left (attach_to_root root_id) l nodes) = PyDict.keys nodes.
Proof.
  revert nodes. induction l as [| fid l IH]; intros nodes; simpl; [done |].
  by rewrite IH, keys_attach_to_root.
Qed.

Lemma prs_attach_to_root root_id nodes fid k :
  prs (attach_to_root root_id nodes fid) k
  = if decide (k = fid ∧ fid ≠ root_id ∧ has nodes k) then [root_id] else prs nodes k.
Proof.
  destruct (attach_to_root_unfold root_id nodes fid)
    as [[-> Hskip] | (Hne & Hhas & ->)].
  - rewrite decide_False; [done |]. intros (-> & ? & ?). naive_solver.
  - rewrite (prs_update_same _ fid) by done.
    rewrite prs_update_same by apply prerequisites_append_child.
    rewrite prs_update_set_prerequisites, prs_drop_child_from.
    destruct (decide (fid = k)) as [<- | Hk].
    + rewrite !decide_True; [done | done |].
      split; [done |]. by apply has_drop_child_from.
    + rewrite !decide_False; [done | naive_solver | naive_solver].
Qed.

Lemma has_attach_fold root_id l nodes k :
  has (fold_left (attach_to_root root_id) l nodes) k ↔ has nodes k.
Proof. by rewrite !has_keys, keys_attach_fold. Qed.

Lemma prs_attach_fold root_id l nodes k :
  prs (fold_left (attach_to_root root_id) l nodes) k
  = if decide (k ∈ l ∧ k ≠ root_id ∧ has nodes k) then [root_id] else prs nodes k.
Proof.
  revert nodes. induction l as [| fid l IH]; intros nodes; cbn [fold_left].
  { rewrite decide_False; [done |]. by intros [?%elem_of_nil _]. }
  rewrite IH, prs_attach_to_root.
  assert (has (attach_to_root root_id nodes fid) k ↔ has nodes k) as Hhas
    by (by rewrite !has_keys, keys_attach_to_root).
  destruct (decide (k ∈ l ∧ k ≠ root_id ∧ has (attach_to_root root_id nodes fid) k))
    as [(Hin & Hne & Hh) | Hno].
  - rewrite decide_True; [done |]. split_and!; [by right | done | by apply Hhas].
  - destruct (decide (k = fid ∧ fid ≠ root_id ∧ has nodes k)) as [(-> & Hne & Hh) | Hno'].
    + rewrite decide_True; [done |]. split_and!; [by left | done | done].
    + rewrite decide_False; [done |].
      intros ([-> | Hin]%elem_of_cons & Hne & Hh); [by apply Hno' |].
      apply Hno. split_and!; [done | done | by apply Hhas].
Qed.

(** ** Reachability after the repair *)

Lemma unlockable_has_prs nodes root_id fid :
  has nodes fid → prs nodes fid ≠ [] →
  (∀ p, p ∈ prs nodes fid → unlockable nodes root_id p) →
  unlockable nodes root_id fid.
Proof.
  unfold has, prs. intros [node Hg]. rewrite Hg. simpl. intros Hne Hall.
  by eapply unlockable_node.
Qed.

(** Unlockable nodes stay unlockable when their own prerequisites are not
    touched. *)
Lemma unlockable_frame nodes nodes' root_id x :
  (∀ y, y ≠ root_id → unlockable nodes root_id y →
        has nodes' y ∧ prs nodes' y = prs nodes y) →
  unlockable nodes root_id x → unlockable nodes' root_id x.
Proof.
  intros Hframe. induction 1 as [| fid node Hg Hne Hall IH]; [constructor |].
  destruct (decide (fid = root_id)) as [-> | Hroot]; [constructor |].
  destruct (Hframe fid Hroot) as [Hhas Hprs]; [by eapply unlockable_node |].
  unfold prs in Hprs at 2. rewrite Hg in Hprs. simpl in Hprs.
  apply unlockable_has_prs; [done | by rewrite Hprs |].
  rewrite Hprs. exact IH.
Qed.

Lemma unreachable_nodes_spec nodes unlockable fid :
  fid ∈ unreachable_nodes nodes unlockable ↔ fid ∈ PyDict.keys nodes ∧ fid ∉ unlockable.
Proof.
  unfold unreachable_nodes.
  by rewrite elem_of_list_filter, negb_true_iff, bool_decide_eq_false.
Qed.

Lemma attach_fold_unlocks_all nodes root_id fid :
  NoDup (PyDict.keys nodes) →
  let unreachable := unreachable_nodes nodes (_simulate_unlocks nodes root_id) in
  let nodes' := fold_left (attach_to_root root_id) unreachable nodes in
  fid ∈ PyDict.keys nodes' → fid ∈ _simulate_unlocks nodes' root_id.
Proof.
  intros Hnd unreachable nodes' Hkey.
  assert (PyDict.keys nodes' = PyDict.keys nodes) as Hkeys by apply keys_attach_fold.
  apply simulate_unlocks_spec; [by rewrite Hkeys |].
  rewrite Hkeys in Hkey.
  assert (∀ y, unlockable nodes root_id y → unlockable nodes' root_id y) as Hmono.
  { intros y. apply unlockable_frame. intros z Hz Hunl.
    assert (z ∉ unreachable) as Hnotin.
    { intros [_ Hno]%unreachable_nodes_spec. by apply Hno, simulate_unlocks_spec. }
    split.
    - apply has_attach_fold. inversion Hunl; [done | by eexists].
    - unfold nodes'. rewrite prs_attach_fold. rewrite decide_False; [done |].
      by intros [? _]. }
  destruct (decide (fid ∈ _simulate_unlocks nodes root_id)) as [Hin | Hnotin].
  - by apply Hmono, simulate_unlocks_spec.
  - assert (fid ≠ root_id) as Hne.
    { intros ->. apply Hnotin, simulate_unlocks_spec; [done | constructor]. }
    assert (prs nodes' fid = [root_id]) as Hprs.
    { unfold nodes'. rewrite prs_attach_fold, decide_True; [done |].
      split_and!; [by apply unreachable_nodes_spec | done | by apply has_keys]. }
    apply unlockable_has_prs.
    + apply has_attach_fold. by apply has_keys.
    + by rewrite Hprs.
    + rewrite Hprs. intros p ->%list_elem_of_singleton. constructor.
Qed.

Lemma repair_passes_reach cfg passes nodes root_id nodes' exit :
  NoDup (PyDict.keys nodes) →
  repair_passes cfg passes nodes root_id = (nodes', exit) →
  exit ≠ PassesExhausted →
  ∀ fid, fid ∈ PyDict.keys nodes' → fid ∈ _simulate_unlocks nodes' root_id.
Proof.
  revert nodes. induction passes as [| passes IH]; intros nodes Hnd; cbn [repair_passes].
  { by intros [= <- <-]. }
  destruct (unreachable_nodes nodes (_simulate_unlocks nodes root_id))
    as [| u0 unreachable] eqn:Hun.
  - intros [= <- <-] _ fid Hkey.
    destruct (decide (fid ∈ _simulate_unlocks nodes root_id)) as [| Hnotin]; [done |].
    assert (fid ∈ unreachable_nodes nodes (_simulate_unlocks nodes root_id)) as Hin
      by (by apply unreachable_nodes_spec).
    rewrite Hun in Hin. by apply elem_of_nil in Hin.
  - rewrite <- Hun. clear Hun.
    remember (unreachable_nodes nodes (_simulate_unlocks nodes root_id)) as unr eqn:Hunr.
    destruct (fold_left _ unr (nodes, false)) as [nodes1 fixed_any] eqn:Hfold.
    destruct fixed_any.
    + apply IH.
      pose proof (keys_rewire_fold cfg (_simulate_unlocks nodes root_id)
                    unr (nodes, false)) as Hkeys.
      rewrite Hfold in Hkeys. simpl in Hkeys. by rewrite Hkeys.
    + apply rewire_fold_unfixed in Hfold as [-> _].
      intros [= <- <-] _ fid. subst unr. by apply attach_fold_unlocks_all.
Qed.

End repair_facts.

(** ** Capacity through the repair *)

Definition within_capacity (cfg : TreeBuilderConfig) (nodes : NodeTable) (k : string)
    : Prop :=
  len (chs nodes k) ≤ max_children_per_node cfg.

Section capacity_facts.
Context `{SetOrder}.

#[local] Arguments rewire : simpl never.
#[local] Arguments attach_to_root : simpl never.

Lemma best_parent_step_spec cfg nodes (unlockable : gset string) fid best u :
  u ∈ unlockable →
  (∀ b, best = Some b →
        b ∈ unlockable ∧ b ≠ fid ∧ has nodes b
        ∧ len (chs nodes b) < max_children_per_node cfg) →
  ∀ b, best_parent_step cfg nodes fid best u = Some b →
       b ∈ unlockable ∧ b ≠ fid ∧ has nodes b
       ∧ len (chs nodes b) < max_children_per_node cfg.
Proof.
  intros Hu Hbest b. unfold best_parent_step.
  destruct (decide (u = fid)) as [-> | Hne]; [apply Hbest |].
  destruct (PyDict.get nodes u) as [candidate |] eqn:Hg; [| apply Hbest].
  destruct (Z.ltb_spec (len (children candidate)) (max_children_per_node cfg))
    as [Hcap | _]; [| apply Hbest].
  assert (u ∈ unlockable ∧ u ≠ fid ∧ has nodes u
          ∧ len (chs nodes u) < max_children_per_node cfg) as Hgood.
  { split_and!; [done | done | by exists candidate |].
    unfold chs. by rewrite Hg. }
  destruct best as [b0 |]; [| by intros [= <-]].
  destruct (PyDict.get nodes b0) as [bn |]; [| apply Hbest].
  destruct (depth candidate <? depth bn)%Z; [by intros [= <-] | apply Hbest].
Qed.

Lemma find_best_parent_spec cfg nodes unlockable fid b :
  find_best_parent cfg nodes unlockable fid = Some b →
  b ∈ unlockable ∧ b ≠ fid ∧ has nodes b
  ∧ len (chs nodes b) < max_children_per_node cfg.
Proof.
  unfold find_best_parent.
  assert (∀ u, u ∈ set_iter unlockable → u ∈ unlockable) as Hmem
    by (intros u; apply set_iter_elem_of).
  revert Hmem. generalize (set_iter unlockable). intros l Hmem.
  assert (∀ b0, (None : option string) = Some b0 →
                b0 ∈ unlockable ∧ b0 ≠ fid ∧ has nodes b0
                ∧ len (chs nodes b0) < max_children_per_node cfg) as Hinit by done.
  revert Hinit. generalize (None : option string). revert b.
  induction l as [| u l IH]; intros b best Hbest; simpl; [apply Hbest |].
  apply IH; [intros u' Hu'; apply Hmem; by right |].
  apply best_parent_step_spec; [apply Hmem; left | done].
Qed.

Lemma truthy_Some s b : truthy s = Some b → s = Some b.
Proof. destruct s as [[| c s'] |]; simpl; by intros [= <-]. Qed.

Lemma length_chs_replace_blocking cfg nodes unlockable fid prereqs blocking best k :
  find_best_parent cfg nodes unlockable fid = Some best →
  has nodes k → within_capacity cfg nodes k →
  within_capacity cfg (replace_blocking nodes fid prereqs blocking best) k.
Proof.
  intros Hbest Hhas Hcap. unfold within_capacity in *.
  rewrite chs_replace_blocking. simpl.
  destruct (chs_drop_child_from fid blocking nodes k) as (_ & _ & _ & _ & _ & Hlen).
  simpl in Hlen. unfold len in *.
  case_decide as Hc; [| lia].
  destruct Hc as (-> & _ & _).
  apply find_best_parent_spec in Hbest as (_ & _ & _ & Hroom).
  unfold len in Hroom. rewrite length_app. simpl. lia.
Qed.

Lemma capacity_rewire cfg unlockable nodes fixed_any fid k :
  has nodes k → within_capacity cfg nodes k →
  within_capacity cfg (rewire cfg unlockable (nodes, fixed_any) fid).1 k.
Proof.
  intros Hhas Hcap.
  destruct (rewire_cases cfg unlockable nodes fixed_any fid)
    as [Heq | (node & best & _ & _ & Hbest & Heq)]; rewrite Heq; simpl; [done |].
  eapply length_chs_replace_blocking; [by apply truthy_Some | done | done].
Qed.

Lemma capacity_rewire_fold cfg unlockable l state k :
  has state.1 k → within_capacity cfg state.1 k →
  within_capacity cfg (fold_left (rewire cfg unlockable) l state).1 k.
Proof.
  revert state. induction l as [| fid l IH]; intros [nodes fixed_any] Hhas Hcap;
    cbn [fold_left]; [done |].
  pose proof (keys_rewire_fold cfg unlockable [fid] (nodes, fixed_any)) as Hkeys.
  cbn [fold_left] in Hkeys.
  pose proof (capacity_rewire cfg unlockable nodes fixed_any fid k Hhas Hcap) as Hstep.
  destruct (rewire cfg unlockable (nodes, fixed_any) fid) as [nodes1 fixed1] eqn:Hr.
  apply IH; [| done]. simpl in *. apply has_keys. rewrite Hkeys. by apply has_keys.
Qed.

Lemma chs_attach_to_root_other root_id nodes fid k :
  k ≠ root_id →
  (length (chs (attach_to_root root_id nodes fid) k) ≤ length (chs nodes k))%nat.
Proof.
  intros Hne.
  destruct (attach_to_root_unfold root_id nodes fid) as [[-> _] | (_ & _ & ->)]; [done |].
  rewrite (chs_update_same _ fid) by done.
  rewrite chs_update_append_child, decide_False by naive_solver.
  rewrite (chs_update_same _ fid) by done.
  by destruct (chs_drop_child_from fid (prs nodes fid) nodes k) as (_ & _ & _ & _ & _ & ?).
Qed.

Lemma chs_attach_fold_other root_id l nodes k :
  k ≠ root_id →
  (length (chs (fold_left (attach_to_root root_id) l nodes) k) ≤ length (chs nodes k))%nat.
Proof.
  intros Hne. revert nodes. induction l as [| fid l IH]; intros nodes;
    cbn [fold_left]; [done |].
  etransitivity; [apply IH | by apply chs_attach_to_root_other].
Qed.

Lemma repair_passes_capacity cfg passes nodes root_id nodes' exit k :
  has nodes k → within_capacity cfg nodes k →
  repair_passes cfg passes nodes root_id = (nodes', exit) →
  k ≠ root_id ∨ exit ≠ AggressiveFix →
  within_capacity cfg nodes' k.
Proof.
  revert nodes. induction passes as [| passes IH]; intros nodes Hhas Hcap;
    cbn [repair_passes].
  { by intros [= <- <-] _. }
  destruct (unreachable_nodes nodes (_simulate_unlocks nodes root_id))
    as [| u0 unreachable] eqn:Hun.
  { by intros [= <- <-] _. }
  remember (u0 :: unreachable) as unr eqn:Hunr. clear Hunr Hun.
  pose proof (capacity_rewire_fold cfg (_simulate_unlocks nodes root_id)
                unr (nodes, false) k Hhas Hcap) as Hcap1.
  pose proof (keys_rewire_fold cfg (_simulate_unlocks nodes root_id)
                unr (nodes, false)) as Hkeys.
  destruct (fold_left _ unr (nodes, false)) as [nodes1 fixed_any] eqn:Hfold.
  simpl in Hcap1, Hkeys.
  assert (has nodes1 k) as Hhas1 by (apply has_keys; rewrite Hkeys; by apply has_keys).
  destruct fixed_any; [by apply IH |].
  intros [= <- <-] [Hne | ?]; [| done].
  unfold within_capacity, len.
  pose proof (chs_attach_fold_other root_id unr nodes1 k Hne) as Hlen.
  unfold within_capacity, len in Hcap1. lia.
Qed.

End capacity_facts.

(** ** The breadth-first walks *)

(** [child_edge nodes a b]: [b] is listed among the children of [a]. *)
Definition child_edge (nodes : NodeTable) (a b : string) : Prop :=
  b ∈ children_of nodes a.

Lemma bfs_weight_mono nodes (visited : gset string) fid :
  (bfs_weight nodes ({[fid]} ∪ visited) ≤ bfs_weight nodes visited)%nat.
Proof.
  induction nodes as [| [k n] nodes IH]; simpl; [done |].
  destruct (decide (k ∈ visited)).
  - rewrite decide_True by set_solver. lia.
  - destruct (decide (k ∈ {[fid]} ∪ visited)); lia.
Qed.

Lemma bfs_weight_visit nodes (visited : gset string) fid :
  fid ∉ visited →
  (length (children_of nodes fid) + bfs_weight nodes ({[fid]} ∪ visited)
   ≤ bfs_weight nodes visited)%nat.
Proof.
  intros Hnotin. unfold children_of.
  induction nodes as [| [k n] nodes IH]; simpl; [done |].
  destruct (decide (fid = k)) as [<- | Hne].
  - rewrite decide_True by set_solver. rewrite decide_False by done.
    pose proof (bfs_weight_mono nodes visited fid) as Hmono. lia.
  - destruct (decide (k ∈ visited)).
    + rewrite decide_True by set_solver. lia.
    + rewrite decide_False by set_solver. lia.
Qed.

(** Neither walk runs out of fuel. *)
Lemma bfs_descendant_fuel nodes potential_ancestor fuel visited queue :
  (length queue + bfs_weight nodes visited < fuel)%nat →
  is_Some (bfs_descendant fuel nodes potential_ancestor visited queue).
Proof.
  revert visited queue. induction fuel as [| fuel IH]; intros visited queue Hfuel; [lia |].
  simpl. destruct queue as [| fid queue]; [by eexists |].
  simpl in Hfuel. destruct (decide (fid ∈ visited)); [apply IH; lia |].
  destruct (decide (fid = potential_ancestor)); [by eexists |].
  apply IH. rewrite length_app.
  pose proof (bfs_weight_visit nodes visited fid ltac:(done)). lia.
Qed.

Lemma bfs_reach_fuel nodes fuel reachable queue :
  (length queue + bfs_weight nodes reachable < fuel)%nat →
  is_Some (bfs_reach fuel nodes reachable queue).
Proof.
  revert reachable queue. induction fuel as [| fuel IH]; intros reachable queue Hfuel; [lia |].
  simpl. destruct queue as [| fid queue]; [by eexists |].
  simpl in Hfuel. destruct (decide (fid ∈ reachable)); [apply IH; lia |].
  apply IH. rewrite length_app.
  pose proof (bfs_weight_visit nodes reachable fid ltac:(done)). lia.
Qed.

Lemma bfs_fuel_enough nodes (start : string) :
  (length [start] + bfs_weight nodes ∅ < bfs_fuel nodes)%nat.
Proof. unfold bfs_fuel. simpl. lia. Qed.

(** A walk that answers "no" has seen a set that is closed under
    [children], holds the start and misses the target. *)
Lemma bfs_descendant_false nodes potential_ancestor fuel visited queue :
  bfs_descendant fuel nodes potential_ancestor visited queue = Some false →
  potential_ancestor ∉ visited →
  (∀ v c, v ∈ visited → child_edge nodes v c → c ∈ visited ∨ c ∈ queue) →
  ∃ seen : gset string,
    visited ⊆ seen ∧ (∀ q, q ∈ queue → q ∈ seen) ∧ (potential_ancestor ∉ seen)
    ∧ ∀ v c, v ∈ seen → child_edge nodes v c → c ∈ seen.
Proof.
  revert visited queue. induction fuel as [| fuel IH]; intros visited queue; [done |].
  simpl. destruct queue as [| fid queue].
  { intros _ Hpa Hclosed. exists visited. split_and!; [done | | done |].
    - by intros q ?%elem_of_nil.
    - intros v c Hv Hc. destruct (Hclosed v c Hv Hc) as [? | ?%elem_of_nil]; done. }
  destruct (decide (fid ∈ visited)) as [Hin | Hnotin].
  - intros Hbfs Hpa Hclosed.
    destruct (IH visited queue Hbfs Hpa) as (seen & Hsub & Hq & Hpa' & Hcl).
    { intros v c Hv Hc.
      destruct (Hclosed v c Hv Hc) as [? | [-> | ?]%elem_of_cons]; auto. }
    exists seen. split_and!; [done | | done | done].
    intros q [-> | ?]%elem_of_cons; [set_solver | by apply Hq].
  - destruct (decide (fid = potential_ancestor)) as [-> | Hne]; [done |].
    intros Hbfs Hpa Hclosed.
    destruct (IH ({[fid]} ∪ visited) (queue ++ children_of nodes fid) Hbfs)
      as (seen & Hsub & Hq & Hpa' & Hcl).
    { set_solver. }
    { intros v c [->%elem_of_singleton | Hv]%elem_of_union Hc.
      - right. apply elem_of_app. by right.
      - destruct (Hclosed v c Hv Hc) as [? | [-> | ?]%elem_of_cons].
        + left. set_solver.
        + left. set_solver.
        + right. apply elem_of_app. by left. }
    exists seen. split_and!; [set_solver | | done | done].
    intros q [-> | ?]%elem_of_cons; [set_solver |].
    apply Hq, elem_of_app. by left.
Qed.

(** A walk that answers "yes" has found a path. *)
Lemma bfs_descendant_true nodes potential_ancestor start fuel visited queue :
  bfs_descendant fuel nodes potential_ancestor visited queue = Some true →
  (∀ q, q ∈ queue → rtc (child_edge nodes) start q) →
  rtc (child_edge nodes) start potential_ancestor.
Proof.
  revert visited queue. induction fuel as [| fuel IH]; intros visited queue; [done |].
  simpl. destruct queue as [| fid queue]; [done |].
  destruct (decide (fid ∈ visited)).
  - intros Hbfs Hq. eapply IH; [done |]. intros q ?. apply Hq. by right.
  - destruct (decide (fid = potential_ancestor)) as [-> | Hne].
    + intros _ Hq. apply Hq. left.
    + intros Hbfs Hq. eapply IH; [done |].
      intros q [? | Hc]%elem_of_app; [apply Hq; by right |].
      eapply rtc_r; [apply Hq; left | done].
Qed.

(** [_is_descendant(potential_ancestor, node_id, nodes)] is true exactly
    when [potential_ancestor] can be reached from [node_id] along
    [children] (a node reaches itself). *)
Lemma is_descendant_spec nodes potential_ancestor node_id :
  _is_descendant potential_ancestor node_id nodes = true
  ↔ rtc (child_edge nodes) node_id potential_ancestor.
Proof.
  unfold _is_descendant.
  destruct (bfs_descendant_fuel nodes potential_ancestor (bfs_fuel nodes) ∅ [node_id]
              (bfs_fuel_enough nodes node_id)) as [answer Hbfs].
  rewrite Hbfs. simpl. destruct answer.
  - split; [intros _ | done].
    eapply bfs_descendant_true; [done |].
    by intros q ->%list_elem_of_singleton.
  - split; [done |]. intros Hreach. exfalso.
    destruct (bfs_descendant_false _ _ _ _ _ Hbfs) as (seen & _ & Hq & Hpa & Hcl).
    { set_solver. }
    { set_solver. }
    apply Hpa.
    assert (node_id ∈ seen) as Hstart by (apply Hq; left).
    clear -Hreach Hstart Hcl. induction Hreach as [| a b c Hab Hbc IH]; [done |].
    apply IH. by eapply Hcl.
Qed.

Lemma get_reachable_from_root_returns nodes root_id :
  is_Some (bfs_reach (bfs_fuel nodes) nodes ∅ [root_id]).
Proof. apply bfs_reach_fuel, bfs_fuel_enough. Qed.

(** ** The invariants of the build *)

(** [prereq_edge nodes a b]: [a] is listed among the prerequisites of [b]. *)
Definition prereq_edge (nodes : NodeTable) (a b : string) : Prop :=
  a ∈ prs nodes b.

(** No node is its own ancestor along prerequisites. *)
Definition acyclic (nodes : NodeTable) : Prop :=
  ∀ a, ¬ tc (prereq_edge nodes) a a.

(** Bidirectional consistency: for nodes [a], [b] of the table, [b] is a
    child of [a] exactly when [a] is a prerequisite of [b]. *)
Definition consistent (nodes : NodeTable) : Prop :=
  ∀ a b, has nodes a → has nodes b → (b ∈ chs nodes a ↔ a ∈ prs nodes b).

Record linked (nodes : NodeTable) : Prop := {
  linked_keys : NoDup (PyDict.keys nodes);
  linked_consistent : consistent nodes;
  linked_children : ∀ k, NoDup (chs nodes k)
}.

Record build_inv (root_id : string) (nodes : NodeTable) : Prop := {
  inv_linked : linked nodes;
  inv_acyclic : acyclic nodes;
  inv_root : prs nodes root_id = []
}.

Lemma child_edge_chs nodes a b : child_edge nodes a b ↔ b ∈ chs nodes a.
Proof. unfold child_edge. by rewrite <- (chs_children_of nodes a). Qed.

Lemma prs_has nodes k x : x ∈ prs nodes k → has nodes k.
Proof.
  unfold prs, has. destruct (PyDict.get nodes k); [by eexists |].
  by intros ?%elem_of_nil.
Qed.

Lemma chs_has nodes k x : x ∈ chs nodes k → has nodes k.
Proof.
  unfold chs, has. destruct (PyDict.get nodes k); [by eexists |].
  by intros ?%elem_of_nil.
Qed.

(** Along prerequisites every node after the first is in the table, so a
    consistent table has the same paths along children. *)
Lemma prereq_path_child_path nodes a b :
  consistent nodes → has nodes a →
  rtc (prereq_edge nodes) a b → rtc (child_edge nodes) a b.
Proof.
  intros Hcons Ha Hpath. induction Hpath as [| a b c Hab Hbc IH]; [done |].
  assert (has nodes b) as Hb by (by eapply prs_has).
  eapply rtc_l; [| by apply IH].
  apply child_edge_chs. by apply Hcons.
Qed.

(** *** Adding one edge *)

(** [nodes'] is [nodes] with the link from [a] to [b] recorded: [b] among
    the children of [a] when [a] is in the table, [a] among the prerequisites
    of [b] at most when [b] is. *)
Record edge_added (nodes nodes' : NodeTable) (a b : string) : Prop := {
  added_keys : PyDict.keys nodes' = PyDict.keys nodes;
  added_prs_old : ∀ k x, x ∈ prs nodes k → x ∈ prs nodes' k;
  added_prs_new : ∀ k x, x ∈ prs nodes' k → x ∈ prs nodes k ∨ (k = b ∧ x = a);
  added_prs_edge : has nodes a → has nodes b → a ∈ prs nodes' b;
  added_chs : ∀ k y, y ∈ chs nodes' k ↔ y ∈ chs nodes k ∨ (k = a ∧ has nodes a ∧ y = b);
  added_children : ∀ k, NoDup (chs nodes k) → NoDup (chs nodes' k)
}.

Lemma edge_added_has nodes nodes' a b k :
  edge_added nodes nodes' a b → has nodes' k ↔ has nodes k.
Proof.
  intros Hadd. rewrite (has_keys nodes'), (has_keys nodes).
  by rewrite (added_keys _ _ _ _ Hadd).
Qed.

Lemma edge_added_linked nodes nodes' a b :
  edge_added nodes nodes' a b → linked nodes → linked nodes'.
Proof.
  intros Hadd [Hkeys Hcons Hnd]. split.
  - by rewrite (added_keys _ _ _ _ Hadd).
  - intros x y Hx Hy.
    apply (edge_added_has _ _ _ _ _ Hadd) in Hx, Hy.
    rewrite (added_chs _ _ _ _ Hadd). split.
    + intros [Hold | (-> & _ & ->)].
      * by apply (added_prs_old _ _ _ _ Hadd), Hcons.
      * by apply (added_prs_edge _ _ _ _ Hadd).
    + intros [Hold | [-> ->]]%(added_prs_new _ _ _ _ Hadd).
      * left. by apply Hcons.
      * by right.
  - intros k. apply (added_children _ _ _ _ Hadd), Hnd.
Qed.

(** A path of the enlarged graph either avoids the new edge or crosses
    it: then its start leads to [a] and [b] leads to its end, in the old
    graph. *)
Lemma tc_edge_added nodes nodes' a b x y :
  edge_added nodes nodes' a b →
  tc (prereq_edge nodes') x y →
  tc (prereq_edge nodes) x y
  ∨ (has nodes b ∧ rtc (prereq_edge nodes) x a ∧ rtc (prereq_edge nodes) b y).
Proof.
  intros Hadd Hpath.
  assert (∀ u v, prereq_edge nodes' u v →
                 prereq_edge nodes u v ∨ (u = a ∧ v = b ∧ has nodes b)) as Hedge.
  { intros u v Huv. unfold prereq_edge in *.
    destruct (added_prs_new _ _ _ _ Hadd v u Huv) as [? | [-> ->]]; [by left |].
    right. split_and!; [done | done |].
    eapply (edge_added_has _ _ _ _ _ Hadd), prs_has, Huv. }
  induction Hpath as [x y Hxy | x z y Hxz Hzy IH].
  - destruct (Hedge x y Hxy) as [? | (-> & -> & ?)]; [left; by constructor |].
    right. by split_and!.
  - destruct (Hedge x z Hxz) as [Hold | (-> & -> & Hb)].
    + destruct IH as [Htc | (Hb & Hza & Hby)].
      * left. by eapply tc_l.
      * right. split_and!; [done | by eapply rtc_l | done].
    + right. split_and!; [done | done |].
      destruct IH as [Htc | (_ & _ & Hby)]; [by apply tc_rtc | done].
Qed.

Lemma edge_added_acyclic nodes nodes' a b :
  edge_added nodes nodes' a b → consistent nodes → acyclic nodes →
  ¬ rtc (child_edge nodes) b a → acyclic nodes'.
Proof.
  intros Hadd Hcons Hacyc Hno x Hcycle.
  destruct (tc_edge_added _ _ _ _ _ _ Hadd Hcycle) as [Hold | (Hb & Hxa & Hbx)].
  - by apply (Hacyc x).
  - apply Hno. apply prereq_path_child_path; [done | done |].
    by etransitivity.
Qed.

(** An edge into [b] does not change what [b] reaches along children,
    unless it closes a cycle. *)
Lemma edge_added_reach nodes nodes' a b z :
  edge_added nodes nodes' a b →
  ¬ rtc (child_edge nodes) b a →
  rtc (child_edge nodes') b z → rtc (child_edge nodes) b z.
Proof.
  intros Hadd Hno Hpath. revert z Hpath.
  apply (rtc_ind_r (λ z, rtc (child_edge nodes) b z)); [done |].
  intros w z Hbw Hwz IH.
  apply child_edge_chs, (added_chs _ _ _ _ Hadd) in Hwz
    as [Hold | (-> & _ & ->)]; [| done].
  eapply rtc_r; [done |]. by apply child_edge_chs.
Qed.

Lemma edge_added_root nodes nodes' a b root_id :
  edge_added nodes nodes' a b → b ≠ root_id →
  prs nodes root_id = [] → prs nodes' root_id = [].
Proof.
  intros Hadd Hne Hroot.
  destruct (prs nodes' root_id) as [| x l] eqn:Hprs; [done |].
  destruct (added_prs_new _ _ _ _ Hadd root_id x) as [Hold | [? _]]; [| | done].
  - rewrite Hprs. left.
  - rewrite Hroot in Hold. by apply elem_of_nil in Hold.
Qed.

Lemma edge_added_build_inv nodes nodes' a b root_id :
  edge_added nodes nodes' a b → b ≠ root_id →
  ¬ rtc (child_edge nodes) b a →
  build_inv root_id nodes → build_inv root_id nodes'.
Proof.
  intros Hadd Hne Hno [Hlinked Hacyc Hroot]. split.
  - by eapply edge_added_linked.
  - eapply edge_added_acyclic; [done | apply Hlinked | done | done].
  - by eapply edge_added_root.
Qed.

(** The two ways the builder records a link. *)
Lemma add_convergence_edge_added extra_id node_id nodes :
  edge_added nodes (add_convergence_edge extra_id node_id nodes) extra_id node_id.
Proof.
  unfold add_convergence_edge. split.
  - by rewrite !PyDict.keys_update.
  - intros k x Hx. rewrite prs_update_same by apply prerequisites_add_child.
    apply prs_update_add_prerequisite. by left.
  - intros k x. rewrite prs_update_same by apply prerequisites_add_child.
    rewrite prs_update_add_prerequisite. naive_solver.
  - intros Ha Hb. rewrite prs_update_same by apply prerequisites_add_child.
    apply prs_update_add_prerequisite. right. done.
  - intros k y. rewrite chs_update_add_child.
    rewrite (chs_update_same _ node_id) by apply children_add_prerequisite.
    rewrite has_update. naive_solver.
  - intros k Hnd. rewrite chs_update. case_decide as Hk; [subst k |].
    + rewrite PyDict.get_update.
      assert (NoDup (from_option children [] (PyDict.get nodes extra_id))) as Hnd'
        by exact Hnd.
      destruct (PyDict.get nodes extra_id) as [n |]; simpl.
      * case_decide; simpl.
        -- unfold add_child. case_decide as Hin.
           ++ by rewrite children_add_prerequisite in *.
           ++ simpl. rewrite children_add_prerequisite in *.
              apply NoDup_app. split_and!; [done | | apply NoDup_singleton].
              by intros x Hx ->%list_elem_of_singleton.
        -- unfold add_child. case_decide as Hin; [done |]. simpl.
           apply NoDup_app. split_and!; [done | | apply NoDup_singleton].
           by intros x Hx ->%list_elem_of_singleton.
      * case_decide; simpl; constructor.
    + by rewrite (chs_update_same _ node_id) by apply children_add_prerequisite.
Qed.

Lemma link_nodes_added parent_id child_id nodes :
  has nodes parent_id →
  edge_added nodes (link_nodes parent_id child_id nodes) parent_id child_id.
Proof.
  intros [parent Hp]. unfold link_nodes. rewrite Hp. split.
  - by rewrite !PyDict.keys_update.
  - intros k x Hx. rewrite prs_update_same by done.
    apply prs_update_add_prerequisite. left.
    by rewrite prs_update_same by apply prerequisites_add_child.
  - intros k x. rewrite prs_update_same by done.
    rewrite prs_update_add_prerequisite.
    rewrite prs_update_same by apply prerequisites_add_child. naive_solver.
  - intros Ha Hb. rewrite prs_update_same by done.
    apply prs_update_add_prerequisite. right. split_and!; [done | | done].
    by apply has_update.
  - intros k y. rewrite chs_update_same by done.
    rewrite chs_update_same by apply children_add_prerequisite.
    rewrite chs_update_add_child. naive_solver.
  - intros k Hnd. rewrite chs_update_same by done.
    rewrite chs_update_same by apply children_add_prerequisite.
    change (add_child child_id) with (append_child child_id).
    rewrite chs_update_append_child. case_decide as Hc; [| done].
    destruct Hc as (_ & _ & Hnotin).
    apply NoDup_app. split_and!; [done | | apply NoDup_singleton].
    by intros x Hx ->%list_elem_of_singleton.
Qed.

Lemma link_nodes_missing parent_id child_id nodes :
  ¬ has nodes parent_id → link_nodes parent_id child_id nodes = nodes.
Proof.
  unfold link_nodes, has. destruct (PyDict.get nodes parent_id); [| done].
  intros Hno. destruct Hno. by eexists.
Qed.

(** *** The convergence passes *)

(** [converged node_id offered nodes nodes']: [nodes'] is [nodes] after a
    run of convergence links into [node_id], each from an [offered] node
    that [node_id] did not reach along children when the link was made. *)
Inductive converged (node_id : string) (offered : string → Prop)
    : NodeTable → NodeTable → Prop :=
| converged_refl nodes : converged node_id offered nodes nodes
| converged_step nodes extra nodes' :
    offered extra →
    ¬ rtc (child_edge nodes) node_id extra →
    converged node_id offered (add_convergence_edge extra node_id nodes) nodes' →
    converged node_id offered nodes nodes'.

Lemma converged_linked node_id offered nodes nodes' :
  converged node_id offered nodes nodes' → linked nodes → linked nodes'.
Proof.
  induction 1 as [| nodes extra nodes' _ _ _ IH]; [done |].
  intros Hl. apply IH. eapply edge_added_linked; [| done].
  apply add_convergence_edge_added.
Qed.

Lemma converged_build_inv root_id node_id offered nodes nodes' :
  node_id ≠ root_id → converged node_id offered nodes nodes' →
  build_inv root_id nodes → build_inv root_id nodes'.
Proof.
  intros Hne. induction 1 as [| nodes extra nodes' _ Hno _ IH]; [done |].
  intros Hinv. apply IH.
  eapply edge_added_build_inv; [apply add_convergence_edge_added | done | done | done].
Qed.

Lemma converged_keys node_id offered nodes nodes' :
  converged node_id offered nodes nodes' → PyDict.keys nodes' = PyDict.keys nodes.
Proof.
  induction 1 as [| nodes extra nodes' _ _ _ IH]; [done |].
  rewrite IH. apply (added_keys _ _ _ _ (add_convergence_edge_added _ _ _)).
Qed.

Lemma elem_of_different_candidates nodes node_id reachable candidates x :
  x ∈ different_candidates nodes node_id reachable candidates →
  x ∈ candidates ∧ x ∈ reachable ∧ _is_descendant x node_id nodes = false.
Proof.
  unfold different_candidates. destruct (PyDict.get nodes node_id) as [node |].
  - rewrite elem_of_list_filter. intros [Hin Hf]. split; [done |].
    destruct (PyDict.get nodes x) as [p |]; [| done].
    apply andb_prop in Hf as [Hf Hdesc]. apply andb_prop in Hf as [_ Hreach].
    split; [by apply bool_decide_eq_true in Hreach | by apply negb_true_iff in Hdesc].
  - by intros ?%elem_of_nil.
Qed.

(** What [_maybe_add_convergence] may pick: a node of [available] that the
    walk from the root has reached. *)
Definition offered_by (reachable : gset string) (available : gmap Z (list string))
    (x : string) : Prop :=
  x ∈ reachable ∧ ∃ d, x ∈ default [] (available !! d).

Lemma elem_of_first_offer nodes node_id reachable available depths x :
  x ∈ first_offer nodes node_id reachable available depths →
  offered_by reachable available x ∧ _is_descendant x node_id nodes = false.
Proof.
  induction depths as [| d depths IH]; simpl; [by intros ?%elem_of_nil |].
  destruct (different_candidates nodes node_id reachable (default [] (available !! d)))
    as [| c0 different] eqn:Hd; [done |].
  rewrite <- Hd. intros (? & ? & ?)%elem_of_different_candidates.
  split; [split |]; [done | by exists d | done].
Qed.

Lemma not_descendant_no_path nodes a b :
  _is_descendant a b nodes = false → ¬ rtc (child_edge nodes) b a.
Proof.
  intros Hfalse Hpath. apply is_descendant_spec in Hpath. congruence.
Qed.

Section convergence_facts.
Context {G : Type} `{PyRandom G}.

Lemma choice_Ok_elem {A : Type} (seq : list A) g x g' :
  choice seq g = Ok (x, g') → x ∈ seq.
Proof.
  destruct seq as [| x0 seq']; [done |]. unfold choice.
  pose proof (randbelow_range (Z.of_nat (length (x0 :: seq'))) g) as Hr.
  destruct (randbelow (Z.of_nat (length (x0 :: seq'))) g) as [r g1].
  simpl fst in Hr. remember (x0 :: seq') as seq eqn:Hseq.
  intros Hok. assert (x = nth (Z.to_nat r) seq x0) as -> by congruence.
  apply list_elem_of_In, nth_In.
  assert (0 < Z.of_nat (length seq)) by (subst seq; simpl length; lia).
  lia.
Qed.

Lemma convergence_rounds_converged rounds node_id max_prereqs reachable available
    nodes g :
  converged node_id (offered_by reachable available) nodes
    (convergence_rounds rounds node_id max_prereqs reachable available nodes g).1.
Proof.
  revert nodes g. induction rounds as [| rounds IH]; intros nodes g; simpl;
    [constructor |].
  destruct (PyDict.get nodes node_id) as [node |]; [| constructor].
  destruct (max_prereqs <=? len (prerequisites node))%Z; [constructor |].
  destruct (choice _ g) as [[extra g'] | e] eqn:Hchoice; [| apply IH].
  apply choice_Ok_elem, elem_of_first_offer in Hchoice as [Hoff Hdesc].
  eapply converged_step; [done | | apply IH].
  by apply not_descendant_no_path.
Qed.

Lemma maybe_add_convergence_converged cfg node_id available nodes root_id g :
  converged node_id (offered_by (_get_reachable_from_root nodes root_id) available)
    nodes (_maybe_add_convergence cfg node_id available nodes root_id g).1.
Proof.
  unfold _maybe_add_convergence.
  destruct (PyDict.get nodes node_id) as [node |]; [| constructor].
  destruct (_ || _).
  - destruct (_ <=? _)%Z; [constructor | apply convergence_rounds_converged].
  - destruct (random g) as [r g']. destruct (_ <? r)%float; [constructor |].
    destruct (_ <=? _)%Z; [constructor | apply convergence_rounds_converged].
Qed.

End convergence_facts.

Lemma elem_of_insert_sorted key c l x :
  x ∈ insert_sorted key c l ↔ x = c ∨ x ∈ l.
Proof.
  induction l as [| c' l IH]; simpl; [by rewrite list_elem_of_singleton, elem_of_nil; tauto |].
  destruct (key_le (key c) (key c')).
  - by rewrite elem_of_cons.
  - rewrite !elem_of_cons, IH. tauto.
Qed.

Lemma elem_of_sort_by_key key l x : x ∈ sort_by_key key l ↔ x ∈ l.
Proof.
  unfold sort_by_key. induction l as [| c l IH]; simpl; [done |].
  by rewrite elem_of_insert_sorted, elem_of_cons, IH.
Qed.

Lemma elem_of_enforce_candidates nodes reachable fid node x :
  x ∈ enforce_candidates nodes reachable fid node →
  x ∈ reachable ∧ has nodes x ∧ _is_descendant x fid nodes = false.
Proof.
  unfold enforce_candidates, has. rewrite elem_of_list_filter. intros [_ Hf].
  destruct (PyDict.get nodes x) as [cand |]; [| done].
  apply andb_prop in Hf as [Hf Hdesc]. apply andb_prop in Hf as [Hf _].
  apply andb_prop in Hf as [_ Hreach].
  split_and!; [by apply bool_decide_eq_true in Hreach | by eexists |].
  by apply negb_true_iff in Hdesc.
Qed.

Lemma add_edges_converged fid (offered : string → Prop) candidates nodes :
  (∀ c, c ∈ candidates → offered c) →
  (∀ c, c ∈ candidates → ¬ rtc (child_edge nodes) fid c) →
  converged fid offered nodes
    (fold_left (λ nodes cand_id, add_convergence_edge cand_id fid nodes) candidates nodes).
Proof.
  intros Hoff. revert nodes.
  induction candidates as [| c candidates IH]; intros nodes Hno;
    cbn [fold_left]; [constructor |].
  eapply converged_step; [apply Hoff; left | apply Hno; left |].
  apply IH; [intros ? ?; apply Hoff; by right |]. intros c' Hc' Hpath. apply (Hno c'); [by right |].
  eapply edge_added_reach; [apply add_convergence_edge_added | | done].
  apply Hno. left.
Qed.

Lemma enforce_node_converged root_id reachable nodes fid :
  enforce_node root_id reachable nodes fid = nodes
  ∨ fid ≠ root_id ∧ has nodes fid
    ∧ converged fid (λ x, x ∈ reachable ∧ has nodes x) nodes
        (enforce_node root_id reachable nodes fid).
Proof.
  unfold enforce_node, has.
  destruct (decide (fid = root_id)) as [-> | Hne]; [by left |].
  destruct (PyDict.get nodes fid) as [node |]; [| by left].
  destruct (_ <? 3)%Z; [by left |].
  destruct (_ <=? _)%Z; [by left |].
  right. split_and!; [done | by eexists |].
  assert (∀ c, c ∈ take (Z.to_nat ((if (4 <=? _tier_to_depth (tier node))%Z
                                     then 3 else 2) - len (prerequisites node)))
                     (sort_by_key (candidate_key nodes node)
                        (enforce_candidates nodes reachable fid node)) →
               c ∈ enforce_candidates nodes reachable fid node) as Hsub.
  { intros c Hc. apply elem_of_take in Hc as (i & Hc & _).
    by apply list_elem_of_lookup_2, elem_of_sort_by_key in Hc. }
  apply add_edges_converged.
  - intros c Hc. apply Hsub, elem_of_enforce_candidates in Hc as (? & ? & _). done.
  - intros c Hc. apply Hsub, elem_of_enforce_candidates in Hc as (_ & _ & ?).
    by apply not_descendant_no_path.
Qed.

Lemma enforce_build_inv root_id nodes :
  build_inv root_id nodes →
  build_inv root_id (_enforce_high_tier_convergence nodes root_id).
Proof.
  unfold _enforce_high_tier_convergence.
  generalize (_get_reachable_from_root nodes root_id). intros reachable.
  generalize (PyDict.keys nodes). intros l. revert nodes.
  induction l as [| fid l IH]; intros nodes Hinv; cbn [fold_left]; [done |].
  apply IH.
  destruct (enforce_node_converged root_id reachable nodes fid)
    as [-> | (Hne & _ & Hconv)]; [done |].
  by eapply converged_build_inv.
Qed.

(** *** Moving a node under a new parent

    Both the replacement of blocking prerequisites and the aggressive fix
    take [fid] out of the children of a list [dropped] of nodes, give it new
    prerequisites and append it to the children of [parent]. *)
Record relinked (nodes nodes' : NodeTable) (fid parent : string)
    (dropped : list string) : Prop := {
  relinked_keys : PyDict.keys nodes' = PyDict.keys nodes;
  relinked_prs_other : ∀ k, k ≠ fid → prs nodes' k = prs nodes k;
  relinked_prs : ∀ x,
    x ∈ prs nodes' fid ↔ (x ∈ prs nodes fid ∧ x ∉ dropped) ∨ x = parent;
  relinked_chs_other : ∀ k y, y ≠ fid → y ∈ chs nodes' k ↔ y ∈ chs nodes k;
  relinked_chs : ∀ k, NoDup (chs nodes k) →
    fid ∈ chs nodes' k
    ↔ (fid ∈ chs nodes k ∧ k ∉ dropped) ∨ (k = parent ∧ has nodes parent);
  relinked_children : ∀ k, NoDup (chs nodes k) → NoDup (chs nodes' k)
}.

Definition relink (nodes : NodeTable) (fid parent : string)
    (dropped new_prereqs : list string) (d : TreeNode → TreeNode) : NodeTable :=
  PyDict.update
    (PyDict.update
       (PyDict.update (drop_child_from fid dropped nodes) fid
          (set_prerequisites new_prereqs))
       parent (append_child fid))
    fid d.

Lemma chs_relink nodes fid parent dropped new_prereqs d k :
  (∀ n, children (d n) = children n) →
  chs (relink nodes fid parent dropped new_prereqs d) k
  = let l := chs (drop_child_from fid dropped nodes) k in
    if decide (parent = k ∧ has nodes k ∧ fid ∉ l) then l ++ [fid] else l.
Proof.
  intros Hd. unfold relink.
  rewrite chs_update_same by done.
  rewrite chs_update_append_child.
  rewrite (chs_update_same _ fid) by apply children_set_prerequisites.
  simpl.
  destruct (decide (parent = k ∧ has nodes k
                    ∧ fid ∉ chs (drop_child_from fid dropped nodes) k))
    as [(-> & Hh & Hnotin) | Hno].
  - rewrite decide_True; [done |]. split_and!; [done | | done].
    by apply has_update, has_drop_child_from.
  - rewrite decide_False; [done |]. intros (-> & Hh & Hnotin). apply Hno.
    split_and!; [done | | done].
    by apply has_update, has_drop_child_from in Hh.
Qed.

Lemma prs_relink nodes fid parent dropped new_prereqs d k :
  (∀ n, prerequisites (d n) = prerequisites n) →
  prs (relink nodes fid parent dropped new_prereqs d) k
  = if decide (k = fid ∧ has nodes k) then new_prereqs else prs nodes k.
Proof.
  intros Hd. unfold relink.
  rewrite prs_update_same by done.
  rewrite prs_update_same by apply prerequisites_append_child.
  rewrite prs_update_set_prerequisites, prs_drop_child_from.
  destruct (decide (fid = k ∧ has (drop_child_from fid dropped nodes) k))
    as [[-> Hh] | Hno].
  - rewrite decide_True; [done |]. split; [done |]. by apply has_drop_child_from in Hh.
  - rewrite decide_False; [done |]. intros [-> Hh]. apply Hno. split; [done |].
    by apply has_drop_child_from.
Qed.

Lemma relink_relinked nodes fid parent dropped new_prereqs d :
  has nodes fid →
  (∀ n, prerequisites (d n) = prerequisites n) →
  (∀ n, children (d n) = children n) →
  (∀ x, x ∈ new_prereqs ↔ (x ∈ prs nodes fid ∧ x ∉ dropped) ∨ x = parent) →
  relinked nodes (relink nodes fid parent dropped new_prereqs d) fid parent dropped.
Proof.
  intros Hfid Hdp Hdc Hnew. split.
  - unfold relink. by rewrite !PyDict.keys_update, keys_drop_child_from.
  - intros k Hk. rewrite prs_relink by done. rewrite decide_False; [done |].
    by intros [? _].
  - intros x. rewrite prs_relink by done. by rewrite decide_True.
  - intros k y Hy. rewrite chs_relink by done. simpl.
    destruct (chs_drop_child_from fid dropped nodes k) as (I1 & _).
    case_decide.
    + rewrite elem_of_app, list_elem_of_singleton, I1 by done. naive_solver.
    + by apply I1.
  - intros k Hnd. rewrite chs_relink by done. simpl.
    destruct (chs_drop_child_from fid dropped nodes k) as (_ & I2 & I3 & _ & I5 & _).
    case_decide as Hc.
    + destruct Hc as (-> & Hh & Hnotin).
      rewrite elem_of_app, list_elem_of_singleton. split; [| by right].
      intros _. by right.
    + destruct (decide (k ∈ dropped)) as [Hin | Hnotin].
      * split; [intros Hfid'; by apply I5 in Hfid' |].
        intros [[_ ?] | [Hk Hh]]; [done |]. exfalso. apply Hc.
        split_and!; [done | by rewrite Hk | by apply I5].
      * rewrite I3 by done. split; [by left |].
        intros [[? _] | [Hk Hh]]; [done |].
        destruct (decide (fid ∈ chs nodes k)) as [| Hno]; [done |].
        exfalso. apply Hc. split_and!; [done | by rewrite Hk |]. by rewrite I3.
  - intros k Hnd. rewrite chs_relink by done. simpl.
    destruct (chs_drop_child_from fid dropped nodes k) as (_ & _ & _ & I4 & _).
    case_decide as Hc; [| by apply I4].
    destruct Hc as (_ & _ & Hnotin).
    apply NoDup_app. split_and!; [by apply I4 | | apply NoDup_singleton].
    by intros x Hx ->%list_elem_of_singleton.
Qed.

Lemma relinked_has nodes nodes' fid parent dropped k :
  relinked nodes nodes' fid parent dropped → has nodes' k ↔ has nodes k.
Proof.
  intros Hrel. rewrite (has_keys nodes'), (has_keys nodes).
  by rewrite (relinked_keys _ _ _ _ _ Hrel).
Qed.

Lemma relinked_linked nodes nodes' fid parent dropped :
  relinked nodes nodes' fid parent dropped → linked nodes → linked nodes'.
Proof.
  intros Hrel [Hkeys Hcons Hnd]. split.
  - by rewrite (relinked_keys _ _ _ _ _ Hrel).
  - intros a b Ha Hb.
    apply (relinked_has _ _ _ _ _ _ Hrel) in Ha, Hb.
    destruct (decide (b = fid)) as [-> | Hne].
    + rewrite (relinked_chs _ _ _ _ _ Hrel) by apply Hnd.
      rewrite (relinked_prs _ _ _ _ _ Hrel).
      rewrite (Hcons a fid) by done. split.
      * intros [[? ?] | [-> _]]; [by left | by right].
      * intros [[? ?] | ->]; [by left | by right].
    + rewrite (relinked_chs_other _ _ _ _ _ Hrel) by done.
      rewrite (relinked_prs_other _ _ _ _ _ Hrel) by done.
      by apply Hcons.
  - intros k. apply (relinked_children _ _ _ _ _ Hrel), Hnd.
Qed.

(** A set of nodes that holds the prerequisites of its members. *)
Definition ancestor_closed (nodes : NodeTable) (U : gset string) : Prop :=
  ∀ x p, x ∈ U → p ∈ prs nodes x → p ∈ U.

Lemma ancestor_closed_rtc nodes U a b :
  ancestor_closed nodes U → rtc (prereq_edge nodes) a b → b ∈ U → a ∈ U.
Proof.
  intros Hclosed. induction 1 as [| a b c Hab _ IH]; [done |].
  intros Hc. eapply Hclosed; [by apply IH | done].
Qed.

Lemma relinked_closed nodes nodes' fid parent dropped U :
  relinked nodes nodes' fid parent dropped → fid ∉ U →
  ancestor_closed nodes U → ancestor_closed nodes' U.
Proof.
  intros Hrel Hfid Hclosed x p Hx Hp.
  rewrite (relinked_prs_other _ _ _ _ _ Hrel) in Hp by (by intros ->).
  by eapply Hclosed.
Qed.

(** A node outside an ancestor-closed set whose new prerequisites are all
    inside it cannot lie on a cycle. *)
Lemma relinked_acyclic nodes nodes' fid parent dropped U :
  relinked nodes nodes' fid parent dropped → fid ∉ U →
  (∀ x, x ∈ prs nodes' fid → x ∈ U) →
  ancestor_closed nodes U → acyclic nodes → acyclic nodes'.
Proof.
  intros Hrel Hfid Hnew Hclosed Hacyc.
  assert (ancestor_closed nodes' U) as Hclosed' by (by eapply relinked_closed).
  assert (∀ a b, tc (prereq_edge nodes') a b →
                 tc (prereq_edge nodes) a b
                 ∨ (a ∈ U ∧ rtc (prereq_edge nodes') fid b)) as Hpaths.
  { intros a b Hpath. induction Hpath as [a b Hab | a b c Hab Hbc IH].
    - destruct (decide (b = fid)) as [-> | Hne].
      + right. split; [by apply Hnew | done].
      + left. apply tc_once. unfold prereq_edge in *.
        by rewrite (relinked_prs_other _ _ _ _ _ Hrel) in Hab.
    - destruct IH as [Hold | [Hb Hfc]].
      + destruct (decide (b = fid)) as [-> | Hne].
        * right. split; [by apply Hnew | by apply tc_rtc].
        * left. eapply tc_l; [| done]. unfold prereq_edge in *.
          by rewrite (relinked_prs_other _ _ _ _ _ Hrel) in Hab.
      + right. split; [| done]. by eapply Hclosed'. }
  intros a Hcycle. destruct (Hpaths a a Hcycle) as [Hold | [Ha Hfa]].
  - by apply (Hacyc a).
  - apply Hfid. by eapply ancestor_closed_rtc.
Qed.

(** What one repair pass keeps: the links, the absence of cycles, a root
    without prerequisites, and the closure of the set that was unlockable
    when the pass began. *)
Record pass_inv (root_id : string) (U : gset string) (nodes : NodeTable) : Prop := {
  pass_build : build_inv root_id nodes;
  pass_closed : ancestor_closed nodes U;
  pass_root : root_id ∈ U
}.

Lemma relinked_pass_inv root_id U nodes nodes' fid parent dropped :
  relinked nodes nodes' fid parent dropped → fid ∉ U →
  (∀ x, x ∈ prs nodes' fid → x ∈ U) →
  pass_inv root_id U nodes → pass_inv root_id U nodes'.
Proof.
  intros Hrel Hfid Hnew [[Hlinked Hacyc Hroot] Hclosed HrootU]. split; [split | |].
  - by eapply relinked_linked.
  - by eapply relinked_acyclic.
  - rewrite (relinked_prs_other _ _ _ _ _ Hrel); [done |]. by intros <-.
  - by eapply relinked_closed.
  - done.
Qed.

Section repair_invariant.
Context `{SetOrder}.

#[local] Arguments rewire : simpl never.
#[local] Arguments attach_to_root : simpl never.

Lemma replace_blocking_relinked nodes fid blocking best_parent :
  has nodes fid →
  relinked nodes (replace_blocking nodes fid (prs nodes fid) blocking best_parent)
    fid best_parent blocking.
Proof.
  intros Hfid.
  destruct (replace_blocking_unfold nodes fid (prs nodes fid) blocking best_parent)
    as (d & -> & Hdp & Hdc).
  apply (relink_relinked nodes fid best_parent blocking); [done | done | done |].
  apply elem_of_new_prerequisites.
Qed.

Lemma attach_to_root_relinked root_id nodes fid :
  fid ≠ root_id → has nodes fid →
  relinked nodes (attach_to_root root_id nodes fid) fid root_id (prs nodes fid).
Proof.
  intros Hne Hfid.
  destruct (attach_to_root_unfold root_id nodes fid)
    as [[_ [? | ?]] | (_ & _ & ->)]; [done | done |].
  apply (relink_relinked nodes fid root_id (prs nodes fid) [root_id] (set_depth 1));
    [done | done | done |].
  intros x. rewrite list_elem_of_singleton. naive_solver.
Qed.

Lemma rewire_pass_inv cfg root_id U state fid :
  fid ∉ U → pass_inv root_id U state.1 →
  pass_inv root_id U (rewire cfg U state fid).1.
Proof.
  destruct state as [nodes fixed_any]. intros Hfid Hinv.
  destruct (rewire_cases cfg U nodes fixed_any fid)
    as [-> | (node & best & Hg & Hblock & Hbest & ->)]; [done |].
  simpl in *.
  assert (has nodes fid) as Hhas by (by exists node).
  assert (prerequisites node = prs nodes fid) as Hprs
    by (unfold prs; by rewrite Hg).
  rewrite Hprs.
  pose proof (replace_blocking_relinked nodes fid
                (List.filter (λ p, negb (bool_decide (p ∈ U))) (prs nodes fid))
                best Hhas) as Hrel.
  eapply relinked_pass_inv; [exact Hrel | done | | done].
  intros x [[Hx Hnb] | ->]%(relinked_prs _ _ _ _ _ Hrel).
  - destruct (decide (x ∈ U)) as [| Hno]; [done |]. exfalso. apply Hnb.
    apply elem_of_list_filter. split; [done |].
    by rewrite negb_true_iff, bool_decide_eq_false.
  - apply truthy_Some, find_best_parent_spec in Hbest. apply Hbest.
Qed.

Lemma rewire_fold_pass_inv cfg root_id U l state :
  (∀ fid, fid ∈ l → fid ∉ U) → pass_inv root_id U state.1 →
  pass_inv root_id U (fold_left (rewire cfg U) l state).1.
Proof.
  revert state. induction l as [| fid l IH]; intros state Hl Hinv;
    cbn [fold_left]; [done |].
  apply IH; [intros ? ?; apply Hl; by right |].
  apply rewire_pass_inv; [apply Hl; left | done].
Qed.

Lemma attach_to_root_pass_inv root_id U nodes fid :
  fid ∉ U → pass_inv root_id U nodes →
  pass_inv root_id U (attach_to_root root_id nodes fid).
Proof.
  intros Hfid Hinv.
  destruct (attach_to_root_unfold root_id nodes fid)
    as [[-> _] | (Hne & Hhas & _)]; [done |].
  pose proof (attach_to_root_relinked root_id nodes fid Hne Hhas) as Hrel.
  eapply relinked_pass_inv; [exact Hrel | done | | done].
  intros x Hx. rewrite prs_attach_to_root, decide_True in Hx by done.
  apply list_elem_of_singleton in Hx as ->. apply Hinv.
Qed.

Lemma attach_fold_pass_inv root_id U l nodes :
  (∀ fid, fid ∈ l → fid ∉ U) → pass_inv root_id U nodes →
  pass_inv root_id U (fold_left (attach_to_root root_id) l nodes).
Proof.
  revert nodes. induction l as [| fid l IH]; intros nodes Hl Hinv;
    cbn [fold_left]; [done |].
  apply IH; [intros ? ?; apply Hl; by right |].
  apply attach_to_root_pass_inv; [apply Hl; left | done].
Qed.

(** The nodes that can be unlocked hold the prerequisites of their members,
    as the root has none. *)
Lemma simulate_unlocks_pass_inv root_id nodes :
  build_inv root_id nodes →
  pass_inv root_id (_simulate_unlocks nodes root_id) nodes.
Proof.
  intros Hinv. pose proof (linked_keys _ (inv_linked _ _ Hinv)) as Hnd.
  split; [done | |].
  - intros x p Hx Hp. apply simulate_unlocks_spec in Hx; [| done].
    apply simulate_unlocks_spec; [done |].
    inversion Hx as [| fid node Hg Hne Hall]; subst.
    + rewrite (inv_root _ _ Hinv) in Hp. by apply elem_of_nil in Hp.
    + apply Hall. unfold prs in Hp. by rewrite Hg in Hp.
  - apply simulate_unlocks_spec; [done | constructor].
Qed.

Lemma repair_passes_build_inv cfg passes nodes root_id :
  build_inv root_id nodes →
  build_inv root_id (repair_passes cfg passes nodes root_id).1.
Proof.
  revert nodes. induction passes as [| passes IH]; intros nodes Hinv;
    cbn [repair_passes]; [done |].
  destruct (unreachable_nodes nodes (_simulate_unlocks nodes root_id))
    as [| u0 unreachable] eqn:Hun; [done |].
  rewrite <- Hun.
  assert (∀ fid, fid ∈ unreachable_nodes nodes (_simulate_unlocks nodes root_id) →
                 fid ∉ _simulate_unlocks nodes root_id) as Hout.
  { by intros fid [_ ?]%unreachable_nodes_spec. }
  clear Hun.
  remember (unreachable_nodes nodes (_simulate_unlocks nodes root_id)) as unr eqn:Hunr.
  pose proof (rewire_fold_pass_inv cfg root_id (_simulate_unlocks nodes root_id)
                unr (nodes, false) Hout (simulate_unlocks_pass_inv _ _ Hinv)) as Hpass.
  destruct (fold_left _ unr (nodes, false)) as [nodes1 fixed_any].
  simpl in Hpass. destruct fixed_any.
  - apply IH, Hpass.
  - simpl. by eapply pass_build, attach_fold_pass_inv.
Qed.

Lemma ensure_all_reachable_build_inv cfg nodes root_id :
  build_inv root_id nodes →
  build_inv root_id (_ensure_all_reachable cfg nodes root_id).1.
Proof. apply repair_passes_build_inv. Qed.

End repair_invariant.

(** *** The walk from the root *)

Lemma bfs_reach_spec nodes start fuel reachable queue R :
  bfs_reach fuel nodes reachable queue = Some R →
  (∀ v c, v ∈ reachable → child_edge nodes v c → c ∈ reachable ∨ c ∈ queue) →
  (∀ x, x ∈ reachable → rtc (child_edge nodes) start x) →
  (∀ q, q ∈ queue → rtc (child_edge nodes) start q) →
  (∀ q, q ∈ queue → q ∈ R)
  ∧ (∀ v c, v ∈ R → child_edge nodes v c → c ∈ R)
  ∧ (∀ x, x ∈ R → rtc (child_edge nodes) start x).
Proof.
  revert reachable queue. induction fuel as [| fuel IH]; intros reachable queue; [done |].
  simpl. destruct queue as [| fid queue].
  { intros [= <-] Hclosed Hsound _. split_and!; [by intros q ?%elem_of_nil | | done].
    intros v c Hv Hc. destruct (Hclosed v c Hv Hc) as [? | ?%elem_of_nil]; done. }
  destruct (decide (fid ∈ reachable)) as [Hin | Hnotin].
  - intros Hbfs Hclosed Hsound Hqueue.
    destruct (IH reachable queue Hbfs) as (Hq & Hcl & Hs).
    { intros v c Hv Hc.
      destruct (Hclosed v c Hv Hc) as [? | [-> | ?]%elem_of_cons]; auto. }
    { done. }
    { intros q ?. apply Hqueue. by right. }
    assert (reachable ⊆ R) as Hsub.
    { clear -Hbfs. revert reachable queue Hbfs.
      induction fuel as [| fuel IH]; intros reachable queue; [done |].
      simpl. destruct queue as [| q queue]; [by intros [= <-] |].
      case_decide; intros Hbfs; apply IH in Hbfs; set_solver. }
    split_and!; [| done | done].
    intros q [-> | ?]%elem_of_cons; [by apply Hsub | by apply Hq].
  - intros Hbfs Hclosed Hsound Hqueue.
    destruct (IH ({[fid]} ∪ reachable) (queue ++ children_of nodes fid) Hbfs)
      as (Hq & Hcl & Hs).
    { intros v c [->%elem_of_singleton | Hv]%elem_of_union Hc.
      - right. apply elem_of_app. by right.
      - destruct (Hclosed v c Hv Hc) as [? | [-> | ?]%elem_of_cons].
        + left. set_solver.
        + left. set_solver.
        + right. apply elem_of_app. by left. }
    { intros x [->%elem_of_singleton | Hx]%elem_of_union;
        [apply Hqueue; left | by apply Hsound]. }
    { intros q [? | Hc]%elem_of_app; [apply Hqueue; by right |].
      eapply rtc_r; [apply Hqueue; left | done]. }
    assert ({[fid]} ∪ reachable ⊆ R) as Hsub.
    { clear -Hbfs. revert Hbfs. generalize ({[fid]} ∪ reachable) as seen.
      generalize (queue ++ children_of nodes fid) as todo.
      induction fuel as [| fuel IH]; intros todo seen; [done |].
      simpl. destruct todo as [| q todo]; [by intros [= <-] |].
      case_decide; intros Hbfs; apply IH in Hbfs; set_solver. }
    split_and!; [| done | done].
    intros q [-> | ?]%elem_of_cons; [set_solver |].
    apply Hq, elem_of_app. by left.
Qed.

(** [_get_reachable_from_root] returns the nodes that can be reached from
    the root along [children]. *)
Lemma get_reachable_from_root_spec nodes root_id x :
  x ∈ _get_reachable_from_root nodes root_id ↔ rtc (child_edge nodes) root_id x.
Proof.
  unfold _get_reachable_from_root.
  destruct (get_reachable_from_root_returns nodes root_id) as [R HR].
  rewrite HR. simpl.
  destruct (bfs_reach_spec nodes root_id _ _ _ _ HR) as (Hq & Hcl & Hs).
  { set_solver. }
  { set_solver. }
  { by intros q ->%list_elem_of_singleton. }
  split; [apply Hs |].
  assert (root_id ∈ R) as Hstart by (apply Hq; left).
  clear HR Hq Hs. intros Hpath.
  induction Hpath as [| a b c Hab Hbc IH]; [done |].
  apply IH. by eapply Hcl.
Qed.

(** *** What the linking keeps

    A table is [settled] when, besides the build invariant, the nodes that
    the root reaches along [children] can all be unlocked and the others
    carry no link at all. *)
Record settled (root_id : string) (nodes : NodeTable) : Prop := {
  st_build : build_inv root_id nodes;
  st_unlockable : ∀ k, rtc (child_edge nodes) root_id k → unlockable nodes root_id k;
  st_unlinked : ∀ k, ¬ rtc (child_edge nodes) root_id k →
                     chs nodes k = [] ∧ prs nodes k = []
}.

Lemma tc_last_edge {A : Type} (R : relation A) x y : tc R x y → ∃ z, R z y.
Proof. induction 1 as [x y Hxy | x z y _ _ IH]; [by exists x | done]. Qed.

Lemma nil_no_elem {A : Type} (l : list A) : (∀ x, x ∉ l) → l = [].
Proof. destruct l as [| x l]; [done |]. intros Hno. destruct (Hno x). left. Qed.

Lemma reach_dec nodes root_id k :
  rtc (child_edge nodes) root_id k ∨ ¬ rtc (child_edge nodes) root_id k.
Proof.
  destruct (decide (k ∈ _get_reachable_from_root nodes root_id)) as [Hin | Hno].
  - left. by apply get_reachable_from_root_spec.
  - right. intros Hreach. by apply Hno, get_reachable_from_root_spec.
Qed.

Lemma no_children_no_path nodes a b :
  chs nodes a = [] → rtc (child_edge nodes) a b → b = a.
Proof.
  intros Hchs Hpath. apply rtc_inv in Hpath as [-> | (z & Hz & _)]; [done |].
  apply (proj1 (child_edge_chs _ _ _)) in Hz. rewrite Hchs in Hz.
  by apply elem_of_nil in Hz.
Qed.

Lemma edge_added_child_mono nodes nodes' a b x y :
  edge_added nodes nodes' a b →
  rtc (child_edge nodes) x y → rtc (child_edge nodes') x y.
Proof.
  intros Hadd. induction 1 as [| x y z Hxy _ IH]; [done |].
  eapply rtc_l; [| done].
  apply child_edge_chs, (added_chs _ _ _ _ Hadd). left. by apply child_edge_chs.
Qed.

(** A path of the new table is a path of the old one, or ends with a path
    of the old one that starts at the head of the new edge. *)
Lemma edge_added_child_path nodes nodes' a b x y :
  edge_added nodes nodes' a b →
  rtc (child_edge nodes') x y →
  rtc (child_edge nodes) x y ∨ rtc (child_edge nodes) b y.
Proof.
  intros Hadd Hpath. revert y Hpath.
  apply (rtc_ind_r (λ y, rtc (child_edge nodes) x y ∨ rtc (child_edge nodes) b y));
    [by left |].
  intros w y _ Hwy IH.
  apply (proj1 (child_edge_chs _ _ _)), (added_chs _ _ _ _ Hadd) in Hwy
    as [Hold | (_ & _ & ->)]; [| by right].
  apply child_edge_chs in Hold.
  destruct IH as [? | ?]; [left | right]; by eapply rtc_r.
Qed.

(** The ancestors of the tail of the new edge keep their prerequisites. *)
Lemma edge_added_unlockable_above nodes nodes' a b root_id y :
  edge_added nodes nodes' a b → consistent nodes →
  ¬ rtc (child_edge nodes) b a →
  unlockable nodes root_id y → rtc (prereq_edge nodes) y a →
  unlockable nodes' root_id y.
Proof.
  intros Hadd Hcons Hno Hy.
  induction Hy as [| fid node Hg Hne Hall IH]; [constructor |].
  intros Hpath.
  assert (has nodes fid) as Hhas by (by exists node).
  assert (prs nodes fid = prerequisites node) as Hprs by (unfold prs; by rewrite Hg).
  assert (fid ≠ b) as Hfb.
  { intros ->. by apply Hno, prereq_path_child_path. }
  apply unlockable_has_prs.
  - by apply (edge_added_has _ _ _ _ _ Hadd).
  - destruct (prerequisites node) as [| p l] eqn:Hl; [done |].
    assert (p ∈ prs nodes' fid) as Hp.
    { apply (added_prs_old _ _ _ _ Hadd). rewrite Hprs. left. }
    intros Hnil. rewrite Hnil in Hp. by apply elem_of_nil in Hp.
  - intros p Hp.
    apply (added_prs_new _ _ _ _ Hadd) in Hp as [Hold | [? _]]; [| done].
    rewrite Hprs in Hold. apply IH; [done |].
    eapply rtc_l; [| exact Hpath]. unfold prereq_edge. by rewrite Hprs.
Qed.

Lemma edge_added_unlockable nodes nodes' a b root_id x :
  edge_added nodes nodes' a b → consistent nodes →
  ¬ rtc (child_edge nodes) b a → unlockable nodes root_id a →
  unlockable nodes root_id x → unlockable nodes' root_id x.
Proof.
  intros Hadd Hcons Hno Ha.
  assert (unlockable nodes' root_id a) as Ha'
    by (by eapply edge_added_unlockable_above).
  induction 1 as [| fid node Hg Hne Hall IH]; [constructor |].
  assert (prs nodes fid = prerequisites node) as Hprs by (unfold prs; by rewrite Hg).
  apply unlockable_has_prs.
  - apply (edge_added_has _ _ _ _ _ Hadd). by exists node.
  - destruct (prerequisites node) as [| p l] eqn:Hl; [done |].
    assert (p ∈ prs nodes' fid) as Hp.
    { apply (added_prs_old _ _ _ _ Hadd). rewrite Hprs. left. }
    intros Hnil. rewrite Hnil in Hp. by apply elem_of_nil in Hp.
  - intros p Hp.
    apply (added_prs_new _ _ _ _ Hadd) in Hp as [Hold | [_ ->]]; [| done].
    rewrite Hprs in Hold. by apply IH.
Qed.

(** A link from a node the root reaches, into a node that does not reach
    it back, keeps the table settled; the root then reaches the head of the
    link, and nothing else that is new. *)
Lemma edge_added_settled root_id nodes nodes' a b :
  edge_added nodes nodes' a b → settled root_id nodes →
  has nodes a → has nodes b →
  rtc (child_edge nodes) root_id a → ¬ rtc (child_edge nodes) b a →
  settled root_id nodes'
  ∧ (∀ k, rtc (child_edge nodes) root_id k → rtc (child_edge nodes') root_id k)
  ∧ (∀ k, rtc (child_edge nodes') root_id k → rtc (child_edge nodes) root_id k ∨ k = b)
  ∧ rtc (child_edge nodes') root_id b.
Proof.
  intros Hadd [Hbuild Hunl Hunlinked] Ha Hb Hra Hno.
  assert (b ≠ root_id) as Hne by (by intros ->).
  assert (∀ k, rtc (child_edge nodes) root_id k → rtc (child_edge nodes') root_id k)
    as Hmono by (intros k; by apply edge_added_child_mono with a b).
  assert (rtc (child_edge nodes') root_id b) as Hrb.
  { eapply rtc_r; [by apply Hmono |].
    apply child_edge_chs, (added_chs _ _ _ _ Hadd). by right. }
  assert (∀ k, rtc (child_edge nodes') root_id k →
               rtc (child_edge nodes) root_id k ∨ k = b) as Hnew.
  { intros k Hk.
    destruct (edge_added_child_path _ _ _ _ _ _ Hadd Hk) as [? | Hbk]; [by left |].
    destruct (reach_dec nodes root_id b) as [Hreach | Hnot].
    - left. by etransitivity.
    - right. eapply no_children_no_path; [| done]. by apply Hunlinked. }
  pose proof (linked_consistent _ (inv_linked _ _ Hbuild)) as Hcons.
  split_and!; [| done | done | done]. split.
  - by eapply edge_added_build_inv.
  - intros k Hk.
    destruct (reach_dec nodes root_id k) as [Hreach | Hnot].
    { eapply edge_added_unlockable; [done | done | done | by apply Hunl | by apply Hunl]. }
    destruct (Hnew k Hk) as [? | ->]; [done |].
    destruct (Hunlinked b Hnot) as [_ Hprs].
    assert (a ∈ prs nodes' b) as Hin by (by apply (added_prs_edge _ _ _ _ Hadd)).
    apply unlockable_has_prs.
    + by apply (edge_added_has _ _ _ _ _ Hadd).
    + intros Hnil. rewrite Hnil in Hin. by apply elem_of_nil in Hin.
    + intros p Hp.
      apply (added_prs_new _ _ _ _ Hadd) in Hp as [Hold | [_ ->]].
      * rewrite Hprs in Hold. by apply elem_of_nil in Hold.
      * eapply edge_added_unlockable_above; [done | done | done | by apply Hunl | done].
  - intros k Hk.
    assert (¬ rtc (child_edge nodes) root_id k) as Hnot by (intros ?; by apply Hk, Hmono).
    destruct (Hunlinked k Hnot) as [Hchs Hprs].
    split; apply nil_no_elem; intros x Hx.
    + apply (added_chs _ _ _ _ Hadd) in Hx as [Hx | (-> & _)]; [| done].
      rewrite Hchs in Hx. by apply elem_of_nil in Hx.
    + apply (added_prs_new _ _ _ _ Hadd) in Hx as [Hx | [-> _]]; [| done].
      rewrite Hprs in Hx. by apply elem_of_nil in Hx.
Qed.

Lemma converged_settled root_id node_id offered nodes nodes' :
  converged node_id offered nodes nodes' → settled root_id nodes →
  has nodes node_id →
  (∀ x, offered x → has nodes x ∧ rtc (child_edge nodes) root_id x) →
  settled root_id nodes'
  ∧ (∀ k, rtc (child_edge nodes) root_id k → rtc (child_edge nodes') root_id k)
  ∧ (∀ k, rtc (child_edge nodes') root_id k →
          rtc (child_edge nodes) root_id k ∨ k = node_id).
Proof.
  induction 1 as [| nodes extra nodes' Hoff Hno _ IH]; intros Hst Hn Hoffered.
  { split_and!; [done | done | by left]. }
  pose proof (add_convergence_edge_added extra node_id nodes) as Hadd.
  destruct (Hoffered extra Hoff) as [Hhas Hreach].
  destruct (edge_added_settled _ _ _ _ _ Hadd Hst Hhas Hn Hreach Hno)
    as (Hst1 & Hmono1 & Hnew1 & _).
  destruct IH as (Hst' & Hmono' & Hnew'); [done | | |].
  - by apply (edge_added_has _ _ _ _ _ Hadd).
  - intros x Hx. destruct (Hoffered x Hx) as [? ?]. split.
    + by apply (edge_added_has _ _ _ _ _ Hadd).
    + by apply Hmono1.
  - split_and!; [done | intros k Hk; by apply Hmono', Hmono1 |].
    intros k Hk. destruct (Hnew' k Hk) as [Hk1 | ->]; [| by right]. by apply Hnew1.
Qed.

Lemma enforce_settled root_id nodes :
  settled root_id nodes →
  settled root_id (_enforce_high_tier_convergence nodes root_id).
Proof.
  unfold _enforce_high_tier_convergence. intros Hst.
  assert (∀ x, x ∈ _get_reachable_from_root nodes root_id →
               rtc (child_edge nodes) root_id x) as Hsound
    by (intros x; apply get_reachable_from_root_spec).
  revert Hsound. generalize (_get_reachable_from_root nodes root_id). intros reachable.
  generalize (PyDict.keys nodes). intros l. revert nodes Hst.
  induction l as [| fid l IH]; intros nodes Hst Hsound; cbn [fold_left]; [done |].
  destruct (enforce_node_converged root_id reachable nodes fid)
    as [-> | (Hne & Hhas & Hconv)]; [by apply IH |].
  destruct (converged_settled root_id _ _ _ _ Hconv Hst Hhas) as (Hst' & Hmono & _).
  { intros x [Hx ?]. split; [done | by apply Hsound]. }
  apply IH; [done |]. intros x Hx. by apply Hmono, Hsound.
Qed.

(** *** The linking phase

    [_connect_nodes], [_process_unassigned] and [_connect_orphans] share the
    table, the set [connected] and the lists [available].  A node is linked
    under a parent only while it is not in [connected]; the parent is in
    [connected]; [_connect_orphans] starts again from the set that the walk
    from the root finds. *)
Record linking_inv (root_id : string) (nodes : NodeTable) (connected : gset string)
    (available : gmap Z (list string)) : Prop := {
  li_settled : settled root_id nodes;
  li_connected : ∀ k, k ∈ connected ↔ rtc (child_edge nodes) root_id k;
  li_keys : ∀ k, k ∈ connected → has nodes k;
  li_available : ∀ d p, p ∈ default [] (available !! d) → p ∈ connected
}.

Lemma linking_inv_start root_id nodes :
  NoDup (PyDict.keys nodes) →
  (∀ k, chs nodes k = [] ∧ prs nodes k = []) →
  has nodes root_id →
  linking_inv root_id nodes {[root_id]} {[0 := [root_id]]}.
Proof.
  intros Hnd Hfresh Hroot.
  assert (∀ k, rtc (child_edge nodes) root_id k → k = root_id) as Honly.
  { intros k. apply no_children_no_path, Hfresh. }
  split; [split; [split; [split | |] | |] | | |].
  - done.
  - intros a b _ _. destruct (Hfresh a) as [-> _]. destruct (Hfresh b) as [_ ->].
    by rewrite !elem_of_nil.
  - intros k. destruct (Hfresh k) as [-> _]. constructor.
  - intros a Hcycle. apply tc_last_edge in Hcycle as (b & Hedge).
    unfold prereq_edge in Hedge. destruct (Hfresh a) as [_ Hprs].
    rewrite Hprs in Hedge. by apply elem_of_nil in Hedge.
  - apply Hfresh.
  - intros k ->%Honly. constructor.
  - intros k _. apply Hfresh.
  - intros k. rewrite elem_of_singleton. split; [by intros -> | apply Honly].
  - by intros k ->%elem_of_singleton.
  - intros d p. destruct (decide (d = 0)) as [-> | Hd].
    + rewrite lookup_singleton_eq. simpl. set_solver.
    + rewrite lookup_singleton_ne by done. by intros ?%elem_of_nil.
Qed.

Lemma linking_inv_link root_id nodes connected available parent_id child_id :
  linking_inv root_id nodes connected available →
  parent_id ∈ connected → has nodes child_id → child_id ∉ connected →
  linking_inv root_id (link_nodes parent_id child_id nodes)
    ({[child_id]} ∪ connected) available.
Proof.
  intros [Hst Hconn Hkeys Hav] Hp Hhas Hc.
  pose proof (link_nodes_added parent_id child_id nodes (Hkeys _ Hp)) as Hadd.
  assert (¬ rtc (child_edge nodes) root_id child_id) as Hnot
    by (intros ?; by apply Hc, Hconn).
  assert (¬ rtc (child_edge nodes) child_id parent_id) as Hno.
  { intros Hpath. apply no_children_no_path in Hpath as ->; [done |].
    by apply (st_unlinked _ _ Hst). }
  destruct (edge_added_settled _ _ _ _ _ Hadd Hst (Hkeys _ Hp) Hhas) as
    (Hst' & Hmono & Hnew & Hrb); [by apply Hconn | done |].
  split.
  - done.
  - intros k. rewrite elem_of_union, elem_of_singleton, Hconn. split.
    + intros [-> | ?]; [done | by apply Hmono].
    + intros Hk. destruct (Hnew k Hk) as [? | ->]; [by right | by left].
  - intros k [->%elem_of_singleton | Hk]%elem_of_union;
      apply (edge_added_has _ _ _ _ _ Hadd); [done | by apply Hkeys].
  - intros d p Hin. apply elem_of_union. right. by eapply Hav.
Qed.

Lemma linking_inv_offer root_id nodes connected available node_id d :
  linking_inv root_id nodes connected available → node_id ∈ connected →
  linking_inv root_id nodes connected
    (<[d := default [] (available !! d) ++ [node_id]]> available).
Proof.
  intros [Hst Hconn Hkeys Hav] Hn. split; [done | done | done |].
  intros d' p. destruct (decide (d' = d)) as [-> | Hd].
  - rewrite lookup_insert_eq. simpl.
    intros [Hin | ->%list_elem_of_singleton]%elem_of_app; [by eapply Hav | done].
  - rewrite lookup_insert_ne by done. apply Hav.
Qed.

Lemma linking_inv_converged root_id nodes nodes' connected available node_id reachable :
  linking_inv root_id nodes connected available → node_id ∈ connected →
  (∀ x, x ∈ reachable → rtc (child_edge nodes) root_id x) →
  converged node_id (offered_by reachable available) nodes nodes' →
  linking_inv root_id nodes' connected available.
Proof.
  intros [Hst Hconn Hkeys Hav] Hn Hsound Hconv.
  destruct (converged_settled root_id _ _ _ _ Hconv Hst (Hkeys _ Hn))
    as (Hst' & Hmono & Hnew).
  { intros x [Hx [d Hd]]. split; [| by apply Hsound]. by eapply Hkeys, Hav. }
  split; [done | | | done].
  - intros k. rewrite Hconn. split; [apply Hmono |].
    intros Hk. destruct (Hnew k Hk) as [? | ->]; [done | by apply Hconn].
  - intros k Hk. apply has_keys. rewrite (converged_keys _ _ _ _ Hconv).
    by apply has_keys, Hkeys.
Qed.

Lemma linking_inv_orphans root_id nodes connected available :
  linking_inv root_id nodes connected available →
  linking_inv root_id nodes (_get_reachable_from_root nodes root_id) available.
Proof.
  intros [Hst Hconn Hkeys Hav]. split; [done | | |].
  - intros k. apply get_reachable_from_root_spec.
  - intros k Hk. by apply Hkeys, Hconn, get_reachable_from_root_spec.
  - intros d p Hin. by eapply get_reachable_from_root_spec, Hconn, Hav.
Qed.

(** The states of the linking phase. *)
Inductive linking (root_id : string)
    : NodeTable → gset string → gmap Z (list string) → Prop :=
| linking_start nodes :
    NoDup (PyDict.keys nodes) →
    (∀ k, chs nodes k = [] ∧ prs nodes k = []) →
    has nodes root_id →
    linking root_id nodes {[root_id]} {[0 := [root_id]]}
| linking_link nodes connected available parent_id child_id :
    linking root_id nodes connected available →
    parent_id ∈ connected → has nodes child_id → child_id ∉ connected →
    linking root_id (link_nodes parent_id child_id nodes)
      ({[child_id]} ∪ connected) available
| linking_offer nodes connected available node_id d :
    linking root_id nodes connected available → node_id ∈ connected →
    linking root_id nodes connected
      (<[d := default [] (available !! d) ++ [node_id]]> available)
| linking_converge {G : Type} `{PyRandom G} cfg nodes connected available node_id
    (g : G) :
    linking root_id nodes connected available → node_id ∈ connected →
    linking root_id (_maybe_add_convergence cfg node_id available nodes root_id g).1
      connected available
| linking_orphans nodes connected available :
    linking root_id nodes connected available →
    linking root_id nodes (_get_reachable_from_root nodes root_id) available.

Lemma linking_linking_inv root_id nodes connected available :
  linking root_id nodes connected available →
  linking_inv root_id nodes connected available.
Proof.
  induction 1 as [nodes Hnd Hfresh Hroot
                  | nodes connected available p c _ IH Hp Hh Hc
                  | nodes connected available n d _ IH Hn
                  | G HG cfg nodes connected available n g _ IH Hn
                  | nodes connected available _ IH].
  - by apply linking_inv_start.
  - by apply linking_inv_link.
  - by apply linking_inv_offer.
  - eapply linking_inv_converged; [done | done | | apply maybe_add_convergence_converged].
    intros x. apply get_reachable_from_root_spec.
  - by eapply linking_inv_orphans.
Qed.

Lemma linking_settled root_id nodes connected available :
  linking root_id nodes connected available → settled root_id nodes.
Proof. intros Hl. by eapply li_settled, linking_linking_inv. Qed.

(** The states of [_build_school_tree] from the fresh table on: the
    linking phase, then [_enforce_high_tier_convergence] and
    [_ensure_all_reachable]. *)
Inductive build_state (root_id : string) : NodeTable → Prop :=
| build_linking nodes connected available :
    linking root_id nodes connected available → build_state root_id nodes
| build_enforce nodes :
    build_state root_id nodes →
    build_state root_id (_enforce_high_tier_convergence nodes root_id)
| build_repair `{SetOrder} cfg nodes :
    build_state root_id nodes →
    build_state root_id (_ensure_all_reachable cfg nodes root_id).1.

Lemma build_state_inv root_id nodes :
  build_state root_id nodes → build_inv root_id nodes.
Proof.
  induction 1 as [nodes connected available Hl | nodes _ IH | S cfg nodes _ IH].
  - by eapply st_build, linking_settled.
  - by apply enforce_build_inv.
  - by apply ensure_all_reachable_build_inv.
Qed.

(** *** The repair of a settled table

    No node with prerequisites is locked, so no pass rewires anything: the
    first pass returns at once or falls back to the root. *)
Section repair_settled.
Context `{SetOrder}.

#[local] Arguments rewire : simpl never.

Lemma settled_locked_unlinked root_id nodes fid :
  settled root_id nodes → fid ∉ _simulate_unlocks nodes root_id →
  prs nodes fid = [].
Proof.
  intros Hst Hlocked.
  pose proof (linked_keys _ (inv_linked _ _ (st_build _ _ Hst))) as Hnd.
  destruct (reach_dec nodes root_id fid) as [Hreach | Hnot].
  - exfalso. by apply Hlocked, simulate_unlocks_spec, (st_unlockable _ _ Hst).
  - by apply (st_unlinked _ _ Hst).
Qed.

Lemma settled_rewire_fold cfg root_id nodes l :
  settled root_id nodes →
  (∀ fid, fid ∈ l → fid ∉ _simulate_unlocks nodes root_id) →
  fold_left (rewire cfg (_simulate_unlocks nodes root_id)) l (nodes, false)
  = (nodes, false).
Proof.
  intros Hst. induction l as [| fid l IH]; intros Hl; cbn [fold_left]; [done |].
  destruct (rewire_cases cfg (_simulate_unlocks nodes root_id) nodes false fid)
    as [-> | (node & best & Hg & Hblock & _)].
  - apply IH. intros ? ?. apply Hl. by right.
  - exfalso. apply Hblock.
    assert (prs nodes fid = []) as Hprs
      by (eapply settled_locked_unlinked; [done | apply Hl; left]).
    unfold prs in Hprs. rewrite Hg in Hprs. simpl in Hprs. by rewrite Hprs.
Qed.

Lemma settled_repair_exit cfg root_id nodes passes :
  settled root_id nodes →
  (repair_passes cfg (S passes) nodes root_id).2 ≠ PassesExhausted.
Proof.
  intros Hst. cbn [repair_passes].
  destruct (unreachable_nodes nodes (_simulate_unlocks nodes root_id))
    as [| u0 unreachable] eqn:Hun; [done |].
  rewrite <- Hun. rewrite settled_rewire_fold; [done | done |].
  by intros fid [_ ?]%unreachable_nodes_spec.
Qed.

(** On a settled table a pass never reaches the search for a new parent,
    the one place where the repair iterates over a set: it returns at once,
    or attaches the locked nodes to the root in the order of the table. *)
Lemma settled_repair_passes cfg root_id nodes passes :
  settled root_id nodes →
  repair_passes cfg (S passes) nodes root_id
  = match unreachable_nodes nodes (_simulate_unlocks nodes root_id) with
    | [] => (nodes, AllReachable)
    | unreachable =>
        (fold_left (attach_to_root root_id) unreachable nodes, AggressiveFix)
    end.
Proof.
  intros Hst. cbn [repair_passes].
  destruct (unreachable_nodes nodes (_simulate_unlocks nodes root_id))
    as [| u0 unreachable] eqn:Hun; [done |].
  rewrite <- Hun. rewrite settled_rewire_fold; [done | done |].
  by intros fid [_ ?]%unreachable_nodes_spec.
Qed.

End repair_settled.

(** The iteration order of a set of strings changes from one Python process
    to the next (it follows the hash seed).  A second order, to compare
    with [elements_order]. *)
Lemma reverse_elements_elem_of (s : gset string) x : x ∈ reverse (elements s) ↔ x ∈ s.
Proof. by rewrite elem_of_reverse, elem_of_elements. Qed.

Lemma reverse_elements_NoDup (s : gset string) : NoDup (reverse (elements s)).
Proof. rewrite reverse_Permutation. apply NoDup_elements. Qed.

Definition reversed_order : SetOrder :=
  {| set_iter := λ s, reverse (elements s);
     set_iter_elem_of := reverse_elements_elem_of;
     set_iter_NoDup := reverse_elements_NoDup |}.

(** ** The build as a whole *)

(** [_build_school_tree] ends with [_enforce_high_tier_convergence] and
    [_ensure_all_reachable] on the table that the linking phase left. *)
Definition finish_build `{SetOrder} (cfg : TreeBuilderConfig) (nodes : NodeTable)
    (root_id : string) : NodeTable :=
  (_ensure_all_reachable cfg (_enforce_high_tier_convergence nodes root_id) root_id).1.

(** The end of a build does not depend on the order in which sets
    iterate: the table that the linking phase leaves is settled. *)
Lemma finish_build_order_independent (order1 order2 : SetOrder) cfg root_id nodes
    connected available :
  linking root_id nodes connected available →
  @finish_build order1 cfg nodes root_id = @finish_build order2 cfg nodes root_id.
Proof.
  intros Hl. unfold finish_build, _ensure_all_reachable.
  pose proof (enforce_settled _ _ (linking_settled _ _ _ _ Hl)) as Hst.
  change max_passes with (S 9).
  by rewrite (@settled_repair_passes order1), (@settled_repair_passes order2).
Qed.

#[global] Instance within_capacity_dec cfg nodes k : Decision (within_capacity cfg nodes k).
Proof. unfold within_capacity. apply _. Defined.

Lemma fresh_table_unlinked (nodes : NodeTable) :
  Forall (λ e, children e.2 = [] ∧ prerequisites e.2 = []) nodes →
  ∀ k, chs nodes k = [] ∧ prs nodes k = [].
Proof.
  intros Hall k. unfold chs, prs.
  destruct (PyDict.get nodes k) as [n |] eqn:Hg; [| done].
  apply PyDict.get_Some_elem_of in Hg.
  by apply (proj1 (Forall_forall _ _) Hall (k, n)).
Qed.

(** *** A school of five spells

    A Novice root of theme fire and four frost spells: three Apprentice
    ones linked under the root, which is then full for
    [max_children_per_node = 3], and a Master one under the first of them. *)
Definition school : NodeTable :=
  [("R", fresh_node "R" "Novice" "fire");
   ("A", fresh_node "A" "Apprentice" "frost");
   ("B", fresh_node "B" "Apprentice" "frost");
   ("C", fresh_node "C" "Apprentice" "frost");
   ("M", fresh_node "M" "Master" "frost")].

Definition cfg3 : TreeBuilderConfig :=
  {| max_children_per_node := 3; convergence_chance := 0 |}.

Definition offer (node_id : string) (d : Z) (available : gmap Z (list string))
    : gmap Z (list string) :=
  <[d := default [] (available !! d) ++ [node_id]]> available.

Definition linked_school : NodeTable :=
  link_nodes "A" "M" (link_nodes "R" "C" (link_nodes "R" "B" (link_nodes "R" "A" school))).

Definition school_connected : gset string :=
  {["M"]} ∪ ({["C"]} ∪ ({["B"]} ∪ ({["A"]} ∪ {["R"]}))).

Definition school_available : gmap Z (list string) :=
  offer "C" 1 (offer "B" 1 (offer "A" 1 {[0 := ["R"]]})).

Lemma school_start : linking "R" school {["R"]} {[0 := ["R"]]}.
Proof.
  apply linking_start.
  - compute_done.
  - apply fresh_table_unlinked. repeat constructor.
  - compute_done.
Qed.

Lemma school_linking : linking "R" linked_school school_connected school_available.
Proof.
  unfold linked_school, school_connected, school_available, offer.
  apply linking_link; [| compute_done | compute_done | compute_done].
  apply linking_offer; [| compute_done].
  apply linking_link; [| compute_done | compute_done | compute_done].
  apply linking_offer; [| compute_done].
  apply linking_link; [| compute_done | compute_done | compute_done].
  apply linking_offer; [| compute_done].
  apply linking_link; [| compute_done | compute_done | compute_done].
  apply school_start.
Qed.

(** The same school when no parent was found for ["C"]: it reaches the
    repair without any link. *)
Definition sparse_school : NodeTable :=
  link_nodes "A" "M" (link_nodes "R" "B" (link_nodes "R" "A" school)).

Lemma sparse_school_linking :
  linking "R" sparse_school ({["M"]} ∪ ({["B"]} ∪ ({["A"]} ∪ {["R"]}))) {[0 := ["R"]]}.
Proof.
  unfold sparse_school.
  apply linking_link; [| compute_done | compute_done | compute_done].
  apply linking_link; [| compute_done | compute_done | compute_done].
  apply linking_link; [| compute_done | compute_done | compute_done].
  apply school_start.
Qed.

(** *** Reachability *)

(** C1: after the final repair pass of a build every node id of the table is
    in the unlock fixed point that [_simulate_unlocks] computes from the
    root.  The linking phase leaves no locked node with prerequisites, so
    the repair returns at once or attaches the unlinked nodes to the root. *)
Theorem build_all_unlockable `{SetOrder} cfg root_id nodes connected available fid :
  linking root_id nodes connected available →
  fid ∈ PyDict.keys (finish_build cfg nodes root_id) →
  fid ∈ _simulate_unlocks (finish_build cfg nodes root_id) root_id.
Proof.
  intros Hl. unfold finish_build, _ensure_all_reachable.
  pose proof (enforce_settled _ _ (linking_settled _ _ _ _ Hl)) as Hst.
  pose proof (settled_repair_exit cfg _ _ 9 Hst) as Hexit.
  change (S 9) with max_passes in Hexit.
  destruct (repair_passes cfg max_passes _ root_id) as [final exit] eqn:Hrep.
  eapply repair_passes_reach; [| exact Hrep | exact Hexit].
  apply (linked_keys _ (inv_linked _ _ (st_build _ _ Hst))).
Qed.

Lemma build_all_unlockable_witness :
  "C" ∈ _simulate_unlocks (finish_build cfg3 sparse_school "R") "R".
Proof.
  apply (build_all_unlockable cfg3 "R" sparse_school _ _ "C" sparse_school_linking).
  compute_done.
Defined.

(** *** Capacity *)

(** Neither convergence pass looks at the capacity of the node that gains
    a child.  On the table that the linking phase leaves for the school
    above, where every node is within capacity and the root is full,
    [_maybe_add_convergence] for the Master spell and
    [_enforce_high_tier_convergence] both give the root a fourth child. *)
Lemma convergence_passes_ignore_capacity :
  linking "R" linked_school school_connected school_available
  ∧ Forall (within_capacity cfg3 linked_school) (PyDict.keys linked_school)
  ∧ chs (_enforce_high_tier_convergence linked_school "R") "R" = ["A"; "B"; "C"; "M"]
  ∧ chs (_maybe_add_convergence cfg3 "M" school_available linked_school "R"
           {| tape_floats := []; tape_ints := [] |}).1 "R"
    = ["A"; "B"; "C"; "M"]
  ∧ ¬ within_capacity cfg3 (_enforce_high_tier_convergence linked_school "R") "R"
  ∧ ¬ within_capacity cfg3 (finish_build cfg3 linked_school "R") "R".
Proof.
  split; [apply school_linking |].
  split; [compute_done |].
  split; [vm_compute; reflexivity |].
  split; [vm_compute; reflexivity |].
  split; compute_done.
Qed.

(** The rewiring of the repair, by contrast, keeps the bound on every node
    that met it: a new parent is only chosen among nodes with room.  Only
    the aggressive fallback adds to the root whatever its capacity. *)
Lemma repair_keeps_capacity `{SetOrder} cfg nodes root_id k :
  has nodes k → within_capacity cfg nodes k →
  k ≠ root_id ∨ (_ensure_all_reachable cfg nodes root_id).2 ≠ AggressiveFix →
  within_capacity cfg (_ensure_all_reachable cfg nodes root_id).1 k.
Proof.
  intros Hk Hcap Hside. unfold _ensure_all_reachable in *.
  destruct (repair_passes cfg max_passes nodes root_id) as [nodes' exit] eqn:Hrep.
  by eapply repair_passes_capacity.
Qed.

(** *** Acyclicity *)

(** C3: in every state of the build no node is its own ancestor along
    prerequisites. *)
Theorem build_acyclic root_id nodes a :
  build_state root_id nodes → ¬ tc (prereq_edge nodes) a a.
Proof. intros Hb. apply (inv_acyclic _ _ (build_state_inv _ _ Hb)). Qed.

Lemma build_acyclic_witness :
  ¬ tc (prereq_edge (finish_build cfg3 linked_school "R")) "M" "M".
Proof.
  apply (build_acyclic "R" (finish_build cfg3 linked_school "R") "M").
  unfold finish_build. apply build_repair, build_enforce.
  exact (build_linking _ _ _ _ school_linking).
Defined.

(** *** Bidirectional consistency *)

(** C4: in every state of the build, for nodes [X] and [Y] of the table,
    [Y] is in [X.children] exactly when [X] is in [Y.prerequisites]. *)
Theorem build_consistent root_id nodes x y node_x node_y :
  build_state root_id nodes →
  PyDict.get nodes x = Some node_x → PyDict.get nodes y = Some node_y →
  y ∈ children node_x ↔ x ∈ prerequisites node_y.
Proof.
  intros Hb Hx Hy.
  pose proof (linked_consistent _ (inv_linked _ _ (build_state_inv _ _ Hb)) x y) as Hc.
  unfold chs, prs, has in Hc. rewrite Hx, Hy in Hc. apply Hc; by eexists.
Qed.

Lemma build_consistent_witness :
  ∃ node_r node_m,
    PyDict.get (finish_build cfg3 linked_school "R") "R" = Some node_r
    ∧ PyDict.get (finish_build cfg3 linked_school "R") "M" = Some node_m
    ∧ ("M" ∈ children node_r ↔ "R" ∈ prerequisites node_m).
Proof.
  destruct (PyDict.get (finish_build cfg3 linked_school "R") "R") as [node_r |] eqn:Hr;
    [| by vm_compute in Hr].
  destruct (PyDict.get (finish_build cfg3 linked_school "R") "M") as [node_m |] eqn:Hm;
    [| by vm_compute in Hm].
  exists node_r, node_m. split_and!; [done | done |].
  apply (build_consistent "R" (finish_build cfg3 linked_school "R") "R" "M");
    [| done | done].
  unfold finish_build. apply build_repair, build_enforce.
  exact (build_linking _ _ _ _ school_linking).
Defined.

(** ** Further facts about the helpers *)

(** [_is_descendant(potential_ancestor, node_id, nodes)] answers whether
    the walk along [children] that starts at [node_id] meets
    [potential_ancestor]. *)
Theorem is_descendant_decides nodes potential_ancestor node_id :
  _is_descendant potential_ancestor node_id nodes = true
  ↔ rtc (child_edge nodes) node_id potential_ancestor.
Proof. apply is_descendant_spec. Qed.

(** [_get_reachable_from_root] returns exactly the nodes that the root
    reaches along [children]. *)
Theorem get_reachable_from_root_walk nodes root_id x :
  x ∈ _get_reachable_from_root nodes root_id ↔ rtc (child_edge nodes) root_id x.
Proof. apply get_reachable_from_root_spec. Qed.

(** The loop of [_simulate_unlocks], bounded by [len(nodes) + 10] sweeps,
    reaches the fixed point: it returns the nodes that unlock. *)
Theorem simulate_unlocks_fixed_point nodes root_id x :
  NoDup (PyDict.keys nodes) →
  x ∈ _simulate_unlocks nodes root_id ↔ unlockable nodes root_id x.
Proof. apply simulate_unlocks_spec. Qed.

Lemma simulate_unlocks_fixed_point_witness :
  "M" ∈ _simulate_unlocks linked_school "R" ↔ unlockable linked_school "R" "M".
Proof. apply (simulate_unlocks_fixed_point linked_school "R" "M"). compute_done. Defined.

(** The guarantee of the repair rests on the table that the linking phase
    leaves.  On its own [_ensure_all_reachable] can use up its ten passes:
    with room for one child per node, every pass over eleven locked chains
    [O -> U] frees a single [U], whose new parent is then full. *)
Definition two (i : nat) : string :=
  String (ascii_of_nat (48 + i / 10)) (String (ascii_of_nat (48 + i mod 10)) "").

Definition locked_node (id : string) (d : Z) (ch pr : list string) : TreeNode :=
  set_depth d (set_prerequisites pr (set_children ch (fresh_node id "Novice" "fire"))).

Definition chain_table (k : nat) : NodeTable :=
  ("R", fresh_node "R" "Novice" "fire") ::
  flat_map
    (λ i, [("O" +:+ two i, locked_node ("O" +:+ two i) 0 ["U" +:+ two i] []);
           ("U" +:+ two i, locked_node ("U" +:+ two i) 1 [] ["O" +:+ two i])])
    (seq 0 k).

Definition cfg1 : TreeBuilderConfig :=
  {| max_children_per_node := 1; convergence_chance := 0 |}.

Definition locked_after (r : NodeTable * repair_exit) (root_id : string) : list string :=
  unreachable_nodes r.1 (_simulate_unlocks r.1 root_id).

Theorem ensure_all_reachable_exhausts_passes :
  (_ensure_all_reachable cfg1 (chain_table 11) "R").2 = PassesExhausted
  ∧ locked_after (_ensure_all_reachable cfg1 (chain_table 11) "R") "R" ≠ [].
Proof.
  split; [vm_compute; reflexivity |].
  intros Hnil. vm_compute in Hnil. discriminate Hnil.
Qed.

(** The aggressive fallback attaches to the root whatever its capacity:
    with room for two children and two already linked, the unlinked spell
    of the sparse school becomes the third. *)
Theorem aggressive_fallback_fills_root :
  (_ensure_all_reachable
     {| max_children_per_node := 2; convergence_chance := 0 |} sparse_school "R").2
  = AggressiveFix
  ∧ chs (_ensure_all_reachable
           {| max_children_per_node := 2; convergence_chance := 0 |} sparse_school "R").1
        "R"
    = ["A"; "B"; "C"].
Proof. split; vm_compute; reflexivity. Qed.


(** ** The passes as functions of any table *)

Section passes_any_table.
Context `{SetOrder}.

(** The lookups [nodes[unlockable_id]] and [nodes[root_id]] of the repair
    find their key on a table that holds the root: every member of
    [_simulate_unlocks(nodes, root_id)] is a key. *)
Lemma simulate_unlocks_keys nodes root_id u :
  NoDup (PyDict.keys nodes) → has nodes root_id →
  u ∈ _simulate_unlocks nodes root_id → has nodes u.
Proof.
  intros Hnd Hroot Hu. apply simulate_unlocks_spec in Hu; [| done].
  destruct Hu as [| fid node Hget _ _]; [done | by exists node].
Qed.

(** When [_ensure_all_reachable] leaves its loop through the [return] of a
    pass that found nothing locked, or through the [break] after the
    aggressive fix, the final check finds every node unlocked, on any
    table that holds the root. *)
Theorem ensure_all_reachable_sound cfg nodes root_id fid :
  NoDup (PyDict.keys nodes) →
  has nodes root_id →
  (_ensure_all_reachable cfg nodes root_id).2 ≠ PassesExhausted →
  fid ∈ PyDict.keys (_ensure_all_reachable cfg nodes root_id).1 →
  fid ∈ _simulate_unlocks (_ensure_all_reachable cfg nodes root_id).1 root_id.
Proof.
  intros Hnd _ Hexit. unfold _ensure_all_reachable in *.
  destruct (repair_passes cfg max_passes nodes root_id) as [nodes' exit] eqn:Hrep.
  by eapply repair_passes_reach.
Qed.

Lemma keys_repair_passes cfg passes nodes root_id :
  PyDict.keys (repair_passes cfg passes nodes root_id).1 = PyDict.keys nodes.
Proof.
  revert nodes. induction passes as [| passes IH]; intros nodes;
    cbn [repair_passes]; [done |].
  destruct (unreachable_nodes nodes (_simulate_unlocks nodes root_id))
    as [| u0 unreachable] eqn:Hun; [done |].
  rewrite <- Hun. clear Hun.
  pose proof (keys_rewire_fold cfg (_simulate_unlocks nodes root_id)
                (unreachable_nodes nodes (_simulate_unlocks nodes root_id))
                (nodes, false)) as Hkeys.
  destruct (fold_left _ _ (nodes, false)) as [nodes1 fixed_any].
  simpl in Hkeys. destruct fixed_any.
  - by rewrite IH.
  - simpl. by rewrite keys_attach_fold.
Qed.

Lemma keys_enforce nodes root_id :
  PyDict.keys (_enforce_high_tier_convergence nodes root_id) = PyDict.keys nodes.
Proof.
  unfold _enforce_high_tier_convergence.
  generalize (_get_reachable_from_root nodes root_id). intros reachable.
  generalize (PyDict.keys nodes) at 1. intros l. revert nodes.
  induction l as [| fid l IH]; intros nodes; cbn [fold_left]; [done |].
  rewrite IH.
  destruct (enforce_node_converged root_id reachable nodes fid)
    as [-> | (_ & _ & Hconv)]; [done |].
  by eapply converged_keys.
Qed.

End passes_any_table.

(** *** What a convergence link changes *)

(** The fields of a node that no pass on the links writes. *)
Definition attrs (n : TreeNode) : string * string :=
  (tier n, theme n).

Definition attrs_of (nodes : NodeTable) (k : string) : option (string * string) :=
  attrs <$> PyDict.get nodes k.

Definition depth_of (nodes : NodeTable) (k : string) : option Z :=
  depth <$> PyDict.get nodes k.

Lemma fmap_get_update (A : Type) (field : TreeNode → A) (f : TreeNode → TreeNode)
    (nodes : NodeTable) k k' :
  (∀ n, field (f n) = field n) →
  field <$> PyDict.get (PyDict.update nodes k f) k' = field <$> PyDict.get nodes k'.
Proof.
  intros Hf. rewrite PyDict.get_update. case_decide; [| done].
  destruct (PyDict.get nodes k'); simpl; [by rewrite Hf | done].
Qed.

Lemma attrs_add_child c n : attrs (add_child c n) = attrs n.
Proof. unfold add_child. by case_decide. Qed.

Lemma attrs_add_prerequisite p n : attrs (add_prerequisite p n) = attrs n.
Proof. unfold add_prerequisite. by case_decide. Qed.

Lemma depth_add_child c n : depth (add_child c n) = depth n.
Proof. unfold add_child. by case_decide. Qed.

Lemma depth_add_prerequisite p n : depth (add_prerequisite p n) = depth n.
Proof. unfold add_prerequisite. by case_decide. Qed.

Lemma attrs_of_add_convergence_edge extra node_id nodes k :
  attrs_of (add_convergence_edge extra node_id nodes) k = attrs_of nodes k.
Proof.
  unfold attrs_of, add_convergence_edge.
  rewrite fmap_get_update by apply attrs_add_child.
  by rewrite fmap_get_update by apply attrs_add_prerequisite.
Qed.

Lemma depth_of_add_convergence_edge extra node_id nodes k :
  depth_of (add_convergence_edge extra node_id nodes) k = depth_of nodes k.
Proof.
  unfold depth_of, add_convergence_edge.
  rewrite fmap_get_update by apply depth_add_child.
  by rewrite fmap_get_update by apply depth_add_prerequisite.
Qed.

Lemma prs_add_convergence_edge extra node_id nodes k :
  prs (add_convergence_edge extra node_id nodes) k
  = if decide (k = node_id ∧ has nodes k ∧ extra ∉ prs nodes k)
    then prs nodes k ++ [extra] else prs nodes k.
Proof.
  unfold add_convergence_edge.
  rewrite prs_update_same by apply prerequisites_add_child.
  rewrite prs_update.
  destruct (decide (k = node_id ∧ has nodes k ∧ extra ∉ prs nodes k))
    as [(-> & [n Hg] & Hno) | Hcond].
  - rewrite decide_True by done. unfold prs in *. rewrite Hg in *. simpl in *.
    unfold add_prerequisite. by rewrite decide_False.
  - destruct (decide (node_id = k)) as [-> | Hne]; [| done].
    unfold prs, has in *. destruct (PyDict.get nodes k) as [n |]; simpl in *; [| done].
    unfold add_prerequisite. destruct (decide (extra ∈ prerequisites n)); [done |].
    exfalso. apply Hcond. split_and!; [done | by eexists | done].
Qed.

Lemma has_add_convergence_edge extra node_id nodes k :
  has (add_convergence_edge extra node_id nodes) k ↔ has nodes k.
Proof. apply edge_added_has with extra node_id, add_convergence_edge_added. Qed.

Lemma elem_of_different_candidates_inv nodes node_id reachable candidates x :
  x ∈ different_candidates nodes node_id reachable candidates →
  ∃ node p,
    PyDict.get nodes node_id = Some node ∧ PyDict.get nodes x = Some p
    ∧ theme p ≠ theme node ∧ (x ∉ prerequisites node)
    ∧ x ∈ reachable ∧ x ∈ candidates.
Proof.
  unfold different_candidates.
  destruct (PyDict.get nodes node_id) as [node |]; [| by intros ?%elem_of_nil].
  rewrite elem_of_list_filter. intros [Hin Hf].
  destruct (PyDict.get nodes x) as [p |]; [| done].
  apply andb_prop in Hf as [Hf _]. apply andb_prop in Hf as [Hf Hreach].
  apply andb_prop in Hf as [Htheme Hpre].
  exists node, p. split_and!; try done.
  - by apply negb_true_iff, bool_decide_eq_false in Htheme.
  - by apply negb_true_iff, bool_decide_eq_false in Hpre.
  - by apply bool_decide_eq_true in Hreach.
Qed.

Lemma elem_of_first_offer_inv nodes node_id reachable available depths x :
  x ∈ first_offer nodes node_id reachable available depths →
  ∃ d, d ∈ depths
       ∧ x ∈ different_candidates nodes node_id reachable (default [] (available !! d)).
Proof.
  induction depths as [| d depths IH]; simpl; [by intros ?%elem_of_nil |].
  destruct (different_candidates nodes node_id reachable (default [] (available !! d)))
    as [| c0 different] eqn:Hd.
  - intros (d' & ? & ?)%IH. exists d'. split; [by right | done].
  - intros Hx. exists d. split; [left | by rewrite Hd].
Qed.

(** A candidate that [_maybe_add_convergence] may link into [node]: a node
    of another theme, reached by the walk from the root, and listed in
    [available] at a depth from 0 up to the depth above the node's. *)
Definition convergence_candidate (nodes : NodeTable) (node : TreeNode)
    (reachable : gset string) (available : gmap Z (list string)) (x : string) : Prop :=
  x ∈ reachable
  ∧ ∃ p d, PyDict.get nodes x = Some p ∧ theme p ≠ theme node
           ∧ 0 ≤ d < depth node ∧ x ∈ default [] (available !! d).

Section convergence_rounds_facts.
Context {G : Type} `{PyRandom G}.

Lemma convergence_rounds_prerequisites rounds node_id max_prereqs reachable available
    nodes0 node0 nodes g :
  PyDict.get nodes0 node_id = Some node0 →
  (∀ k, attrs_of nodes k = attrs_of nodes0 k) →
  (∀ k, depth_of nodes k = depth_of nodes0 k) →
  let nodes' :=
    (convergence_rounds rounds node_id max_prereqs reachable available nodes g).1 in
  (∀ k, k ≠ node_id → prs nodes' k = prs nodes k)
  ∧ len (prs nodes' node_id) ≤ Z.max (len (prs nodes node_id)) max_prereqs
  ∧ prs nodes node_id `prefix_of` prs nodes' node_id
  ∧ (NoDup (prs nodes node_id) → NoDup (prs nodes' node_id))
  ∧ (∀ x, x ∈ prs nodes' node_id →
          x ∈ prs nodes node_id
          ∨ convergence_candidate nodes0 node0 reachable available x).
Proof.
  intros Hnode0. revert nodes g.
  induction rounds as [| rounds IH]; intros nodes g Hattrs Hdepth nodes';
    subst nodes'; simpl.
  { split_and!; [done | apply Z.le_max_l | done | done | by left]. }
  destruct (PyDict.get nodes node_id) as [node |] eqn:Hg;
    [| split_and!; [done | apply Z.le_max_l | done | done | by left]].
  destruct (max_prereqs <=? len (prerequisites node))%Z eqn:Hmax;
    [split_and!; [done | apply Z.le_max_l | done | done | by left] |].
  apply Z.leb_gt in Hmax.
  assert (prs nodes node_id = prerequisites node) as Hprs by (unfold prs; by rewrite Hg).
  destruct (choice _ g) as [[extra g'] | e] eqn:Hchoice; [| by apply IH].
  apply choice_Ok_elem, elem_of_first_offer_inv in Hchoice as (d & Hd & Hx).
  apply elem_of_different_candidates_inv in Hx
    as (node_ & p & Hnode_ & Hp & Htheme & Hnotin & Hreach & Hav).
  rewrite Hg in Hnode_. injection Hnode_ as <-.
  assert (prs (add_convergence_edge extra node_id nodes) node_id
          = prs nodes node_id ++ [extra]) as Hprs1.
  { rewrite prs_add_convergence_edge, decide_True; [done |].
    split_and!; [done | by exists node | by rewrite Hprs]. }
  destruct (IH (add_convergence_edge extra node_id nodes) g')
    as (I1 & I2 & I3 & I4 & I5).
  { intros k. by rewrite attrs_of_add_convergence_edge. }
  { intros k. by rewrite depth_of_add_convergence_edge. }
  split_and!.
  - intros k Hk. rewrite I1 by done.
    rewrite prs_add_convergence_edge, decide_False; [done |]. by intros [? _].
  - rewrite Hprs1 in I2. unfold len in *. rewrite length_app in I2. simpl in I2.
    rewrite Hprs in *. lia.
  - rewrite Hprs1 in I3. etransitivity; [| exact I3]. by apply prefix_app_r.
  - intros Hnd. apply I4. rewrite Hprs1. apply NoDup_app. split_and!.
    + done.
    + intros y Hy ->%list_elem_of_singleton. by rewrite Hprs in Hy.
    + apply NoDup_singleton.
  - intros x Hx. destruct (I5 x Hx) as [Hold | ?]; [| by right].
    rewrite Hprs1 in Hold.
    apply elem_of_app in Hold as [? | ->%list_elem_of_singleton]; [by left |].
    right. split; [done |].
    pose proof (Hattrs extra) as Ha. pose proof (Hattrs node_id) as Hb.
    pose proof (Hdepth node_id) as Hc.
    unfold attrs_of, depth_of in Ha, Hb, Hc. rewrite Hp in Ha. rewrite Hg, Hnode0 in Hb, Hc.
    destruct (PyDict.get nodes0 extra) as [p0 |]; [| done].
    simpl in Ha, Hb, Hc. injection Ha as _ Ht. injection Hb as _ Ht'. injection Hc as Hd'.
    exists p0, d. split_and!; [done | congruence | | | done].
    + apply elem_of_reverse, elem_of_seqZ in Hd. lia.
    + apply elem_of_reverse, elem_of_seqZ in Hd. lia.
Qed.

(** [_maybe_add_convergence] writes the prerequisites of its node only, by
    appending; the count does not pass the cap of the node's tier unless it
    already did; and each new prerequisite is a node of another theme that
    the root reached, taken from [available] above the node's depth. *)
Theorem maybe_add_convergence_prerequisites cfg node_id available nodes root_id
    (g : G) node :
  PyDict.get nodes node_id = Some node →
  let nodes' := (_maybe_add_convergence cfg node_id available nodes root_id g).1 in
  (∀ k, k ≠ node_id → prs nodes' k = prs nodes k)
  ∧ len (prs nodes' node_id)
    ≤ Z.max (len (prerequisites node)) (tier_max_prereqs (_tier_to_depth (tier node)))
  ∧ prerequisites node `prefix_of` prs nodes' node_id
  ∧ (NoDup (prerequisites node) → NoDup (prs nodes' node_id))
  ∧ (∀ x, x ∈ prs nodes' node_id →
          x ∈ prerequisites node
          ∨ convergence_candidate nodes node
              (_get_reachable_from_root nodes root_id) available x).
Proof.
  intros Hg. unfold _maybe_add_convergence. rewrite Hg.
  assert (prs nodes node_id = prerequisites node) as Hprs by (unfold prs; by rewrite Hg).
  assert (∀ nodes', nodes' = nodes →
    (∀ k, k ≠ node_id → prs nodes' k = prs nodes k)
    ∧ len (prs nodes' node_id)
      ≤ Z.max (len (prerequisites node)) (tier_max_prereqs (_tier_to_depth (tier node)))
    ∧ prerequisites node `prefix_of` prs nodes' node_id
    ∧ (NoDup (prerequisites node) → NoDup (prs nodes' node_id))
    ∧ (∀ x, x ∈ prs nodes' node_id →
            x ∈ prerequisites node
            ∨ convergence_candidate nodes node
                (_get_reachable_from_root nodes root_id) available x)) as Hsame.
  { intros ? ->. rewrite Hprs.
    split_and!; [done | lia | done | done | by left]. }
  assert (∀ rounds g1,
    let nodes' :=
      (convergence_rounds rounds node_id (tier_max_prereqs (_tier_to_depth (tier node)))
         (_get_reachable_from_root nodes root_id) available nodes g1).1 in
    (∀ k, k ≠ node_id → prs nodes' k = prs nodes k)
    ∧ len (prs nodes' node_id)
      ≤ Z.max (len (prerequisites node)) (tier_max_prereqs (_tier_to_depth (tier node)))
    ∧ prerequisites node `prefix_of` prs nodes' node_id
    ∧ (NoDup (prerequisites node) → NoDup (prs nodes' node_id))
    ∧ (∀ x, x ∈ prs nodes' node_id →
            x ∈ prerequisites node
            ∨ convergence_candidate nodes node
                (_get_reachable_from_root nodes root_id) available x)) as Hrounds.
  { intros rounds g1. rewrite <- Hprs.
    by apply (convergence_rounds_prerequisites rounds node_id _ _ available nodes node). }
  destruct (_ || _).
  - destruct (_ <=? _)%Z; [by apply Hsame | apply Hrounds].
  - destruct (random g) as [r g']. destruct (_ <? r)%float; [by apply Hsame |].
    destruct (_ <=? _)%Z; [by apply Hsame | apply Hrounds].
Qed.

End convergence_rounds_facts.

(** *** What [_enforce_high_tier_convergence] changes *)

(** [min_prereqs] of the pass: 3 for a Master spell, 2 for an Expert one;
    the root and the lower tiers are skipped. *)
Definition required_prerequisites (nodes : NodeTable) (root_id k : string) : Z :=
  if decide (k = root_id) then 0
  else
    match PyDict.get nodes k with
    | None => 0
    | Some node =>
        let tier_depth := _tier_to_depth (tier node) in
        if (4 <=? tier_depth)%Z then 3 else if (3 <=? tier_depth)%Z then 2 else 0
    end.

(** A candidate that the pass may link into [k]: another node, reached by
    the walk from the root, at a smaller depth. *)
Definition enforce_candidate (nodes : NodeTable) (reachable : gset string)
    (k x : string) : Prop :=
  x ≠ k ∧ x ∈ reachable
  ∧ ∃ node cand, PyDict.get nodes k = Some node ∧ PyDict.get nodes x = Some cand
                 ∧ depth cand < depth node.

Lemma elem_of_enforce_candidates_inv nodes reachable fid node x :
  x ∈ enforce_candidates nodes reachable fid node →
  x ≠ fid ∧ (x ∉ prerequisites node) ∧ x ∈ reachable
  ∧ ∃ cand, PyDict.get nodes x = Some cand ∧ depth cand < depth node.
Proof.
  unfold enforce_candidates. rewrite elem_of_list_filter. intros [_ Hf].
  destruct (PyDict.get nodes x) as [cand |]; [| done].
  apply andb_prop in Hf as [Hf _]. apply andb_prop in Hf as [Hf Hdepth].
  apply andb_prop in Hf as [Hf Hreach]. apply andb_prop in Hf as [Hne Hpre].
  split_and!.
  - by apply negb_true_iff, bool_decide_eq_false in Hne.
  - by apply negb_true_iff, bool_decide_eq_false in Hpre.
  - by apply bool_decide_eq_true in Hreach.
  - exists cand. split; [done |]. apply negb_true_iff, Z.leb_gt in Hdepth. lia.
Qed.

Lemma add_edges_prerequisites fid candidates nodes :
  let nodes' :=
    fold_left (λ nodes cand_id, add_convergence_edge cand_id fid nodes)
      candidates nodes in
  (∀ k, k ≠ fid → prs nodes' k = prs nodes k)
  ∧ prs nodes fid `prefix_of` prs nodes' fid
  ∧ (length (prs nodes' fid) ≤ length (prs nodes fid) + length candidates)%nat
  ∧ (∀ x, x ∈ prs nodes' fid → x ∈ prs nodes fid ∨ x ∈ candidates)
  ∧ (∀ k, attrs_of nodes' k = attrs_of nodes k)
  ∧ (∀ k, depth_of nodes' k = depth_of nodes k).
Proof.
  revert nodes. induction candidates as [| c candidates IH]; intros nodes nodes';
    subst nodes'; cbn [fold_left].
  { split_and!; [done | done | simpl; lia | by left | done | done]. }
  destruct (IH (add_convergence_edge c fid nodes)) as (I1 & I2 & I3 & I4 & I5 & I6).
  assert (prs nodes fid `prefix_of` prs (add_convergence_edge c fid nodes) fid
          ∧ (length (prs (add_convergence_edge c fid nodes) fid)
             ≤ S (length (prs nodes fid)))%nat
          ∧ ∀ x, x ∈ prs (add_convergence_edge c fid nodes) fid →
                 x ∈ prs nodes fid ∨ x = c) as (S1 & S2 & S3).
  { rewrite prs_add_convergence_edge. case_decide.
    - split_and!; [by apply prefix_app_r | rewrite length_app; simpl; lia |].
      intros x [? | ->%list_elem_of_singleton]%elem_of_app; [by left | by right].
    - split_and!; [done | lia | by left]. }
  split_and!.
  - intros k Hk. rewrite I1 by done.
    rewrite prs_add_convergence_edge, decide_False; [done |]. by intros [? _].
  - by etransitivity.
  - simpl. lia.
  - intros x Hx. destruct (I4 x Hx) as [Hx1 | ?]; [| right; by right].
    destruct (S3 x Hx1) as [? | ->]; [by left | right; left].
  - intros k. by rewrite I5, attrs_of_add_convergence_edge.
  - intros k. by rewrite I6, depth_of_add_convergence_edge.
Qed.

Lemma enforce_node_prerequisites root_id reachable nodes fid :
  let nodes' := enforce_node root_id reachable nodes fid in
  (∀ k, k ≠ fid → prs nodes' k = prs nodes k)
  ∧ prs nodes fid `prefix_of` prs nodes' fid
  ∧ len (prs nodes' fid)
    ≤ Z.max (len (prs nodes fid)) (required_prerequisites nodes root_id fid)
  ∧ (∀ x, x ∈ prs nodes' fid →
          x ∈ prs nodes fid ∨ enforce_candidate nodes reachable fid x)
  ∧ (∀ k, attrs_of nodes' k = attrs_of nodes k)
  ∧ (∀ k, depth_of nodes' k = depth_of nodes k).
Proof.
  intros nodes'. subst nodes'.
  assert ((∀ k, k ≠ fid → prs nodes k = prs nodes k)
          ∧ prs nodes fid `prefix_of` prs nodes fid
          ∧ len (prs nodes fid)
            ≤ Z.max (len (prs nodes fid)) (required_prerequisites nodes root_id fid)
          ∧ (∀ x, x ∈ prs nodes fid →
                  x ∈ prs nodes fid ∨ enforce_candidate nodes reachable fid x)
          ∧ (∀ k, attrs_of nodes k = attrs_of nodes k)
          ∧ (∀ k, depth_of nodes k = depth_of nodes k)) as Hsame.
  { split_and!; [done | done | apply Z.le_max_l | by left | done | done]. }
  unfold enforce_node.
  destruct (decide (fid = root_id)) as [-> | Hne]; [exact Hsame |].
  destruct (PyDict.get nodes fid) as [node |] eqn:Hg; [| exact Hsame].
  assert (prs nodes fid = prerequisites node) as Hprs by (unfold prs; by rewrite Hg).
  destruct (_tier_to_depth (tier node) <? 3)%Z eqn:Hlow; [exact Hsame |].
  apply Z.ltb_ge in Hlow.
  set (min_prereqs := if (4 <=? _tier_to_depth (tier node))%Z then 3 else 2).
  assert (required_prerequisites nodes root_id fid = min_prereqs) as Hreq.
  { unfold required_prerequisites, min_prereqs. rewrite decide_False by done.
    rewrite Hg. destruct (4 <=? _)%Z; [done |].
    by destruct (Z.leb_spec 3 (_tier_to_depth (tier node))); [| lia]. }
  rewrite Hreq.
  destruct (min_prereqs <=? len (prerequisites node))%Z eqn:Hmin;
    [by rewrite <- Hreq |].
  apply Z.leb_gt in Hmin.
  set (candidates := take _ _).
  destruct (add_edges_prerequisites fid candidates nodes)
    as (I1 & I2 & I3 & I4 & I5 & I6).
  assert (length candidates ≤ Z.to_nat (min_prereqs - len (prerequisites node)))%nat
    as Hlen by (unfold candidates; rewrite length_take; lia).
  split_and!; [done | done | | | done | done].
  - unfold len in *. rewrite Hprs in *. lia.
  - intros x Hx. destruct (I4 x Hx) as [? | Hc]; [by left |]. right.
    apply elem_of_take in Hc as (i & Hc & _).
    apply list_elem_of_lookup_2, elem_of_sort_by_key in Hc.
    apply elem_of_enforce_candidates_inv in Hc as (? & _ & ? & cand & ? & ?).
    split_and!; [done | done |]. by exists node, cand.
Qed.

(** The pass only appends prerequisites.  A node ends with at most the
    number its tier asks for (3 for Master, 2 for Expert) unless it had
    more; the root and the tiers below Expert keep their list; every new
    prerequisite is another node that the root reached when the pass began
    and that sits at a smaller depth. *)
Theorem enforce_high_tier_convergence_prerequisites nodes root_id k :
  let nodes' := _enforce_high_tier_convergence nodes root_id in
  prs nodes k `prefix_of` prs nodes' k
  ∧ len (prs nodes' k)
    ≤ Z.max (len (prs nodes k)) (required_prerequisites nodes root_id k)
  ∧ (required_prerequisites nodes root_id k = 0 → prs nodes' k = prs nodes k)
  ∧ (∀ x, x ∈ prs nodes' k →
          x ∈ prs nodes k
          ∨ enforce_candidate nodes (_get_reachable_from_root nodes root_id) k x).
Proof.
  intros nodes'. subst nodes'. unfold _enforce_high_tier_convergence.
  generalize (_get_reachable_from_root nodes root_id). intros reachable.
  assert (∀ l nodes1,
    (∀ k, attrs_of nodes1 k = attrs_of nodes k) →
    (∀ k, depth_of nodes1 k = depth_of nodes k) →
    prs nodes k `prefix_of` prs nodes1 k →
    len (prs nodes1 k) ≤ Z.max (len (prs nodes k)) (required_prerequisites nodes root_id k) →
    (∀ x, x ∈ prs nodes1 k → x ∈ prs nodes k ∨ enforce_candidate nodes reachable k x) →
    let nodes' := fold_left (enforce_node root_id reachable) l nodes1 in
    prs nodes k `prefix_of` prs nodes' k
    ∧ len (prs nodes' k)
      ≤ Z.max (len (prs nodes k)) (required_prerequisites nodes root_id k)
    ∧ (∀ x, x ∈ prs nodes' k →
            x ∈ prs nodes k ∨ enforce_candidate nodes reachable k x)) as Hfold.
  { induction l as [| fid l IH]; intros nodes1 Hattrs Hdepth Hpre Hlen Hnew nodes';
      subst nodes'; cbn [fold_left]; [done |].
    destruct (enforce_node_prerequisites root_id reachable nodes1 fid)
      as (E1 & E2 & E3 & E4 & E5 & E6).
    assert (required_prerequisites nodes1 root_id fid
            = required_prerequisites nodes root_id fid) as Hreq.
    { unfold required_prerequisites. case_decide; [done |].
      pose proof (Hattrs fid) as Ha. unfold attrs_of in Ha.
      destruct (PyDict.get nodes1 fid) as [n1 |], (PyDict.get nodes fid) as [n |];
        simpl in Ha; [| done | done | done].
      injection Ha as -> _. done. }
    apply IH.
    - intros k'. by rewrite E5.
    - intros k'. by rewrite E6.
    - destruct (decide (k = fid)) as [-> | Hk]; [by etransitivity | by rewrite E1].
    - destruct (decide (k = fid)) as [-> | Hk]; [| by rewrite E1].
      rewrite Hreq in E3. lia.
    - intros x Hx. destruct (decide (k = fid)) as [-> | Hk]; [| rewrite E1 in Hx; auto].
      destruct (E4 x Hx) as [? | (Hxk & Hreach & n1 & c1 & Hn1 & Hc1 & Hd)]; [auto |].
      right. split_and!; [done | done |].
      pose proof (Hdepth fid) as Hdf. pose proof (Hdepth x) as Hdx.
      unfold depth_of in Hdf, Hdx. rewrite Hn1 in Hdf. rewrite Hc1 in Hdx.
      destruct (PyDict.get nodes fid) as [n |]; [| done].
      destruct (PyDict.get nodes x) as [c |]; [| done].
      simpl in Hdf, Hdx. injection Hdf as Hdf. injection Hdx as Hdx.
      exists n, c. split_and!; [done | done | lia]. }
  destruct (Hfold (PyDict.keys nodes) nodes) as (F1 & F2 & F3);
    [done | done | done | apply Z.le_max_l | by left |].
  split_and!; [done | done | | done].
  intros Hzero. rewrite Hzero in F2.
  destruct F1 as [suffix Hsuffix]. rewrite Hsuffix in F2 |- *.
  unfold len in F2. rewrite length_app in F2.
  destruct suffix as [| s suffix]; [by rewrite app_nil_r |]. simpl in F2. lia.
Qed.


(** *** The repair and the nodes that were already unlocked *)

Section repair_frame.
Context `{SetOrder}.

#[local] Arguments rewire : simpl never.
#[local] Arguments attach_to_root : simpl never.

Lemma prs_rewire_other cfg unlockable state fid k :
  k ≠ fid → prs (rewire cfg unlockable state fid).1 k = prs state.1 k.
Proof.
  intros Hk. destruct state as [nodes fixed_any].
  destruct (rewire_cases cfg unlockable nodes fixed_any fid)
    as [-> | (node & best & _ & _ & _ & ->)]; [done |].
  simpl. rewrite prs_replace_blocking, decide_False; [done |]. by intros [? _].
Qed.

Lemma prs_rewire_fold cfg (unlockable : gset string) l state k :
  (∀ fid, fid ∈ l → fid ∉ unlockable) → k ∈ unlockable →
  prs (fold_left (rewire cfg unlockable) l state).1 k = prs state.1 k.
Proof.
  revert state. induction l as [| fid l IH]; intros state Hl Hk; cbn [fold_left];
    [done |].
  rewrite IH; [| intros ? ?; apply Hl; by right | done].
  apply prs_rewire_other. intros ->. by apply (Hl fid); [left |].
Qed.

Lemma repair_passes_frame cfg passes nodes root_id k :
  NoDup (PyDict.keys nodes) → unlockable nodes root_id k →
  prs (repair_passes cfg passes nodes root_id).1 k = prs nodes k
  ∧ unlockable (repair_passes cfg passes nodes root_id).1 root_id k.
Proof.
  revert nodes. induction passes as [| passes IH]; intros nodes Hnd Hk;
    cbn [repair_passes]; [done |].
  destruct (unreachable_nodes nodes (_simulate_unlocks nodes root_id))
    as [| u0 unreachable] eqn:Hun; [done |].
  rewrite <- Hun. clear Hun.
  set (U := _simulate_unlocks nodes root_id).
  assert (∀ fid, fid ∈ unreachable_nodes nodes U → fid ∉ U) as Hout
    by (by intros fid [_ ?]%unreachable_nodes_spec).
  pose proof (keys_rewire_fold cfg U (unreachable_nodes nodes U) (nodes, false))
    as Hkeys.
  pose proof (λ y, prs_rewire_fold cfg U (unreachable_nodes nodes U) (nodes, false) y Hout)
    as Hprs.
  destruct (fold_left _ _ (nodes, false)) as [nodes1 fixed_any] eqn:Hfold.
  simpl in Hkeys, Hprs.
  assert (∀ x, unlockable nodes root_id x → unlockable nodes1 root_id x) as Hmono.
  { intros x. apply unlockable_frame. intros y Hne Hy. split.
    - apply has_keys. rewrite Hkeys. apply has_keys.
      inversion Hy as [| ? node Hg]; subst; [done | by exists node].
    - apply Hprs. by apply simulate_unlocks_spec. }
  destruct fixed_any.
  - destruct (IH nodes1) as [E1 E2]; [by rewrite Hkeys | by apply Hmono |].
    split; [| done]. rewrite E1. apply Hprs. by apply simulate_unlocks_spec.
  - apply rewire_fold_unfixed in Hfold as [-> _]. simpl.
    assert (∀ y, unlockable nodes root_id y →
                 prs (fold_left (attach_to_root root_id) (unreachable_nodes nodes U) nodes) y
                 = prs nodes y) as Hsame.
    { intros y Hy. rewrite prs_attach_fold, decide_False; [done |].
      intros (Hin & _). apply (Hout y Hin). by apply simulate_unlocks_spec. }
    split; [by apply Hsame |].
    revert Hk. apply unlockable_frame. intros y Hne Hy. split; [| by apply Hsame].
    apply has_attach_fold. inversion Hy as [| ? node Hg]; subst; [done | by exists node].
Qed.

End repair_frame.

Section repair_any_table.
Context `{SetOrder}.

(** No pass adds a node to the table or drops one, and none reorders it. *)
Theorem passes_keep_keys {G : Type} `{PyRandom G} cfg nodes root_id node_id
    available (g : G) :
  PyDict.keys (_maybe_add_convergence cfg node_id available nodes root_id g).1
  = PyDict.keys nodes
  ∧ PyDict.keys (_enforce_high_tier_convergence nodes root_id) = PyDict.keys nodes
  ∧ PyDict.keys (_ensure_all_reachable cfg nodes root_id).1 = PyDict.keys nodes.
Proof.
  split_and!.
  - eapply converged_keys, maybe_add_convergence_converged.
  - apply keys_enforce.
  - apply keys_repair_passes.
Qed.

(** On a table that holds the root, a node that could be unlocked before
    the repair keeps its prerequisites through it, and can still be
    unlocked after it. *)
Theorem ensure_all_reachable_frame cfg nodes root_id k :
  NoDup (PyDict.keys nodes) →
  has nodes root_id →
  k ∈ _simulate_unlocks nodes root_id →
  prs (_ensure_all_reachable cfg nodes root_id).1 k = prs nodes k
  ∧ k ∈ _simulate_unlocks (_ensure_all_reachable cfg nodes root_id).1 root_id.
Proof.
  intros Hnd _ Hk. apply simulate_unlocks_spec in Hk; [| done].
  destruct (repair_passes_frame cfg max_passes nodes root_id k Hnd Hk) as [Hprs Hunl].
  split; [done |]. apply simulate_unlocks_spec; [| done].
  unfold _ensure_all_reachable. by rewrite keys_repair_passes.
Qed.

Lemma repair_passes_nothing_locked cfg passes nodes root_id :
  (∀ fid, fid ∈ PyDict.keys nodes → fid ∈ _simulate_unlocks nodes root_id) →
  repair_passes cfg (S passes) nodes root_id = (nodes, AllReachable).
Proof.
  intros Hall. cbn [repair_passes].
  destruct (unreachable_nodes nodes (_simulate_unlocks nodes root_id))
    as [| u0 unreachable] eqn:Hun; [done |].
  assert (u0 ∈ unreachable_nodes nodes (_simulate_unlocks nodes root_id)) as Hin
    by (rewrite Hun; left).
  apply unreachable_nodes_spec in Hin as [Hkey Hlocked]. by apply Hall in Hkey.
Qed.

(** On a table that holds the root, a repair that did not run out of
    passes leaves a table on which a second repair returns at once, without
    a change. *)
Theorem ensure_all_reachable_idempotent cfg nodes root_id :
  NoDup (PyDict.keys nodes) →
  has nodes root_id →
  (_ensure_all_reachable cfg nodes root_id).2 ≠ PassesExhausted →
  _ensure_all_reachable cfg (_ensure_all_reachable cfg nodes root_id).1 root_id
  = ((_ensure_all_reachable cfg nodes root_id).1, AllReachable).
Proof.
  intros Hnd _ Hexit. unfold _ensure_all_reachable at 1.
  apply repair_passes_nothing_locked. intros fid Hfid.
  unfold _ensure_all_reachable in *.
  destruct (repair_passes cfg max_passes nodes root_id) as [nodes' exit] eqn:Hrep.
  by eapply repair_passes_reach.
Qed.

(** On any table that holds the root, whose links are consistent and free
    of cycles and whose root has no prerequisite, the repair keeps all
    three and still holds the root, whichever way it ends. *)
Theorem ensure_all_reachable_keeps_links cfg nodes root_id :
  has nodes root_id →
  build_inv root_id nodes →
  build_inv root_id (_ensure_all_reachable cfg nodes root_id).1
  ∧ has (_ensure_all_reachable cfg nodes root_id).1 root_id.
Proof.
  intros Hroot Hinv. split; [by apply ensure_all_reachable_build_inv |].
  apply has_keys. unfold _ensure_all_reachable. rewrite keys_repair_passes.
  by apply has_keys.
Qed.

End repair_any_table.

Lemma ensure_all_reachable_sound_witness :
  "C" ∈ _simulate_unlocks (_ensure_all_reachable cfg3 sparse_school "R").1 "R".
Proof.
  apply (ensure_all_reachable_sound cfg3 sparse_school "R" "C");
    [compute_done | by eexists | by vm_compute | compute_done].
Defined.

Lemma ensure_all_reachable_frame_witness :
  prs (_ensure_all_reachable cfg3 sparse_school "R").1 "M" = prs sparse_school "M"
  ∧ "M" ∈ _simulate_unlocks (_ensure_all_reachable cfg3 sparse_school "R").1 "R".
Proof.
  apply (ensure_all_reachable_frame cfg3 sparse_school "R" "M");
    [compute_done | by eexists | compute_done].
Defined.

Lemma ensure_all_reachable_idempotent_witness :
  _ensure_all_reachable cfg3 (_ensure_all_reachable cfg3 sparse_school "R").1 "R"
  = ((_ensure_all_reachable cfg3 sparse_school "R").1, AllReachable).
Proof.
  apply (ensure_all_reachable_idempotent cfg3 sparse_school "R");
    [compute_done | by eexists | by vm_compute].
Defined.

Lemma ensure_all_reachable_keeps_links_witness :
  build_inv "R" (_ensure_all_reachable cfg3 sparse_school "R").1
  ∧ has (_ensure_all_reachable cfg3 sparse_school "R").1 "R".
Proof.
  apply (ensure_all_reachable_keeps_links cfg3 sparse_school "R"); [by eexists |].
  exact (st_build _ _ (linking_settled _ _ _ _ sparse_school_linking)).
Defined.

Lemma maybe_add_convergence_prerequisites_witness :
  ∃ node, PyDict.get linked_school "M" = Some node
    ∧ prerequisites node
      `prefix_of` prs (_maybe_add_convergence cfg3 "M" school_available linked_school "R"
                         {| tape_floats := []; tape_ints := [] |}).1 "M".
Proof.
  eexists. split; [vm_compute; reflexivity |].
  refine (proj1 (proj2 (proj2
            (maybe_add_convergence_prerequisites (G := TapeRandom) cfg3 "M"
               school_available linked_school "R"
               {| tape_floats := []; tape_ints := [] |} _ _)))).
  vm_compute. reflexivity.
Defined.

(** ** Choosing the order and the root *)

(** A spell record as the builder reads it: [spell['formId']] and
    [spell.get('skillLevel')], which is absent when the key is missing or
    holds no string. *)
Record Spell : Type := {
  formId : string;
  skillLevel : option string
}.

(** The sort key of [_sort_by_tier]: the index in [TIER_ORDER], and
    [len(TIER_ORDER)] when [index] raises [ValueError]. *)
Definition tier_rank (s : Spell) : Z :=
  match skillLevel s with
  | Some t =>
      match index_of t TIER_ORDER with
      | Some i => Z.of_nat i
      | None => Z.of_nat (length TIER_ORDER)
      end
  | None => Z.of_nat (length TIER_ORDER)
  end.

(** [sorted(l, key=...)] of Python is stable; so is the insertion of each
    element in front of the sorted rest.  [le x y] says that [x] may stay in
    front of [y]. *)
Fixpoint insert_by {A : Type} (le : A → A → bool) (x : A) (l : list A) : list A :=
  match l with
  | [] => [x]
  | y :: l' => if le x y then x :: y :: l' else y :: insert_by le x l'
  end.

Definition sorted_by {A : Type} (le : A → A → bool) (l : list A) : list A :=
  foldr (insert_by le) [] l.

Definition _sort_by_tier (spells : list Spell) : list Spell :=
  sorted_by (λ a b, (tier_rank a <=? tier_rank b)%Z) spells.

(** [_find_lowest_tier_spell] *)
Definition first_of_tier (spells : list Spell) (t : string) : option string :=
  formId <$> List.find (λ s, bool_decide (skillLevel s = Some t)) spells.

Fixpoint first_of_tiers (spells : list Spell) (tiers : list string) : option string :=
  match tiers with
  | [] => None
  | t :: tiers' =>
      match first_of_tier spells t with
      | Some id => Some id
      | None => first_of_tiers spells tiers'
      end
  end.

Definition _find_lowest_tier_spell (spells : list Spell) : option string :=
  match first_of_tiers spells TIER_ORDER with
  | Some id => Some id
  | None => formId <$> head spells
  end.

Definition VANILLA_ROOTS : list (string * string) :=
  [("Destruction", "0x00012FCD"); ("Restoration", "0x00012FCC");
   ("Alteration", "0x0005AD5C"); ("Conjuration", "0x000640B6");
   ("Illusion", "0x00021143")].

Definition VANILLA_ROOT_ALTERNATIVES : list (string * list string) :=
  [("Alteration", ["0x00043324"]); ("Illusion", ["0x0004DEE8"])].

(** [_select_root]; [prefer_vanilla_roots] is the option of that name of
    the configuration. *)
Definition _select_root (prefer_vanilla_roots : bool) (school : string)
    (spells : list Spell) : option string :=
  let spell_ids : gset string := list_to_set (formId <$> spells) in
  let canonical :=
    if prefer_vanilla_roots then
      match PyDict.get VANILLA_ROOTS school with
      | Some r => if decide (r ∈ spell_ids) then Some r else None
      | None => None
      end
    else None in
  let alternative :=
    if prefer_vanilla_roots then
      match PyDict.get VANILLA_ROOT_ALTERNATIVES school with
      | Some alts => List.find (λ alt, bool_decide (alt ∈ spell_ids)) alts
      | None => None
      end
    else None in
  match canonical with
  | Some r => Some r
  | None =>
      match alternative with
      | Some alt => Some alt
      | None =>
          match List.find
                  (λ s, String.prefix "0x00" (formId s)
                        && bool_decide (skillLevel s = Some "Novice")) spells with
          | Some s => Some (formId s)
          | None => _find_lowest_tier_spell spells
          end
      end
  end.

(** *** The stable sort *)

Section sorted_by_key.
Context {A : Type} (key : A → Z).

Let le (x y : A) : bool := (key x <=? key y)%Z.

Lemma insert_by_Permutation (le' : A → A → bool) x l :
  insert_by le' x l ≡ₚ x :: l.
Proof.
  induction l as [| y l IH]; simpl; [done |].
  destruct (le' x y); [done |]. rewrite IH. apply Permutation_swap.
Qed.

Lemma sorted_by_Permutation (le' : A → A → bool) l : sorted_by le' l ≡ₚ l.
Proof.
  induction l as [| x l IH]; simpl; [done |].
  by rewrite insert_by_Permutation, IH.
Qed.

Lemma insert_by_sorted x l :
  StronglySorted (λ a b, key a ≤ key b) l →
  StronglySorted (λ a b, key a ≤ key b) (insert_by le x l).
Proof.
  induction 1 as [| y l Hsorted IH Hall]; simpl; [repeat constructor |].
  unfold le at 1. destruct (Z.leb_spec (key x) (key y)) as [Hle | Hgt].
  - constructor; [by constructor |]. constructor; [done |].
    eapply Forall_impl; [exact Hall |]. simpl. intros z ?. lia.
  - constructor; [done |].
    rewrite insert_by_Permutation. constructor; [lia | done].
Qed.

Lemma sorted_by_sorted l :
  StronglySorted (λ a b, key a ≤ key b) (sorted_by le l).
Proof.
  induction l as [| x l IH]; simpl; [constructor | by apply insert_by_sorted].
Qed.

Lemma insert_by_filter (k : Z) x l :
  List.filter (λ a, (key a =? k)%Z) (insert_by le x l)
  = List.filter (λ a, (key a =? k)%Z) (x :: l).
Proof.
  induction l as [| y l IH]; [done |]. cbn [insert_by].
  unfold le at 1. destruct (Z.leb_spec (key x) (key y)) as [Hle | Hgt]; [done |].
  cbn [List.filter] in *. rewrite IH.
  destruct (Z.eqb_spec (key x) k), (Z.eqb_spec (key y) k); try done. lia.
Qed.

(** Elements of equal key keep the order they had. *)
Lemma sorted_by_stable (k : Z) l :
  List.filter (λ a, (key a =? k)%Z) (sorted_by le l)
  = List.filter (λ a, (key a =? k)%Z) l.
Proof.
  induction l as [| x l IH]; [done |]. cbn [sorted_by foldr].
  fold (sorted_by le l). rewrite insert_by_filter. cbn [List.filter]. by rewrite IH.
Qed.

(** The head of the sorted list is the first element of least key. *)
Lemma head_sorted_by (k : Z) l :
  (∀ y, y ∈ l → k ≤ key y) → (∃ y, y ∈ l ∧ key y = k) →
  head (sorted_by le l) = head (List.filter (λ a, (key a =? k)%Z) l).
Proof.
  intros Hmin (y & Hy & Hk). rewrite <- (sorted_by_stable k l).
  pose proof (sorted_by_sorted l) as Hsorted.
  pose proof (sorted_by_Permutation le l) as Hperm.
  destruct (sorted_by le l) as [| h rest]; [| cbn [List.filter head]].
  { rewrite <- Hperm in Hy. by apply elem_of_nil in Hy. }
  apply StronglySorted_cons in Hsorted as [Hall _].
  assert (key h = k) as Hh.
  { assert (k ≤ key h) by (apply Hmin; rewrite <- Hperm; left).
    rewrite <- Hperm in Hy. apply elem_of_cons in Hy as [-> | Hy]; [done |].
    pose proof (proj1 (Forall_forall _ _) Hall y Hy). simpl in *. lia. }
  by rewrite (proj2 (Z.eqb_eq _ _) Hh).
Qed.

End sorted_by_key.

(** What [_sort_by_tier] returns: the same spells, in ascending order of
    tier rank (spells of no known tier last), spells of equal rank in the
    order they came in. *)
Theorem sort_by_tier_spec (spells : list Spell) :
  _sort_by_tier spells ≡ₚ spells
  ∧ StronglySorted (λ a b, tier_rank a ≤ tier_rank b) (_sort_by_tier spells)
  ∧ ∀ r, List.filter (λ s, (tier_rank s =? r)%Z) (_sort_by_tier spells)
         = List.filter (λ s, (tier_rank s =? r)%Z) spells.
Proof.
  split_and!.
  - apply sorted_by_Permutation.
  - apply sorted_by_sorted.
  - intros r. apply sorted_by_stable.
Qed.

Lemma index_of_lt v l i : index_of v l = Some i → (i < length l)%nat.
Proof.
  revert i. induction l as [| w l IH]; intros i; simpl; [done |].
  case_decide; [intros [= <-]; lia |].
  destruct (index_of v l) as [j |]; simpl; [| done].
  intros [= <-]. specialize (IH j eq_refl). lia.
Qed.

(** [_tier_to_depth] and the sort key disagree on a tier that is not in
    [TIER_ORDER]: it is sorted after the Master spells, and its depth is
    that of a Novice spell. *)
Theorem tier_to_depth_rank (t : string) :
  0 ≤ _tier_to_depth t ≤ 4
  ∧ _tier_to_depth t
    = (if (tier_rank {| formId := ""; skillLevel := Some t |} =? 5)%Z then 0
       else tier_rank {| formId := ""; skillLevel := Some t |}).
Proof.
  unfold _tier_to_depth, tier_rank. cbn [skillLevel].
  destruct (index_of t TIER_ORDER) as [i |] eqn:Hi; [| split; [lia | reflexivity]].
  apply index_of_lt in Hi. simpl in Hi.
  split; [lia |]. destruct (Z.eqb_spec (Z.of_nat i) 5); [lia | done].
Qed.

(** *** The lowest tier *)

Definition rank_in (tiers : list string) (s : Spell) : nat :=
  match skillLevel s with
  | Some t => default (length tiers) (index_of t tiers)
  | None => length tiers
  end.

Lemma tier_rank_rank_in s : tier_rank s = Z.of_nat (rank_in TIER_ORDER s).
Proof.
  unfold tier_rank, rank_in. destruct (skillLevel s) as [t |]; [| done].
  by destruct (index_of t TIER_ORDER).
Qed.

Lemma rank_in_cons t tiers s :
  rank_in (t :: tiers) s
  = if bool_decide (skillLevel s = Some t) then O else S (rank_in tiers s).
Proof.
  unfold rank_in. destruct (skillLevel s) as [t' |]; cbn [index_of length].
  - destruct (decide (t' = t)) as [-> | Hne].
    + by rewrite bool_decide_eq_true_2.
    + rewrite bool_decide_eq_false_2 by congruence.
      by destruct (index_of t' tiers).
  - by rewrite bool_decide_eq_false_2.
Qed.

Lemma find_head_filter {A : Type} (f : A → bool) l :
  List.find f l = head (List.filter f l).
Proof. induction l as [| x l IH]; simpl; [done |]. by destruct (f x). Qed.

Lemma filter_ext_elem_of {A : Type} (f g : A → bool) l :
  (∀ x, x ∈ l → f x = g x) → List.filter f l = List.filter g l.
Proof.
  intros Hfg. apply List.filter_ext_in. intros x Hx. by apply Hfg, list_elem_of_In.
Qed.

Lemma first_of_tiers_spec spells tiers :
  match first_of_tiers spells tiers with
  | Some id =>
      ∃ r, (r < length tiers)%nat
           ∧ (∀ y, y ∈ spells → (r ≤ rank_in tiers y)%nat)
           ∧ Some id
             = formId <$> head (List.filter (λ s, Nat.eqb (rank_in tiers s) r) spells)
  | None => ∀ y, y ∈ spells → rank_in tiers y = length tiers
  end.
Proof.
  induction tiers as [| t tiers IH]; cbn [first_of_tiers length].
  { intros y _. unfold rank_in. by destruct (skillLevel y). }
  unfold first_of_tier. rewrite find_head_filter.
  destruct (head (List.filter (λ s, bool_decide (skillLevel s = Some t)) spells))
    as [s0 |] eqn:Hhead; simpl.
  - exists O. split_and!; [lia | intros; lia |].
    rewrite <- (filter_ext_elem_of (λ s, bool_decide (skillLevel s = Some t))), Hhead;
      [done |].
    intros x _. rewrite rank_in_cons. by destruct (bool_decide _).
  - assert (∀ y, y ∈ spells → bool_decide (skillLevel y = Some t) = false) as Hnone.
    { intros y Hy.
      pose proof (filter_nil_not
                    (λ s : Spell, bool_decide (skillLevel s = Some t)) spells y) as Hnil.
      apply Hnil; [| done]. by destruct (List.filter _ spells). }
    destruct (first_of_tiers spells tiers) as [id |].
    + destruct IH as (r & Hr & Hmin & Hid). exists (S r). split_and!; [lia | |].
      * intros y Hy. rewrite rank_in_cons, Hnone by done. specialize (Hmin y Hy). lia.
      * rewrite Hid. do 2 f_equal. apply filter_ext_elem_of. intros x Hx.
        by rewrite rank_in_cons, Hnone.
    + intros y Hy. rewrite rank_in_cons, Hnone by done. by rewrite IH.
Qed.

(** [_find_lowest_tier_spell] picks the spell that [_sort_by_tier] puts
    first: the first spell of the lowest tier present, the first spell of
    all when none has a known tier, and nothing for an empty list. *)
Theorem find_lowest_tier_spell_head (spells : list Spell) :
  _find_lowest_tier_spell spells = formId <$> head (_sort_by_tier spells).
Proof.
  unfold _find_lowest_tier_spell, _sort_by_tier.
  pose proof (first_of_tiers_spec spells TIER_ORDER) as Hspec.
  destruct (first_of_tiers spells TIER_ORDER) as [id |].
  - destruct Hspec as (r & Hr & Hmin & Hid). rewrite Hid. f_equal.
    rewrite (head_sorted_by tier_rank (Z.of_nat r)).
    + f_equal. apply filter_ext_elem_of. intros x _. rewrite tier_rank_rank_in.
      destruct (Nat.eqb_spec (rank_in TIER_ORDER x) r) as [-> | Hne].
      * by rewrite Z.eqb_refl.
      * symmetry. apply Z.eqb_neq. lia.
    + intros y Hy. rewrite tier_rank_rank_in. specialize (Hmin y Hy). lia.
    + destruct (List.filter (λ s, Nat.eqb (rank_in TIER_ORDER s) r) spells)
        as [| y rest] eqn:Hf; [done |].
      assert (y ∈ List.filter (λ s, Nat.eqb (rank_in TIER_ORDER s) r) spells) as Hy
        by (rewrite Hf; left).
      apply elem_of_list_filter in Hy as [Hy Hrank].
      exists y. split; [done |]. rewrite tier_rank_rank_in.
      apply Nat.eqb_eq in Hrank. lia.
  - destruct spells as [| s0 spells']; [done |]. f_equal.
    rewrite (head_sorted_by tier_rank 5).
    + cbn [List.filter]. rewrite tier_rank_rank_in, Hspec by left. done.
    + intros y Hy. rewrite tier_rank_rank_in, Hspec by done. done.
    + exists s0. split; [left |]. by rewrite tier_rank_rank_in, Hspec by left.
Qed.

Lemma first_of_tiers_elem_of spells tiers id :
  first_of_tiers spells tiers = Some id → id ∈ formId <$> spells.
Proof.
  induction tiers as [| t tiers IH]; cbn [first_of_tiers]; [done |].
  unfold first_of_tier.
  destruct (List.find _ spells) as [s |] eqn:Hfind; cbn [fmap option_fmap option_map].
  - intros [= <-]. apply List.find_some in Hfind as [Hs _].
    apply list_elem_of_fmap. exists s. split; [done | by apply list_elem_of_In].
  - exact IH.
Qed.

Lemma find_lowest_tier_spell_elem_of spells id :
  _find_lowest_tier_spell spells = Some id → id ∈ formId <$> spells.
Proof.
  unfold _find_lowest_tier_spell.
  destruct (first_of_tiers spells TIER_ORDER) as [id' |] eqn:Hfirst.
  - intros [= <-]. by eapply first_of_tiers_elem_of.
  - destruct spells as [| s spells]; [done |]. intros [= <-]. left.
Qed.

Lemma find_lowest_tier_spell_None spells :
  _find_lowest_tier_spell spells = None → spells = [].
Proof.
  unfold _find_lowest_tier_spell.
  destruct (first_of_tiers spells TIER_ORDER); [done |]. by destruct spells.
Qed.

Lemma select_root_elem_of (prefer_vanilla_roots : bool) (school : string)
    (spells : list Spell) r :
  _select_root prefer_vanilla_roots school spells = Some r → r ∈ formId <$> spells.
Proof.
  unfold _select_root.
  set (canonical := if prefer_vanilla_roots then _ else None).
  set (alternative := if prefer_vanilla_roots then _ else None).
  destruct canonical as [r0 |] eqn:Hc.
  { intros [= <-]. subst canonical. destruct prefer_vanilla_roots; [| done].
    destruct (PyDict.get VANILLA_ROOTS school) as [r' |]; [| done].
    case_decide as Hr; [| done]. injection Hc as <-.
    by apply elem_of_list_to_set in Hr. }
  destruct alternative as [alt |] eqn:Ha.
  { intros [= <-]. subst alternative. destruct prefer_vanilla_roots; [| done].
    destruct (PyDict.get VANILLA_ROOT_ALTERNATIVES school) as [alts |]; [| done].
    apply List.find_some in Ha as [_ Ha]. apply bool_decide_eq_true in Ha.
    by apply elem_of_list_to_set in Ha. }
  destruct (List.find _ spells) as [s |] eqn:Hf.
  { intros [= <-]. apply List.find_some in Hf as [Hs _].
    apply list_elem_of_fmap. exists s. split; [done | by apply list_elem_of_In]. }
  apply find_lowest_tier_spell_elem_of.
Qed.

(** [_select_root] returns nothing exactly for an empty spell list and
    otherwise the id of one of the spells; a preferred vanilla root that is
    among the spells is the one returned. *)
Theorem select_root_spec (prefer_vanilla_roots : bool) (school : string)
    (spells : list Spell) :
  (∀ r, _select_root prefer_vanilla_roots school spells = Some r →
        r ∈ formId <$> spells)
  ∧ (_select_root prefer_vanilla_roots school spells = None ↔ spells = [])
  ∧ (∀ r, prefer_vanilla_roots = true → PyDict.get VANILLA_ROOTS school = Some r →
          r ∈ formId <$> spells →
          _select_root prefer_vanilla_roots school spells = Some r).
Proof.
  split_and!.
  - intros r. apply select_root_elem_of.
  - split.
    + unfold _select_root.
      destruct (if prefer_vanilla_roots then _ else None); [done |].
      destruct (if prefer_vanilla_roots then _ else None); [done |].
      destruct (List.find _ spells); [done |].
      apply find_lowest_tier_spell_None.
    + intros ->.
      destruct (_select_root prefer_vanilla_roots school []) as [r |] eqn:Hsel; [| done].
      apply select_root_elem_of in Hsel. by apply elem_of_nil in Hsel.
  - intros r -> Hroot Hr. unfold _select_root. rewrite Hroot.
    rewrite decide_True; [done |]. by apply elem_of_list_to_set.
Qed.

(** ** [_score_parent] and [_find_parent] *)

(** [self.cfg.tree_generation]: the settings that [_find_parent] and
    [_score_parent] read with [tg.get(key, default)].  A setting left out is
    [None]; [getattr(self.cfg, 'tree_generation', {})] without the attribute
    is the record of all [None]. *)
Record Scoring : Type := {
  element_matching : option bool;
  theme_coherence : option bool;
  tier_progression : option bool
}.

Record TreeGeneration : Type := {
  tg_max_children_per_node : option Z;
  strict_tier_ordering : option bool;
  allow_same_tier_links : option bool;
  element_isolation : option bool;
  element_isolation_strict : option bool;
  scoring : Scoring
}.

Definition no_tree_generation : TreeGeneration :=
  {| tg_max_children_per_node := None; strict_tier_ordering := None;
     allow_same_tier_links := None; element_isolation := None;
     element_isolation_strict := None;
     scoring := {| element_matching := None; theme_coherence := None;
                   tier_progression := None |} |}.

(** Truth value of a string: empty is false. *)
Definition nonempty (s : string) : bool := negb (bool_decide (s = "")).

(** The value [-9999] that rejects a candidate. *)
Definition rejected : float := (-9999)%float.

Definition _score_parent (tg : TreeGeneration) (node candidate : TreeNode)
    : result float :=
  let sc := scoring tg in
  let score := 0%float in
  let themed :=
    nonempty (theme node) && nonempty (theme candidate)
    && negb (bool_decide (theme node = "_unassigned"))
    && negb (bool_decide (theme candidate = "_unassigned")) in
  let same_theme := bool_decide (theme node = theme candidate) in
  let isolating := themed && negb same_theme && default true (element_isolation tg) in
  let score :=
    if themed && same_theme then
      if default true (element_matching sc) then (score + 100)%float else score
    else if isolating then (score - 50)%float
    else score in
  if isolating && default false (element_isolation_strict tg) then Ok rejected
  else
    let score :=
      if default true (theme_coherence sc)
         && nonempty (theme node) && nonempty (theme candidate) && same_theme
      then (score + 70)%float else score in
    let score :=
      if default true (tier_progression sc) then
        let tier_diff := depth node - depth candidate in
        if (tier_diff =? 1)%Z then (score + 50)%float
        else if (tier_diff =? 2)%Z then (score + 30)%float
        else if (2 <? tier_diff)%Z then (score - 20)%float
        else score
      else score in
    if (depth node =? depth candidate)%Z && negb (default true (allow_same_tier_links tg))
    then Ok rejected
    else
      let score :=
        if (depth node =? depth candidate)%Z then (score + 10)%float else score in
      let max_children := default 3 (tg_max_children_per_node tg) in
      children_ratio ← py_int_truediv (len (children candidate)) max_children;
      Ok (score - children_ratio * 30)%float.

(** [range(a, b)] *)
Definition py_range (a b : Z) : list Z := seqZ a (b - a).

(** [len(p.children) < max_children] for a node held in [available]. *)
Definition has_capacity (nodes : NodeTable) (max_children : Z) (p : string) : bool :=
  match PyDict.get nodes p with
  | Some n => (len (children n) <? max_children)%Z
  | None => false
  end.

Definition parent_depth_range (tg : TreeGeneration) (target_depth : Z) : list Z :=
  if default true (strict_tier_ordering tg) then
    if default true (allow_same_tier_links tg) then py_range 0 (target_depth + 1)
    else py_range 0 target_depth
  else py_range (Z.max 0 (target_depth - 2)) (target_depth + 2).

(** [sorted(available.keys())] *)
Definition sorted_depths (available : gmap Z (list string)) : list Z :=
  sorted_by Z.leb (map_to_list available).*1.

(** The fallback: the first depth below the target, in ascending order,
    that holds a parent with capacity. *)
Fixpoint fallback_candidates (nodes : NodeTable) (max_children : Z)
    (available : gmap Z (list string)) (target_depth : Z) (depths : list Z)
    : list string :=
  match depths with
  | [] => []
  | d :: depths' =>
      if (target_depth <=? d)%Z
      then fallback_candidates nodes max_children available target_depth depths'
      else
        match List.filter (has_capacity nodes max_children)
                (default [] (available !! d)) with
        | [] => fallback_candidates nodes max_children available target_depth depths'
        | candidates => candidates
        end
  end.

Definition parent_candidates (cfg : TreeBuilderConfig) (tg : TreeGeneration)
    (nodes : NodeTable) (available : gmap Z (list string)) (target_depth : Z)
    : list string :=
  let max_children :=
    default (max_children_per_node cfg) (tg_max_children_per_node tg) in
  match d ← parent_depth_range tg target_depth;
        List.filter (has_capacity nodes max_children) (default [] (available !! d)) with
  | [] =>
      fallback_candidates nodes max_children available target_depth
        (sorted_depths available)
  | all_candidates => all_candidates
  end.

(** The scoring loop: candidates whose score is above [-1000]. *)
Definition score_candidates (tg : TreeGeneration) (nodes : NodeTable)
    (node : TreeNode) (candidates : list string) : result (list (float * string)) :=
  foldM (λ scored c,
           match PyDict.get nodes c with
           | None => Raise (KeyError c)
           | Some candidate =>
               score ← _score_parent tg node candidate;
               Ok (if (-1000 <? score)%float then scored ++ [(score, c)] else scored)
           end)
        candidates [].

(** [scored.sort(key=lambda x: x[0], reverse=True)]: descending and
    stable. *)
Definition sort_scored (scored : list (float * string)) : list (float * string) :=
  sorted_by (λ a b, negb (a.1 <? b.1)%float) scored.

(** The default choice, without a shape: the best score, the first of the
    candidates among equal scores. *)
Definition best_scored (tg : TreeGeneration) (nodes : NodeTable) (node : TreeNode)
    (all_candidates : list string) : result (option string) :=
  scored ← score_candidates tg nodes node all_candidates;
  Ok (snd <$> head (sort_scored
                      match scored with
                      | [] => (λ c, (0%float, c)) <$> all_candidates
                      | _ :: _ => scored
                      end)).

Section find_parent.
Context {G : Type}.

(** [self.shape.select_parent(node, all_candidates, context)] of the active
    shape, when there is one: a function of the table, the node and the
    candidates that may draw random numbers. *)
Definition ShapeSelect : Type :=
  NodeTable → TreeNode → list string → G → result (option string * G).

Definition _find_parent (cfg : TreeBuilderConfig) (tg : TreeGeneration)
    (shape : option ShapeSelect) (nodes : NodeTable) (node : TreeNode)
    (available : gmap Z (list string)) (target_depth : Z) (g : G)
    : result (option string * G) :=
  match parent_candidates cfg tg nodes available target_depth with
  | [] => Ok (None, g)
  | (_ :: _) as all_candidates =>
      match shape with
      | Some select_parent => select_parent nodes node all_candidates g
      | None =>
          parent ← best_scored tg nodes node all_candidates;
          Ok (parent, g)
      end
  end.

End find_parent.

Lemma elem_of_insert_by {A : Type} (le : A → A → bool) x l y :
  y ∈ insert_by le x l ↔ y = x ∨ y ∈ l.
Proof. by rewrite insert_by_Permutation, elem_of_cons. Qed.

Lemma elem_of_sorted_by {A : Type} (le : A → A → bool) l y :
  y ∈ sorted_by le l ↔ y ∈ l.
Proof. by rewrite sorted_by_Permutation. Qed.

Lemma elem_of_sorted_depths (available : gmap Z (list string)) d :
  d ∈ sorted_depths available ↔ is_Some (available !! d).
Proof.
  unfold sorted_depths. rewrite elem_of_sorted_by, list_elem_of_fmap. split.
  - intros ([d' l] & -> & Hin). apply elem_of_map_to_list in Hin. by exists l.
  - intros [l Hl]. exists (d, l). split; [done |]. by apply elem_of_map_to_list.
Qed.

Lemma elem_of_fallback_candidates nodes max_children available target_depth depths p :
  p ∈ fallback_candidates nodes max_children available target_depth depths →
  has_capacity nodes max_children p = true
  ∧ ∃ d, d ∈ depths ∧ d < target_depth ∧ p ∈ default [] (available !! d).
Proof.
  induction depths as [| d depths IH]; simpl; [by intros ?%elem_of_nil |].
  destruct (Z.leb_spec target_depth d) as [Hge | Hlt].
  { intros (? & d' & ? & ? & ?)%IH. split; [done |]. exists d'. split_and!; [by right | done | done]. }
  destruct (List.filter _ (default [] (available !! d))) as [| c candidates] eqn:Hf.
  { intros (? & d' & ? & ? & ?)%IH. split; [done |]. exists d'. split_and!; [by right | done | done]. }
  rewrite <- Hf. intros [Hin Hcap]%elem_of_list_filter. split; [done |].
  exists d. split_and!; [left | done | done].
Qed.

Lemma fallback_candidates_nil nodes max_children available target_depth depths :
  fallback_candidates nodes max_children available target_depth depths = []
  ↔ ∀ d p, d ∈ depths → d < target_depth → p ∈ default [] (available !! d) →
           has_capacity nodes max_children p = false.
Proof.
  induction depths as [| d depths IH]; simpl.
  { split; [by intros _ ? ? ?%elem_of_nil | done]. }
  destruct (Z.leb_spec target_depth d) as [Hge | Hlt].
  { rewrite IH. split.
    - intros Hall d' p [-> | Hd]%elem_of_cons ? ?; [lia | by eapply Hall].
    - intros Hall d' p Hd. apply Hall. by right. }
  destruct (List.filter _ (default [] (available !! d))) as [| c candidates] eqn:Hf.
  - rewrite IH. split.
    + intros Hall d' p [-> | Hd]%elem_of_cons ? Hp; [| by eapply Hall].
      by apply (filter_nil_not _ _ _ Hf).
    + intros Hall d' p Hd. apply Hall. by right.
  - split; [done |]. intros Hall. exfalso.
    assert (c ∈ List.filter (has_capacity nodes max_children)
                  (default [] (available !! d))) as Hc by (rewrite Hf; left).
    apply elem_of_list_filter in Hc as [Hc Hcap].
    rewrite (Hall d c) in Hcap; [done | left | done | done].
Qed.

(** Who is eligible: a node listed in [available], with room for a child,
    at a depth of the range or, failing that, at any listed depth below the
    target. *)
Lemma elem_of_parent_candidates cfg tg nodes available target_depth p :
  p ∈ parent_candidates cfg tg nodes available target_depth →
  has_capacity nodes
    (default (max_children_per_node cfg) (tg_max_children_per_node tg)) p = true
  ∧ ∃ d, p ∈ default [] (available !! d)
         ∧ (d ∈ parent_depth_range tg target_depth ∨ d < target_depth).
Proof.
  unfold parent_candidates.
  set (max_children := default _ _).
  destruct (_ ≫= _) as [| c in_range] eqn:Hbind.
  - intros (? & d & ? & ? & ?)%elem_of_fallback_candidates. split; [done |].
    exists d. split; [done | by right].
  - rewrite <- Hbind. intros (d & Hp & Hd)%list_elem_of_bind.
    apply elem_of_list_filter in Hp as [Hp Hcap]. split; [done |].
    exists d. split; [done | by left].
Qed.

Lemma parent_candidates_nil cfg tg nodes available target_depth :
  parent_candidates cfg tg nodes available target_depth = []
  ↔ ∀ d p, p ∈ default [] (available !! d) →
           d ∈ parent_depth_range tg target_depth ∨ d < target_depth →
           has_capacity nodes
             (default (max_children_per_node cfg) (tg_max_children_per_node tg)) p
           = false.
Proof.
  unfold parent_candidates.
  set (max_children := default _ _).
  destruct (_ ≫= _) as [| c in_range] eqn:Hbind.
  - rewrite fallback_candidates_nil. split.
    + intros Hall d p Hp [Hd | Hd].
      * destruct (has_capacity nodes max_children p) eqn:Hcap; [| done].
        assert (p ∈ parent_depth_range tg target_depth
                      ≫= λ d, List.filter (has_capacity nodes max_children)
                                (default [] (available !! d))) as Hin.
        { apply list_elem_of_bind. exists d. split; [| done].
          by apply elem_of_list_filter. }
        rewrite Hbind in Hin. by apply elem_of_nil in Hin.
      * apply (Hall d p); [| done | done]. apply elem_of_sorted_depths.
        destruct (available !! d); [by eexists | by apply elem_of_nil in Hp].
    + intros Hall d p _ Hd Hp. apply (Hall d p); [done | by right].
  - split; [done |]. intros Hall. exfalso.
    assert (c ∈ parent_depth_range tg target_depth
                  ≫= λ d, List.filter (has_capacity nodes max_children)
                            (default [] (available !! d))) as Hin
      by (rewrite Hbind; left).
    apply list_elem_of_bind in Hin as (d & Hc & Hd).
    apply elem_of_list_filter in Hc as [Hc Hcap].
    rewrite (Hall d c) in Hcap; [done | done | by left].
Qed.

Lemma elem_of_score_candidates tg nodes node candidates scored x :
  score_candidates tg nodes node candidates = Ok scored →
  x ∈ scored → x.2 ∈ candidates.
Proof.
  unfold score_candidates.
  assert (∀ acc, (∀ y, y ∈ acc → y.2 ∈ candidates) →
    ∀ l, (∀ c, c ∈ l → c ∈ candidates) →
      foldM (λ scored c,
               match PyDict.get nodes c with
               | None => Raise (KeyError c)
               | Some candidate =>
                   score ← _score_parent tg node candidate;
                   Ok (if (-1000 <? score)%float then scored ++ [(score, c)] else scored)
               end) l acc = Ok scored →
      x ∈ scored → x.2 ∈ candidates) as Hgen.
  { intros acc Hacc l. revert acc Hacc.
    induction l as [| c l IH]; intros acc Hacc Hl; simpl.
    - intros [= <-]. apply Hacc.
    - destruct (PyDict.get nodes c) as [candidate |]; [| done]. simpl.
      destruct (_score_parent tg node candidate) as [score |]; [| done]. simpl.
      apply IH; [| intros ? ?; apply Hl; by right].
      destruct (_ <? score)%float; [| done].
      intros y [? | ->%list_elem_of_singleton]%elem_of_app; [by apply Hacc |].
      apply Hl. left. }
  apply (Hgen [] ); [by intros ? ?%elem_of_nil | done].
Qed.

Lemma sort_scored_nil (l : list (float * string)) : sort_scored l = [] → l = [].
Proof.
  intros Hnil.
  pose proof (sorted_by_Permutation (λ a b, negb (a.1 <? b.1)%float) l) as Hperm.
  fold (sort_scored l) in Hperm. rewrite Hnil in Hperm.
  by apply Permutation_nil_l in Hperm.
Qed.

Lemma best_scored_elem_of tg nodes node all_candidates p :
  best_scored tg nodes node all_candidates = Ok (Some p) → p ∈ all_candidates.
Proof.
  unfold best_scored.
  destruct (score_candidates tg nodes node all_candidates) as [scored |] eqn:Hscore;
    [| done].
  simpl. intros [= Hhead].
  destruct (head (sort_scored _)) as [[score p'] |] eqn:Hsorted; [| done].
  injection Hhead as <-.
  apply head_Some_elem_of, elem_of_sorted_by in Hsorted.
  destruct scored as [| s0 scored'].
  - apply list_elem_of_fmap in Hsorted as (c' & [= _ ->] & ?). done.
  - by apply (elem_of_score_candidates _ _ _ _ _ (score, p') Hscore).
Qed.

Lemma best_scored_None tg nodes node all_candidates :
  best_scored tg nodes node all_candidates = Ok None → all_candidates = [].
Proof.
  unfold best_scored.
  destruct (score_candidates tg nodes node all_candidates) as [scored |]; [| done].
  simpl. intros [= Hhead].
  destruct (head (sort_scored _)) as [? |] eqn:Hsorted; [done |].
  apply head_None, sort_scored_nil in Hsorted.
  destruct scored; [| done]. by destruct all_candidates.
Qed.

Section find_parent_facts.
Context {G : Type}.

(** [_find_parent] hands out only parents that are listed in [available]
    and have room for another child, whatever the scores; with the default
    scoring it finds one whenever there is a candidate. *)
Theorem find_parent_spec cfg tg (shape : option (ShapeSelect (G := G))) nodes node
    available target_depth (g : G) :
  (∀ select_parent candidates p g1 g2,
     shape = Some select_parent →
     select_parent nodes node candidates g1 = Ok (Some p, g2) → p ∈ candidates) →
  (∀ p g',
     _find_parent cfg tg shape nodes node available target_depth g = Ok (Some p, g') →
     has_capacity nodes
       (default (max_children_per_node cfg) (tg_max_children_per_node tg)) p = true
     ∧ ∃ d, p ∈ default [] (available !! d)
            ∧ (d ∈ parent_depth_range tg target_depth ∨ d < target_depth))
  ∧ (parent_candidates cfg tg nodes available target_depth = [] →
     _find_parent cfg tg shape nodes node available target_depth g = Ok (None, g))
  ∧ (shape = None → ∀ g',
     _find_parent cfg tg shape nodes node available target_depth g = Ok (None, g') →
     parent_candidates cfg tg nodes available target_depth = []).
Proof.
  intros Hshape. split_and!.
  - intros p g'. unfold _find_parent.
    destruct (parent_candidates cfg tg nodes available target_depth)
      as [| c all_candidates] eqn:Hcands; [done |].
    intros Hfind. apply elem_of_parent_candidates. rewrite Hcands.
    destruct shape as [select_parent |];
      [exact (Hshape _ _ _ _ _ eq_refl Hfind) |].
    destruct (best_scored tg nodes node _) as [[p' |] |] eqn:Hbest; [| done | done].
    injection Hfind as <- <-. by apply best_scored_elem_of in Hbest.
  - intros Hnil. unfold _find_parent. by rewrite Hnil.
  - intros -> g'. unfold _find_parent.
    destruct (parent_candidates cfg tg nodes available target_depth)
      as [| c all_candidates]; [done |].
    destruct (best_scored tg nodes node _) as [[p' |] |] eqn:Hbest; [done | | done].
    by apply best_scored_None in Hbest.
Qed.

End find_parent_facts.

(** ** shapes/shape_cascade.py: [CascadeShape.select_parent] *)

(** [min(l, key=...)] on a list that is not empty: the first element of
    least key.  [less x y] says that the key of [x] is below that of
    [y]. *)
Fixpoint min_by {A : Type} (less : A → A → bool) (best : A) (l : list A) : A :=
  match l with
  | [] => best
  | x :: l' => min_by less (if less x best then x else best) l'
  end.

Definition _tier_index (tier : string) : Z :=
  match index_of tier ["Novice"; "Apprentice"; "Adept"; "Expert"; "Master"] with
  | Some i => Z.of_nat i
  | None => 0
  end.

(** [c.depth] of a candidate. *)
Definition dep (nodes : NodeTable) (c : string) : Z :=
  from_option depth 0 (PyDict.get nodes c).

(** The key [(abs(c.depth - ideal_depth), len(c.children))], compared as
    Python compares tuples. *)
Definition cascade_key (nodes : NodeTable) (ideal_depth : Z) (c : string) : Z * Z :=
  (Z.abs (dep nodes c - ideal_depth), len (chs nodes c)).

Definition tuple_lt (a b : Z * Z) : bool :=
  (a.1 <? b.1)%Z || ((a.1 =? b.1)%Z && (a.2 <? b.2)%Z).

Definition ideal_depth (node : TreeNode) : Z :=
  let node_tier := _tier_index (tier node) in
  if (0 <? node_tier)%Z then node_tier - 1 else 0.

(** [select_parent]; [shape_max_children] is [self.config.max_children[1]]. *)
Definition cascade_select_parent (shape_max_children : Z) (nodes : NodeTable)
    (node : TreeNode) (candidates : list string) : option string :=
  match candidates with
  | [] => None
  | _ :: _ =>
      match List.filter (has_capacity nodes shape_max_children) candidates with
      | [] => None
      | a0 :: rest =>
          match List.filter (λ c, (dep nodes c =? ideal_depth node)%Z) (a0 :: rest) with
          | s0 :: same_tier =>
              Some (min_by (λ a b, (len (chs nodes a) <? len (chs nodes b))%Z)
                      s0 same_tier)
          | [] =>
              Some (min_by (λ a b, tuple_lt (cascade_key nodes (ideal_depth node) a)
                                            (cascade_key nodes (ideal_depth node) b))
                      a0 rest)
          end
      end
  end.

(** The shape as [_find_parent] calls it; it draws no random number. *)
Definition cascade_shape {G : Type} (shape_max_children : Z) : ShapeSelect (G := G) :=
  λ nodes node candidates g,
    Ok (cascade_select_parent shape_max_children nodes node candidates, g).

Section min_by_facts.
Context {A : Type} (less : A → A → bool).
Hypothesis less_asym : ∀ x y, less x y = true → less y x = false.
Hypothesis not_less_trans :
  ∀ x y z, less y x = false → less z y = false → less z x = false.

Lemma min_by_elem_of best l : min_by less best l ∈ best :: l.
Proof using Type.
  revert best. induction l as [| x l IH]; intros best; simpl; [left |].
  specialize (IH (if less x best then x else best)).
  apply elem_of_cons in IH as [-> | IH].
  - destruct (less x best); [right; left | left].
  - by do 2 right.
Qed.

Lemma min_by_least best l x :
  x ∈ best :: l → less x (min_by less best l) = false.
Proof using less_asym not_less_trans.
  assert (∀ a, less a a = false) as Hirrefl.
  { intros a. destruct (less a a) eqn:Ha; [| done].
    pose proof (less_asym _ _ Ha). congruence. }
  assert (∀ l best, less (min_by less best l) best = true ∨ min_by less best l = best)
    as Hbelow.
  { clear l best x. induction l as [| y l IH]; intros best; simpl; [by right |].
    destruct (less y best) eqn:Hy.
    - left. destruct (IH y) as [Hlt | ->]; [| done].
      destruct (less (min_by less y l) best) eqn:Hm; [done |].
      apply less_asym in Hlt.
      by rewrite (not_less_trans _ _ _ Hm Hlt) in Hy.
    - apply IH. }
  assert (∀ l best, less best (min_by less best l) = false) as Hbest.
  { intros l' best'. destruct (Hbelow l' best') as [Hlt | ->]; [by apply less_asym | done]. }
  revert best. induction l as [| y l IH]; intros best; simpl.
  - intros ->%list_elem_of_singleton. apply Hirrefl.
  - intros [-> | [-> | Hx]%elem_of_cons]%elem_of_cons.
    + destruct (less y best) eqn:Hy; [| apply Hbest].
      apply (not_less_trans _ y); [apply Hbest | by apply less_asym].
    + destruct (less y best) eqn:Hy; [apply Hbest |].
      apply (not_less_trans _ best); [apply Hbest | done].
    + apply IH. by right.
Qed.

End min_by_facts.

Lemma tuple_lt_asym a b : tuple_lt a b = true → tuple_lt b a = false.
Proof.
  unfold tuple_lt. destruct a as [a1 a2], b as [b1 b2]. simpl.
  destruct (Z.ltb_spec a1 b1), (Z.ltb_spec b1 a1), (Z.eqb_spec a1 b1),
    (Z.eqb_spec b1 a1), (Z.ltb_spec a2 b2), (Z.ltb_spec b2 a2); simpl; try done; lia.
Qed.

Lemma tuple_lt_false a b : tuple_lt a b = false ↔ b.1 < a.1 ∨ (b.1 = a.1 ∧ b.2 ≤ a.2).
Proof.
  unfold tuple_lt. destruct a as [a1 a2], b as [b1 b2]. simpl.
  destruct (Z.ltb_spec a1 b1), (Z.eqb_spec a1 b1), (Z.ltb_spec a2 b2); simpl;
    split; try done; lia.
Qed.

Lemma tuple_lt_trans a b c :
  tuple_lt b a = false → tuple_lt c b = false → tuple_lt c a = false.
Proof. rewrite !tuple_lt_false. lia. Qed.

Lemma cascade_select_parent_elem_of shape_max_children nodes node candidates p :
  cascade_select_parent shape_max_children nodes node candidates = Some p →
  p ∈ List.filter (has_capacity nodes shape_max_children) candidates.
Proof.
  unfold cascade_select_parent. destruct candidates as [| c0 candidates']; [done |].
  destruct (List.filter _ (c0 :: candidates')) as [| a0 rest]; [done |].
  destruct (List.filter _ (a0 :: rest)) as [| s0 same_tier] eqn:Hsame.
  - intros [= <-]. apply min_by_elem_of.
  - intros [= <-].
    assert (min_by (λ a b, (len (chs nodes a) <? len (chs nodes b))%Z) s0 same_tier
            ∈ List.filter (λ c, (dep nodes c =? ideal_depth node)%Z) (a0 :: rest)) as Hin
      by (rewrite Hsame; apply min_by_elem_of).
    by apply elem_of_list_filter in Hin as [Hin _].
Qed.

(** [CascadeShape.select_parent] returns nothing exactly when no candidate
    has room for a child.  Otherwise it returns a candidate with room that
    is nearest to the ideal depth and, among the nearest, has the fewest
    children. *)
Theorem cascade_select_parent_spec shape_max_children nodes node candidates :
  let room := has_capacity nodes shape_max_children in
  let distance c := Z.abs (dep nodes c - ideal_depth node) in
  match cascade_select_parent shape_max_children nodes node candidates with
  | None => ∀ c, c ∈ candidates → room c = false
  | Some p =>
      p ∈ candidates ∧ room p = true
      ∧ ∀ c, c ∈ candidates → room c = true →
             distance p ≤ distance c
             ∧ (distance p = distance c → len (chs nodes p) ≤ len (chs nodes c))
  end.
Proof.
  intros room distance.
  destruct (cascade_select_parent shape_max_children nodes node candidates)
    as [p |] eqn:Hsel.
  - pose proof (cascade_select_parent_elem_of _ _ _ _ _ Hsel) as Hp.
    apply elem_of_list_filter in Hp as [Hp Hroom]. split; [done |]. split; [done |].
    unfold cascade_select_parent in Hsel.
    destruct candidates as [| c0 candidates']; [done |].
    set (candidates := c0 :: candidates') in *.
    destruct (List.filter (has_capacity nodes shape_max_children) candidates)
      as [| a0 rest] eqn:Hroomy; [done |].
    assert (∀ c, c ∈ a0 :: rest ↔ c ∈ candidates ∧ room c = true) as Havail.
    { intros c. rewrite <- Hroomy. apply elem_of_list_filter. }
    destruct (List.filter _ (a0 :: rest)) as [| s0 same_tier] eqn:Hsame.
    + injection Hsel as <-. intros c Hc Hr.
      set (p := min_by _ a0 rest) in *.
      assert (tuple_lt (cascade_key nodes (ideal_depth node) c)
                (cascade_key nodes (ideal_depth node) p) = false) as Hleast.
      { apply (min_by_least
          (λ a b, tuple_lt (cascade_key nodes (ideal_depth node) a)
                           (cascade_key nodes (ideal_depth node) b))
          (λ x y, tuple_lt_asym _ _) (λ x y z, tuple_lt_trans _ _ _)).
        by apply Havail. }
      apply tuple_lt_false in Hleast. unfold cascade_key in Hleast. simpl in Hleast.
      subst distance. simpl. lia.
    + injection Hsel as <-.
      assert (∀ c, c ∈ s0 :: same_tier
                   ↔ c ∈ candidates ∧ room c = true ∧ dep nodes c = ideal_depth node)
        as Hideal.
      { intros c. rewrite <- Hsame, elem_of_list_filter, Havail, Z.eqb_eq. tauto. }
      set (p := min_by _ s0 same_tier).
      assert (p ∈ s0 :: same_tier) as Hpin by apply min_by_elem_of.
      apply Hideal in Hpin as (_ & _ & Hpd).
      intros c Hc Hr. subst distance. simpl. rewrite Hpd, Z.sub_diag. simpl.
      split; [lia |]. intros Hd.
      assert (dep nodes c = ideal_depth node) as Hcd by lia.
      pose proof (min_by_least
        (λ a b, (len (chs nodes a) <? len (chs nodes b))%Z)) as Hleast.
      specialize (Hleast ltac:(intros x y ?%Z.ltb_lt; apply Z.ltb_ge; lia)
        ltac:(intros x y z ?%Z.ltb_ge ?%Z.ltb_ge; apply Z.ltb_ge; lia)
        s0 same_tier c ltac:(by apply Hideal)).
      by apply Z.ltb_ge in Hleast.
  - intros c Hc. unfold cascade_select_parent in Hsel.
    destruct candidates as [| c0 candidates']; [by apply elem_of_nil in Hc |].
    destruct (List.filter (has_capacity nodes shape_max_children) (c0 :: candidates'))
      as [| a0 rest] eqn:Hroomy.
    + by apply (filter_nil_not _ _ _ Hroomy).
    + by destruct (List.filter _ (a0 :: rest)).
Qed.

Lemma cascade_shape_elem_of {G : Type} shape_max_children nodes node candidates p
    (g1 g2 : G) :
  cascade_shape shape_max_children nodes node candidates g1 = Ok (Some p, g2) →
  p ∈ candidates.
Proof.
  unfold cascade_shape. intros [= Hsel _].
  apply cascade_select_parent_elem_of in Hsel.
  by apply elem_of_list_filter in Hsel as [? _].
Qed.

Lemma find_parent_spec_witness :
  has_capacity linked_school
    (default (max_children_per_node cfg3)
       (tg_max_children_per_node no_tree_generation)) "B" = true
  ∧ ∃ d, "B" ∈ default [] (school_available !! d)
         ∧ (d ∈ parent_depth_range no_tree_generation 2 ∨ d < 2).
Proof.
  refine (proj1 (find_parent_spec (G := unit) cfg3 no_tree_generation
                   (Some (cascade_shape 3)) linked_school
                   (fresh_node "X" "Adept" "frost") school_available 2 tt _) "B" tt _).
  - intros select_parent candidates p g1 g2 [= <-]. apply cascade_shape_elem_of.
  - vm_compute. reflexivity.
Defined.

(** ** The linking phase: [_should_branch], [_connect_nodes], [_process_unassigned] *)

(** The attributes of the builder that a school build reads:
    [self.cfg.max_children_per_node] and [convergence_chance] (in [cfg]),
    [self.cfg.convergence_at_tier], [self.cfg.prefer_vanilla_roots],
    [self.cfg.shape] (the name), [self.cfg.tree_generation], [self.shape]
    and [self.group_manager]. *)
Record Builder {G : Type} : Type := {
  cfg : TreeBuilderConfig;
  convergence_at_tier : Z;
  prefer_vanilla_roots : bool;
  shape_name : string;
  tree_generation : TreeGeneration;
  shape : option (ShapeSelect (G := G));
  group_manager : option ThemedGroups.ThemedGroupManager
}.
Arguments Builder G : clear implicits.

(** What the linking phase shares and mutates: the table, the set
    [connected], the lists [available] (a [defaultdict(list)]),
    [self.branching] and the state of the random generator. *)
Record LinkState {G : Type} : Type := {
  ls_nodes : NodeTable;
  ls_connected : gset string;
  ls_available : gmap Z (list string);
  ls_branching : option BranchingEnergy.BranchingEnergy;
  ls_random : G
}.
Arguments LinkState G : clear implicits.

Section linking_phase.
Context {G : Type} `{PyRandom G}.

(** [_should_branch(parent, child, custom_branching)] *)
Definition _should_branch (branching : option BranchingEnergy.BranchingEnergy)
    (nodes : NodeTable) (parent_id : string)
    (custom_branching : option BranchingEnergy.ConfigDict) (g : G)
    : result (bool * G) :=
  let has_existing_children := (0 <? len (chs nodes parent_id))%Z in
  match branching with
  | None => Ok (has_existing_children, g)
  | Some branching =>
      match custom_branching with
      | Some d =>
          if BranchingEnergy.dict_nonempty d then
            let temp_branching :=
              {| BranchingEnergy.config := BranchingEnergy.from_dict d;
                 BranchingEnergy._straight_counts :=
                   BranchingEnergy._straight_counts branching;
                 BranchingEnergy._energy := BranchingEnergy._energy branching |} in
            BranchingEnergy.should_branch temp_branching parent_id 0.5 g
          else
            '(branch, g') ← BranchingEnergy.should_branch branching parent_id 0.5 g;
            Ok (branch || has_existing_children, g')
      | None =>
          '(branch, g') ← BranchingEnergy.should_branch branching parent_id 0.5 g;
          Ok (branch || has_existing_children, g')
      end
  end.

(** [available[node.depth].append(node)] when the node has room. *)
Definition offer_if_room (max_children : Z) (nodes : NodeTable) (form_id : string)
    (available : gmap Z (list string)) : gmap Z (list string) :=
  if (len (chs nodes form_id) <? max_children)%Z
  then offer form_id (dep nodes form_id) available
  else available.

(** The body of the inner loop of [_connect_nodes]. *)
Definition connect_spell (self : Builder G) (root_id : string) (st : LinkState G)
    (spell : Spell) : result (LinkState G) :=
  let form_id := formId spell in
  match PyDict.get (ls_nodes st) form_id with
  | None => Raise (KeyError form_id)
  | Some node =>
      if decide (form_id ∈ ls_connected st) then Ok st
      else
        let tier_depth := _tier_to_depth (tier node) in
        let custom_branching :=
          match group_manager self with
          | Some manager =>
              ThemedGroups.get_branching_config_for_spell manager form_id
          | None => None
          end in
        '(parent, g1) ← _find_parent (cfg self) (tree_generation self) (shape self)
                          (ls_nodes st) node (ls_available st) tier_depth
                          (ls_random st);
        match parent with
        | None =>
            Ok {| ls_nodes := ls_nodes st; ls_connected := ls_connected st;
                  ls_available := ls_available st; ls_branching := ls_branching st;
                  ls_random := g1 |}
        | Some parent_id =>
            '(is_branch, g2) ← _should_branch (ls_branching st) (ls_nodes st)
                                 parent_id custom_branching g1;
            let nodes := link_nodes parent_id form_id (ls_nodes st) in
            let connected := {[form_id]} ∪ ls_connected st in
            let branching :=
              (λ b, BranchingEnergy.record_connection b parent_id form_id is_branch)
                <$> ls_branching st in
            let available :=
              offer_if_room (max_children_per_node (cfg self)) nodes form_id
                (ls_available st) in
            if (convergence_at_tier self <=? tier_depth)%Z then
              let '(nodes, g3) :=
                _maybe_add_convergence (cfg self) form_id available nodes root_id g2 in
              Ok {| ls_nodes := nodes; ls_connected := connected;
                    ls_available := available; ls_branching := branching;
                    ls_random := g3 |}
            else
              Ok {| ls_nodes := nodes; ls_connected := connected;
                    ls_available := available; ls_branching := branching;
                    ls_random := g2 |}
        end
  end.

(** The body of the loop of [_process_unassigned]. *)
Definition place_spell (self : Builder G) (st : LinkState G) (spell : Spell)
    : result (LinkState G) :=
  let form_id := formId spell in
  if decide (form_id ∈ ls_connected st) then Ok st
  else
    match PyDict.get (ls_nodes st) form_id with
    | None => Raise (KeyError form_id)
    | Some node =>
        let tier_depth := _tier_to_depth (tier node) in
        '(parent, g1) ← _find_parent (cfg self) (tree_generation self) (shape self)
                          (ls_nodes st) node (ls_available st) tier_depth
                          (ls_random st);
        match parent with
        | None =>
            Ok {| ls_nodes := ls_nodes st; ls_connected := ls_connected st;
                  ls_available := ls_available st; ls_branching := ls_branching st;
                  ls_random := g1 |}
        | Some parent_id =>
            let nodes := link_nodes parent_id form_id (ls_nodes st) in
            Ok {| ls_nodes := nodes;
                  ls_connected := {[form_id]} ∪ ls_connected st;
                  ls_available :=
                    offer_if_room (max_children_per_node (cfg self)) nodes form_id
                      (ls_available st);
                  ls_branching := ls_branching st;
                  ls_random := g1 |}
        end
    end.

Definition _process_unassigned (self : Builder G) (unassigned : list Spell)
    (st : LinkState G) : result (LinkState G) :=
  foldM (place_spell self) (_sort_by_tier unassigned) st.

(** [sorted(grouped.keys(), key=lambda t: len(grouped.get(t, [])), reverse=True)] *)
Definition sorted_themes (grouped : list (string * list Spell)) : list string :=
  sorted_by (λ a b, negb (len (default [] (PyDict.get grouped a))
                          <? len (default [] (PyDict.get grouped b)))%Z)
    (PyDict.keys grouped).

Definition connect_theme (self : Builder G) (root_id : string)
    (grouped : list (string * list Spell)) (st : LinkState G) (theme : string)
    : result (LinkState G) :=
  if decide (theme = "_unassigned") then Ok st
  else
    foldM (connect_spell self root_id)
      (_sort_by_tier (default [] (PyDict.get grouped theme))) st.

(** [_connect_nodes(root, nodes, grouped, themes)] with [self.branching] and
    the generator as they are when it is called. *)
Definition _connect_nodes (self : Builder G) (root_id : string) (nodes : NodeTable)
    (grouped : list (string * list Spell))
    (branching : option BranchingEnergy.BranchingEnergy) (g : G)
    : result (LinkState G) :=
  let st :=
    {| ls_nodes := nodes; ls_connected := {[root_id]};
       ls_available := {[0 := [root_id]]}; ls_branching := branching;
       ls_random := g |} in
  st ← foldM (connect_theme self root_id grouped) (sorted_themes grouped) st;
  _process_unassigned self (default [] (PyDict.get grouped "_unassigned")) st.

End linking_phase.

Lemma keys_link_nodes parent_id child_id nodes :
  PyDict.keys (link_nodes parent_id child_id nodes) = PyDict.keys nodes.
Proof.
  unfold link_nodes. destruct (PyDict.get nodes parent_id); [| done].
  by rewrite !PyDict.keys_update.
Qed.

(** *** The table is keyed by form id *)

(** [nodes[node.form_id] = node] for every node of the table. *)
Definition keyed (nodes : NodeTable) : Prop :=
  ∀ k n, PyDict.get nodes k = Some n → form_id n = k.

Lemma keyed_update nodes k f :
  (∀ n, form_id (f n) = form_id n) → keyed nodes → keyed (PyDict.update nodes k f).
Proof.
  intros Hf Hkeyed k' n. rewrite PyDict.get_update. case_decide; [| apply Hkeyed].
  destruct (PyDict.get nodes k') as [n0 |] eqn:Hg; [| done].
  intros [= <-]. rewrite Hf. by apply Hkeyed.
Qed.

Lemma form_id_add_child c n : form_id (add_child c n) = form_id n.
Proof. unfold add_child. by case_decide. Qed.

Lemma form_id_add_prerequisite p n : form_id (add_prerequisite p n) = form_id n.
Proof. unfold add_prerequisite. by case_decide. Qed.

Lemma keyed_link_nodes parent_id child_id nodes :
  keyed nodes → keyed (link_nodes parent_id child_id nodes).
Proof.
  intros Hkeyed. unfold link_nodes.
  destruct (PyDict.get nodes parent_id) as [parent |]; [| done].
  apply keyed_update; [done |].
  apply keyed_update; [apply form_id_add_prerequisite |].
  apply keyed_update; [apply form_id_add_child | done].
Qed.

Lemma keyed_add_convergence_edge extra_id node_id nodes :
  keyed nodes → keyed (add_convergence_edge extra_id node_id nodes).
Proof.
  intros Hkeyed. unfold add_convergence_edge.
  apply keyed_update; [apply form_id_add_child |].
  apply keyed_update; [apply form_id_add_prerequisite | done].
Qed.

Lemma converged_keyed node_id offered nodes nodes' :
  converged node_id offered nodes nodes' → keyed nodes → keyed nodes'.
Proof.
  induction 1 as [| nodes extra nodes' _ _ _ IH]; [done |].
  intros Hkeyed. by apply IH, keyed_add_convergence_edge.
Qed.

Section linking_phase_facts.
Context {G : Type} `{PyRandom G}.

(** What the builder needs of a shape: the parent it selects is one of the
    candidates it was given. *)
Definition shape_sound (shape : option (ShapeSelect (G := G))) : Prop :=
  ∀ select_parent nodes node candidates p g1 g2,
    shape = Some select_parent →
    select_parent nodes node candidates g1 = Ok (Some p, g2) → p ∈ candidates.

(** The state after a step of the linking phase. *)
Definition linked_state (root_id : string) (st : LinkState G) : Prop :=
  linking root_id (ls_nodes st) (ls_connected st) (ls_available st).

Lemma find_parent_offered cfg tg shape nodes node available target_depth
    (g g' : G) p :
  shape_sound shape →
  _find_parent cfg tg shape nodes node available target_depth g = Ok (Some p, g') →
  ∃ d, p ∈ default [] (available !! d).
Proof.
  intros Hshape Hfind.
  assert (p ∈ parent_candidates cfg tg nodes available target_depth) as Hp.
  { unfold _find_parent in Hfind.
    destruct (parent_candidates cfg tg nodes available target_depth)
      as [| c all_candidates]; [done |].
    destruct shape as [select_parent |]; [by eapply Hshape |].
    destruct (best_scored tg nodes node _) as [[p' |] |] eqn:Hbest; [| done | done].
    injection Hfind as <- <-. by apply best_scored_elem_of in Hbest. }
  apply elem_of_parent_candidates in Hp as (_ & d & Hd & _). by exists d.
Qed.

Lemma offer_if_room_linking root_id max_children nodes connected available form_id :
  linking root_id nodes connected available → form_id ∈ connected →
  linking root_id nodes connected (offer_if_room max_children nodes form_id available).
Proof.
  intros Hl Hc. unfold offer_if_room.
  destruct (_ <? _)%Z; [| done]. by apply linking_offer.
Qed.

(** One link of the phase: the new node under a parent taken from
    [available]. *)
Lemma link_step_linking root_id max_children nodes connected available parent_id
    form_id d :
  linking root_id nodes connected available →
  parent_id ∈ default [] (available !! d) →
  has nodes form_id → form_id ∉ connected →
  linking root_id (link_nodes parent_id form_id nodes) ({[form_id]} ∪ connected)
    (offer_if_room max_children (link_nodes parent_id form_id nodes) form_id available).
Proof.
  intros Hl Hp Hhas Hc.
  apply offer_if_room_linking; [| set_solver].
  apply linking_link; [done | | done | done].
  by eapply (li_available _ _ _ _ (linking_linking_inv _ _ _ _ Hl)).
Qed.

(** The invariant of the loops: the state is one of the linking phase, the
    table has the keys it began with, [connected] holds the root and form
    ids of [spells] only, and the table is keyed by form id if it was. *)
Definition phase_inv (root_id : string) (keys0 : list string) (ids : string → Prop)
    (was_keyed : Prop) (st : LinkState G) : Prop :=
  linked_state root_id st
  ∧ PyDict.keys (ls_nodes st) = keys0
  ∧ (∀ k, k ∈ ls_connected st → k = root_id ∨ ids k)
  ∧ (was_keyed → keyed (ls_nodes st)).

Lemma connect_spell_inv self root_id keys0 (ids : string → Prop) was_keyed st spell st' :
  shape_sound (shape self) → ids (formId spell) →
  phase_inv root_id keys0 ids was_keyed st →
  connect_spell self root_id st spell = Ok st' →
  phase_inv root_id keys0 ids was_keyed st'.
Proof.
  intros Hshape Hid (Hl & Hkeys & Hconn & Hkeyed). unfold connect_spell.
  destruct (PyDict.get (ls_nodes st) (formId spell)) as [node |] eqn:Hg; [| done].
  case_decide as Hc; [by intros [= <-] |].
  destruct (_find_parent _ _ _ _ _ _ _ _) as [[[parent_id |] g1] |] eqn:Hfind;
    cbn [mbind result_mbind result_bind]; [| by intros [= <-] | done].
  destruct (_should_branch _ _ _ _ _) as [[is_branch g2] |];
    cbn [mbind result_mbind result_bind]; [| done].
  destruct (find_parent_offered _ _ _ _ _ _ _ _ _ _ Hshape Hfind) as [d Hd].
  pose proof (link_step_linking root_id (max_children_per_node (cfg self)) _ _ _ _ _ d
                Hl Hd ltac:(by eexists) Hc) as Hl'.
  assert (∀ k, k ∈ {[formId spell]} ∪ ls_connected st → k = root_id ∨ ids k) as Hconn'.
  { intros k [->%elem_of_singleton | Hk]%elem_of_union; [by right | by apply Hconn]. }
  destruct (_ <=? _)%Z.
  - destruct (_maybe_add_convergence _ _ _ _ _ _) as [nodes g3] eqn:Hconv.
    intros [= <-]. unfold phase_inv, linked_state. cbn [ls_nodes ls_connected ls_available].
    pose proof (maybe_add_convergence_converged (cfg self) (formId spell)
      (offer_if_room (max_children_per_node (cfg self))
         (link_nodes parent_id (formId spell) (ls_nodes st)) (formId spell)
         (ls_available st))
      (link_nodes parent_id (formId spell) (ls_nodes st)) root_id g2) as Hconverged.
    pose proof (linking_converge root_id (cfg self) _ _ _ (formId spell) g2 Hl'
                  ltac:(set_solver)) as Hl''.
    rewrite Hconv in Hconverged, Hl''. cbn [fst] in Hconverged, Hl''.
    split_and!; [done | | done |].
    + by rewrite (converged_keys _ _ _ _ Hconverged), keys_link_nodes.
    + intros Hwas. eapply converged_keyed; [done |]. by apply keyed_link_nodes, Hkeyed.
  - intros [= <-]. unfold phase_inv, linked_state. cbn [ls_nodes ls_connected ls_available].
    split_and!; [done | by rewrite keys_link_nodes | done |].
    intros Hwas. by apply keyed_link_nodes, Hkeyed.
Qed.

Lemma place_spell_inv self root_id keys0 (ids : string → Prop) was_keyed st spell st' :
  shape_sound (shape self) → ids (formId spell) →
  phase_inv root_id keys0 ids was_keyed st →
  place_spell self st spell = Ok st' →
  phase_inv root_id keys0 ids was_keyed st'.
Proof.
  intros Hshape Hid (Hl & Hkeys & Hconn & Hkeyed). unfold place_spell.
  case_decide as Hc; [by intros [= <-] |].
  destruct (PyDict.get (ls_nodes st) (formId spell)) as [node |] eqn:Hg; [| done].
  destruct (_find_parent _ _ _ _ _ _ _ _) as [[[parent_id |] g1] |] eqn:Hfind;
    cbn [mbind result_mbind result_bind]; [| by intros [= <-] | done].
  destruct (find_parent_offered _ _ _ _ _ _ _ _ _ _ Hshape Hfind) as [d Hd].
  pose proof (link_step_linking root_id (max_children_per_node (cfg self)) _ _ _ _ _ d
                Hl Hd ltac:(by eexists) Hc) as Hl'.
  intros [= <-]. unfold phase_inv, linked_state. cbn [ls_nodes ls_connected ls_available].
  split_and!; [done | by rewrite keys_link_nodes | |].
  - intros k [->%elem_of_singleton | Hk]%elem_of_union; [by right | by apply Hconn].
  - intros Hwas. by apply keyed_link_nodes, Hkeyed.
Qed.

(** The ids of the spells that [grouped] holds. *)
Definition grouped_id (grouped : list (string * list Spell)) (k : string) : Prop :=
  ∃ theme spells spell,
    PyDict.get grouped theme = Some spells ∧ spell ∈ spells ∧ formId spell = k.

Lemma sort_by_tier_elem_of spells spell :
  spell ∈ _sort_by_tier spells → spell ∈ spells.
Proof. unfold _sort_by_tier. by rewrite elem_of_sorted_by. Qed.

Lemma connect_nodes_phase (self : Builder G) root_id nodes grouped branching
    (g : G) st :
  shape_sound (shape self) →
  NoDup (PyDict.keys nodes) →
  (∀ k, chs nodes k = [] ∧ prs nodes k = []) →
  has nodes root_id →
  _connect_nodes self root_id nodes grouped branching g = Ok st →
  phase_inv root_id (PyDict.keys nodes) (grouped_id grouped) (keyed nodes) st.
Proof.
  intros Hshape Hnd Hfresh Hroot. unfold _connect_nodes.
  set (st0 := {| ls_nodes := nodes; ls_connected := {[root_id]} |}).
  assert (phase_inv root_id (PyDict.keys nodes) (grouped_id grouped) (keyed nodes) st0)
    as Hinv0.
  { split_and!; [by apply linking_start | done | | done].
    intros k Hk. subst st0. cbn [ls_connected] in Hk.
    apply elem_of_singleton in Hk. by left. }
  destruct (foldM (connect_theme self root_id grouped) (sorted_themes grouped) st0)
    as [st1 |] eqn:Hthemes; cbn [mbind result_mbind result_bind]; [| done].
  assert (phase_inv root_id (PyDict.keys nodes) (grouped_id grouped) (keyed nodes) st1)
    as Hinv1.
  { revert Hthemes. apply foldM_preserves; [done |].
    intros sta theme stb _ Hsta. unfold connect_theme.
    case_decide; [by intros [= <-] |].
    destruct (PyDict.get grouped theme) as [spells |] eqn:Hspells;
      [| by intros [= <-]].
    apply foldM_preserves; [done |].
    intros stc spell std Hspell Hstc. apply connect_spell_inv; [done | | done].
    apply sort_by_tier_elem_of in Hspell. by exists theme, spells, spell. }
  unfold _process_unassigned.
  destruct (PyDict.get grouped "_unassigned") as [spells |] eqn:Hspells;
    [| by intros [= <-]].
  apply foldM_preserves; [done |].
  intros stc spell std Hspell Hstc. apply place_spell_inv; [done | | done].
  apply sort_by_tier_elem_of in Hspell. by exists "_unassigned", spells, spell.
Qed.

(** [_connect_nodes], run on a table without links that holds the root,
    ends in a state of the linking phase: the links are consistent, free of
    cycles and of duplicates, [connected] is the set of nodes that the root
    reaches, every one of them can be unlocked from the root, and a node
    outside it has no link.  The table keeps its keys, and [connected]
    holds the root and ids of grouped spells only. *)
Theorem connect_nodes_linking (self : Builder G) root_id nodes grouped branching
    (g : G) st :
  shape_sound (shape self) →
  NoDup (PyDict.keys nodes) →
  (∀ k, chs nodes k = [] ∧ prs nodes k = []) →
  has nodes root_id →
  _connect_nodes self root_id nodes grouped branching g = Ok st →
  linking root_id (ls_nodes st) (ls_connected st) (ls_available st)
  ∧ settled root_id (ls_nodes st)
  ∧ (∀ k, k ∈ ls_connected st ↔ rtc (child_edge (ls_nodes st)) root_id k)
  ∧ PyDict.keys (ls_nodes st) = PyDict.keys nodes
  ∧ (∀ k, k ∈ ls_connected st → k = root_id ∨ grouped_id grouped k).
Proof.
  intros Hshape Hnd Hfresh Hroot Hrun.
  destruct (connect_nodes_phase _ _ _ _ _ _ _ Hshape Hnd Hfresh Hroot Hrun)
    as (Hl & Hk & Hc & _).
  pose proof (linking_linking_inv _ _ _ _ Hl) as Hli.
  split_and!; [done | apply (li_settled _ _ _ _ Hli) | apply (li_connected _ _ _ _ Hli)
              | done | done].
Qed.

End linking_phase_facts.

(** A run on the school of five spells, without a shape, with the default
    branching energy and a replayed generator. *)
Definition school_builder : Builder TapeRandom :=
  {| cfg := cfg3; convergence_at_tier := 3; prefer_vanilla_roots := true;
     shape_name := "organic"; tree_generation := no_tree_generation;
     shape := None; group_manager := None |}.

Definition school_grouped : list (string * list Spell) :=
  [("fire", [{| formId := "R"; skillLevel := Some "Novice" |}]);
   ("frost", [{| formId := "M"; skillLevel := Some "Master" |};
              {| formId := "A"; skillLevel := Some "Apprentice" |};
              {| formId := "B"; skillLevel := Some "Apprentice" |};
              {| formId := "C"; skillLevel := Some "Apprentice" |}])].

Definition school_tape : TapeRandom :=
  {| tape_floats := [0.9%float; 0.1%float; 0.5%float; 0.7%float]; tape_ints := [1; 0] |}.

Lemma connect_nodes_linking_witness :
  ∃ st,
    _connect_nodes school_builder "R" school school_grouped
      (Some (BranchingEnergy.init BranchingEnergy.default_config)) school_tape = Ok st
    ∧ linking "R" (ls_nodes st) (ls_connected st) (ls_available st).
Proof.
  eexists. split; [vm_compute; reflexivity |].
  refine (proj1 (connect_nodes_linking school_builder "R" school school_grouped
                   (Some (BranchingEnergy.init BranchingEnergy.default_config))
                   school_tape _ _ _ _ _ _)).
  - by intros select_parent nodes node candidates p g1 g2 [=].
  - compute_done.
  - apply fresh_table_unlinked. repeat constructor.
  - compute_done.
  - vm_compute. reflexivity.
Defined.

(** ** [_connect_orphans] *)

Section connect_orphans.

(** [o.spell_data] of the node stored under a key, absent when the
    attribute is empty.  [core/node.py] is not among the sources; the
    attribute is a parameter here. *)
Variable spell_data : string → option Spell.

(** [[o.spell_data for o in orphans if o.spell_data]], where [orphans] are
    the nodes of the table that are not in [connected]. *)
Definition orphan_spells (nodes : NodeTable) (connected : gset string) : list Spell :=
  omap (λ e : string * TreeNode, spell_data e.1)
    (List.filter (λ e : string * TreeNode, negb (bool_decide (e.1 ∈ connected))) nodes).

(** The first search: a connected node with room at a lower depth, the
    first of those with the fewest children. *)
Definition fewest_children (max_children : Z) (nodes : NodeTable)
    (connected : gset string) (tier_depth : Z) : option TreeNode :=
  foldl (λ best (e : string * TreeNode),
           let node := e.2 in
           if bool_decide (form_id node ∈ connected)
              && (len (children node) <? max_children)%Z
              && (depth node <? tier_depth)%Z
           then
             match best with
             | None => Some node
             | Some b =>
                 if (len (children node) <? len (children b))%Z then Some node else best
             end
           else best)
    None nodes.

(** The second search: the first connected node with room at the nearest
    depth below, depth by depth. *)
Fixpoint nearest_below (max_children : Z) (nodes : NodeTable)
    (connected : gset string) (depths : list Z) : option TreeNode :=
  match depths with
  | [] => None
  | d :: depths' =>
      match List.find (λ e : string * TreeNode,
                         bool_decide (form_id e.2 ∈ connected)
                         && (depth e.2 =? d)%Z
                         && (len (children e.2) <? max_children)%Z) nodes with
      | Some e => Some e.2
      | None => nearest_below max_children nodes connected depths'
      end
  end.

(** The last search: the first connected node at a lower depth, whatever
    its number of children. *)
Definition any_below (nodes : NodeTable) (connected : gset string) (tier_depth : Z)
    : option TreeNode :=
  snd <$> List.find (λ e : string * TreeNode,
                       bool_decide (form_id e.2 ∈ connected)
                       && (depth e.2 <? tier_depth)%Z) nodes.

(** The parent that the loop body settles on, as a form id. *)
Definition orphan_parent (max_children : Z) (root_id : string) (nodes : NodeTable)
    (connected : gset string) (tier_depth : Z) : string :=
  let best := fewest_children max_children nodes connected tier_depth in
  let best :=
    match best with
    | Some b => Some b
    | None =>
        nearest_below max_children nodes connected
          (reverse (py_range 0 tier_depth))
    end in
  match best with
  | Some b => form_id b
  | None =>
      if (tier_depth <=? 1)%Z then root_id
      else
        match any_below nodes connected tier_depth with
        | Some b => form_id b
        | None => root_id
        end
  end.

Definition connect_orphan (max_children : Z) (root_id : string)
    (state : NodeTable * gset string) (orphan_spell : Spell)
    : result (NodeTable * gset string) :=
  let '(nodes, connected) := state in
  match PyDict.get nodes (formId orphan_spell) with
  | None => Raise (KeyError (formId orphan_spell))
  | Some orphan =>
      let tier_depth := _tier_to_depth (tier orphan) in
      let best := orphan_parent max_children root_id nodes connected tier_depth in
      Ok (link_nodes best (form_id orphan) nodes, {[form_id orphan]} ∪ connected)
  end.

(** [_connect_orphans(root, nodes)]; [root_id] is [root.form_id].  The walk
    that fills [connected] is the one of [_get_reachable_from_root]. *)
Definition _connect_orphans (cfg : TreeBuilderConfig) (root_id : string)
    (nodes : NodeTable) : result (NodeTable * gset string) :=
  let connected := default ∅ (bfs_reach (bfs_fuel nodes) nodes ∅ [root_id]) in
  foldM (connect_orphan (max_children_per_node cfg) root_id)
    (_sort_by_tier (orphan_spells nodes connected)) (nodes, connected).

End connect_orphans.

Section connect_orphans_facts.
Variable spell_data : string → option Spell.

(** The spell that a node keeps is the one it was made from. *)
Hypothesis spell_data_id : ∀ k s, spell_data k = Some s → formId s = k.

Lemma fewest_children_connected max_children nodes connected tier_depth b :
  fewest_children max_children nodes connected tier_depth = Some b →
  form_id b ∈ connected.
Proof using Type.
  unfold fewest_children.
  assert (∀ l (best : option TreeNode),
    (∀ b0, best = Some b0 → form_id b0 ∈ connected) →
    foldl (λ best (e : string * TreeNode),
             let node := e.2 in
             if bool_decide (form_id node ∈ connected)
                && (len (children node) <? max_children)%Z
                && (depth node <? tier_depth)%Z
             then
               match best with
               | None => Some node
               | Some b =>
                   if (len (children node) <? len (children b))%Z
                   then Some node else best
               end
             else best) best l = Some b →
    form_id b ∈ connected) as Hgen.
  { induction l as [| e l IH]; intros best Hbest; cbn [foldl].
    - apply Hbest.
    - apply IH. cbn zeta.
      destruct (bool_decide (form_id e.2 ∈ connected)) eqn:Hc; [| done].
      apply bool_decide_eq_true in Hc. cbn [andb].
      destruct (_ && _); [| done].
      destruct best as [b1 |]; [| by intros ? [= <-]].
      destruct (_ <? _)%Z; [by intros ? [= <-] | done]. }
  by apply Hgen.
Qed.

Lemma fewest_children_None max_children nodes connected tier_depth e :
  fewest_children max_children nodes connected tier_depth = None →
  e ∈ nodes →
  bool_decide (form_id e.2 ∈ connected)
  && (len (children e.2) <? max_children)%Z && (depth e.2 <? tier_depth)%Z = false.
Proof using Type.
  unfold fewest_children.
  assert (∀ l (best : option TreeNode),
    foldl (λ best (e : string * TreeNode),
             let node := e.2 in
             if bool_decide (form_id node ∈ connected)
                && (len (children node) <? max_children)%Z
                && (depth node <? tier_depth)%Z
             then
               match best with
               | None => Some node
               | Some b =>
                   if (len (children node) <? len (children b))%Z
                   then Some node else best
               end
             else best) best l = None →
    best = None
    ∧ ∀ e, e ∈ l →
           bool_decide (form_id e.2 ∈ connected)
           && (len (children e.2) <? max_children)%Z
           && (depth e.2 <? tier_depth)%Z = false) as Hgen.
  { induction l as [| e0 l IH]; intros best; cbn [foldl].
    - intros ->. split; [done |]. by intros ? ?%elem_of_nil.
    - intros Hfold. apply IH in Hfold as [Hbest Hl]. cbn zeta in Hbest.
      destruct (_ && _) eqn:Hcond.
      + destruct best as [b1 |]; [| done].
        by destruct (len (children e0.2) <? len (children b1))%Z.
      + split; [done |]. intros e' [-> | ?]%elem_of_cons; [done | by apply Hl]. }
  intros Hnone He. by apply (Hgen nodes None).
Qed.

Lemma nearest_below_connected max_children nodes connected depths b :
  nearest_below max_children nodes connected depths = Some b →
  form_id b ∈ connected.
Proof using Type.
  induction depths as [| d depths IH]; cbn [nearest_below]; [done |].
  destruct (List.find _ nodes) as [e |] eqn:Hfind; [| done].
  intros [= <-]. apply List.find_some in Hfind as [_ Hcond].
  apply andb_prop in Hcond as [Hcond _]. apply andb_prop in Hcond as [Hc _].
  by apply bool_decide_eq_true in Hc.
Qed.

Lemma any_below_connected nodes connected tier_depth b :
  any_below nodes connected tier_depth = Some b → form_id b ∈ connected.
Proof using Type.
  unfold any_below. destruct (List.find _ nodes) as [e |] eqn:Hfind; [| done].
  intros [= <-]. apply List.find_some in Hfind as [_ Hcond].
  apply andb_prop in Hcond as [Hc _]. by apply bool_decide_eq_true in Hc.
Qed.

Lemma orphan_parent_connected max_children root_id nodes connected tier_depth :
  root_id ∈ connected →
  orphan_parent max_children root_id nodes connected tier_depth ∈ connected.
Proof using Type.
  intros Hroot. unfold orphan_parent.
  destruct (fewest_children _ _ _ _) as [b |] eqn:Hfew.
  { by eapply fewest_children_connected. }
  destruct (nearest_below _ _ _ _) as [b |] eqn:Hnear.
  { by eapply nearest_below_connected. }
  destruct (_ <=? _)%Z; [done |].
  destruct (any_below _ _ _) as [b |] eqn:Hany; [| done].
  by eapply any_below_connected.
Qed.

(** The second search of [_connect_orphans] runs only when the first found
    nothing, and then it finds nothing either: a connected node with room at
    a depth from [tier_depth - 1] down to 0 would have passed the first
    test. *)
Theorem orphan_second_search_finds_nothing max_children nodes connected tier_depth :
  fewest_children max_children nodes connected tier_depth = None →
  nearest_below max_children nodes connected (reverse (py_range 0 tier_depth)) = None.
Proof using Type.
  intros Hnone.
  assert (∀ depths, (∀ d, d ∈ depths → d < tier_depth) →
                    nearest_below max_children nodes connected depths = None) as Hgen.
  { induction depths as [| d depths IH]; intros Hd; cbn [nearest_below]; [done |].
    destruct (List.find _ nodes) as [e |] eqn:Hfind.
    - exfalso. apply List.find_some in Hfind as [He Hcond].
      apply list_elem_of_In in He.
      pose proof (fewest_children_None _ _ _ _ _ Hnone He) as Hfirst.
      apply andb_prop in Hcond as [Hcond Hroom]. apply andb_prop in Hcond as [Hc Hdep].
      apply Z.eqb_eq in Hdep. rewrite Hc, Hroom in Hfirst. cbn [andb] in Hfirst.
      apply Z.ltb_ge in Hfirst. specialize (Hd d ltac:(left)). lia.
    - apply IH. intros d' Hd'. apply Hd. by right. }
  apply Hgen. intros d Hd. rewrite elem_of_reverse in Hd.
  unfold py_range in Hd. apply elem_of_seqZ in Hd. lia.
Qed.

Lemma orphan_spells_ids nodes connected :
  formId <$> orphan_spells spell_data nodes connected `sublist_of` PyDict.keys nodes.
Proof using spell_data_id.
  unfold orphan_spells, PyDict.keys.
  induction nodes as [| [k n] nodes IH]; cbn [List.filter fmap list_fmap omap list_omap];
    [done |].
  destruct (negb _); cbn [omap list_omap fst].
  - destruct (spell_data k) as [s |] eqn:Hs; cbn [fmap list_fmap].
    + rewrite (spell_data_id _ _ Hs). by apply sublist_skip.
    + by apply sublist_cons.
  - by apply sublist_cons.
Qed.

Lemma elem_of_orphan_spells nodes connected s :
  s ∈ orphan_spells spell_data nodes connected ↔
  ∃ n, (formId s, n) ∈ nodes ∧ (formId s ∉ connected)
       ∧ spell_data (formId s) = Some s.
Proof using spell_data_id.
  unfold orphan_spells. rewrite list_elem_of_omap. split.
  - intros ([k n] & [Hin Hc]%elem_of_list_filter & Hs). cbn [fst] in *.
    pose proof (spell_data_id _ _ Hs) as <-.
    exists n. split_and!; [done | | done].
    apply negb_true_iff in Hc. by apply bool_decide_eq_false in Hc.
  - intros (n & Hin & Hc & Hs). exists (formId s, n). split; [| done].
    apply elem_of_list_filter. split; [done |]. cbn [fst].
    by rewrite bool_decide_eq_false_2.
Qed.

Lemma connect_orphans_loop max_children root_id available spells :
  ∀ nodes connected,
    linking root_id nodes connected available → keyed nodes →
    NoDup (formId <$> spells) →
    (∀ s, s ∈ spells → has nodes (formId s) ∧ formId s ∉ connected) →
    ∃ nodes' connected',
      foldM (connect_orphan max_children root_id) spells (nodes, connected)
      = Ok (nodes', connected')
      ∧ linking root_id nodes' connected' available
      ∧ keyed nodes'
      ∧ PyDict.keys nodes' = PyDict.keys nodes
      ∧ ∀ k, k ∈ connected' ↔ k ∈ connected ∨ k ∈ formId <$> spells.
Proof using Type.
  induction spells as [| s spells IH]; intros nodes connected Hl Hkeyed Hnd Hs.
  - exists nodes, connected. split_and!; [done | done | done | done |].
    intros k. split; [by left | by intros [? | ?%elem_of_nil]].
  - cbn [foldM connect_orphan].
    destruct (Hs s ltac:(left)) as [[orphan Hg] Hc]. rewrite Hg.
    cbn [mbind result_mbind result_bind].
    rewrite (Hkeyed _ _ Hg).
    set (best := orphan_parent _ _ _ _ _).
    assert (root_id ∈ connected) as Hroot
      by (apply (li_connected _ _ _ _ (linking_linking_inv _ _ _ _ Hl)); done).
    apply NoDup_cons in Hnd as [Hnotin Hnd].
    destruct (IH (link_nodes best (formId s) nodes) ({[formId s]} ∪ connected))
      as (nodes' & connected' & Hfold & Hl' & Hkeyed' & Hkeys' & Hconn').
    + apply linking_link; [done | | by eexists | done].
      by apply orphan_parent_connected.
    + by apply keyed_link_nodes.
    + done.
    + intros s' Hs'. destruct (Hs s' ltac:(by right)) as [Hhas Hc'].
      split.
      * apply has_keys. rewrite keys_link_nodes. by apply has_keys.
      * intros [Heq%elem_of_singleton | ?]%elem_of_union; [| done].
        apply Hnotin. rewrite <- Heq. by apply list_elem_of_fmap_2.
    + exists nodes', connected'. split_and!; [done | done | done | |].
      * by rewrite Hkeys', keys_link_nodes.
      * intros k. rewrite Hconn', elem_of_union, elem_of_singleton.
        cbn [fmap list_fmap]. rewrite elem_of_cons. tauto.
Qed.

Lemma connect_orphans_phase cfg root_id nodes connected available :
  linking root_id nodes connected available →
  keyed nodes →
  ∃ nodes' connected',
    _connect_orphans spell_data cfg root_id nodes = Ok (nodes', connected')
    ∧ linking root_id nodes' connected' available
    ∧ keyed nodes'
    ∧ PyDict.keys nodes' = PyDict.keys nodes
    ∧ (∀ k, k ∈ connected' ↔ rtc (child_edge nodes') root_id k)
    ∧ (∀ k, has nodes k → is_Some (spell_data k) → k ∈ connected').
Proof using spell_data_id.
  intros Hl Hkeyed. unfold _connect_orphans.
  fold (_get_reachable_from_root nodes root_id).
  set (connected0 := _get_reachable_from_root nodes root_id).
  pose proof (linking_orphans _ _ _ _ Hl) as Hl0. fold connected0 in Hl0.
  pose proof (linked_keys _ (inv_linked _ _ (st_build _ _ (linking_settled _ _ _ _ Hl))))
    as Hnd.
  assert (formId <$> _sort_by_tier (orphan_spells spell_data nodes connected0)
          ≡ₚ formId <$> orphan_spells spell_data nodes connected0) as Hperm.
  { apply fmap_Permutation. unfold _sort_by_tier. apply sorted_by_Permutation. }
  destruct (connect_orphans_loop (max_children_per_node cfg) root_id available
              (_sort_by_tier (orphan_spells spell_data nodes connected0))
              nodes connected0 Hl0 Hkeyed)
    as (nodes' & connected' & Hfold & Hl' & Hkeyed' & Hkeys' & Hconn').
  - rewrite Hperm. eapply sublist_NoDup; [done | apply orphan_spells_ids].
  - intros s Hs%sort_by_tier_elem_of%elem_of_orphan_spells.
    destruct Hs as (n & Hin & Hc & _). split; [| done].
    apply has_keys, list_elem_of_fmap. by exists (formId s, n).
  - exists nodes', connected'. split_and!; [done | done | done | done | |].
    + apply (li_connected _ _ _ _ (linking_linking_inv _ _ _ _ Hl')).
    + intros k [n Hg] [s Hs]. apply Hconn'.
      destruct (decide (k ∈ connected0)) as [Hk | Hk]; [by left | right].
      rewrite Hperm. apply list_elem_of_fmap. exists s.
      pose proof (spell_data_id _ _ Hs) as Hid. split; [done |].
      apply elem_of_orphan_spells. rewrite Hid. exists n.
      split_and!; [by apply PyDict.get_Some_elem_of | done | done].
Qed.


(** [_connect_orphans] on a state of the linking phase does not raise and
    ends in a state of the linking phase; the table keeps its keys,
    [connected] is the set of nodes that the root reaches, and every node
    that keeps its spell is then in it. *)
Theorem connect_orphans_linking cfg root_id nodes connected available :
  linking root_id nodes connected available →
  keyed nodes →
  ∃ nodes' connected',
    _connect_orphans spell_data cfg root_id nodes = Ok (nodes', connected')
    ∧ linking root_id nodes' connected' available
    ∧ PyDict.keys nodes' = PyDict.keys nodes
    ∧ (∀ k, k ∈ connected' ↔ rtc (child_edge nodes') root_id k)
    ∧ (∀ k, has nodes k → is_Some (spell_data k) → k ∈ connected').
Proof using spell_data_id.
  intros Hl Hkeyed.
  destruct (connect_orphans_phase cfg root_id nodes connected available Hl Hkeyed)
    as (nodes' & connected' & Hrun & Hl' & _ & Hkeys & Hconn & Hall).
  by exists nodes', connected'.
Qed.

End connect_orphans_facts.

(** ** [_build_school_tree] *)

Definition set_is_root (b : bool) (n : TreeNode) : TreeNode :=
  {| form_id := form_id n; name := name n; tier := tier n; theme := theme n;
     depth := depth n; is_root := b; position := position n;
     children := children n; prerequisites := prerequisites n |}.

(** [root_id] unless [not root_id or root_id not in nodes]; the empty
    string counts as no root. *)
Definition valid_root (nodes : NodeTable) (root_id : option string) : option string :=
  match root_id with
  | Some r => if nonempty r && PyDict.has nodes r then Some r else None
  | None => None
  end.

Definition choose_root (prefer_vanilla : bool) (school_name : string)
    (spells : list Spell) (nodes : NodeTable) : option string :=
  match valid_root nodes (_select_root prefer_vanilla school_name spells) with
  | Some r => Some r
  | None => valid_root nodes (_find_lowest_tier_spell spells)
  end.

(** The dictionary that a school build returns; [out_nodes] is the table
    whose nodes the source serialises with [to_dict]. *)
Record SchoolTree : Type := {
  out_root : string;
  out_layoutStyle : string;
  out_nodes : NodeTable
}.

Section build_school_tree.
Context {G : Type} `{PyRandom G} `{SetOrder}.
Variable spell_data : string → option Spell.

(** [_build_school_tree(school_name, spells, themes)].  The loop that
    creates the nodes and the grouping call functions of modules that are not
    among the sources ([TreeNode.from_spell], [get_spell_primary_theme],
    [group_spells_best_fit]); their results, the table [nodes] and the
    dictionary [grouped], are arguments here.  The function returns the
    tree, or [None], together with [self.branching] and the generator as it
    leaves them. *)
Definition _build_school_tree (self : Builder G) (school_name : string)
    (spells : list Spell) (nodes : NodeTable) (grouped : list (string * list Spell))
    (branching : option BranchingEnergy.BranchingEnergy) (g : G)
    : result (option SchoolTree * option BranchingEnergy.BranchingEnergy * G) :=
  match spells with
  | [] => Ok (None, branching, g)
  | _ :: _ =>
      let branching := BranchingEnergy.reset <$> branching in
      match choose_root (prefer_vanilla_roots self) school_name spells nodes with
      | None => Ok (None, branching, g)
      | Some root_id =>
          let nodes :=
            PyDict.update nodes root_id (λ root, set_is_root true (set_depth 0 root)) in
          let branching :=
            (λ b, BranchingEnergy.start_path b root_id) <$> branching in
          st ← _connect_nodes self root_id nodes grouped branching g;
          '(nodes, _) ← _connect_orphans spell_data (cfg self) root_id (ls_nodes st);
          let nodes := _enforce_high_tier_convergence nodes root_id in
          let nodes := (_ensure_all_reachable (cfg self) nodes root_id).1 in
          let layout_style :=
            if decide (shape_name self ≠ "organic") then shape_name self
            else "radial" in
          Ok (Some {| out_root := root_id; out_layoutStyle := layout_style;
                      out_nodes := nodes |},
              ls_branching st, ls_random st)
      end
  end.

Hypothesis spell_data_id : ∀ k s, spell_data k = Some s → formId s = k.

Lemma valid_root_has nodes root_id r :
  valid_root nodes root_id = Some r → r ≠ "" ∧ has nodes r ∧ root_id = Some r.
Proof using Type.
  unfold valid_root. destruct root_id as [r' |]; [| done].
  destruct (nonempty r') eqn:Hne; [| done]. cbn [andb].
  destruct (PyDict.has nodes r') eqn:Hhas; [| done]. intros [= <-].
  split_and!; [| by apply bool_decide_eq_true in Hhas | done].
  unfold nonempty in Hne. apply negb_true_iff in Hne.
  by apply bool_decide_eq_false in Hne.
Qed.

(** A tree that [_build_school_tree] returns, for a table without links
    that is keyed by form id and without duplicate keys: its root is a key
    of the table and the id of one of the spells; the table has kept its
    keys; every node can be unlocked from the root; the links are
    consistent in both directions and free of cycles, and the root has no
    prerequisite. *)
Theorem build_school_tree_sound (self : Builder G) school_name spells nodes grouped
    branching (g : G) tree branching' g' :
  shape_sound (shape self) →
  NoDup (PyDict.keys nodes) →
  (∀ k, chs nodes k = [] ∧ prs nodes k = []) →
  keyed nodes →
  _build_school_tree self school_name spells nodes grouped branching g
  = Ok (Some tree, branching', g') →
  has nodes (out_root tree)
  ∧ out_root tree ∈ formId <$> spells
  ∧ PyDict.keys (out_nodes tree) = PyDict.keys nodes
  ∧ (∀ fid, fid ∈ PyDict.keys (out_nodes tree) →
            fid ∈ _simulate_unlocks (out_nodes tree) (out_root tree))
  ∧ acyclic (out_nodes tree)
  ∧ consistent (out_nodes tree)
  ∧ prs (out_nodes tree) (out_root tree) = [].
Proof using spell_data_id.
  intros Hshape Hnd Hfresh Hkeyed. unfold _build_school_tree.
  destruct spells as [| s0 spells']; [done |].
  set (spells := s0 :: spells').
  destruct (choose_root _ _ _ _) as [root_id |] eqn:Hroot; [| done].
  assert (has nodes root_id ∧ root_id ∈ formId <$> spells) as [Hhas Hspell].
  { unfold choose_root in Hroot.
    destruct (valid_root nodes (_select_root _ _ _)) as [r |] eqn:Hsel.
    - injection Hroot as ->. apply valid_root_has in Hsel as (_ & ? & Hsel).
      split; [done |]. by eapply select_root_elem_of.
    - apply valid_root_has in Hroot as (_ & ? & Hlow). split; [done |].
      by apply find_lowest_tier_spell_elem_of. }
  set (nodes0 := PyDict.update nodes root_id _).
  destruct (_connect_nodes self root_id nodes0 grouped _ g) as [st |] eqn:Hconnect;
    cbn [mbind result_mbind result_bind]; [| done].
  assert (keyed nodes0) as Hkeyed0 by (by apply keyed_update).
  assert (phase_inv root_id (PyDict.keys nodes0) (grouped_id grouped) (keyed nodes0) st)
    as (Hl & Hkeys & _ & Hkeyed1).
  { eapply connect_nodes_phase; [done | | | | exact Hconnect].
    - subst nodes0. by rewrite PyDict.keys_update.
    - intros k. subst nodes0. rewrite chs_update_same, prs_update_same by done.
      apply Hfresh.
    - subst nodes0. by apply has_update. }
  destruct (connect_orphans_phase spell_data spell_data_id (cfg self) root_id
              (ls_nodes st) _ _ Hl (Hkeyed1 Hkeyed0))
    as (nodes1 & connected1 & -> & Hl1 & _ & Hkeys1 & _).
  cbn [mbind result_mbind result_bind]. intros [= <- _ _].
  cbn [out_root out_nodes].
  pose proof (enforce_settled _ _ (linking_settled _ _ _ _ Hl1)) as Hst.
  pose proof (settled_repair_exit (cfg self) _ _ 9 Hst) as Hexit.
  change (S 9) with max_passes in Hexit.
  pose proof (ensure_all_reachable_build_inv (cfg self) _ _ (st_build _ _ Hst)) as Hinv.
  pose proof (linked_keys _ (inv_linked _ _ (st_build _ _ Hst))) as Hnd2.
  split_and!.
  - done.
  - done.
  - unfold _ensure_all_reachable.
    rewrite keys_repair_passes, keys_enforce, Hkeys1, Hkeys.
    subst nodes0. by rewrite PyDict.keys_update.
  - unfold _ensure_all_reachable in *.
    destruct (repair_passes (cfg self) max_passes _ root_id) as [final exit] eqn:Hrep.
    by eapply repair_passes_reach.
  - apply (inv_acyclic _ _ Hinv).
  - apply (linked_consistent _ (inv_linked _ _ Hinv)).
  - apply (inv_root _ _ Hinv).
Qed.

End build_school_tree.

(** *** Determinism *)

(** C5: two builds of a school from the same spells, the same table and
    grouping, the same configuration and the same state of the random
    generator return the same tree, the same branching state and the same
    generator state, whatever the order in which each of the two processes
    iterates over its sets.  Every draw of the build is taken from the
    generator that is passed along; the only other thing a run reads is the
    iteration order of the set of unlocked nodes in the repair, and on the
    table that the linking phase leaves the repair never gets to it. *)
Theorem build_deterministic {G : Type} `{PyRandom G} (order1 order2 : SetOrder)
    (spell_data : string → option Spell) (self : Builder G) school_name spells
    nodes grouped branching (g : G) :
  (∀ k s, spell_data k = Some s → formId s = k) →
  shape_sound (shape self) →
  NoDup (PyDict.keys nodes) →
  (∀ k, chs nodes k = [] ∧ prs nodes k = []) →
  keyed nodes →
  @_build_school_tree G _ order1 spell_data self school_name spells nodes grouped
    branching g
  = @_build_school_tree G _ order2 spell_data self school_name spells nodes grouped
      branching g.
Proof.
  intros spell_data_id Hshape Hnd Hfresh Hkeyed. unfold _build_school_tree.
  destruct spells as [| s0 spells']; [done |].
  set (spells := s0 :: spells').
  destruct (choose_root _ _ _ _) as [root_id |] eqn:Hroot; [| done].
  assert (has nodes root_id) as Hhas.
  { unfold choose_root in Hroot.
    destruct (valid_root nodes (_select_root _ _ _)) as [r |] eqn:Hsel.
    - injection Hroot as ->. by apply valid_root_has in Hsel as (_ & ? & _).
    - by apply valid_root_has in Hroot as (_ & ? & _). }
  set (nodes0 := PyDict.update nodes root_id _).
  destruct (_connect_nodes self root_id nodes0 grouped _ g) as [st |] eqn:Hconnect;
    cbn [mbind result_mbind result_bind]; [| done].
  assert (keyed nodes0) as Hkeyed0 by (by apply keyed_update).
  assert (phase_inv root_id (PyDict.keys nodes0) (grouped_id grouped) (keyed nodes0) st)
    as (Hl & _ & _ & Hkeyed1).
  { eapply connect_nodes_phase; [done | | | | exact Hconnect].
    - subst nodes0. by rewrite PyDict.keys_update.
    - intros k. subst nodes0. rewrite chs_update_same, prs_update_same by done.
      apply Hfresh.
    - subst nodes0. by apply has_update. }
  destruct (connect_orphans_phase spell_data spell_data_id (cfg self) root_id
              (ls_nodes st) _ _ Hl (Hkeyed1 Hkeyed0))
    as (nodes1 & connected1 & -> & Hl1 & _).
  cbn [mbind result_mbind result_bind].
  pose proof (finish_build_order_independent order1 order2 (cfg self) _ _ _ _ Hl1)
    as Hfinish.
  unfold finish_build in Hfinish. by rewrite Hfinish.
Qed.

(** *** The school of five spells, built *)

Definition school_spells : list Spell :=
  [{| formId := "R"; skillLevel := Some "Novice" |};
   {| formId := "A"; skillLevel := Some "Apprentice" |};
   {| formId := "B"; skillLevel := Some "Apprentice" |};
   {| formId := "C"; skillLevel := Some "Apprentice" |};
   {| formId := "M"; skillLevel := Some "Master" |}].

(** Every node keeps the spell it was made from. *)
Definition school_spell_data (k : string) : option Spell :=
  List.find (λ s, bool_decide (formId s = k)) school_spells.

Lemma school_spell_data_id k s : school_spell_data k = Some s → formId s = k.
Proof.
  intros Hfind. apply List.find_some in Hfind as [_ Hk].
  by apply bool_decide_eq_true in Hk.
Qed.

Lemma keyed_Forall (nodes : NodeTable) :
  Forall (λ e, form_id e.2 = e.1) nodes → keyed nodes.
Proof.
  intros Hall k n Hg. apply PyDict.get_Some_elem_of in Hg.
  by apply (proj1 (Forall_forall _ _) Hall (k, n)).
Qed.

Lemma school_keyed : keyed school.
Proof. apply keyed_Forall. repeat constructor. Qed.

(** The grouping leaves out the spell C, which [_connect_orphans] then
    attaches. *)
Definition school_grouped_without_C : list (string * list Spell) :=
  [("fire", [{| formId := "R"; skillLevel := Some "Novice" |}]);
   ("frost", [{| formId := "M"; skillLevel := Some "Master" |};
              {| formId := "A"; skillLevel := Some "Apprentice" |};
              {| formId := "B"; skillLevel := Some "Apprentice" |}])].

Lemma orphan_second_search_finds_nothing_witness :
  nearest_below 3 linked_school {["R"]} (reverse (py_range 0 1)) = None.
Proof.
  apply (orphan_second_search_finds_nothing 3 linked_school {["R"]} 1).
  vm_compute. reflexivity.
Defined.

Lemma connect_orphans_linking_witness :
  ∃ nodes' connected',
    _connect_orphans school_spell_data cfg3 "R" sparse_school = Ok (nodes', connected')
    ∧ "C" ∈ connected'.
Proof.
  destruct (connect_orphans_linking school_spell_data school_spell_data_id cfg3 "R"
              sparse_school _ _ sparse_school_linking)
    as (nodes' & connected' & Hrun & _ & _ & _ & Hall).
  { unfold sparse_school. do 3 apply keyed_link_nodes. apply school_keyed. }
  exists nodes', connected'. split; [done |].
  apply Hall; [compute_done | by eexists].
Defined.

Lemma build_school_tree_sound_witness :
  ∃ tree branching g,
    _build_school_tree school_spell_data school_builder "Destruction" school_spells
      school school_grouped_without_C
      (Some (BranchingEnergy.init BranchingEnergy.default_config)) school_tape
    = Ok (Some tree, branching, g)
    ∧ ∀ fid, fid ∈ PyDict.keys (out_nodes tree) →
             fid ∈ _simulate_unlocks (out_nodes tree) (out_root tree).
Proof.
  eexists _, _, _. split; [vm_compute; reflexivity |].
  refine (proj1 (proj2 (proj2 (proj2
    (build_school_tree_sound school_spell_data school_spell_data_id school_builder
       "Destruction" school_spells school school_grouped_without_C
       (Some (BranchingEnergy.init BranchingEnergy.default_config)) school_tape
       _ _ _ _ _ _ _ _))))).
  - by intros select_parent nodes node candidates p g1 g2 [=].
  - compute_done.
  - apply fresh_table_unlinked. repeat constructor.
  - apply school_keyed.
  - vm_compute. reflexivity.
Defined.

(** The statement is about the build, not about its parts: on a table that
    no build produces, where the locked pair P, U can go under either of
    two nodes of the same depth, the repair follows the iteration order of
    the set. *)
Definition twin_parents : NodeTable :=
  [("R", locked_node "R" 0 ["X"; "Y"] []);
   ("X", locked_node "X" 1 [] ["R"]);
   ("Y", locked_node "Y" 1 [] ["R"]);
   ("P", locked_node "P" 1 ["U"] ["U"]);
   ("U", locked_node "U" 2 ["P"] ["P"])].

Lemma repair_follows_set_order :
  prs (@_ensure_all_reachable elements_order
         {| max_children_per_node := 2; convergence_chance := 0 |} twin_parents "R").1 "P"
  = ["Y"]
  ∧ prs (@_ensure_all_reachable reversed_order
           {| max_children_per_node := 2; convergence_chance := 0 |} twin_parents "R").1 "P"
    = ["X"].
Proof. split; vm_compute; reflexivity. Qed.

Lemma build_deterministic_witness :
  @_build_school_tree TapeRandom _ elements_order school_spell_data school_builder
    "Destruction" school_spells school school_grouped_without_C
    (Some (BranchingEnergy.init BranchingEnergy.default_config)) school_tape
  = @_build_school_tree TapeRandom _ reversed_order school_spell_data school_builder
      "Destruction" school_spells school school_grouped_without_C
      (Some (BranchingEnergy.init BranchingEnergy.default_config)) school_tape.
Proof.
  apply (build_deterministic elements_order reversed_order school_spell_data
           school_builder "Destruction" school_spells school school_grouped_without_C
           (Some (BranchingEnergy.init BranchingEnergy.default_config)) school_tape).
  - apply school_spell_data_id.
  - by intros select_parent nodes node candidates p g1 g2 [=].
  - compute_done.
  - apply fresh_table_unlinked. repeat constructor.
  - apply school_keyed.
Defined.

(** *** A school of seven spells: capacity

    A Novice root of theme fire, three Apprentice and three Master spells
    of theme frost, built with the default [max_children_per_node = 3]. *)
Definition academy_spells : list Spell :=
  [{| formId := "R"; skillLevel := Some "Novice" |};
   {| formId := "A"; skillLevel := Some "Apprentice" |};
   {| formId := "B"; skillLevel := Some "Apprentice" |};
   {| formId := "C"; skillLevel := Some "Apprentice" |};
   {| formId := "M"; skillLevel := Some "Master" |};
   {| formId := "N"; skillLevel := Some "Master" |};
   {| formId := "O"; skillLevel := Some "Master" |}].

Definition academy : NodeTable :=
  [("R", fresh_node "R" "Novice" "fire");
   ("A", fresh_node "A" "Apprentice" "frost");
   ("B", fresh_node "B" "Apprentice" "frost");
   ("C", fresh_node "C" "Apprentice" "frost");
   ("M", fresh_node "M" "Master" "frost");
   ("N", fresh_node "N" "Master" "frost");
   ("O", fresh_node "O" "Master" "frost")].

Definition academy_grouped : list (string * list Spell) :=
  [("fire", [{| formId := "R"; skillLevel := Some "Novice" |}]);
   ("frost", [{| formId := "A"; skillLevel := Some "Apprentice" |};
              {| formId := "B"; skillLevel := Some "Apprentice" |};
              {| formId := "C"; skillLevel := Some "Apprentice" |};
              {| formId := "M"; skillLevel := Some "Master" |};
              {| formId := "N"; skillLevel := Some "Master" |};
              {| formId := "O"; skillLevel := Some "Master" |}])].

Definition academy_spell_data (k : string) : option Spell :=
  List.find (λ s, bool_decide (formId s = k)) academy_spells.

(** The table as [_build_school_tree] hands it to the linking phase. *)
Definition academy_rooted : NodeTable :=
  PyDict.update academy "R" (λ root, set_is_root true (set_depth 0 root)).

Definition academy_branching : option BranchingEnergy.BranchingEnergy :=
  Some (BranchingEnergy.start_path
          (BranchingEnergy.reset (BranchingEnergy.init BranchingEnergy.default_config))
          "R").

(** C2: the bound [len(children) <= max_children_per_node] is what the
    module promises (its docstring: max 3 children per node) and what
    [_find_parent], [_connect_orphans], the rewiring of the repair and the
    convergence step of [test_rulesets.py] ([add_convergence]) test before
    they add a child.  Neither convergence pass of the builder tests it, so
    the code breaks the bound that the claim states: the build of the school
    of seven spells returns a tree whose root has four children.
    [_find_parent] gives the root the single child A; each Master spell is
    linked under its parent (its first prerequisite) and then gets the root
    as a second prerequisite from [_maybe_add_convergence], whatever the
    number of children the root has by then. *)
Theorem build_exceeds_capacity :
  ∃ tree branching g st,
    _build_school_tree academy_spell_data school_builder "Destruction" academy_spells
      academy academy_grouped
      (Some (BranchingEnergy.init BranchingEnergy.default_config)) school_tape
    = Ok (Some tree, branching, g)
    ∧ max_children_per_node (cfg school_builder) = 3
    ∧ out_root tree = "R"
    ∧ chs (out_nodes tree) "R" = ["A"; "M"; "N"; "O"]
    ∧ ¬ within_capacity (cfg school_builder) (out_nodes tree) (out_root tree)
    ∧ _connect_nodes school_builder "R" academy_rooted academy_grouped
        academy_branching school_tape = Ok st
    ∧ chs (ls_nodes st) "R" = ["A"; "M"; "N"; "O"]
    ∧ prs (ls_nodes st) "A" = ["R"]
    ∧ prs (ls_nodes st) "M" = ["B"; "R"]
    ∧ prs (ls_nodes st) "N" = ["C"; "R"]
    ∧ prs (ls_nodes st) "O" = ["M"; "R"].
Proof.
  eexists _, _, _, _.
  split; [vm_compute; reflexivity |].
  split; [reflexivity |].
  split; [reflexivity |].
  split; [vm_compute; reflexivity |].
  split; [compute_done |].
  split; [vm_compute; reflexivity |].
  split_and!; vm_compute; reflexivity.
Qed.

End TreeBuilder.
